(** * A shallow embedding of the term-e-ditor namespace engine

    Sources covered: the tree module (classes [TreeNode] and
    [TreeStructure]) and [src/js/vfs.js] (class [VirtualFileSystem]).

    JavaScript objects have identity and are mutated in place, so nodes live
    in a store ([heap]) and are referred to by their index ([id]).  Every
    method becomes a function in a state-and-exception monad over the whole
    engine state; a thrown exception keeps the state reached so far, just as
    a JavaScript [throw] does not undo earlier assignments. *)

From Stdlib Require Import String Ascii Bool Arith Lia DecimalString Sorted.
From stdpp Require Import base option list strings.

Local Open Scope string_scope.
Local Open Scope list_scope.

(** ** Strings

    A string is a sequence of code units.  The model covers the code units
    0..255 (Latin-1), which is enough for every path and pattern character
    the engine inspects ('/', '.', '*'). *)

Definition slash : ascii := "/"%char.
Definition dot : ascii := "."%char.
Definition star : ascii := "*"%char.

(** [s.split(sep)] for a one-character separator: never returns an empty
    array, [("").split("/")] is [[""]]. *)
Fixpoint js_split (sep : ascii) (s : string) : list string :=
  match s with
  | EmptyString => [EmptyString]
  | String c s' =>
      if Ascii.eqb c sep then EmptyString :: js_split sep s'
      else match js_split sep s' with
           | [] => [String c EmptyString]
           | x :: xs => String c x :: xs
           end
  end.

(** [l.join(sep)] *)
Fixpoint js_join (sep : string) (l : list string) : string :=
  match l with
  | [] => EmptyString
  | [x] => x
  | x :: xs => x +:+ sep +:+ js_join sep xs
  end.

(** Truthiness of a string: [Boolean(s)], [!s] is its negation. *)
Definition truthy_str (s : string) : bool := negb (String.eqb s "").

(** [s.startsWith(p)] *)
Definition startsWith (s p : string) : bool := String.prefix p s.

(** [s.indexOf(c) !== -1] for a single character. *)
Fixpoint contains_char (c : ascii) (s : string) : bool :=
  match s with
  | EmptyString => false
  | String d s' => Ascii.eqb d c || contains_char c s'
  end.

(** [path.replace(/\/+$/g, "")]: drop the run of slashes at the end. *)
Fixpoint strip_trailing_slashes (s : string) : string :=
  match s with
  | EmptyString => EmptyString
  | String c s' =>
      match strip_trailing_slashes s' with
      | EmptyString => if Ascii.eqb c slash then EmptyString else String c EmptyString
      | r => String c r
      end
  end.

(** [new Blob([s]).size]: the length of the UTF-8 encoding.  A code unit
    below 128 takes one byte, one in 128..255 takes two. *)
Fixpoint blob_size (s : string) : nat :=
  match s with
  | EmptyString => 0
  | String c s' => (if Nat.ltb (nat_of_ascii c) 128 then 1 else 2) + blob_size s'
  end.

(** ** JavaScript [Map] with string keys

    A [Map] remembers insertion order ([keys().next()] is the oldest key),
    so it is an association list kept free of duplicate keys by [map_set]. *)

Section JsMap.
Context {V : Type}.

Definition jsmap := list (string * V).

Fixpoint map_get (k : string) (m : jsmap) : option V :=
  match m with
  | [] => None
  | (k', v) :: m' => if String.eqb k k' then Some v else map_get k m'
  end.

Definition map_has (k : string) (m : jsmap) : bool :=
  match map_get k m with Some _ => true | None => false end.

(** [m.set(k, v)]: an existing key keeps its position. *)
Fixpoint map_set (k : string) (v : V) (m : jsmap) : jsmap :=
  match m with
  | [] => [(k, v)]
  | (k', v') :: m' =>
      if String.eqb k k' then (k, v) :: m' else (k', v') :: map_set k v m'
  end.

Fixpoint map_delete (k : string) (m : jsmap) : jsmap :=
  match m with
  | [] => []
  | (k', v') :: m' =>
      if String.eqb k k' then map_delete k m' else (k', v') :: map_delete k m'
  end.

Definition map_size (m : jsmap) : nat := length m.

(** [m.keys().next().value] *)
Definition map_first_key (m : jsmap) : option string :=
  match m with [] => None | (k, _) :: _ => Some k end.
End JsMap.
Arguments jsmap : clear implicits.

(** ** Values and nodes *)

(** JSON-like values stored in a node's property bag. *)
#[warnings="-register-all"]
Inductive jsval : Type :=
| VUndef
| VNull
| VBool (b : bool)
| VNum (n : nat)
| VStr (s : string)
| VArr (l : list jsval)
| VObj (fields : list (string * jsval)).

(** [Boolean(v)] *)
Definition truthy (v : jsval) : bool :=
  match v with
  | VUndef | VNull => false
  | VBool b => b
  | VNum n => negb (Nat.eqb n 0)
  | VStr s => truthy_str s
  | VArr _ | VObj _ => true
  end.

(** [v === "s"] for a string literal. *)
Definition is_str (v : jsval) (s : string) : bool :=
  match v with VStr t => String.eqb t s | _ => false end.

(** A reference to a node object: its index in the store. *)
Abbreviation id := nat (only parsing).

(** A [TreeNode] object.  [key], [parent], [children] and [_childrenMap] are
    the slots the constructor creates; [props] holds every other own property
    ([Object.assign(this, properties)]).  A property bag that names one of the
    four slots would overwrite it in JavaScript; such bags are outside the
    model. *)
Record TreeNode : Type := mkNode {
  key : string;
  parent : option id;
  children : list id;
  _childrenMap : jsmap id;
  props : list (string * jsval)
}.

(** Reading a property that is absent gives [undefined]. *)
Definition prop (name : string) (n : TreeNode) : jsval :=
  match map_get name (props n) with Some v => v | None => VUndef end.

Definition set_key (k : string) (n : TreeNode) : TreeNode :=
  mkNode k (parent n) (children n) (_childrenMap n) (props n).
Definition set_parent (p : option id) (n : TreeNode) : TreeNode :=
  mkNode (key n) p (children n) (_childrenMap n) (props n).
Definition set_children (c : list id) (n : TreeNode) : TreeNode :=
  mkNode (key n) (parent n) c (_childrenMap n) (props n).
Definition set_childrenMap (m : jsmap id) (n : TreeNode) : TreeNode :=
  mkNode (key n) (parent n) (children n) m (props n).
Definition set_prop (name : string) (v : jsval) (n : TreeNode) : TreeNode :=
  mkNode (key n) (parent n) (children n) (_childrenMap n) (map_set name v (props n)).

(** [new TreeNode(key, properties)] *)
Definition new_TreeNode (k : string) (properties : list (string * jsval)) : TreeNode :=
  mkNode k None [] [] properties.

(** The object store: node [i] is [heap !! i]; allocation appends. *)
Abbreviation heap := (list TreeNode) (only parsing).

(** ** Engine state and the monad *)

(** The fields of [VirtualFileSystem] (with [tree.root] inlined) and the
    part of the environment the engine reads: [clock] is what [getDate()]
    returns. *)
Record vfs : Type := mkVfs {
  nodes : heap;
  root : option id;
  cwd : option id;
  _pathCache : jsmap (option id);
  _maxCacheSize : nat;
  _uidCounter : nat;
  user : string;
  clock : string
}.

(** The error taxonomy; each constructor stands for the messages listed. *)
Inductive error : Type :=
| PathNotFound (partial : string)  (* "Path not found: ..", "File not found: .." *)
| NotADirectory                    (* "Not a directory: ..", "Destination must be a directory",
                                      "Cannot create directory '..': File exists" *)
| NotAFile                         (* "Not a file: .." *)
| DuplicateName                    (* "Child with key '..' already exists", "Name already exists" *)
| NonEmptyDirectory                (* "Directory not empty: .." *)
| CannotModifyRoot                 (* "Cannot delete/rename the root directory" *)
| CyclicMove                       (* "Cannot move directory into itself" *)
| ParentNotFound                   (* "Parent node not found" *)
| InvalidArgument                  (* TypeError "Missing argument: ..", "Invalid node data" *)
| RootExists                       (* "TreeStructure already has a root. .." *)
| TargetNotFound                   (* "Target node not found" *)
| JsTypeError.                     (* reading a property of null *)

(** Why the model gives no JavaScript outcome. *)
Inductive abort : Type :=
| OutOfFuel      (* a loop ran longer than the fuel allows *)
| Dangling       (* an id outside the store; no JavaScript reference is one *)
| Unmodelled.    (* a coercion or syntax left out of the model *)

Inductive outcome (A : Type) : Type :=
| Ok (a : A) (s : vfs)
| Throw (e : error) (s : vfs)
| Abort (r : abort).
Arguments Ok {A} a s.
Arguments Throw {A} e s.
Arguments Abort {A} r.

Definition M (A : Type) : Type := vfs -> outcome A.

Definition ret {A} (a : A) : M A := fun s => Ok a s.
Definition bind {A B} (m : M A) (f : A -> M B) : M B :=
  fun s => match m s with
           | Ok a s' => f a s'
           | Throw e s' => Throw e s'
           | Abort r => Abort r
           end.
Definition throw {A} (e : error) : M A := fun s => Throw e s.
Definition abort_with {A} (r : abort) : M A := fun _ => Abort r.
Definition get_state : M vfs := fun s => Ok s s.

Declare Scope vfs_scope.
Delimit Scope vfs_scope with vfs.
Notation "x <- m ;; k" := (bind m (fun x => k))
  (at level 100, m at next level, right associativity) : vfs_scope.
Notation "m ;;; k" := (bind m (fun _ => k))
  (at level 100, k at level 200, right associativity) : vfs_scope.
Local Open Scope vfs_scope.

Definition set_nodes (h : heap) (s : vfs) : vfs :=
  mkVfs h (root s) (cwd s) (_pathCache s) (_maxCacheSize s) (_uidCounter s) (user s) (clock s).
Definition set_root (r : option id) (s : vfs) : vfs :=
  mkVfs (nodes s) r (cwd s) (_pathCache s) (_maxCacheSize s) (_uidCounter s) (user s) (clock s).
Definition set_cwd (c : option id) (s : vfs) : vfs :=
  mkVfs (nodes s) (root s) c (_pathCache s) (_maxCacheSize s) (_uidCounter s) (user s) (clock s).
Definition set_cache (c : jsmap (option id)) (s : vfs) : vfs :=
  mkVfs (nodes s) (root s) (cwd s) c (_maxCacheSize s) (_uidCounter s) (user s) (clock s).
Definition set_uidCounter (n : nat) (s : vfs) : vfs :=
  mkVfs (nodes s) (root s) (cwd s) (_pathCache s) (_maxCacheSize s) n (user s) (clock s).

(** Dereference a node reference. *)
Definition deref (i : id) : M TreeNode :=
  fun s => match nodes s !! i with
           | Some n => Ok n s
           | None => Abort Dangling
           end.

(** Use a possibly-null reference as an object: [null.x] is a TypeError. *)
Definition nonnull (o : option id) : M id :=
  match o with Some i => ret i | None => throw JsTypeError end.

(** Assign to the slots of node [i]. *)
Definition modify (i : id) (f : TreeNode -> TreeNode) : M unit :=
  fun s => match nodes s !! i with
           | Some _ => Ok tt (set_nodes (alter f i (nodes s)) s)
           | None => Abort Dangling
           end.

(** Assignments to the fields of the engine. *)
Definition update_cache (f : jsmap (option id) -> jsmap (option id)) : M unit :=
  fun s => Ok tt (set_cache (f (_pathCache s)) s).
Definition assign_cwd (c : option id) : M unit := fun s => Ok tt (set_cwd c s).
Definition assign_root (r : option id) : M unit := fun s => Ok tt (set_root r s).

(** Allocate a fresh object. *)
Definition alloc (n : TreeNode) : M id :=
  fun s => Ok (length (nodes s)) (set_nodes (nodes s ++ [n]) s).

(** ** Name patterns ([TreeNode.search], [TreeNode.find])

    The source builds
    [new RegExp("^" + pattern.replace(/\./g, "\\.").replace(/\*/g, ".*") + "$")]
    and calls [test].  The two replacements are modelled on strings; of the
    regular-expression syntax the model reads ordinary characters, [.],
    identity escapes of syntax characters and the greedy [*] quantifier.  Any
    other syntax character makes the compilation answer [None]. *)

Fixpoint escape_dots (s : string) : string :=
  match s with
  | EmptyString => EmptyString
  | String c s' =>
      if Ascii.eqb c dot then String "\"%char (String dot (escape_dots s'))
      else String c (escape_dots s')
  end.

Fixpoint expand_stars (s : string) : string :=
  match s with
  | EmptyString => EmptyString
  | String c s' =>
      if Ascii.eqb c star then String dot (String star (expand_stars s'))
      else String c (expand_stars s')
  end.

(** The characters with a meaning of their own in a pattern of RegExp. *)
Definition syntax_char (c : ascii) : bool :=
  existsb (Ascii.eqb c)
    ["^"; "$"; "\"; "."; "*"; "+"; "?"; "("; ")"; "["; "]"; "{"; "}"; "|"]%char.

Inductive atom : Type := Lit (c : ascii) | AnyChar.
Inductive token : Type := TAtom (a : atom) | TStar.
Inductive term : Type := One (a : atom) | Many (a : atom).
Definition regex := list term.

Fixpoint tokenize (s : string) : option (list token) :=
  match s with
  | EmptyString => Some []
  | String c s1 =>
      if Ascii.eqb c "\"%char then
        match s1 with
        | String d s2 =>
            if syntax_char d then cons (TAtom (Lit d)) <$> tokenize s2 else None
        | EmptyString => None
        end
      else if Ascii.eqb c dot then cons (TAtom AnyChar) <$> tokenize s1
      else if Ascii.eqb c star then cons TStar <$> tokenize s1
      else if syntax_char c then None
      else cons (TAtom (Lit c)) <$> tokenize s1
  end.

Fixpoint group (ts : list token) : option regex :=
  match ts with
  | [] => Some []
  | TStar :: _ => None
  | TAtom a :: ts1 =>
      match ts1 with
      | TStar :: ts2 => cons (Many a) <$> group ts2
      | _ => cons (One a) <$> group ts1
      end
  end.

(** The body between [^] and [$]. *)
Definition compile (pattern : string) : option regex :=
  match tokenize (expand_stars (escape_dots pattern)) with
  | Some ts => group ts
  | None => None
  end.

(** Without the [s] flag, [.] matches any character but a line terminator
    (LF and CR are the two below 256). *)
Definition line_terminator (c : ascii) : bool :=
  Ascii.eqb c "010"%char || Ascii.eqb c "013"%char.

Definition atom_matches (a : atom) (c : ascii) : bool :=
  match a with
  | Lit d => Ascii.eqb c d
  | AnyChar => negb (line_terminator c)
  end.

(** [test] of a pattern anchored at both ends, by backtracking. *)
Fixpoint accepts (r : regex) (s : string) : bool :=
  match r with
  | [] => String.eqb s ""
  | One a :: r' =>
      match s with
      | String c s' => atom_matches a c && accepts r' s'
      | EmptyString => false
      end
  | Many a :: r' =>
      (fix many (t : string) : bool :=
         accepts r' t ||
         match t with
         | String c t' => atom_matches a c && many t'
         | EmptyString => false
         end) s
  end.

(** The test both [search] and [find] apply to a node's key. *)
Definition matches_key (pattern k : string) : option bool :=
  if negb (contains_char star pattern) && negb (contains_char dot pattern)
  then Some (String.eqb k pattern)
  else match compile pattern with
       | Some r => Some (accepts r k)
       | None => None
       end.

(** ** [TreeNode] methods *)

Fixpoint indexOf (x : id) (l : list id) : option nat :=
  match l with
  | [] => None
  | y :: l' => if Nat.eqb y x then Some 0 else S <$> indexOf x l'
  end.

(** [l.splice(i, 1)] *)
Definition splice1 (i : nat) (l : list id) : list id := base.delete i l.

Module Node.

(** [this.insert(child)] *)
Definition insert (this child : id) : M unit :=
  c <- deref child ;;
  t <- deref this ;;
  if map_has (key c) (_childrenMap t) then throw DuplicateName
  else
    modify this (fun n => set_children (children n ++ [child]) n) ;;;
    modify this (fun n => set_childrenMap (map_set (key c) child (_childrenMap n)) n) ;;;
    modify child (set_parent (Some this)).

(** [this.delete(child)] *)
Definition delete (this child : id) : M bool :=
  t <- deref this ;;
  match indexOf child (children t) with
  | Some i =>
      c <- deref child ;;
      modify this (fun n => set_children (splice1 i (children n)) n) ;;;
      modify this (fun n => set_childrenMap (map_delete (key c) (_childrenMap n)) n) ;;;
      modify child (set_parent None) ;;;
      ret true
  | None => ret false
  end.

(** [this.findChild(key)] and [this.hasChild(key)] *)
Definition findChild (this : id) (k : string) : M (option id) :=
  t <- deref this ;; ret (map_get k (_childrenMap t)).

Definition hasChild (this : id) (k : string) : M bool :=
  t <- deref this ;; ret (map_has k (_childrenMap t)).

(** The loop of [isAncestorOf]: [current] walks up the parent chain. *)
Fixpoint isAncestorOf_loop (fuel : nat) (this : id) (current : option id) : M bool :=
  match current with
  | None => ret false
  | Some c =>
      if Nat.eqb c this then ret true
      else match fuel with
           | 0 => abort_with OutOfFuel
           | S f => n <- deref c ;; isAncestorOf_loop f this (parent n)
           end
  end.

Definition isAncestorOf (fuel : nat) (this node : id) : M bool :=
  n <- deref node ;; isAncestorOf_loop fuel this (parent n).

(** [this.search(pattern)]: this node first, then the children in order. *)
Fixpoint search (fuel : nat) (pattern : string) (this : id) : M (list id) :=
  match fuel with
  | 0 => abort_with OutOfFuel
  | S f =>
      t <- deref this ;;
      here <- match matches_key pattern (key t) with
              | Some true => ret [this]
              | Some false => ret []
              | None => abort_with Unmodelled
              end ;;
      rest <- (fix each (l : list id) : M (list id) :=
                 match l with
                 | [] => ret []
                 | c :: l' =>
                     r <- search f pattern c ;;
                     rs <- each l' ;;
                     ret (r ++ rs)
                 end) (children t) ;;
      ret (here ++ rest)
  end.

(** [this.clone(deep)]: the copy has the key and the property bag, and a
    fresh identity. *)
Fixpoint clone (fuel : nat) (deep : bool) (this : id) : M id :=
  match fuel with
  | 0 => abort_with OutOfFuel
  | S f =>
      t <- deref this ;;
      cloned <- alloc (new_TreeNode (key t) (props t)) ;;
      (if deep then
         (fix each (l : list id) : M unit :=
            match l with
            | [] => ret tt
            | c :: l' =>
                c' <- clone f true c ;;
                insert cloned c' ;;;
                each l'
            end) (children t)
       else ret tt) ;;;
      ret cloned
  end.

End Node.

(** ** [TreeStructure] methods *)

(** How [TreeStructure.insert] is told the parent. *)
Inductive parentRef : Type :=
| NoParent
| ByNode (n : id)
| ByPattern (p : string)
| ByList (l : list id).

Module Tree.

(** [this.search(key)]: [null] when the key is empty or the tree is. *)
Definition search (fuel : nat) (k : string) : M (option (list id)) :=
  s <- get_state ;;
  match root s with
  | Some r =>
      if truthy_str k then l <- Node.search fuel k r ;; ret (Some l) else ret None
  | None => ret None
  end.

(** [this.insert(key, parent, properties)] *)
Definition insert (fuel : nat) (k : string) (parent : parentRef)
    (properties : list (string * jsval)) : M id :=
  if negb (truthy_str k) then throw InvalidArgument
  else
    node <- alloc (new_TreeNode k properties) ;;
    s <- get_state ;;
    let no_parent :=
      match parent with
      | NoParent => true
      | ByPattern p => negb (truthy_str p)
      | _ => false
      end in
    match no_parent, root s with
    | true, None => assign_root (Some node) ;;; ret node
    | true, Some _ => throw RootExists
    | false, _ =>
        parentNodes <- match parent with
                       | ByNode n => ret (Some [n])
                       | ByPattern p => search fuel p
                       | ByList l => ret (Some l)
                       | NoParent => ret None
                       end ;;
        match parentNodes with
        | Some (p0 :: _) => Node.insert p0 node ;;; ret node
        | _ => throw ParentNotFound
        end
    end.

(** What [delete] is given: a node or a pattern. *)
Inductive nodeRef : Type := RefNode (n : id) | RefPattern (p : string).

(** [this.delete(node)] *)
Definition delete (fuel : nat) (node : nodeRef) : M bool :=
  targets <- match node with
             | RefNode n => ret (Some [n])
             | RefPattern p =>
                 if truthy_str p then search fuel p else throw InvalidArgument
             end ;;
  match targets with
  | None | Some [] => throw TargetNotFound
  | Some ts =>
      deletedCount <-
        (fix each (l : list id) (count : nat) : M nat :=
           match l with
           | [] => ret count
           | target :: l' =>
               s <- get_state ;;
               if decide (Some target = root s) then
                 assign_root None ;;; each l' (S count)
               else
                 t <- deref target ;;
                 match parent t with
                 | Some p => Node.delete p target ;;; each l' (S count)
                 | None => each l' count
                 end
           end) ts 0 ;;
      ret (Nat.ltb 0 deletedCount)
  end.

(** A record handed to [fromJSON]: the [key] (empty when absent), the own
    properties other than [key] and [children], and the [children] array
    (empty when absent or not an array). *)
#[warnings="-register-all"]
Inductive record : Type :=
| Rec (rkey : string) (rprops : list (string * jsval)) (rchildren : list record).

(** The local function [insertNode] of [fromJSON]. *)
Fixpoint insertNode (fuel : nat) (nodeData : record) (parent : parentRef) : M id :=
  match nodeData with
  | Rec k properties chs =>
      node <- insert fuel k parent properties ;;
      (fix each (l : list record) : M unit :=
         match l with
         | [] => ret tt
         | childData :: l' => insertNode fuel childData (ByNode node) ;;; each l'
         end) chs ;;;
      ret node
  end.

(** [TreeStructure.fromJSON(json)] builds a new tree; the answer is the
    root of that tree, and the tree of the engine is left as it was. *)
Definition fromJSON (fuel : nat) (json : option record) : M (option id) :=
  fun s =>
    match json with
    | None => Ok None s
    | Some r =>
        match insertNode fuel r NoParent (set_root None s) with
        | Ok _ s' => Ok (root s') (set_root (root s) s')
        | Throw e s' => Throw e (set_root (root s) s')
        | Abort a => Abort a
        end
    end.

End Tree.

(** ** [VirtualFileSystem] methods *)

(** A [source] or [destination] argument of [cp] and [mv]: a path, or the
    node itself ([typeof x === "object"]). *)
Inductive target : Type := Path (p : string) | Obj (n : id).

(** The [options] of [ls]. *)
Record ls_options : Type := mkLs {
  opt_all : bool;
  opt_filesOnly : bool;
  opt_dirsOnly : bool;
  opt_sort : bool
}.

(** A record handed to [initStructure].  Absent (or falsy) string fields are
    the empty string; [fextra] is every field the method never reads. *)
#[warnings="-register-all"]
Inductive fsrecord : Type :=
| FsRec (fkey ftype fmime fpermissions fmodified : string)
        (fcontents : fscontents) (fextra : list (string * jsval))
with fscontents : Type :=
| CAbsent
| CText (s : string)
| CList (l : list fsrecord).

(** The record as a plain value (what a non-directory keeps as [contents]
    when its [contents] is an array). *)
Fixpoint fsrecord_value (r : fsrecord) : jsval :=
  match r with
  | FsRec k ty mi pe mo c extra =>
      VObj (("key", VStr k) :: ("type", VStr ty) :: ("mime", VStr mi)
            :: ("permissions", VStr pe) :: ("modified", VStr mo)
            :: ("contents",
                match c with
                | CAbsent => VUndef
                | CText t => VStr t
                | CList l => VArr (List.map fsrecord_value l)
                end) :: extra)
  end.

Definition decimal (n : nat) : string := NilEmpty.string_of_uint (Nat.to_uint n).

(** [a || b] on strings. *)
Definition str_or (a b : string) : string := if truthy_str a then a else b.

Section Engine.

(** Bound on the iterations of every loop over the parent chain or the
    children; [Abort OutOfFuel] is the answer when it is passed. *)
Variable fuel : nat.

(** [a.localeCompare(b) <= 0], which depends on the host's locale. *)
Variable localeCompare_le : string -> string -> bool.

(** [getUid()], by its fallback branch (no [crypto.randomUUID]); the time
    stamp in the identifier is read from [clock]. *)
Definition getUid : M jsval :=
  fun s => Ok (VStr ("UID-" +:+ clock s +:+ "-" +:+ decimal (S (_uidCounter s))))
              (set_uidCounter (S (_uidCounter s)) s).

Definition getDate : M jsval := s <- get_state ;; ret (VStr (clock s)).

(** The loop of [_absolute_path]. *)
Fixpoint path_up (n : nat) (current : option id) (pathSegments : list string)
    : M (list string) :=
  match current with
  | None => ret pathSegments
  | Some c =>
      s <- get_state ;;
      if decide (Some c = root s) then ret pathSegments
      else match n with
           | 0 => abort_with OutOfFuel
           | S n' => t <- deref c ;; path_up n' (parent t) (key t :: pathSegments)
           end
  end.

Definition _absolute_path (node : option id) : M string :=
  match node with
  | None => ret "/"
  | Some _ => segs <- path_up fuel node [] ;; ret ("/" +:+ js_join "/" segs)
  end.

(** One turn of the loop of [_normalizePath]. *)
Definition normalize_step (resolvedSegments : list string) (segment : string)
    : list string :=
  if String.eqb segment ".." then removelast resolvedSegments
  else resolvedSegments ++ [segment].

Definition _normalizePath (path : string) : M string :=
  if negb (truthy_str path) || String.eqb path "." then
    s <- get_state ;; _absolute_path (cwd s)
  else if String.eqb path "/" then ret "/"
  else
    basePath <- (if startsWith path "/" then ret "/"
                 else s <- get_state ;; _absolute_path (cwd s)) ;;
    let segments :=
      List.filter (fun seg => truthy_str seg && negb (String.eqb seg "."))
                  (js_split slash path) in
    let resolvedSegments :=
      if String.eqb basePath "/" then []
      else List.filter truthy_str (js_split slash basePath) in
    ret ("/" +:+ js_join "/" (fold_left normalize_step segments resolvedSegments)).

(** The loop of [_resolvePathUncached]; [seen] is [segments.slice(0, i)]. *)
Fixpoint walk (current : option id) (seen segments : list string) : M (option id) :=
  match segments with
  | [] => ret current
  | segment :: rest =>
      c <- nonnull current ;;
      found <- Node.findChild c segment ;;
      match found with
      | None => throw (PathNotFound ("/" +:+ js_join "/" (seen ++ [segment])))
      | Some f => walk (Some f) (seen ++ [segment]) rest
      end
  end.

Definition _resolvePathUncached (normalizedPath : string) : M (option id) :=
  s <- get_state ;;
  if String.eqb normalizedPath "/" then ret (root s)
  else walk (root s) [] (List.filter truthy_str (js_split slash normalizedPath)).

Definition _resolve_path (path : string) : M (option id) :=
  if negb (truthy_str path) || String.eqb path "." then
    s <- get_state ;; ret (cwd s)
  else if String.eqb path "/" then s <- get_state ;; ret (root s)
  else
    normalizedPath <- _normalizePath path ;;
    s <- get_state ;;
    match map_get normalizedPath (_pathCache s) with
    | Some (Some cached) => ret (Some cached)
    | stale =>
        (match stale with
         | Some _ => update_cache (map_delete normalizedPath)
         | None => ret tt
         end) ;;;
        result <- _resolvePathUncached normalizedPath ;;
        s1 <- get_state ;;
        (if Nat.leb (_maxCacheSize s1) (map_size (_pathCache s1)) then
           match map_first_key (_pathCache s1) with
           | Some firstKey => update_cache (map_delete firstKey)
           | None => ret tt
           end
         else ret tt) ;;;
        update_cache (map_set normalizedPath result) ;;;
        ret result
    end.

(** The loop of [_invalidatePathCache], from [i] down to 1. *)
Fixpoint invalidate_parents (i : nat) (segments : list string)
    (cache : jsmap (option id)) : jsmap (option id) :=
  match i with
  | 0 => cache
  | S j =>
      invalidate_parents j segments
        (map_delete (str_or (js_join "/" (firstn (S j) segments)) "/") cache)
  end.

Definition _invalidatePathCache (path : string) : M unit :=
  let segments := js_split slash path in
  update_cache (fun cache =>
    invalidate_parents (length segments - 1) segments (map_delete path cache)).

(** The property bag [mkdir] gives a new directory. *)
Definition dir_props (uid modified : jsval) (u : string) : list (string * jsval) :=
  [("uid", uid); ("size", VNum 0); ("mime", VStr "inode/directory");
   ("contents", VNull); ("type", VStr "dir"); ("permissions", VStr "rwxr-xr-x");
   ("modified", modified); ("user", VStr u); ("group", VStr u)].

(** The loop of [mkdir]. *)
Fixpoint mkdir_loop (current : option id) (segments : list string) : M unit :=
  match segments with
  | [] => ret tt
  | segment :: rest =>
      c <- nonnull current ;;
      existing <- Node.findChild c segment ;;
      match existing with
      | None =>
          uid <- getUid ;;
          modified <- getDate ;;
          s <- get_state ;;
          newDir <- alloc (new_TreeNode segment (dir_props uid modified (user s))) ;;
          Node.insert c newDir ;;;
          mkdir_loop (Some newDir) rest
      | Some e =>
          t <- deref e ;;
          if is_str (prop "type" t) "dir" then mkdir_loop (Some e) rest
          else throw NotADirectory
      end
  end.

Definition mkdir (path : string) : M unit :=
  if negb (truthy_str path) then throw InvalidArgument
  else
    s <- get_state ;;
    let segments :=
      List.filter truthy_str (js_split slash (strip_trailing_slashes path)) in
    mkdir_loop (if startsWith path "/" then root s else cwd s) segments ;;;
    _invalidatePathCache path.

Definition rmdir (path : string) : M unit :=
  if negb (truthy_str path) then throw InvalidArgument
  else
    node <- _resolve_path (strip_trailing_slashes path) ;;
    s <- get_state ;;
    if decide (node = root s) then throw CannotModifyRoot
    else
      n <- nonnull node ;;
      t <- deref n ;;
      if negb (is_str (prop "type" t) "dir") then throw NotADirectory
      else if Nat.ltb 0 (length (children t)) then throw NonEmptyDirectory
      else
        Tree.delete fuel (Tree.RefNode n) ;;;
        s1 <- get_state ;;
        currentPath <- _absolute_path (cwd s1) ;;
        nodePath <- _absolute_path node ;;
        (if startsWith currentPath nodePath then
           t1 <- deref n ;;
           s2 <- get_state ;;
           assign_cwd (match parent t1 with
                       | Some p => Some p
                       | None => root s2
                       end)
         else ret tt) ;;;
        _invalidatePathCache path.

Definition cd (path : string) : M (option id) :=
  if negb (truthy_str path) then throw InvalidArgument
  else
    targetNode <- _resolve_path path ;;
    n <- nonnull targetNode ;;
    t <- deref n ;;
    if negb (is_str (prop "type" t) "dir") then throw NotADirectory
    else
      assign_cwd targetNode ;;;
      ret targetNode.

(** [v || ""] used as a string; a truthy value that is no string would be
    converted by JavaScript, which the model leaves out. *)
Definition contents_string (v : jsval) : M string :=
  if truthy v then
    match v with VStr t => ret t | _ => abort_with Unmodelled end
  else ret "".

(** The property bag [cat] gives a new file. *)
Definition file_props (modified uid : jsval) (u : string) : list (string * jsval) :=
  [("type", VStr "file"); ("mime", VStr "text/plain"); ("modified", modified);
   ("uid", uid); ("user", VStr u); ("group", VStr u); ("contents", VStr "");
   ("permissions", VStr "rw-r--r--")].

(** The two halves [cat] cuts the path into: [segments.pop()] and the
    rest joined again. *)
Definition cat_fileName (path : string) : string :=
  List.last (js_split slash (strip_trailing_slashes path)) "".

Definition cat_parentPath (path : string) : string :=
  str_or (js_join "/" (removelast (js_split slash (strip_trailing_slashes path))))
         (if startsWith path "/" then "/" else ".").

(** [cat(mode, path, contents)]: the answer is the contents in reading
    mode and [undefined] ([None]) in a writing mode. *)
Definition cat (mode path contents : string) : M (option string) :=
  if negb (truthy_str path) then throw InvalidArgument
  else
    let fileName := cat_fileName path in
    parent <- _resolve_path (cat_parentPath path) ;;
    p <- nonnull parent ;;
    found <- Node.findChild p fileName ;;
    if truthy_str mode then
      node <- match found with
              | None =>
                  modified <- getDate ;;
                  uid <- getUid ;;
                  s <- get_state ;;
                  node <- alloc (new_TreeNode fileName (file_props modified uid (user s))) ;;
                  Node.insert p node ;;;
                  ret node
              | Some node =>
                  t <- deref node ;;
                  if negb (is_str (prop "type" t) "file") then throw NotAFile
                  else ret node
              end ;;
      t <- deref node ;;
      newContents <- (if String.eqb mode ">" then ret contents
                      else old <- contents_string (prop "contents" t) ;;
                           ret (old +:+ contents)) ;;
      modify node (set_prop "contents" (VStr newContents)) ;;;
      modify node (set_prop "size" (VNum (blob_size newContents))) ;;;
      modified <- getDate ;;
      modify node (set_prop "modified" modified) ;;;
      _invalidatePathCache path ;;;
      ret None
    else
      match found with
      | None => throw (PathNotFound path)
      | Some node =>
          t <- deref node ;;
          if negb (is_str (prop "type" t) "file") then throw NotAFile
          else c <- contents_string (prop "contents" t) ;; ret (Some c)
      end.

Definition rm (path : string) : M unit :=
  if negb (truthy_str path) then throw InvalidArgument
  else
    node <- _resolve_path (strip_trailing_slashes path) ;;
    n <- nonnull node ;;
    t <- deref n ;;
    if negb (is_str (prop "type" t) "file") then throw NotAFile
    else
      Tree.delete fuel (Tree.RefNode n) ;;;
      _invalidatePathCache path.

Definition rn (oldPath newName : string) : M unit :=
  if negb (truthy_str oldPath) then throw InvalidArgument
  else if negb (truthy_str newName) then throw InvalidArgument
  else
    node <- _resolve_path oldPath ;;
    s <- get_state ;;
    if decide (node = root s) then throw CannotModifyRoot
    else
      n <- nonnull node ;;
      t <- deref n ;;
      p <- nonnull (parent t) ;;
      dup <- Node.hasChild p newName ;;
      if dup then throw DuplicateName
      else
        modify p (fun x => set_childrenMap (map_delete (key t) (_childrenMap x)) x) ;;;
        modify n (set_key newName) ;;;
        modify p (fun x => set_childrenMap (map_set newName n (_childrenMap x)) x) ;;;
        _invalidatePathCache oldPath.

(** [typeof x === "object" ? x : this._resolve_path(x)], after the
    [!x] test of the caller. *)
Definition resolve_target (x : target) : M (option id) :=
  match x with
  | Path p => if truthy_str p then _resolve_path p else throw InvalidArgument
  | Obj n => ret (Some n)
  end.

Definition missing (x : target) : bool :=
  match x with Path p => negb (truthy_str p) | Obj _ => false end.

Fixpoint _updateNodeMetadata (n : nat) (node : id) : M unit :=
  match n with
  | 0 => abort_with OutOfFuel
  | S n' =>
      uid <- getUid ;;
      modify node (set_prop "uid" uid) ;;;
      modified <- getDate ;;
      modify node (set_prop "modified" modified) ;;;
      s <- get_state ;;
      modify node (set_prop "user" (VStr (user s))) ;;;
      modify node (set_prop "group" (VStr (user s))) ;;;
      t <- deref node ;;
      (fix each (l : list id) : M unit :=
         match l with
         | [] => ret tt
         | c :: l' => _updateNodeMetadata n' c ;;; each l'
         end) (children t)
  end.

Definition cp (source destination : target) : M id :=
  if missing source then throw InvalidArgument
  else if missing destination then throw InvalidArgument
  else
    sourceNode <- resolve_target source ;;
    destNode <- resolve_target destination ;;
    d <- nonnull destNode ;;
    td <- deref d ;;
    if negb (is_str (prop "type" td) "dir") then throw NotADirectory
    else
      a <- nonnull sourceNode ;;
      copyNode <- Node.clone fuel true a ;;
      Node.insert d copyNode ;;;
      _updateNodeMetadata fuel copyNode ;;;
      ret copyNode.

Definition mv (source destination : target) : M id :=
  if missing source then throw InvalidArgument
  else if missing destination then throw InvalidArgument
  else
    sourceNode <- resolve_target source ;;
    destNode <- resolve_target destination ;;
    d <- nonnull destNode ;;
    td <- deref d ;;
    if negb (is_str (prop "type" td) "dir") then throw NotADirectory
    else
      a <- nonnull sourceNode ;;
      cyclic <- Node.isAncestorOf fuel a d ;;
      if cyclic then throw CyclicMove
      else
        ta <- deref a ;;
        (match parent ta with
         | Some p => Node.delete p a ;;; ret tt
         | None => ret tt
         end) ;;;
        Node.insert d a ;;;
        ret a.

(** A stable insertion sort, as [Array.prototype.sort] is stable. *)
Fixpoint sort_insert (le : id -> id -> bool) (x : id) (l : list id) : list id :=
  match l with
  | [] => [x]
  | y :: l' => if le x y then x :: l else y :: sort_insert le x l'
  end.

Definition ls (path : string) (options : ls_options) : M (list id) :=
  node <- (if truthy_str path then _resolve_path path
           else s <- get_state ;; ret (cwd s)) ;;
  n <- nonnull node ;;
  t <- deref n ;;
  if negb (is_str (prop "type" t) "dir") then throw NotADirectory
  else
    s <- get_state ;;
    let node_of i := match nodes s !! i with Some x => x | None => t end in
    let c0 := children t in
    let c1 := if opt_all options then c0
              else List.filter (fun i => negb (startsWith (key (node_of i)) ".")) c0 in
    let c2 := if opt_filesOnly options
              then List.filter (fun i => is_str (prop "type" (node_of i)) "file") c1
              else c1 in
    let c3 := if opt_dirsOnly options
              then List.filter (fun i => is_str (prop "type" (node_of i)) "dir") c2
              else c2 in
    ret (if opt_sort options
         then fold_right
                (sort_insert (fun a b =>
                   localeCompare_le (key (node_of a)) (key (node_of b)))) [] c3
         else c3).

Definition pwd : M string := s <- get_state ;; _absolute_path (cwd s).

Definition whereis (query : string) : M (list id) :=
  if negb (truthy_str query) then throw InvalidArgument
  else r <- Tree.search fuel query ;;
       ret (match r with Some l => l | None => [] end).

(** [initStructure(node, parent)] *)
Fixpoint initStructure (node : fsrecord) (parent : option id) : M id :=
  match node with
  | FsRec k ty mi pe mo c extra =>
      if negb (truthy_str k) then throw InvalidArgument
      else
        let is_dir := String.eqb ty "dir" in
        uid <- getUid ;;
        now <- (if truthy_str mo then ret (VStr mo) else getDate) ;;
        s <- get_state ;;
        let properties :=
          [("uid", uid);
           ("size", VNum (if is_dir then 0
                          else match c with
                               | CAbsent => 0
                               | CText t => String.length t
                               | CList l => length l
                               end));
           ("mime", VStr (if is_dir then "inode/directory" else str_or mi "text/plain"));
           ("contents", if is_dir then VNull
                        else match c with
                             | CAbsent => VUndef
                             | CText t => VStr t
                             | CList l => VArr (List.map fsrecord_value l)
                             end);
           ("type", VStr (str_or ty "file"));
           ("permissions", VStr (str_or pe (if is_dir then "rwxr-xr-x" else "rw-r--r--")));
           ("modified", now);
           ("user", VStr (user s));
           ("group", VStr (user s))] in
        nodeData <- Tree.insert fuel k
                      (match parent with Some p => ByNode p | None => NoParent end)
                      properties ;;
        s1 <- get_state ;;
        (match cwd s1, parent with
         | None, None => assign_cwd (Some nodeData)
         | _, _ => ret tt
         end) ;;;
        (match c with
         | CList l =>
             (fix each (l : list fsrecord) : M unit :=
                match l with
                | [] => ret tt
                | childData :: l' => initStructure childData (Some nodeData) ;;; each l'
                end) l
         | _ => ret tt
         end) ;;;
        ret nodeData
  end.

(** [fromJSON(json)] of the file system. *)
Definition fromJSON (json : option Tree.record) : M unit :=
  r <- Tree.fromJSON fuel json ;;
  assign_root r ;;;
  assign_cwd r ;;;
  update_cache (fun _ => []).

End Engine.

(** [new VirtualFileSystem()] in an empty store. *)
Definition new_vfs (now : string) : vfs :=
  mkVfs [] None None [] 1000 0 "root" now.

(** ** Definitions used to state the properties *)

(** *** Patterns *)

(** The matcher the specification describes: [*] matches zero or more
    arbitrary characters, every other character matches itself. *)
Fixpoint glob (p s : string) : bool :=
  match p with
  | EmptyString => String.eqb s ""
  | String c p' =>
      if Ascii.eqb c star then
        (fix many (t : string) : bool :=
           glob p' t ||
           match t with
           | String d t' => true && many t'
           | EmptyString => false
           end) s
      else match s with
           | String d s' => Ascii.eqb d c && glob p' s'
           | EmptyString => false
           end
  end.

(** The same matcher with [*] ranging over the characters that are not line
    terminators. *)
Fixpoint glob_line (p s : string) : bool :=
  match p with
  | EmptyString => String.eqb s ""
  | String c p' =>
      if Ascii.eqb c star then
        (fix many (t : string) : bool :=
           glob_line p' t ||
           match t with
           | String d t' => negb (line_terminator d) && many t'
           | EmptyString => false
           end) s
      else match s with
           | String d s' => Ascii.eqb d c && glob_line p' s'
           | EmptyString => false
           end
  end.

Definition literal (pattern : string) : bool :=
  negb (contains_char star pattern) && negb (contains_char dot pattern).

Fixpoint string_forallb (f : ascii -> bool) (s : string) : bool :=
  match s with
  | EmptyString => true
  | String c s' => f c && string_forallb f s'
  end.

(** A pattern whose only syntax characters are [*] and [.]. *)
Definition plain (pattern : string) : bool :=
  string_forallb (fun c => Ascii.eqb c star || Ascii.eqb c dot || negb (syntax_char c))
                 pattern.

Definition line_free (s : string) : bool :=
  string_forallb (fun c => negb (line_terminator c)) s.

(** The tokens and the terms of a plain pattern. *)
Fixpoint tokens_of (p : string) : list token :=
  match p with
  | EmptyString => []
  | String c p' =>
      if Ascii.eqb c star then TAtom AnyChar :: TStar :: tokens_of p'
      else TAtom (Lit c) :: tokens_of p'
  end.

Fixpoint terms_of (p : string) : regex :=
  match p with
  | EmptyString => []
  | String c p' =>
      (if Ascii.eqb c star then Many AnyChar else One (Lit c)) :: terms_of p'
  end.

Definition newline : string := String "010"%char EmptyString.

(** What [insert] does when the name is free. *)
Definition inserted (this child : id) (k : string) (h : heap) : heap :=
  alter (set_parent (Some this)) child
    (alter (fun n => set_childrenMap (map_set k child (_childrenMap n)) n) this
       (alter (fun n => set_children (children n ++ [child]) n) this h)).

(** *** An example file system

    [/], holding the directories [a] (with the directory [b] inside) and
    [c], and the file [f]. *)
Definition example_dir (k : string) (ch : list Tree.record) : Tree.record :=
  Tree.Rec k [("type", VStr "dir")] ch.
Definition example_file (k c : string) : Tree.record :=
  Tree.Rec k [("type", VStr "file"); ("contents", VStr c)] [].
Definition example_record : Tree.record :=
  example_dir "~" [example_dir "a" [example_dir "b" []]; example_dir "c" [];
                   example_file "f" "hi"].

Definition state_of {A} (o : outcome A) (default : vfs) : vfs :=
  match o with Ok _ s => s | Throw _ s => s | Abort _ => default end.

Definition example_fs : vfs :=
  Eval vm_compute in
    state_of (fromJSON 8 (Some example_record) (new_vfs "01/01/2025 00:00"))
             (new_vfs "").

(** *** How much of the state a command may touch *)

(** Everything but the path cache is as before. *)
Definition same_tree (s s' : vfs) : Prop :=
  nodes s' = nodes s /\ root s' = root s /\ cwd s' = cwd s /\
  _maxCacheSize s' = _maxCacheSize s /\ _uidCounter s' = _uidCounter s /\
  user s' = user s /\ clock s' = clock s.

(** The command leaves the whole state alone, whatever its outcome. *)
Definition pure_command {A} (m : M A) : Prop :=
  forall s, match m s with
            | Ok _ s' | Throw _ s' => s' = s
            | Abort _ => True
            end.

(** The command touches at most the path cache. *)
Definition read_only {A} (m : M A) : Prop :=
  forall s, match m s with
            | Ok _ s' | Throw _ s' => same_tree s s'
            | Abort _ => True
            end.

(** The only exceptions the command raises are those in [P]. *)
Definition throws_only {A} (P : error -> Prop) (m : M A) : Prop :=
  forall s e s', m s = Throw e s' -> P e.

Definition no_error : error -> Prop := fun _ => False.

(** Started in [s], a failure of the command that is not in [P] leaves the
    tree as it was. *)
Definition fail_safe_at {A} (P : error -> Prop) (m : M A) (s : vfs) : Prop :=
  forall e s', m s = Throw e s' -> P e \/ same_tree s s'.

Definition fail_safe {A} (P : error -> Prop) (m : M A) : Prop :=
  forall s, fail_safe_at P m s.
(** The first [n] nodes of the store and every field of the engine are as
    before; the store may have grown. *)
Definition keeps (n : nat) (s s' : vfs) : Prop :=
  take n (nodes s') = take n (nodes s) /\ length (nodes s) <= length (nodes s') /\
  root s' = root s /\ cwd s' = cwd s /\ _pathCache s' = _pathCache s /\
  _maxCacheSize s' = _maxCacheSize s /\ _uidCounter s' = _uidCounter s /\
  user s' = user s /\ clock s' = clock s.

(** The tree is as before, up to objects allocated since and the cache. *)
Definition tree_kept (s s' : vfs) : Prop :=
  (exists extra, nodes s' = nodes s ++ extra) /\ root s' = root s /\ cwd s' = cwd s /\
  _maxCacheSize s' = _maxCacheSize s /\ _uidCounter s' = _uidCounter s /\
  user s' = user s /\ clock s' = clock s.

(** *** The operations as requests *)

(** One constructor for each path-based operation of the namespace. *)
Inductive request : Type :=
| Resolve (path : string)
| ChangeDirectory (path : string)
| ListDirectory (path : string) (options : ls_options)
| CurrentPath
| Cat (mode path contents : string)
| MakeDirectory (path : string)
| RemoveDirectory (path : string)
| RemoveFile (path : string)
| Rename (oldPath newName : string)
| Copy (source destination : target)
| Move (source destination : target)
| Search (query : string).

(** Run the operation and drop its answer. *)
Definition perform (fuel : nat) (le : string -> string -> bool) (r : request) : M unit :=
  match r with
  | Resolve path => _resolve_path fuel path ;;; ret tt
  | ChangeDirectory path => cd fuel path ;;; ret tt
  | ListDirectory path options => ls fuel le path options ;;; ret tt
  | CurrentPath => pwd fuel ;;; ret tt
  | Cat mode path contents => cat fuel mode path contents ;;; ret tt
  | MakeDirectory path => mkdir path
  | RemoveDirectory path => rmdir fuel path
  | RemoveFile path => rm fuel path
  | Rename oldPath newName => rn fuel oldPath newName
  | Copy source destination => cp fuel source destination ;;; ret tt
  | Move source destination => mv fuel source destination ;;; ret tt
  | Search query => whereis fuel query ;;; ret tt
  end.

Definition is_copy (r : request) : bool :=
  match r with Copy _ _ => true | _ => false end.
Definition is_move (r : request) : bool :=
  match r with Move _ _ => true | _ => false end.

(** [/], holding [a/b], [c/b] and the file [f]. *)
Definition example_clash : vfs :=
  Eval vm_compute in state_of (mkdir "/c/b" example_fs) example_fs.

(** *** Shape of the tree *)

(** What [delete] does to the store when the child is at index [i]. *)
Definition deleted (this child : id) (k : string) (i : nat) (h : heap) : heap :=
  alter (set_parent None) child
    (alter (fun n => set_childrenMap (map_delete k (_childrenMap n)) n) this
       (alter (fun n => set_children (splice1 i (children n)) n) this h)).

(** [a] is a strict ancestor of [d], [S n] parent links up. *)
Inductive ancestor_in (h : heap) (a : id) : nat -> id -> Prop :=
| ancestor_parent d nd :
    h !! d = Some nd -> parent nd = Some a -> ancestor_in h a 0 d
| ancestor_step n d nd p :
    h !! d = Some nd -> parent nd = Some p -> ancestor_in h a n p ->
    ancestor_in h a (S n) d.

(** [x] is [n] parent links below a node without parent. *)
Inductive depth_in (h : heap) : nat -> id -> Prop :=
| depth_top x nx : h !! x = Some nx -> parent nx = None -> depth_in h 0 x
| depth_step n x nx p :
    h !! x = Some nx -> parent nx = Some p -> depth_in h n p -> depth_in h (S n) x.

(** [/], holding [a/a]. *)
Definition example_nested : vfs :=
  Eval vm_compute in state_of (mkdir "/a/a" example_fs) example_fs.

(** *** Paths *)

(** The normalized form as the specification describes it: start from the
    base segments, drop the empty and [.] segments of the path, pop for
    [..] (nothing to pop at the top), append any other segment, join with
    [/] behind a leading [/]. *)
Definition normal_segments (base : list string) (path : string) : list string :=
  fold_left
    (fun resolved seg =>
       if String.eqb seg ".." then removelast resolved else resolved ++ [seg])
    (List.filter (fun seg => negb (String.eqb seg "") && negb (String.eqb seg "."))
                 (js_split slash path))
    base.

Definition normal_form (base_path path : string) : string :=
  "/" +:+ js_join "/"
    (normal_segments
       (if startsWith path "/" then []
        else List.filter (fun seg => negb (String.eqb seg "")) (js_split slash base_path))
       path).

(** A path segment: not empty and free of [/]. *)
Definition segment (x : string) : Prop :=
  truthy_str x = true /\ contains_char slash x = false.

(** The name index and the parent links agree: a child found under a key
    bears that key and points back to the node it was found in. *)
Definition linked (h : heap) : Prop :=
  forall p np k c,
    h !! p = Some np -> map_get k (_childrenMap np) = Some c ->
    exists nc, h !! c = Some nc /\ key nc = k /\ parent nc = Some p.

(** The root has no parent. *)
Definition root_on_top (s : vfs) : Prop :=
  forall r nr, root s = Some r -> nodes s !! r = Some nr -> parent nr = None.

(** Every cache entry is what the walk from the root finds. *)
Definition cache_valid (s : vfs) : Prop :=
  forall k n, map_get k (_pathCache s) = Some (Some n) ->
              _resolvePathUncached k s = Ok (Some n) s.

(** *** Records *)

(** What a node carries besides its links: its key and its property bag. *)
Definition label (n : TreeNode) : string * list (string * jsval) := (key n, props n).

(** The keys and property bags of a record tree in document order: a record
    before its children, the children from left to right. *)
Fixpoint preorder (r : Tree.record) : list (string * list (string * jsval)) :=
  match r with
  | Tree.Rec k properties chs => (k, properties) :: flat_map preorder chs
  end.

(** The keys of a record handed to [initStructure], in document order. *)
Fixpoint fs_preorder (r : fsrecord) : list string :=
  match r with
  | FsRec k _ _ _ _ c _ =>
      k :: match c with
           | CList l => flat_map fs_preorder l
           | _ => []
           end
  end.

(** The key of a node and the names of its properties. *)
Definition field_names (n : TreeNode) : string * list string :=
  (key n, List.map fst (props n)).

(** The properties [initStructure] gives every node. *)
Definition schema_names : list string :=
  ["uid"; "size"; "mime"; "contents"; "type"; "permissions"; "modified"; "user"; "group"].

(** A record with a field outside the schema. *)
Definition example_tagged : Tree.record :=
  Tree.Rec "~" [("type", VStr "dir"); ("colour", VStr "red")]
    [Tree.Rec "a" [("type", VStr "file"); ("contents", VStr "x"); ("pinned", VBool true)] []].

Definition example_fs_tagged : fsrecord :=
  FsRec "~" "dir" "" "" "" (CList [FsRec "a" "file" "" "" "" (CText "x") [("pinned", VBool true)]])
        [("colour", VStr "red")].
(** A view of a node that the link fields do not enter. *)
Definition link_blind {B} (g : TreeNode -> B) : Prop :=
  forall n, (forall p, g (set_parent p n) = g n) /\
            (forall c, g (set_children c n) = g n) /\
            (forall m, g (set_childrenMap m n) = g n).

(** [!parent] in [TreeStructure.insert]. *)
Definition no_parent_ref (parent : parentRef) : bool :=
  match parent with
  | NoParent => true
  | ByPattern p => negb (truthy_str p)
  | _ => false
  end.

(** [/], holding [a/b], [c/a] and the file [f]. *)
Definition example_twins : vfs :=
  Eval vm_compute in state_of (mkdir "/c/a" example_fs) example_fs.

(** The number of nodes of a record tree. *)
Fixpoint rsize (r : Tree.record) : nat :=
  match r with
  | Tree.Rec _ _ chs =>
      S ((fix sum (l : list Tree.record) : nat :=
            match l with
            | [] => 0
            | c :: l' => rsize c + sum l'
            end) chs)
  end.

Definition rkey (r : Tree.record) : string :=
  match r with Tree.Rec k _ _ => k end.

(** The references of the children when the first one is allocated at [c0]
    and each subtree takes as many references as it has nodes. *)
Fixpoint child_ids (c0 : id) (chs : list Tree.record) : list id :=
  match chs with
  | [] => []
  | c :: l => c0 :: child_ids (c0 + rsize c) l
  end.

(** The name index of the children, entered in order into [m]. *)
Fixpoint child_map (m : jsmap id) (c0 : id) (chs : list Tree.record) : jsmap id :=
  match chs with
  | [] => m
  | c :: l => child_map (map_set (rkey c) c0 m) (c0 + rsize c) l
  end.

(** The nodes of a record tree as the store holds them when the tree is
    built at reference [b] under [p]: a node, then the subtrees of its
    children, one after the other. *)
Fixpoint layout (b : id) (p : option id) (r : Tree.record) {struct r} : list TreeNode :=
  match r with
  | Tree.Rec k properties chs =>
      mkNode k p (child_ids (S b) chs) (child_map [] (S b) chs) properties ::
      (fix rest (c0 : id) (l : list Tree.record) : list TreeNode :=
         match l with
         | [] => []
         | c :: l' => layout c0 (Some b) c ++ rest (c0 + rsize c) l'
         end) (S b) chs
  end.

(** What [insert] does to the parent. *)
Definition add_child (c : id) (k : string) (n : TreeNode) : TreeNode :=
  set_childrenMap (map_set k c (_childrenMap n)) (set_children (children n ++ [c]) n).

Definition ref_of (parent : option id) : parentRef :=
  match parent with Some p => ByNode p | None => NoParent end.

(** [example_fs] after the directory [/a/b] was renamed to [z] through the
    relative path [a/b] and a new [/a/b] was made through the same path. *)
Definition example_stale : vfs :=
  Eval vm_compute in
    state_of ((rn 8 "a/b" "z" ;;; mkdir "a/b") example_fs) example_fs.

(** *** Invariants *)

(** Started in a state where [I] holds, the command ends, whatever its
    outcome, in a state where [I] holds. *)
Definition preserves {A} (I : vfs -> Prop) (m : M A) : Prop :=
  forall s, I s -> match m s with
                   | Ok _ s' | Throw _ s' => I s'
                   | Abort _ => True
                   end.

(** A property of the path cache and of its bound alone. *)
Definition cache_property (I : vfs -> Prop) : Prop :=
  forall s s', _pathCache s' = _pathCache s -> _maxCacheSize s' = _maxCacheSize s ->
               I s -> I s'.

(** The cache holds no more entries than its bound, and the bound leaves
    room for one entry. *)
Definition cache_bounded (s : vfs) : Prop :=
  1 <= _maxCacheSize s /\ map_size (_pathCache s) <= _maxCacheSize s.


(** [example_fs] with a cache of one entry that is full. *)
Definition example_tight : vfs :=
  mkVfs (nodes example_fs) (root example_fs) (cwd example_fs)
        [("/a", Some 1)] 1 0 "root" "01/01/2025 00:00".

(** No segment is [.] or [..]. *)
Definition dot_free (l : list string) : Prop :=
  Forall (fun x => String.eqb x "." = false /\ String.eqb x ".." = false) l.


(** The canonical path of a list of segments. *)
Definition canonical (l : list string) : string := "/" +:+ js_join "/" l.


(** *** Consistency of the store *)

(** The children array, the name index and the parent links agree: no
    child is listed twice; the index maps a key to a node exactly when the
    node is a listed child bearing that key; a listed child points back to
    the node that lists it; a node with a parent is listed by that parent. *)
Definition well_formed (h : heap) : Prop :=
  (forall p np, h !! p = Some np -> NoDup (children np)) /\
  (forall p np k c, h !! p = Some np ->
     map_get k (_childrenMap np) = Some c <->
     c ∈ children np /\ exists nc, h !! c = Some nc /\ key nc = k) /\
  (forall p np c, h !! p = Some np -> c ∈ children np ->
     exists nc, h !! c = Some nc /\ parent nc = Some p) /\
  (forall c nc p, h !! c = Some nc -> parent nc = Some p ->
     exists np, h !! p = Some np /\ c ∈ children np).

(** Node [i] exists and has no parent. *)
Definition orphan (i : id) (h : heap) : Prop :=
  exists n, h !! i = Some n /\ parent n = None.

(** Started where [P] holds, the command answers [a] in a state where
    [Q a] holds, or fails in a state where [E] holds. *)
Definition ensures {A} (P : vfs -> Prop) (m : M A) (Q : A -> vfs -> Prop)
    (E : vfs -> Prop) : Prop :=
  forall s, P s -> match m s with
                   | Ok a s' => Q a s'
                   | Throw _ s' => E s'
                   | Abort _ => True
                   end.

(** What [insert], [delete] and the renaming of [rn] do to node [j]. *)
Definition insert_at (this child : id) (k : string) (j : id) (n : TreeNode) : TreeNode :=
  (if decide (j = child) then set_parent (Some this) else fun x => x)
    ((if decide (j = this) then add_child child k else fun x => x) n).

Definition delete_at (this child : id) (k : string) (i : nat) (j : id) (n : TreeNode)
    : TreeNode :=
  (if decide (j = child) then set_parent None else fun x => x)
    ((if decide (j = this)
      then fun x => set_childrenMap (map_delete k (_childrenMap x))
                      (set_children (splice1 i (children x)) x)
      else fun x => x) n).

Definition rename_at (p n : id) (old new : string) (j : id) (x : TreeNode) : TreeNode :=
  (if decide (j = p)
   then fun y => set_childrenMap (map_set new n (_childrenMap y)) y
   else fun y => y)
    ((if decide (j = n) then set_key new else fun y => y)
       ((if decide (j = p)
         then fun y => set_childrenMap (map_delete old (_childrenMap y)) y
         else fun y => y) x)).


(** The store is consistent and [X] holds of it. *)
Definition wf_and (X : heap -> Prop) : vfs -> Prop :=
  fun s => well_formed (nodes s) /\ X (nodes s).

Definition anything : heap -> Prop := fun _ => True.

(** Started in a consistent store of which [X] holds, the command answers
    [a] in a consistent store of which [Y a] holds, or fails in a
    consistent store. *)
Definition safe {A} (X : heap -> Prop) (m : M A) (Y : A -> heap -> Prop) : Prop :=
  ensures (wf_and X) m (fun a => wf_and (Y a)) (wf_and anything).


(** The store of the engine is consistent. *)
Definition consistent (s : vfs) : Prop := well_formed (nodes s).

(** The operations of the engine: the requests, and the two ways to load
    a tree. *)
Inductive operation : Type :=
| Request (r : request)
| Load (json : option Tree.record)
| Initialize (node : fsrecord) (parent : option id).

Definition run (fuel : nat) (le : string -> string -> bool) (o : operation) : M unit :=
  match o with
  | Request r => perform fuel le r
  | Load json => fromJSON fuel json
  | Initialize node parent => initStructure fuel node parent ;;; ret tt
  end.


(** ** The other methods of [TreeNode]: queries

    None of them assigns to a node.  Where the source keeps an array as a
    stack ([push] and [pop] at its end), the list holds the top first. *)

Module NodeQuery.

(** [this.getChildKeys()]: the keys of the name index, oldest first. *)
Definition getChildKeys (this : id) : M (list string) :=
  t <- deref this ;; ret (List.map fst (_childrenMap t)).

(** [this.find(pattern)]: the direct children matching the pattern. *)
Definition find (pattern : string) (this : id) : M (list id) :=
  if negb (contains_char star pattern) && negb (contains_char dot pattern) then
    child <- Node.findChild this pattern ;;
    ret (match child with Some c => [c] | None => [] end)
  else
    match compile pattern with
    | None => abort_with Unmodelled
    | Some regexPattern =>
        t <- deref this ;;
        (fix each (l : list id) : M (list id) :=
           match l with
           | [] => ret []
           | child :: l' =>
               tc <- deref child ;;
               rest <- each l' ;;
               ret (if accepts regexPattern (key tc) then child :: rest else rest)
           end) (children t)
    end.

(** The loop of [getDepth]. *)
Fixpoint getDepth_loop (fuel : nat) (depth : nat) (current : option id) : M nat :=
  match current with
  | None => ret depth
  | Some c =>
      match fuel with
      | 0 => abort_with OutOfFuel
      | S f => n <- deref c ;; getDepth_loop f (S depth) (parent n)
      end
  end.

Definition getDepth (fuel : nat) (this : id) : M nat :=
  t <- deref this ;; getDepth_loop fuel 0 (parent t).

(** The loop of [getPath]; [path.unshift(current.key)] puts the key in
    front. *)
Fixpoint getPath_loop (fuel : nat) (path : list string) (current : option id)
    : M (list string) :=
  match current with
  | None => ret path
  | Some c =>
      match fuel with
      | 0 => abort_with OutOfFuel
      | S f => n <- deref c ;; getPath_loop f (key n :: path) (parent n)
      end
  end.

Definition getPath (fuel : nat) (this : id) : M (list string) :=
  getPath_loop fuel [] (Some this).

(** [this.getAbsolutePath(separator)] *)
Definition getAbsolutePath (fuel : nat) (separator : string) (this : id) : M string :=
  pathParts <- getPath fuel this ;;
  let pathParts' :=
    match pathParts with
    | first :: rest =>
        if String.eqb first "~" || String.eqb first "" then "" :: rest else pathParts
    | [] => pathParts
    end in
  ret (str_or (js_join separator pathParts') separator).

(** [this.isDescendantOf(node)] *)
Definition isDescendantOf (fuel : nat) (this node : id) : M bool :=
  Node.isAncestorOf fuel node this.

(** The loop of [getDescendants]: [stack.pop()] takes the node pushed
    last, [stack.push(...node.children)] leaves the last child on top. *)
Fixpoint getDescendants_loop (fuel : nat) (stack : list id) (descendants : list id)
    : M (list id) :=
  match stack with
  | [] => ret descendants
  | node :: stack' =>
      match fuel with
      | 0 => abort_with OutOfFuel
      | S f =>
          t <- deref node ;;
          getDescendants_loop f (rev (children t) ++ stack') (descendants ++ [node])
      end
  end.

Definition getDescendants (fuel : nat) (this : id) : M (list id) :=
  t <- deref this ;; getDescendants_loop fuel (rev (children t)) [].

(** [this.getSubtreeSize()] *)
Fixpoint getSubtreeSize (fuel : nat) (this : id) : M nat :=
  match fuel with
  | 0 => abort_with OutOfFuel
  | S f =>
      t <- deref this ;;
      (fix each (l : list id) (size : nat) : M nat :=
         match l with
         | [] => ret size
         | child :: l' => n <- getSubtreeSize f child ;; each l' (size + n)
         end) (children t) 1
  end.

(** The own properties [toJSON] copies: all but the four slots. *)
Definition exported (name : string) : bool :=
  negb (existsb (String.eqb name) ["parent"; "children"; "_childrenMap"]) &&
  negb (String.eqb name "key").

(** [this.toJSON(includeChildren)]: the record has the key, the exported
    properties in their order, and the records of the children when there
    are any. *)
Fixpoint toJSON (fuel : nat) (includeChildren : bool) (this : id) : M Tree.record :=
  match fuel with
  | 0 => abort_with OutOfFuel
  | S f =>
      t <- deref this ;;
      chs <- (if includeChildren && Nat.ltb 0 (length (children t)) then
                (fix each (l : list id) : M (list Tree.record) :=
                   match l with
                   | [] => ret []
                   | child :: l' =>
                       r <- toJSON f true child ;;
                       rs <- each l' ;;
                       ret (r :: rs)
                   end) (children t)
              else ret []) ;;
      ret (Tree.Rec (key t) (List.filter (fun kv => exported (fst kv)) (props t)) chs)
  end.

End NodeQuery.

(** ** The other methods of [TreeStructure]

    A callback is a function that reads the store and folds the nodes it is
    given into a value; it does not assign to the tree. *)

Module TreeQuery.

(** [this.findByKey(key)] *)
Definition findByKey (fuel : nat) (k : string) : M (option id) :=
  s <- get_state ;;
  match root s with
  | Some r =>
      if truthy_str k then
        results <- Node.search fuel k r ;;
        ret (match results with x :: _ => Some x | [] => None end)
      else ret None
  | None => ret None
  end.

(** The loop of [traverseBFS]: [queue.shift()] takes the first node. *)
Fixpoint traverseBFS_loop {A} (fuel : nat) (callback : id -> A -> M A)
    (queue : list id) (acc : A) : M A :=
  match queue with
  | [] => ret acc
  | node :: queue' =>
      match fuel with
      | 0 => abort_with OutOfFuel
      | S f =>
          acc' <- callback node acc ;;
          t <- deref node ;;
          traverseBFS_loop f callback (queue' ++ children t) acc'
      end
  end.

Definition traverseBFS {A} (fuel : nat) (callback : id -> A -> M A) (acc : A) : M A :=
  s <- get_state ;;
  match root s with
  | Some r => traverseBFS_loop fuel callback [r] acc
  | None => ret acc
  end.

(** The loop of [traverseDFS]: the children are pushed from the last to
    the first, which leaves the first child on top. *)
Fixpoint traverseDFS_loop {A} (fuel : nat) (callback : id -> A -> M A)
    (stack : list id) (acc : A) : M A :=
  match stack with
  | [] => ret acc
  | node :: stack' =>
      match fuel with
      | 0 => abort_with OutOfFuel
      | S f =>
          acc' <- callback node acc ;;
          t <- deref node ;;
          traverseDFS_loop f callback (children t ++ stack') acc'
      end
  end.

Definition traverseDFS {A} (fuel : nat) (callback : id -> A -> M A) (acc : A) : M A :=
  s <- get_state ;;
  match root s with
  | Some r => traverseDFS_loop fuel callback [r] acc
  | None => ret acc
  end.

(** [levels[level].push(node)], after [levels[level] = []] when the level
    is new.  The traversal opens the levels one by one; a level beyond the
    next one would leave holes in the array and is outside the model. *)
Definition push_level (level : nat) (node : id) (levels : list (list id))
    : M (list (list id)) :=
  match levels !! level with
  | Some l => ret (<[level := l ++ [node]]> levels)
  | None =>
      if Nat.eqb level (length levels) then ret (levels ++ [[node]])
      else abort_with Unmodelled
  end.

(** The loop of [getLevels] over the queue of [{node, level}] pairs. *)
Fixpoint getLevels_loop (fuel : nat) (queue : list (id * nat)) (levels : list (list id))
    : M (list (list id)) :=
  match queue with
  | [] => ret levels
  | (node, level) :: queue' =>
      match fuel with
      | 0 => abort_with OutOfFuel
      | S f =>
          levels' <- push_level level node levels ;;
          t <- deref node ;;
          getLevels_loop f (queue' ++ List.map (fun c => (c, S level)) (children t)) levels'
      end
  end.

Definition getLevels (fuel : nat) : M (list (list id)) :=
  s <- get_state ;;
  match root s with
  | Some r => getLevels_loop fuel [(r, 0)] []
  | None => ret []
  end.

(** The answer of [getStats]. *)
Record stats : Type := mkStats {
  nodeCount : nat;
  maxDepth : nat;
  leafCount : nat
}.

(** The callback [getStats] hands to [traverseDFS]. *)
Definition count_node (fuel : nat) (node : id) (st : stats) : M stats :=
  depth <- NodeQuery.getDepth fuel node ;;
  t <- deref node ;;
  ret (mkStats (S (nodeCount st)) (Nat.max (maxDepth st) depth)
               (if Nat.eqb (length (children t)) 0 then S (leafCount st)
                else leafCount st)).

Definition getStats (fuel : nat) : M stats :=
  s <- get_state ;;
  match root s with
  | None => ret (mkStats 0 0 0)
  | Some _ => traverseDFS fuel (count_node fuel) (mkStats 0 0 0)
  end.

(** [this.toJSON()] *)
Definition toJSON (fuel : nat) : M (option Tree.record) :=
  s <- get_state ;;
  match root s with
  | Some r => j <- NodeQuery.toJSON fuel true r ;; ret (Some j)
  | None => ret None
  end.

(** [this.clear()] and [this.isEmpty()] *)
Definition clear : M unit := assign_root None.

Definition isEmpty : M bool :=
  s <- get_state ;; ret (match root s with None => true | Some _ => false end).

End TreeQuery.

(** ** The other methods of [VirtualFileSystem] *)

(** The answer of [getStats]: the statistics of the tree and those of the
    files. *)
Record fs_stats : Type := mkFsStats {
  tree_stats : TreeQuery.stats;
  totalSize : nat;
  fileCount : nat;
  dirCount : nat;
  cacheSize : nat
}.

(** [node.size || 0] as a number; a size that is no number is outside the
    model. *)
Definition size_or_zero (v : jsval) : M nat :=
  if truthy v then
    match v with VNum n => ret n | _ => abort_with Unmodelled end
  else ret 0.

(** The callback [getStats] hands to [traverseDFS]; the accumulator is
    [(totalSize, fileCount, dirCount)]. *)
Definition count_file (node : id) (acc : nat * nat * nat) : M (nat * nat * nat) :=
  let '(total, files, dirs) := acc in
  t <- deref node ;;
  if is_str (prop "type" t) "file" then
    size <- size_or_zero (prop "size" t) ;;
    ret (total + size, S files, dirs)
  else if is_str (prop "type" t) "dir" then ret (total, files, S dirs)
  else ret acc.

Definition getStats (fuel : nat) : M fs_stats :=
  stats <- TreeQuery.getStats fuel ;;
  acc <- TreeQuery.traverseDFS fuel count_file (0, 0, 0) ;;
  s <- get_state ;;
  let '(total, files, dirs) := acc in
  ret (mkFsStats stats total files dirs (map_size (_pathCache s))).

(** [this.clearCaches()] *)
Definition clearCaches : M unit := update_cache (fun _ => []).

(** [this.toJSON()] *)
Definition toJSON (fuel : nat) : M (option Tree.record) := TreeQuery.toJSON fuel.


(** *** Records and the store *)

(** The height of a record tree. *)
Fixpoint rdepth (r : Tree.record) : nat :=
  match r with
  | Tree.Rec _ _ chs =>
      S ((fix deepest (l : list Tree.record) : nat :=
            match l with
            | [] => 0
            | c :: l' => Nat.max (rdepth c) (deepest l')
            end) chs)
  end.

(** No property of the record tree bears the name of a slot of a node. *)
Fixpoint plain_record (r : Tree.record) : bool :=
  match r with
  | Tree.Rec _ properties chs =>
      forallb (fun kv => NodeQuery.exported (fst kv)) properties &&
      (fix all (l : list Tree.record) : bool :=
         match l with
         | [] => true
         | c :: l' => plain_record c && all l'
         end) chs
  end.

(** The nodes of the children of a node at [b], the first child at [c0]. *)
Fixpoint forest (b c0 : id) (l : list Tree.record) : list TreeNode :=
  match l with
  | [] => []
  | c :: l' => layout c0 (Some b) c ++ forest b (c0 + rsize c) l'
  end.


(** No string occurs twice. *)
Fixpoint distinct (l : list string) : bool :=
  match l with
  | [] => true
  | x :: l' => negb (existsb (String.eqb x) l') && distinct l'
  end.

(** Every key of the record tree is non-empty and no two children of a
    record bear the same key. *)
Fixpoint valid_record (r : Tree.record) : bool :=
  match r with
  | Tree.Rec k _ chs =>
      truthy_str k && distinct (List.map rkey chs) &&
      (fix all (l : list Tree.record) : bool :=
         match l with
         | [] => true
         | c :: l' => valid_record c && all l'
         end) chs
  end.


(** *** The nodes of a subtree *)

(** The nodes of the subtree of [n] in document order: a node before its
    children, the children from first to last.  The answer is [None] when
    the subtree is deeper than [fuel] or has a dangling reference. *)
Fixpoint subtree (fuel : nat) (h : heap) (n : id) : option (list id) :=
  match fuel with
  | 0 => None
  | S f =>
      match h !! n with
      | None => None
      | Some t =>
          match (fix each (l : list id) : option (list id) :=
                   match l with
                   | [] => Some []
                   | c :: l' =>
                       match subtree f h c, each l' with
                       | Some a, Some b => Some (a ++ b)
                       | _, _ => None
                       end
                   end) (children t) with
          | Some rest => Some (n :: rest)
          | None => None
          end
      end
  end.

(** The callback applied to the nodes of a list, one after the other. *)
Fixpoint visit {A} (callback : id -> A -> M A) (l : list id) (acc : A) : M A :=
  match l with
  | [] => ret acc
  | n :: l' => a <- callback n acc ;; visit callback l' a
  end.

(** The callback that records the nodes it is given. *)
Definition collect (n : id) (seen : list id) : M (list id) := ret (seen ++ [n]).

(** The pattern is within the fragment of regular expressions modelled. *)
Definition modelled (pattern : string) : bool :=
  literal pattern || match compile pattern with Some _ => true | None => false end.

(** The test of [search] on the key of node [i]. *)
Definition key_matches (pattern : string) (h : heap) (i : id) : bool :=
  match h !! i with
  | Some t => match matches_key pattern (key t) with Some b => b | None => false end
  | None => false
  end.


(** *** Growth of the tree *)

(** From [s] to [s'] the root stays, every node keeps its key and its
    parent, and every entry of a name index stays. *)
Definition grows (s s' : vfs) : Prop :=
  root s' = root s /\
  forall j x, nodes s !! j = Some x ->
    exists x', nodes s' !! j = Some x' /\ key x' = key x /\ parent x' = parent x /\
               forall k c, map_get k (_childrenMap x) = Some c ->
                           map_get k (_childrenMap x') = Some c.

(** The contents a write in append mode starts from: those of the file
    found under the name, none when the name is free.  [None] when the
    entry is no file or its contents are no string. *)
Definition contents_before (h : heap) (found : option id) : option string :=
  match found with
  | None => Some ""
  | Some node =>
      match h !! node with
      | Some t =>
          if is_str (prop "type" t) "file" then
            match prop "contents" t with
            | VStr x => Some x
            | v => if truthy v then None else Some ""
            end
          else None
      | None => None
      end
  end.


(** [/], holding [a/b], [c] and the file [f], after [/a/b] was resolved. *)
Definition example_cached : vfs := set_cache [("/a/b", Some 2)] example_fs.


(** From [s] to [s'] the root stays, no node changes its type and no entry
    of a name index is lost or changed. *)
Definition index_kept (s s' : vfs) : Prop :=
  root s' = root s /\
  forall j x, nodes s !! j = Some x ->
    exists x', nodes s' !! j = Some x' /\ prop "type" x' = prop "type" x /\
               forall k c, map_get k (_childrenMap x) = Some c ->
                           map_get k (_childrenMap x') = Some c.

(** Every node the cache of [s'] names, the cache of [s] names under the
    same path. *)
Definition cache_within (s' s : vfs) : Prop :=
  forall k v, map_get k (_pathCache s') = Some (Some v) ->
              map_get k (_pathCache s) = Some (Some v).

(** The command only adds to the name indices and only takes from the
    cache, whatever its outcome. *)
Definition adds {A} (m : M A) : Prop :=
  forall s, match m s with
            | Ok _ s' | Throw _ s' => index_kept s s' /\ cache_within s' s
            | Abort _ => True
            end.

(** The operations that detach a node or change a name. *)
Definition removes (r : request) : bool :=
  match r with
  | RemoveDirectory _ | RemoveFile _ | Rename _ _ | Move _ _ => true
  | _ => false
  end.


(** The node reached from [current] through the name indices along
    [segments], every node on the way being a directory. *)
Fixpoint descend (h : heap) (current : id) (segments : list string) : option id :=
  match segments with
  | [] => Some current
  | segment :: rest =>
      match h !! current with
      | Some t =>
          match map_get segment (_childrenMap t) with
          | Some e =>
              match h !! e with
              | Some te =>
                  if is_str (prop "type" te) "dir" then descend h e rest else None
              | None => None
              end
          | None => None
          end
      | None => None
      end
  end.


(** The non-empty segments of a path. *)
Definition segments_of (path : string) : list string :=
  List.filter truthy_str (js_split slash path).


(** The child [i] passes the filters of [ls]: it is not hidden unless
    [all] is set, a file if [filesOnly] is set, a directory if [dirsOnly]
    is set. *)
Definition shown (options : ls_options) (h : heap) (i : id) : bool :=
  match h !! i with
  | Some x =>
      (opt_all options || negb (startsWith (key x) ".")) &&
      (negb (opt_filesOnly options) || is_str (prop "type" x) "file") &&
      (negb (opt_dirsOnly options) || is_str (prop "type" x) "dir")
  | None => false
  end.

(** The key of node [i]. *)
Definition key_of (h : heap) (i : id) : string :=
  match h !! i with Some x => key x | None => "" end.


(** The parent chain of [n], from the node without parent at its top down
    to [n] itself.  The answer is [None] when the chain is longer than
    [fuel] or meets a dangling reference. *)
Fixpoint lineage (fuel : nat) (h : heap) (n : id) : option (list id) :=
  match fuel with
  | 0 => None
  | S f =>
      match h !! n with
      | None => None
      | Some t =>
          match parent t with
          | None => Some [n]
          | Some p =>
              match lineage f h p with
              | Some l => Some (l ++ [n])
              | None => None
              end
          end
      end
  end.


(** The children of the nodes of a list, in the order of the list. *)
Fixpoint next_generation (h : heap) (l : list id) : option (list id) :=
  match l with
  | [] => Some []
  | x :: l' =>
      match h !! x, next_generation h l' with
      | Some t, Some cs => Some (children t ++ cs)
      | _, _ => None
      end
  end.

(** The nodes below a list of nodes, generation by generation: the list
    itself, the children of its nodes, their children, and so on.  The
    answer is [None] when there are more than [fuel] generations or a
    reference dangles. *)
Fixpoint generations (fuel : nat) (h : heap) (l : list id) : option (list (list id)) :=
  match l with
  | [] => Some []
  | _ :: _ =>
      match fuel with
      | 0 => None
      | S f =>
          match next_generation h l with
          | Some cs =>
              match generations f h cs with
              | Some g => Some (l :: g)
              | None => None
              end
          | None => None
          end
      end
  end.


(** Node [i] has no children. *)
Definition is_leaf (h : heap) (i : id) : bool :=
  match h !! i with
  | Some t => Nat.eqb (length (children t)) 0
  | None => false
  end.

(** The [type] of node [i] is [ty]. *)
Definition has_type (ty : string) (h : heap) (i : id) : bool :=
  match h !! i with
  | Some t => is_str (prop "type" t) ty
  | None => false
  end.

(** What node [i] adds to [totalSize]: its [size] when it is a file. *)
Definition file_size (h : heap) (i : id) : nat :=
  match h !! i with
  | Some t =>
      if is_str (prop "type" t) "file"
      then match prop "size" t with VNum n => n | _ => 0 end
      else 0
  | None => 0
  end.

(** The [size] of node [i], when it is a file, is a number or falsy. *)
Definition sized (h : heap) (i : id) : bool :=
  match h !! i with
  | Some t =>
      negb (is_str (prop "type" t) "file") ||
      match prop "size" t with VNum _ => true | v => negb (truthy v) end
  | None => true
  end.

(** The number of parent links above node [i]. *)
Definition node_depth (fuel : nat) (h : heap) (i : id) : nat :=
  match lineage fuel h i with
  | Some l => length l - 1
  | None => 0
  end.

(** What [getStats] of the tree folds over the nodes. *)
Definition count_step (depth : nat) (h : heap) (st : TreeQuery.stats) (n : id)
    : TreeQuery.stats :=
  TreeQuery.mkStats (S (TreeQuery.nodeCount st))
    (Nat.max (TreeQuery.maxDepth st) (node_depth depth h n))
    (if is_leaf h n then S (TreeQuery.leafCount st) else TreeQuery.leafCount st).

(** What [getStats] of the file system folds over the nodes. *)
Definition file_step (h : heap) (acc : nat * nat * nat) (n : id) : nat * nat * nat :=
  let '(total, files, dirs) := acc in
  (total + file_size h n,
   if has_type "file" h n then S files else files,
   if has_type "dir" h n then S dirs else dirs).


(** The record of the subtree of node [n]: its key, its property bag and
    the records of its children in order.  The answer is [None] when the
    subtree is deeper than [fuel] or has a dangling reference. *)
Fixpoint record_at (fuel : nat) (h : heap) (n : id) : option Tree.record :=
  match fuel with
  | 0 => None
  | S f =>
      match h !! n with
      | None => None
      | Some t =>
          match (fix each (l : list id) : option (list Tree.record) :=
                   match l with
                   | [] => Some []
                   | c :: l' =>
                       match record_at f h c, each l' with
                       | Some r, Some rs => Some (r :: rs)
                       | _, _ => None
                       end
                   end) (children t) with
          | Some chs => Some (Tree.Rec (key t) (props t) chs)
          | None => None
          end
      end
  end.

(** No two children of a record bear the same key, at any level. *)
Fixpoint distinct_siblings (r : Tree.record) : bool :=
  match r with
  | Tree.Rec _ _ chs =>
      distinct (List.map rkey chs) &&
      (fix all (l : list Tree.record) : bool :=
         match l with
         | [] => true
         | c :: l' => distinct_siblings c && all l'
         end) chs
  end.

(** The number of nodes of a list of record trees. *)
Fixpoint rsizes (l : list Tree.record) : nat :=
  match l with
  | [] => 0
  | c :: l' => rsize c + rsizes l'
  end.


(** The identifier [getUid] draws when the counter is at [n - 1]. *)
Definition uid_of (clock : string) (n : nat) : string :=
  "UID-" +:+ clock +:+ "-" +:+ decimal n.

(** The property bag after [_updateNodeMetadata] has stamped it. *)
Definition stamp (uid clock user : string) (properties : list (string * jsval))
    : list (string * jsval) :=
  map_set "group" (VStr user)
    (map_set "user" (VStr user)
       (map_set "modified" (VStr clock)
          (map_set "uid" (VStr uid) properties))).

(** The record tree after [_updateNodeMetadata]: every node is stamped with
    the date, the user and an identifier of its own, drawn in document
    order from the counter. *)
Fixpoint restamp (clock user : string) (counter : nat) (r : Tree.record) : Tree.record :=
  match r with
  | Tree.Rec k properties chs =>
      Tree.Rec k (stamp (uid_of clock (S counter)) clock user properties)
        ((fix each (c : nat) (l : list Tree.record) : list Tree.record :=
            match l with
            | [] => []
            | x :: l' => restamp clock user c x :: each (c + rsize x) l'
            end) (S counter) chs)
  end.

Fixpoint restamp_all (clock user : string) (counter : nat) (l : list Tree.record)
    : list Tree.record :=
  match l with
  | [] => []
  | x :: l' => restamp clock user counter x :: restamp_all clock user (counter + rsize x) l'
  end.


(** ** The validator of [DebugUtils]

    [validateFilesystem(vfs)] walks the tree from the root with a set of
    the nodes it has seen and collects its complaints. *)

(** The answer of [validateFilesystem]. *)
Record validation : Type := mkValidation {
  isValid : bool;
  issues : list string
}.

(** The local function [validateNode]; the accumulator holds [issues] and
    [visited], the latter in the order in which the nodes were added. *)
Fixpoint validateNode (fuel : nat) (node : id) (path : string)
    (acc : list string * list id) : M (list string * list id) :=
  if existsb (Nat.eqb node) (snd acc) then
    ret (fst acc ++ ["Circular reference detected at " +:+ path], snd acc)
  else
    match fuel with
    | 0 => abort_with OutOfFuel
    | S f =>
        t <- deref node ;;
        let issues1 :=
          if truthy_str (key t) then fst acc
          else fst acc ++ ["Node missing key at " +:+ path] in
        issues2 <- match parent t with
                   | Some p =>
                       tp <- deref p ;;
                       ret (if existsb (Nat.eqb node) (children tp) then issues1
                            else issues1 ++ ["Orphaned node: " +:+ path])
                   | None => ret issues1
                   end ;;
        (fix each (l : list id) (acc : list string * list id)
             : M (list string * list id) :=
           match l with
           | [] => ret acc
           | child :: l' =>
               tc <- deref child ;;
               let issues3 :=
                 if decide (parent tc = Some node) then fst acc
                 else fst acc ++
                      ["Invalid parent reference at " +:+ path +:+ "/" +:+ key tc] in
               acc' <- validateNode f child (path +:+ "/" +:+ key tc)
                         (issues3, snd acc) ;;
               each l' acc'
           end) (children t) (issues2, snd acc ++ [node])
    end.

Definition validateFilesystem (fuel : nat) : M validation :=
  s <- get_state ;;
  match root s with
  | Some r =>
      acc <- validateNode fuel r "" ([], []) ;;
      ret (mkValidation (Nat.eqb (length (fst acc)) 0) (fst acc))
  | None => ret (mkValidation true [])
  end.


(** ** The helpers of the [size] command

    [_calculateSize(node)] and [_countFiles(node)] walk the children arrays
    themselves. *)

Fixpoint _calculateSize (fuel : nat) (node : id) : M nat :=
  match fuel with
  | 0 => abort_with OutOfFuel
  | S f =>
      t <- deref node ;;
      if is_str (prop "type" t) "file" then size_or_zero (prop "size" t)
      else
        (fix each (l : list id) (totalSize : nat) : M nat :=
           match l with
           | [] => ret totalSize
           | child :: l' =>
               n <- _calculateSize f child ;;
               each l' (totalSize + n)
           end) (children t) 0
  end.

(** The answer is [(files, dirs)]. *)
Fixpoint _countFiles (fuel : nat) (node : id) : M (nat * nat) :=
  match fuel with
  | 0 => abort_with OutOfFuel
  | S f =>
      t <- deref node ;;
      (fix each (l : list id) (files dirs : nat) : M (nat * nat) :=
         match l with
         | [] => ret (files, dirs)
         | child :: l' =>
             tc <- deref child ;;
             if is_str (prop "type" tc) "dir" then
               subCount <- _countFiles f child ;;
               each l' (files + fst subCount) (S dirs + snd subCount)
             else each l' (S files) dirs
         end) (children t) 0 0
  end.

(** Node [i] is a directory, or a file without children. *)
Definition tidy (h : heap) (i : id) : bool :=
  has_type "dir" h i || (has_type "file" h i && is_leaf h i).


(** * Properties *)

(** ** Patterns *)

Lemma syntax_char_false c :
  syntax_char c = false ->
  Ascii.eqb c "\"%char = false /\ Ascii.eqb c dot = false /\ Ascii.eqb c star = false.
Proof.
  unfold syntax_char. simpl. intros H.
  repeat (apply orb_false_elim in H; destruct H as [? H]).
  repeat split; assumption.
Qed.

Lemma tokenize_plain p :
  plain p = true ->
  tokenize (expand_stars (escape_dots p)) = Some (tokens_of p).
Proof.
  induction p as [|c p IH]; [reflexivity|].
  unfold plain. simpl. intros H. apply andb_true_iff in H as [Hc Hp].
  specialize (IH Hp).
  destruct (Ascii.eqb c dot) eqn:Ed.
  - apply Ascii.eqb_eq in Ed. subst c. simpl. rewrite IH. reflexivity.
  - simpl. destruct (Ascii.eqb c star) eqn:Es.
    + apply Ascii.eqb_eq in Es. subst c. simpl. rewrite IH. reflexivity.
    + simpl in Hc. apply negb_true_iff in Hc.
      destruct (syntax_char_false c Hc) as (Hb & _ & _).
      simpl. rewrite Hb, Ed, Es, Hc, IH. reflexivity.
Qed.

Lemma group_tokens_of p : group (tokens_of p) = Some (terms_of p).
Proof.
  induction p as [|c p IH]; [reflexivity|].
  simpl. destruct (Ascii.eqb c star).
  - simpl. rewrite IH. reflexivity.
  - change (match tokens_of p with
            | TStar :: ts2 => cons (Many (Lit c)) <$> group ts2
            | _ => cons (One (Lit c)) <$> group (tokens_of p)
            end = Some (One (Lit c) :: terms_of p)).
    rewrite IH.
    destruct p as [|d p]; [reflexivity|].
    simpl. destruct (Ascii.eqb d star); reflexivity.
Qed.

Lemma compile_plain p : plain p = true -> compile p = Some (terms_of p).
Proof.
  intros H. unfold compile. rewrite (tokenize_plain p H). apply group_tokens_of.
Qed.

Lemma accepts_terms_of p : forall s, accepts (terms_of p) s = glob_line p s.
Proof.
  induction p as [|c p IH]; intros s; [reflexivity|].
  simpl. destruct (Ascii.eqb c star).
  - induction s as [|d s IHs].
    + simpl. rewrite IH. reflexivity.
    + cbn [atom_matches] in *. rewrite IH. f_equal. f_equal. exact IHs.
  - destruct s as [|d s]; [reflexivity|]. simpl. rewrite IH. reflexivity.
Qed.

Lemma glob_line_star s : line_free s = true -> glob_line "*" s = true.
Proof.
  induction s as [|d s IH]; [reflexivity|].
  unfold line_free. simpl. intros H. apply andb_true_iff in H as [Hd Hs].
  rewrite Hd. simpl. simpl in IH. rewrite (IH Hs). reflexivity.
Qed.

(** C7, as the code has it.  A literal pattern matches exactly the equal
    name.  A pattern with [*] or [.] whose other characters are no
    regular-expression syntax matches as the matcher in which [*] stands for
    zero or more characters other than line terminators and every other
    character, [.] included, stands for itself.  The pattern [*] matches
    every name free of line terminators. *)
Theorem C7_pattern_semantics (pattern k : string) :
  (literal pattern = true -> (matches_key pattern k = Some true <-> k = pattern)) /\
  (literal pattern = false -> plain pattern = true ->
   matches_key pattern k = Some (glob_line pattern k)) /\
  (line_free k = true -> matches_key "*" k = Some true).
Proof.
  split; [|split].
  - intros Hl. unfold matches_key. fold (literal pattern). rewrite Hl. split.
    + intros [= H]. apply String.eqb_eq. exact H.
    + intros ->. rewrite String.eqb_refl. reflexivity.
  - intros Hl Hp. unfold matches_key. fold (literal pattern). rewrite Hl.
    rewrite (compile_plain pattern Hp), accepts_terms_of. reflexivity.
  - intros Hk. unfold matches_key. simpl.
    change (Some (accepts (terms_of "*") k) = Some true).
    rewrite accepts_terms_of, (glob_line_star k Hk). reflexivity.
Qed.

Lemma C7_pattern_semantics_witness :
  matches_key "a*.txt" "ab.txt" = Some true /\
  (matches_key "file" "file" = Some true) /\
  matches_key "*" "notes.md" = Some true.
Proof.
  split; [|split].
  - destruct (C7_pattern_semantics "a*.txt" "ab.txt") as (_ & H & _).
    rewrite H by reflexivity. reflexivity.
  - destruct (C7_pattern_semantics "file" "file") as (H & _ & _).
    apply H; reflexivity.
  - destruct (C7_pattern_semantics "*" "notes.md") as (_ & _ & H).
    apply H. reflexivity.
Defined.

(** C7 as the specification words it fails: the pattern [*] does not match a
    name that holds a line feed, although the matcher of the specification
    accepts it. *)
Lemma C7_star_rejects_newline :
  matches_key "*" newline = Some false /\ glob "*" newline = true.
Proof. split; reflexivity. Qed.

(** ** The store and the monad *)

Lemma deref_ok i n s : nodes s !! i = Some n -> deref i s = Ok n s.
Proof. intros H. unfold deref. rewrite H. reflexivity. Qed.

Lemma modify_ok i f n s :
  nodes s !! i = Some n -> modify i f s = Ok tt (set_nodes (alter f i (nodes s)) s).
Proof. intros H. unfold modify. rewrite H. reflexivity. Qed.

Lemma lookup_fresh (h : heap) n : (h ++ [n]) !! length h = Some n.
Proof. rewrite lookup_app_r by lia. rewrite Nat.sub_diag. reflexivity. Qed.

Lemma lookup_old (h : heap) n i x : h !! i = Some x -> (h ++ [n]) !! i = Some x.
Proof. intros H. rewrite lookup_app_l; [exact H|]. eapply lookup_lt_Some, H. Qed.

Lemma lookup_alter_eq (h : heap) f i x :
  h !! i = Some x -> alter f i h !! i = Some (f x).
Proof. intros H. rewrite list_lookup_alter_eq, H. reflexivity. Qed.

Lemma lookup_alter_other (h : heap) f i j :
  i <> j -> alter f i h !! j = h !! j.
Proof. intros H. apply list_lookup_alter_ne, H. Qed.

Lemma map_has_get {V} k (m : jsmap V) : map_get k m = None -> map_has k m = false.
Proof. unfold map_has. intros ->. reflexivity. Qed.

Lemma map_get_set_eq {V} k (v : V) m : map_get k (map_set k v m) = Some v.
Proof.
  induction m as [|[k' v'] m IH]; simpl.
  - rewrite String.eqb_refl. reflexivity.
  - destruct (String.eqb k k') eqn:E; simpl; rewrite ?String.eqb_refl, ?E; auto.
Qed.

Lemma map_get_set_ne {V} k k' (v : V) m :
  k <> k' -> map_get k' (map_set k v m) = map_get k' m.
Proof.
  intros Hne. induction m as [|[k2 v2] m IH]; simpl.
  - destruct (String.eqb k' k) eqn:E; [apply String.eqb_eq in E; congruence|reflexivity].
  - destruct (String.eqb k k2) eqn:E; simpl.
    + apply String.eqb_eq in E. subst k2.
      destruct (String.eqb k' k) eqn:E2; [apply String.eqb_eq in E2; congruence|reflexivity].
    + rewrite IH. reflexivity.
Qed.

Lemma map_get_delete_eq {V} k (m : jsmap V) : map_get k (map_delete k m) = None.
Proof.
  induction m as [|[k' v'] m IH]; simpl; [reflexivity|].
  destruct (String.eqb k k') eqn:E; simpl; rewrite ?E; auto.
Qed.

Lemma map_get_delete_ne {V} k k' (m : jsmap V) :
  k <> k' -> map_get k' (map_delete k m) = map_get k' m.
Proof.
  intros Hne. induction m as [|[k2 v2] m IH]; simpl; [reflexivity|].
  destruct (String.eqb k k2) eqn:E; simpl.
  - apply String.eqb_eq in E. subst k2.
    destruct (String.eqb k' k) eqn:E2; [apply String.eqb_eq in E2; congruence|exact IH].
  - rewrite IH. reflexivity.
Qed.

Lemma insert_ok this child nt nc s :
  nodes s !! this = Some nt ->
  nodes s !! child = Some nc ->
  map_has (key nc) (_childrenMap nt) = false ->
  Node.insert this child s = Ok tt (set_nodes (inserted this child (key nc) (nodes s)) s).
Proof.
  intros Ht Hc Hfree. unfold Node.insert.
  unfold bind at 1. rewrite (deref_ok _ _ _ Hc).
  unfold bind at 1. rewrite (deref_ok _ _ _ Ht).
  rewrite Hfree.
  unfold bind at 1. rewrite (modify_ok _ _ _ _ Ht).
  unfold bind at 1. unfold modify at 1. cbn [nodes set_nodes].
  rewrite (lookup_alter_eq _ _ _ _ Ht).
  unfold modify. cbn [nodes set_nodes].
  destruct (decide (this = child)) as [->|Hne].
  - rewrite !list_lookup_alter_eq, Hc. reflexivity.
  - rewrite !lookup_alter_other by exact Hne. rewrite Hc. reflexivity.
Qed.

Lemma insert_dup this child nt nc s :
  nodes s !! this = Some nt ->
  nodes s !! child = Some nc ->
  map_has (key nc) (_childrenMap nt) = true ->
  Node.insert this child s = Throw DuplicateName s.
Proof.
  intros Ht Hc Hdup. unfold Node.insert.
  unfold bind at 1. rewrite (deref_ok _ _ _ Hc).
  unfold bind at 1. rewrite (deref_ok _ _ _ Ht).
  rewrite Hdup. reflexivity.
Qed.

Lemma inserted_lookup_child (h : heap) this child k nc :
  this <> child -> h !! child = Some nc ->
  inserted this child k h !! child = Some (set_parent (Some this) nc).
Proof.
  intros Hne Hc. unfold inserted.
  apply lookup_alter_eq. rewrite !lookup_alter_other by exact Hne. exact Hc.
Qed.

Lemma inserted_lookup_this (h : heap) this child k nt :
  this <> child -> h !! this = Some nt ->
  inserted this child k h !! this =
  Some (set_childrenMap (map_set k child (_childrenMap nt))
          (set_children (children nt ++ [child]) nt)).
Proof.
  intros Hne Ht. unfold inserted.
  rewrite lookup_alter_other by congruence.
  rewrite (lookup_alter_eq _ _ _ _ (lookup_alter_eq _ _ _ _ Ht)). reflexivity.
Qed.

Lemma inserted_lookup_self (h : heap) a k na :
  h !! a = Some na ->
  inserted a a k h !! a =
  Some (set_parent (Some a)
          (set_childrenMap (map_set k a (_childrenMap na))
             (set_children (children na ++ [a]) na))).
Proof.
  intros Ha. unfold inserted.
  rewrite (lookup_alter_eq _ _ _ _
             (lookup_alter_eq _ _ _ _ (lookup_alter_eq _ _ _ _ Ha))).
  reflexivity.
Qed.

Lemma inserted_lookup_other (h : heap) this child k j :
  j <> this -> j <> child -> inserted this child k h !! j = h !! j.
Proof.
  intros H1 H2. unfold inserted. rewrite !lookup_alter_other by congruence. reflexivity.
Qed.

Lemma bind_eq {A B} (m : M A) (f : A -> M B) s a s1 r :
  m s = Ok a s1 -> f a s1 = r -> bind m f s = r.
Proof. intros H1 H2. unfold bind. rewrite H1. exact H2. Qed.

Lemma bind_throw {A B} (m : M A) (f : A -> M B) s e s1 :
  m s = Throw e s1 -> bind m f s = Throw e s1.
Proof. intros H1. unfold bind. rewrite H1. reflexivity. Qed.

Arguments decimal : simpl never.

(** Run the first command of a sequence. *)
Ltac nf :=
  cbn [nodes root cwd _pathCache _maxCacheSize _uidCounter user clock
       set_nodes set_root set_cwd set_cache set_uidCounter
       key parent children _childrenMap props new_TreeNode].
Ltac step_with tac := nf; eapply bind_eq; [ tac | cbv beta; nf ].
Ltac step := step_with ltac:(reflexivity).

(** Find a node in a store built by [alter], [inserted] and allocation. *)
Ltac lk :=
  nf;
  first
    [ eassumption
    | apply lookup_fresh
    | eapply lookup_alter_eq; lk
    | rewrite lookup_alter_other by lia; lk
    | eapply inserted_lookup_child; [lia | lk]
    | eapply inserted_lookup_this; [lia | lk]
    | rewrite inserted_lookup_other by lia; lk
    | apply lookup_old; lk ].

Ltac step_deref := step_with ltac:(apply deref_ok; lk).
Ltac step_modify := step_with ltac:(eapply modify_ok; lk).

Lemma getUid_run s :
  getUid s = Ok (VStr ("UID-" +:+ clock s +:+ "-" +:+ decimal (S (_uidCounter s))))
                (set_uidCounter (S (_uidCounter s)) s).
Proof. reflexivity. Qed.

Lemma findChild_run this k nt s :
  nodes s !! this = Some nt ->
  Node.findChild this k s = Ok (map_get k (_childrenMap nt)) s.
Proof. intros H. unfold Node.findChild. step_with ltac:(apply deref_ok, H). reflexivity. Qed.

Lemma invalidate_run path s :
  _invalidatePathCache path s =
  Ok tt (set_cache (invalidate_parents (length (js_split slash path) - 1)
                      (js_split slash path) (map_delete path (_pathCache s))) s).
Proof. reflexivity. Qed.



(** ** Commands that leave the tree alone *)

Lemma same_tree_refl s : same_tree s s.
Proof. unfold same_tree. tauto. Qed.

Lemma same_tree_trans s1 s2 s3 : same_tree s1 s2 -> same_tree s2 s3 -> same_tree s1 s3.
Proof. unfold same_tree. intuition congruence. Qed.

Lemma same_tree_set_cache c s : same_tree s (set_cache c s).
Proof. unfold same_tree. cbn. tauto. Qed.

Lemma pure_read_only {A} (m : M A) : pure_command m -> read_only m.
Proof.
  intros H s. specialize (H s). destruct (m s); subst; auto using same_tree_refl.
Qed.

Lemma pure_ret {A} (a : A) : pure_command (ret a).
Proof. intros s. reflexivity. Qed.
Lemma pure_throw {A} e : pure_command (@throw A e).
Proof. intros s. reflexivity. Qed.
Lemma pure_abort {A} r : pure_command (@abort_with A r).
Proof. intros s. exact I. Qed.
Lemma pure_get_state : pure_command get_state.
Proof. intros s. reflexivity. Qed.
Lemma pure_deref i : pure_command (deref i).
Proof. intros s. unfold deref. destruct (nodes s !! i); auto. Qed.
Lemma pure_nonnull o : pure_command (nonnull o).
Proof. destruct o; [apply pure_ret | apply pure_throw]. Qed.

Lemma pure_bind {A B} (m : M A) (f : A -> M B) :
  pure_command m -> (forall a, pure_command (f a)) -> pure_command (bind m f).
Proof.
  intros Hm Hf s. unfold bind. specialize (Hm s).
  destruct (m s) as [a s1|e s1|r]; subst; auto. apply Hf.
Qed.

Lemma read_only_bind {A B} (m : M A) (f : A -> M B) :
  read_only m -> (forall a, read_only (f a)) -> read_only (bind m f).
Proof.
  intros Hm Hf s. unfold bind. specialize (Hm s).
  destruct (m s) as [a s1|e s1|r]; auto.
  specialize (Hf a s1). destruct (f a s1); eauto using same_tree_trans.
Qed.

Lemma read_only_update_cache f : read_only (update_cache f).
Proof. intros s. cbn. apply same_tree_set_cache. Qed.

Section Throws.
Context (P : error -> Prop).

Lemma throws_ret {A} (a : A) : throws_only P (ret a).
Proof. intros s e s'. discriminate. Qed.
Lemma throws_abort {A} r : throws_only P (@abort_with A r).
Proof. intros s e s'. discriminate. Qed.
Lemma throws_get_state : throws_only P get_state.
Proof. intros s e s'. discriminate. Qed.
Lemma throws_update_cache f : throws_only P (update_cache f).
Proof. intros s e s'. discriminate. Qed.
Lemma throws_assign_cwd c : throws_only P (assign_cwd c).
Proof. intros s e s'. discriminate. Qed.
Lemma throws_assign_root r : throws_only P (assign_root r).
Proof. intros s e s'. discriminate. Qed.
Lemma throws_getUid : throws_only P getUid.
Proof. intros s e s'. discriminate. Qed.
Lemma throws_getDate : throws_only P getDate.
Proof. intros s e s'. discriminate. Qed.
Lemma throws_deref i : throws_only P (deref i).
Proof. intros s e s'. unfold deref. destruct (nodes s !! i); discriminate. Qed.
Lemma throws_modify i f : throws_only P (modify i f).
Proof. intros s e s'. unfold modify. destruct (nodes s !! i); discriminate. Qed.
Lemma throws_alloc n : throws_only P (alloc n).
Proof. intros s e s'. discriminate. Qed.
Lemma throws_the_error {A} e : P e -> throws_only P (@throw A e).
Proof. intros H s e' s' [= <- _]. exact H. Qed.

Lemma throws_bind {A B} (m : M A) (f : A -> M B) :
  throws_only P m -> (forall a, throws_only P (f a)) -> throws_only P (bind m f).
Proof.
  intros Hm Hf s e s'. unfold bind.
  destruct (m s) as [a s1|e1 s1|r] eqn:E; [apply Hf | | discriminate].
  intros [= <- _]. exact (Hm _ _ _ E).
Qed.

Lemma throws_ret_bind {A B} (a : A) (f : A -> M B) :
  throws_only P (f a) -> throws_only P (bind (ret a) f).
Proof. intros H s e s'. apply H. Qed.

Lemma fail_safe_read_only {A} (m : M A) : read_only m -> fail_safe P m.
Proof. intros H s e s' E. specialize (H s). rewrite E in H. right. exact H. Qed.

Lemma fail_safe_throws {A} (m : M A) : throws_only P m -> fail_safe P m.
Proof. intros H s e s' E. left. exact (H _ _ _ E). Qed.

Lemma fail_safe_at_bind {A B} (m : M A) (f : A -> M B) s :
  read_only m ->
  (forall a s1, m s = Ok a s1 -> fail_safe_at P (f a) s1) ->
  fail_safe_at P (bind m f) s.
Proof.
  intros Hm Hf e s'. unfold bind. specialize (Hm s).
  destruct (m s) as [a s1|e1 s1|r] eqn:E; [| |discriminate].
  - intros E'. destruct (Hf a s1 eq_refl _ _ E') as [?|?]; [left; assumption|].
    right. eapply same_tree_trans; eassumption.
  - intros [= <- <-]. right. exact Hm.
Qed.

Lemma fail_safe_bind {A B} (m : M A) (f : A -> M B) :
  read_only m -> (forall a, fail_safe P (f a)) -> fail_safe P (bind m f).
Proof. intros Hm Hf s. apply fail_safe_at_bind; [exact Hm|]. intros. apply Hf. Qed.

(** The first command succeeds and nothing after it can fail. *)
Lemma fail_safe_at_run {A B} (m : M A) (f : A -> M B) s a s1 :
  m s = Ok a s1 -> throws_only P (f a) -> fail_safe_at P (bind m f) s.
Proof.
  intros E H e s'. unfold bind. rewrite E. intros E'. left. exact (H _ _ _ E').
Qed.
End Throws.

Create HintDb vfs_pure.
#[export] Hint Resolve pure_ret pure_throw pure_abort pure_get_state pure_deref
  pure_nonnull : vfs_pure.

(** Decompose a command along its binds and case distinctions. *)
Ltac is_pure :=
  repeat first
    [ solve [auto with vfs_pure]
    | apply pure_bind; [ | intros ]
    | match goal with
      | |- pure_command (if ?b then _ else _) => destruct b
      | |- pure_command (match ?x with _ => _ end) => destruct x
      end ].

Lemma pure_findChild this k : pure_command (Node.findChild this k).
Proof. unfold Node.findChild. is_pure. Qed.
Lemma pure_hasChild this k : pure_command (Node.hasChild this k).
Proof. unfold Node.hasChild. is_pure. Qed.
#[export] Hint Resolve pure_findChild pure_hasChild : vfs_pure.

Lemma pure_isAncestorOf_loop fuel this : forall current,
  pure_command (Node.isAncestorOf_loop fuel this current).
Proof.
  induction fuel as [|f IH]; intros current; simpl; is_pure; apply IH.
Qed.

Lemma pure_isAncestorOf fuel this node : pure_command (Node.isAncestorOf fuel this node).
Proof. unfold Node.isAncestorOf. is_pure. apply pure_isAncestorOf_loop. Qed.

Lemma pure_path_up n : forall current acc, pure_command (path_up n current acc).
Proof.
  induction n as [|n IH]; intros current acc; simpl; is_pure; apply IH.
Qed.
#[export] Hint Resolve pure_isAncestorOf pure_path_up : vfs_pure.

Lemma pure_absolute_path fuel node : pure_command (_absolute_path fuel node).
Proof. unfold _absolute_path. is_pure. Qed.
#[export] Hint Resolve pure_absolute_path : vfs_pure.

Lemma pure_normalizePath fuel path : pure_command (_normalizePath fuel path).
Proof. unfold _normalizePath. is_pure. Qed.

Lemma pure_walk segments : forall current seen, pure_command (walk current seen segments).
Proof.
  induction segments as [|seg rest IH]; intros current seen; simpl; is_pure; apply IH.
Qed.
#[export] Hint Resolve pure_normalizePath pure_walk : vfs_pure.

Lemma pure_resolvePathUncached p : pure_command (_resolvePathUncached p).
Proof. unfold _resolvePathUncached. is_pure. Qed.
#[export] Hint Resolve pure_resolvePathUncached : vfs_pure.

Create HintDb vfs_ro.
#[export] Hint Resolve read_only_update_cache : vfs_ro.

Ltac is_ro :=
  repeat first
    [ solve [auto with vfs_ro]
    | apply pure_read_only; solve [is_pure]
    | apply read_only_bind; [ | intros ]
    | match goal with
      | |- read_only (if ?b then _ else _) => destruct b
      | |- read_only (match ?x with _ => _ end) => destruct x
      end ].

Lemma read_only_resolve_path fuel path : read_only (_resolve_path fuel path).
Proof. unfold _resolve_path. is_ro. Qed.
#[export] Hint Resolve read_only_resolve_path : vfs_ro.

Lemma read_only_resolve_target fuel x : read_only (resolve_target fuel x).
Proof. unfold resolve_target. is_ro. Qed.
#[export] Hint Resolve read_only_resolve_target : vfs_ro.

Lemma read_only_invalidate path : read_only (_invalidatePathCache path).
Proof. unfold _invalidatePathCache. is_ro. Qed.
#[export] Hint Resolve read_only_invalidate : vfs_ro.

Create HintDb vfs_nt.
#[export] Hint Resolve throws_ret throws_abort throws_get_state throws_update_cache
  throws_assign_cwd throws_assign_root throws_getUid throws_getDate
  throws_deref throws_modify throws_alloc : vfs_nt.

Ltac is_nt :=
  repeat first
    [ solve [auto with vfs_nt]
    | apply throws_the_error; solve [auto]
    | apply throws_bind; [ | intros ]
    | match goal with
      | |- throws_only _ (if ?b then _ else _) => destruct b
      | |- throws_only _ (match ?x with _ => _ end) => destruct x
      end ].

Lemma throws_invalidate P path : throws_only P (_invalidatePathCache path).
Proof. unfold _invalidatePathCache. is_nt. Qed.

Lemma throws_Node_delete P this child : throws_only P (Node.delete this child).
Proof. unfold Node.delete. is_nt. Qed.

Lemma throws_Node_insert this child :
  throws_only (eq DuplicateName) (Node.insert this child).
Proof. unfold Node.insert. is_nt. Qed.
#[export] Hint Resolve throws_invalidate throws_Node_delete throws_Node_insert : vfs_nt.

Lemma throws_Tree_delete P fuel n : throws_only P (Tree.delete fuel (Tree.RefNode n)).
Proof.
  unfold Tree.delete. apply throws_ret_bind. cbv beta iota. is_nt.
Qed.

Lemma throws_path_up P n : forall current acc, throws_only P (path_up n current acc).
Proof.
  induction n as [|n IH]; intros current acc; simpl; is_nt; apply IH.
Qed.
#[export] Hint Resolve throws_Tree_delete throws_path_up : vfs_nt.

Lemma throws_absolute_path P fuel node : throws_only P (_absolute_path fuel node).
Proof. unfold _absolute_path. is_nt. Qed.

Lemma throws_contents_string P v : throws_only P (contents_string v).
Proof. unfold contents_string. is_nt. Qed.
#[export] Hint Resolve throws_absolute_path throws_contents_string : vfs_nt.

Ltac is_fs :=
  repeat first
    [ apply fail_safe_read_only; solve [is_ro]
    | apply fail_safe_throws; solve [is_nt]
    | apply fail_safe_bind; [ solve [is_ro] | intros ]
    | match goal with
      | |- fail_safe _ (if ?b then _ else _) => destruct b
      | |- fail_safe _ (match ?x with _ => _ end) => destruct x
      | |- fail_safe _ (bind (match ?x with _ => _ end) _) => destruct x
      end ].

Lemma fail_safe_rmdir fuel path : fail_safe no_error (rmdir fuel path).
Proof. unfold rmdir. is_fs. Qed.

Lemma fail_safe_cd fuel path : fail_safe no_error (cd fuel path).
Proof. unfold cd. is_fs. Qed.

Lemma fail_safe_rm fuel path : fail_safe no_error (rm fuel path).
Proof. unfold rm. is_fs. Qed.

Lemma fail_safe_rn fuel oldPath newName : fail_safe no_error (rn fuel oldPath newName).
Proof. unfold rn. is_fs. Qed.

Lemma fail_safe_mv fuel source destination :
  fail_safe (eq DuplicateName) (mv fuel source destination).
Proof. unfold mv. is_fs. Qed.

Lemma read_only_ls fuel le path options : read_only (ls fuel le path options).
Proof. unfold ls. is_ro. Qed.

Lemma pure_pwd fuel : pure_command (pwd fuel).
Proof. unfold pwd. is_pure. Qed.

(** ** [mkdir] and [cat]: creation cannot fail *)

Lemma fail_safe_at_of {A} P (m : M A) s : fail_safe P m -> fail_safe_at P m s.
Proof. intros H. apply H. Qed.

(** Creating the directory [seg] under [c], where the name is free. *)
Lemma mkdir_loop_create c nc seg rest s :
  nodes s !! c = Some nc ->
  map_get seg (_childrenMap nc) = None ->
  mkdir_loop (Some c) (seg :: rest) s =
  mkdir_loop (Some (length (nodes s))) rest
    (set_nodes
       (inserted c (length (nodes s)) seg
          (nodes s ++
           [new_TreeNode seg
              (dir_props (VStr ("UID-" +:+ clock s +:+ "-" +:+ decimal (S (_uidCounter s))))
                         (VStr (clock s)) (user s))]))
       (set_uidCounter (S (_uidCounter s)) s)).
Proof.
  intros Hc Hfree. pose proof (lookup_lt_Some _ _ _ Hc) as Hlt.
  cbn [mkdir_loop].
  step. step_with ltac:(apply findChild_run, Hc). rewrite Hfree.
  step_with ltac:(apply getUid_run). step. step. step.
  step_with ltac:(eapply insert_ok;
                  [lk | lk | cbn [key new_TreeNode]; apply map_has_get, Hfree]).
  reflexivity.
Qed.

Lemma mkdir_loop_fresh rest : forall c nc s e s',
  nodes s !! c = Some nc -> _childrenMap nc = [] ->
  mkdir_loop (Some c) rest s <> Throw e s'.
Proof.
  induction rest as [|seg rest IH]; intros c nc s e s' Hc Hempty; [discriminate|].
  pose proof (lookup_lt_Some _ _ _ Hc) as Hlt.
  rewrite (mkdir_loop_create c nc seg rest s Hc) by (rewrite Hempty; reflexivity).
  eapply IH; [lk | reflexivity].
Qed.

Lemma mkdir_loop_fail_safe segments : forall current s e s',
  mkdir_loop current segments s = Throw e s' -> s' = s.
Proof.
  induction segments as [|seg rest IH]; intros current s e s' H; [discriminate|].
  destruct current as [c|]; [|cbn in H; congruence].
  destruct (nodes s !! c) as [nc|] eqn:Hc.
  2: { cbn [mkdir_loop] in H. unfold bind at 1 in H. cbn [nonnull ret] in H.
       unfold bind at 1, Node.findChild at 1, bind at 1, deref at 1 in H.
       rewrite Hc in H. discriminate. }
  destruct (map_get seg (_childrenMap nc)) as [x|] eqn:Hget.
  - assert (E : mkdir_loop (Some c) (seg :: rest) s =
                (t <- deref x ;;
                 if is_str (prop "type" t) "dir" then mkdir_loop (Some x) rest
                 else throw NotADirectory) s).
    { cbn [mkdir_loop]. step. step_with ltac:(apply findChild_run, Hc).
      rewrite Hget. reflexivity. }
    rewrite E in H. unfold bind, deref in H.
    destruct (nodes s !! x); [|discriminate].
    destruct (is_str _ _); [eapply IH, H | unfold throw in H; congruence].
  - rewrite (mkdir_loop_create c nc seg rest s Hc Hget) in H.
    pose proof (lookup_lt_Some _ _ _ Hc) as Hlt.
    exfalso. eapply mkdir_loop_fresh; [| |exact H]; [lk | reflexivity].
Qed.

Lemma fail_safe_mkdir path : fail_safe no_error (mkdir path).
Proof.
  intros s e s' H. right. unfold mkdir in H.
  destruct (negb (truthy_str path)); [injection H as _ <-; apply same_tree_refl|].
  unfold bind at 1 in H. cbn [get_state] in H. unfold bind at 1 in H.
  destruct (mkdir_loop _ _ s) as [u s1|e1 s1|r] eqn:E; [|injection H as _ <-|discriminate].
  - exfalso. exact (throws_invalidate no_error _ _ _ _ H).
  - apply mkdir_loop_fail_safe in E. subst s1. apply same_tree_refl.
Qed.

(** Creating the file [name] under [p], where the name is free. *)
Lemma cat_create_run (p : id) np name s :
  nodes s !! p = Some np ->
  map_get name (_childrenMap np) = None ->
  (modified <- getDate ;;
   uid <- getUid ;;
   s0 <- get_state ;;
   node <- alloc (new_TreeNode name (file_props modified uid (user s0))) ;;
   Node.insert p node ;;;
   ret node) s =
  Ok (length (nodes s))
    (set_nodes
       (inserted p (length (nodes s)) name
          (nodes s ++
           [new_TreeNode name
              (file_props (VStr (clock s))
                 (VStr ("UID-" +:+ clock s +:+ "-" +:+ decimal (S (_uidCounter s))))
                 (user s))]))
       (set_uidCounter (S (_uidCounter s)) s)).
Proof.
  intros Hp Hfree. pose proof (lookup_lt_Some _ _ _ Hp) as Hlt.
  step. step_with ltac:(apply getUid_run). step. step.
  step_with ltac:(eapply insert_ok;
                  [lk | lk | cbn [key new_TreeNode]; apply map_has_get, Hfree]).
  reflexivity.
Qed.

Lemma fail_safe_cat fuel mode path contents :
  fail_safe no_error (cat fuel mode path contents).
Proof.
  unfold cat. destruct (negb (truthy_str path)); [is_fs|].
  intros s. apply fail_safe_at_bind; [is_ro|]. intros parent s1 _.
  apply fail_safe_at_bind; [is_ro|]. intros p s2 _.
  apply fail_safe_at_bind; [is_ro|]. intros found s3 Hfound.
  destruct (truthy_str mode); [|apply fail_safe_at_of; is_fs].
  destruct found as [node|].
  - apply fail_safe_at_of. is_fs.
  - unfold Node.findChild, bind, deref, ret in Hfound.
    destruct (nodes s2 !! p) as [np|] eqn:Hp; [|discriminate].
    injection Hfound as Hget <-.
    eapply fail_safe_at_run; [apply (cat_create_run p np); [exact Hp|]|].
    + destruct (map_get _ _); [discriminate|reflexivity].
    + is_nt.
Qed.

(** ** [search] reads, [clone] only allocates *)

Lemma pure_search fuel pattern : forall this, pure_command (Node.search fuel pattern this).
Proof.
  induction fuel as [|f IH]; intros this; cbn [Node.search]; [apply pure_abort|].
  apply pure_bind; [apply pure_deref|]. intros t.
  apply pure_bind; [is_pure|]. intros here.
  apply pure_bind; [|intros; apply pure_ret].
  induction (children t) as [|c l IHl]; [apply pure_ret|].
  apply pure_bind; [apply IH|]. intros r.
  apply pure_bind; [exact IHl|]. intros; apply pure_ret.
Qed.
#[export] Hint Resolve pure_search : vfs_pure.

Lemma pure_Tree_search fuel k : pure_command (Tree.search fuel k).
Proof. unfold Tree.search. is_pure. Qed.
#[export] Hint Resolve pure_Tree_search : vfs_pure.

Lemma pure_whereis fuel query : pure_command (whereis fuel query).
Proof. unfold whereis. is_pure. Qed.

Lemma same_tree_kept s s' : same_tree s s' -> tree_kept s s'.
Proof.
  unfold same_tree, tree_kept. intros (H & ?). rewrite H.
  split; [exists []; symmetry; apply app_nil_r | assumption].
Qed.

Lemma keeps_trans n s1 s2 s3 : keeps n s1 s2 -> keeps n s2 s3 -> keeps n s1 s3.
Proof. unfold keeps. intuition (try congruence). lia. Qed.

Lemma keeps_tree_kept s s' : keeps (length (nodes s)) s s' -> tree_kept s s'.
Proof.
  unfold keeps, tree_kept. intros (Ht & Hl & ? & ? & ? & ?).
  split; [|tauto].
  exists (drop (length (nodes s)) (nodes s')).
  rewrite <- (take_drop (length (nodes s)) (nodes s')) at 1.
  rewrite Ht, firstn_all. reflexivity.
Qed.

Lemma insert_inv this child s :
  match Node.insert this child s with
  | Ok _ s' => exists nc, nodes s !! child = Some nc /\
                          s' = set_nodes (inserted this child (key nc) (nodes s)) s
  | Throw e s' => s' = s /\ e = DuplicateName
  | Abort _ => True
  end.
Proof.
  destruct (nodes s !! child) as [nc|] eqn:Hc.
  2: { unfold Node.insert, bind, deref. rewrite Hc. exact I. }
  destruct (nodes s !! this) as [nt|] eqn:Ht.
  2: { unfold Node.insert, bind, deref. rewrite Hc, Ht. exact I. }
  destruct (map_has (key nc) (_childrenMap nt)) eqn:Hm.
  - rewrite (insert_dup _ _ _ _ _ Ht Hc Hm). auto.
  - rewrite (insert_ok _ _ _ _ _ Ht Hc Hm). eauto.
Qed.

Lemma keeps_inserted n this child k s :
  n <= this -> n <= child -> keeps n s (set_nodes (inserted this child k (nodes s)) s).
Proof.
  intros H1 H2. unfold keeps, inserted. cbn.
  rewrite !length_alter, !take_alter_ge by assumption. repeat split; auto.
Qed.

Lemma clone_keeps fuel : forall deep this s n,
  n <= length (nodes s) ->
  match Node.clone fuel deep this s with
  | Ok c s' => keeps n s s' /\ length (nodes s) <= c < length (nodes s')
  | Throw _ s' => keeps n s s'
  | Abort _ => True
  end.
Proof.
  induction fuel as [|f IH]; intros deep this s n Hn; cbn [Node.clone]; [exact I|].
  unfold bind at 1, deref at 1. destruct (nodes s !! this) as [t|]; [|exact I].
  unfold bind at 1. cbn [alloc].
  set (s1 := set_nodes _ s).
  assert (Hs1 : keeps n s s1 /\ length (nodes s) < length (nodes s1)).
  { unfold keeps, s1. cbn. rewrite take_app_le by exact Hn.
    rewrite length_app. cbn. repeat split; auto; lia. }
  clearbody s1. destruct Hs1 as [Hk1 Hl1].
  unfold bind at 1.
  assert (Hloop : forall l sk, keeps n s sk -> length (nodes s) < length (nodes sk) ->
            match (fix each (l : list nat) : M unit :=
                     match l with
                     | [] => ret tt
                     | c :: l' =>
                         c' <- Node.clone f true c ;;
                         Node.insert (length (nodes s)) c' ;;; each l'
                     end) l sk with
            | Ok _ s' | Throw _ s' => keeps n s s' /\ length (nodes s) < length (nodes s')
            | Abort _ => True
            end).
  { induction l as [|c l IHl]; intros sk Hk Hl; [cbn; auto|].
    unfold bind at 1.
    assert (Hn' : n <= length (nodes sk)) by lia.
    pose proof (IH true c sk n Hn') as Hc.
    destruct (Node.clone f true c sk) as [c' s2|e s2|r]; [| |exact I];
      cbv beta iota in Hc.
    - destruct Hc as (Hk2 & Hc1 & Hc2). unfold bind at 1.
      pose proof (insert_inv (length (nodes s)) c' s2) as Hi.
      destruct (Node.insert (length (nodes s)) c' s2) as [u s3|e s3|r]; [| |exact I];
        cbv beta iota in Hi.
      + destruct Hi as (nc & _ & ->).
        apply IHl.
        * eapply keeps_trans; [exact Hk|]. eapply keeps_trans; [exact Hk2|].
          apply keeps_inserted; lia.
        * unfold inserted. cbn. rewrite !length_alter. lia.
      + destruct Hi as [-> _]. split; [eapply keeps_trans; eassumption|lia].
    - split; [eapply keeps_trans; eassumption|].
      destruct Hc as (_ & Hc & _). lia. }
  destruct deep.
  - specialize (Hloop (children t) s1 Hk1 Hl1).
    destruct ((fix each (l : list nat) : M unit := _) (children t) s1)
      as [u s2|e s2|r]; [|tauto|exact I].
    cbn. destruct Hloop. split; [assumption|lia].
  - cbn. split; [assumption|lia].
Qed.

Lemma throws_updateNodeMetadata P n : forall node,
  throws_only P (_updateNodeMetadata n node).
Proof.
  induction n as [|n IH]; intros node; cbn [_updateNodeMetadata]; [apply throws_abort|].
  do 8 (apply throws_bind; [auto with vfs_nt|]; intros).
  induction (children _) as [|c l IHl]; [apply throws_ret|].
  apply throws_bind; [apply IH|]. intros. exact IHl.
Qed.

(** A failure of [cp] leaves the tree as it was; copies made before the
    failure stay unattached in the store. *)
Lemma cp_failure_keeps_tree fuel source destination s e s' :
  cp fuel source destination s = Throw e s' -> tree_kept s s'.
Proof.
  unfold cp.
  destruct (missing source); [intros [= _ <-]; apply same_tree_kept, same_tree_refl|].
  destruct (missing destination); [intros [= _ <-]; apply same_tree_kept, same_tree_refl|].
  unfold bind at 1. pose proof (read_only_resolve_target fuel source s) as H1.
  destruct (resolve_target fuel source s) as [sourceNode s1|e1 s1|r];
    [|intros [= _ <-]; apply same_tree_kept, H1|discriminate].
  unfold bind at 1. pose proof (read_only_resolve_target fuel destination s1) as H2.
  assert (H12 := fun s2 => same_tree_trans s s1 s2 H1).
  destruct (resolve_target fuel destination s1) as [destNode s2|e2 s2|r];
    [|intros [= _ <-]; apply same_tree_kept, H12, H2|discriminate].
  specialize (H12 s2 H2). clear H1 H2.
  destruct destNode as [d|]; [|intros [= _ <-]; apply same_tree_kept, H12].
  cbn [nonnull]. unfold bind at 1. cbn [ret].
  unfold bind at 1, deref at 1. destruct (nodes s2 !! d) as [td|]; [|discriminate].
  destruct (negb _); [intros [= _ <-]; apply same_tree_kept, H12|].
  destruct sourceNode as [a|]; [|intros [= _ <-]; apply same_tree_kept, H12].
  cbn [nonnull]. unfold bind at 1. cbn [ret].
  unfold bind at 1.
  pose proof (clone_keeps fuel true a s2 (length (nodes s2)) (le_n _)) as Hc.
  assert (Hfin : forall s3, keeps (length (nodes s2)) s2 s3 -> tree_kept s s3).
  { intros s3 Hk. apply keeps_tree_kept in Hk.
    destruct H12 as (Hn & Hr & Hw & Hm & Hu & Hus & Hcl).
    destruct Hk as (Hn' & ?). rewrite Hn in Hn'.
    unfold tree_kept. split; [exact Hn'|]. intuition congruence. }
  destruct (Node.clone fuel true a s2) as [c s3|e3 s3|r];
    [|intros [= _ <-]; apply Hfin, Hc|discriminate].
  destruct Hc as [Hk _].
  unfold bind at 1. pose proof (insert_inv d c s3) as Hi.
  destruct (Node.insert d c s3) as [u s4|e4 s4|r]; [| |discriminate].
  - intros H. exfalso. revert H.
    assert (Ht : throws_only no_error (_updateNodeMetadata fuel c ;;; ret c))
      by (apply throws_bind; [apply throws_updateNodeMetadata|intros; apply throws_ret]).
    apply Ht.
  - destruct Hi as [-> _]. intros [= _ <-]. apply Hfin, Hk.
Qed.

(** ** Failure of an operation *)

Lemma drop_answer_throw {A} (m : M A) s e s' :
  (m ;;; ret tt) s = Throw e s' -> m s = Throw e s'.
Proof. unfold bind, ret. destruct (m s); congruence. Qed.

(** C2, as the code has it.  When an operation fails, the nodes, the root,
    the current directory and the other fields of the engine are as before
    the call, with two provisos: a failed copy may leave unattached copies
    in the store, and nothing is said of a move that fails with
    DuplicateName.  The path cache is not covered: a path resolved before the
    failure stays cached. *)
Theorem C2_failure_keeps_tree (fuel : nat) (le : string -> string -> bool)
    (r : request) (s s' : vfs) (e : error) :
  perform fuel le r s = Throw e s' ->
  (is_move r = true -> e <> DuplicateName) ->
  tree_kept s s' /\ (is_copy r = false -> same_tree s s').
Proof.
  intros H Hmv.
  assert (Hsafe : forall A (m : M A), fail_safe no_error m -> m s = Throw e s' ->
                  tree_kept s s' /\ (is_copy r = false -> same_tree s s')).
  { intros A m Hm E. destruct (Hm s e s' E) as [[]|Hs].
    split; [apply same_tree_kept, Hs | intros _; exact Hs]. }
  destruct r; cbn [perform] in H; try apply drop_answer_throw in H.
  - eapply Hsafe; [|exact H]. apply fail_safe_read_only, read_only_resolve_path.
  - eapply Hsafe; [apply fail_safe_cd | exact H].
  - eapply Hsafe; [|exact H]. apply fail_safe_read_only, read_only_ls.
  - eapply Hsafe; [|exact H]. apply fail_safe_read_only, pure_read_only, pure_pwd.
  - eapply Hsafe; [apply fail_safe_cat | exact H].
  - eapply Hsafe; [apply fail_safe_mkdir | exact H].
  - eapply Hsafe; [apply fail_safe_rmdir | exact H].
  - eapply Hsafe; [apply fail_safe_rm | exact H].
  - eapply Hsafe; [apply fail_safe_rn | exact H].
  - split; [eapply cp_failure_keeps_tree, H | discriminate].
  - destruct (fail_safe_mv fuel source destination s e s' H) as [<-|Hs].
    + exfalso. apply (Hmv eq_refl). reflexivity.
    + split; [apply same_tree_kept, Hs | intros _; exact Hs].
  - eapply Hsafe; [|exact H]. apply fail_safe_read_only, pure_read_only, pure_whereis.
Qed.

Lemma C2_failure_keeps_tree_witness :
  exists s', rmdir 8 "/a" example_fs = Throw NonEmptyDirectory s' /\
             nodes s' = nodes example_fs /\ cwd s' = cwd example_fs.
Proof.
  exists (set_cache [("/a", Some 1)] example_fs).
  split; [vm_compute; reflexivity|].
  destruct (C2_failure_keeps_tree 8 (fun _ _ => true) (RemoveDirectory "/a")
              example_fs (set_cache [("/a", Some 1)] example_fs) NonEmptyDirectory)
    as [_ Hs]; [vm_compute; reflexivity | discriminate |].
  destruct (Hs eq_refl) as (Hn & _ & Hc & _). split; assumption.
Defined.

(** C2 as the specification words it fails: removing a path that names a
    file fails, and the cache has gained the entry of that path. *)
Lemma C2_failed_rmdir_changes_cache :
  exists s', rmdir 8 "/f" example_fs = Throw NotADirectory s' /\
             _pathCache example_fs = [] /\ _pathCache s' = [("/f", Some 4)].
Proof. eexists. split; [vm_compute; reflexivity|]. split; reflexivity. Qed.

(** The move the specification singles out: [/c] already has a child named
    [b], the move of [/a/b] into [/c] fails, and [b] is no longer a child of
    [/a]. *)
Lemma mv_duplicate_detaches_source :
  exists s' a b,
    mv 8 (Path "/a/b") (Path "/c") example_clash = Throw DuplicateName s' /\
    nodes example_clash !! 1 = Some a /\ children a = [2] /\
    nodes example_clash !! 2 = Some b /\ parent b = Some 1 /\
    (exists a' b', nodes s' !! 1 = Some a' /\ children a' = [] /\
                   nodes s' !! 2 = Some b' /\ parent b' = None).
Proof.
  eexists _, _, _. split; [vm_compute; reflexivity|].
  repeat (split; [reflexivity|]). eexists _, _. repeat split; reflexivity.
Qed.

(** ** [mv] *)

Lemma deleted_lookup_child (h : heap) this child k i nc :
  this <> child -> h !! child = Some nc ->
  deleted this child k i h !! child = Some (set_parent None nc).
Proof.
  intros Hne Hc. unfold deleted.
  apply lookup_alter_eq. rewrite !lookup_alter_other by exact Hne. exact Hc.
Qed.

Lemma deleted_lookup_this (h : heap) this child k i nt :
  this <> child -> h !! this = Some nt ->
  deleted this child k i h !! this =
  Some (set_childrenMap (map_delete k (_childrenMap nt))
          (set_children (splice1 i (children nt)) nt)).
Proof.
  intros Hne Ht. unfold deleted.
  rewrite lookup_alter_other by congruence.
  rewrite (lookup_alter_eq _ _ _ _ (lookup_alter_eq _ _ _ _ Ht)). reflexivity.
Qed.

Lemma deleted_lookup_other (h : heap) this child k i j :
  j <> this -> j <> child -> deleted this child k i h !! j = h !! j.
Proof.
  intros H1 H2. unfold deleted. rewrite !lookup_alter_other by congruence. reflexivity.
Qed.

Lemma delete_found this child nt nc i s :
  nodes s !! this = Some nt -> nodes s !! child = Some nc ->
  indexOf child (children nt) = Some i ->
  Node.delete this child s =
  Ok true (set_nodes (deleted this child (key nc) i (nodes s)) s).
Proof.
  intros Ht Hc Hi. unfold Node.delete.
  step_with ltac:(apply deref_ok, Ht). rewrite Hi.
  step_with ltac:(apply deref_ok, Hc).
  step_with ltac:(eapply modify_ok, Ht).
  step_with ltac:(eapply modify_ok; lk).
  destruct (decide (this = child)) as [->|Hne].
  - step_with ltac:(eapply modify_ok; lk). reflexivity.
  - step_with ltac:(eapply modify_ok; nf;
                    rewrite !lookup_alter_other by exact Hne; exact Hc).
    reflexivity.
Qed.

Lemma delete_missing this child nt s :
  nodes s !! this = Some nt -> indexOf child (children nt) = None ->
  Node.delete this child s = Ok false s.
Proof.
  intros Ht Hi. unfold Node.delete.
  step_with ltac:(apply deref_ok, Ht). rewrite Hi. reflexivity.
Qed.

Lemma mv_resolved fuel src dst s s1 s2 a d :
  missing src = false -> missing dst = false ->
  resolve_target fuel src s = Ok a s1 ->
  resolve_target fuel dst s1 = Ok d s2 ->
  mv fuel src dst s =
  (d' <- nonnull d ;;
   td <- deref d' ;;
   if negb (is_str (prop "type" td) "dir") then throw NotADirectory
   else
     a' <- nonnull a ;;
     cyclic <- Node.isAncestorOf fuel a' d' ;;
     if cyclic then throw CyclicMove
     else
       ta <- deref a' ;;
       (match parent ta with
        | Some p => Node.delete p a' ;;; ret tt
        | None => ret tt
        end) ;;;
       Node.insert d' a' ;;;
       ret a') s2.
Proof.
  intros M1 M2 H1 H2. unfold mv. rewrite M1, M2.
  step_with ltac:(exact H1). step_with ltac:(exact H2). reflexivity.
Qed.

Lemma isAncestorOf_loop_true (h : heap) a n d :
  ancestor_in h a n d ->
  forall fuel s nd, nodes s = h -> h !! d = Some nd -> n <= fuel ->
  Node.isAncestorOf_loop fuel a (parent nd) s = Ok true s.
Proof.
  induction 1 as [d nd0 Hd Hp | n d nd0 p Hd Hp Hanc IH]; intros fuel s nd Hs Hd' Hn.
  - assert (nd = nd0) as -> by congruence. rewrite Hp.
    destruct fuel; cbn; rewrite Nat.eqb_refl; reflexivity.
  - assert (nd = nd0) as -> by congruence. rewrite Hp.
    destruct fuel as [|f]; [lia|]. cbn [Node.isAncestorOf_loop].
    destruct (Nat.eqb p a); [reflexivity|].
    assert (exists np, h !! p = Some np) as [np Hnp] by (inversion Hanc; eauto).
    step_with ltac:(apply deref_ok; rewrite Hs; exact Hnp).
    eapply IH; [exact Hs | exact Hnp | lia].
Qed.

Lemma depth_in_unique (h : heap) n x : depth_in h n x -> forall m, depth_in h m x -> n = m.
Proof.
  induction 1 as [x nx Hx Hp | n x nx p Hx Hp Hd IH]; intros m Hm; inversion Hm; subst.
  - reflexivity.
  - congruence.
  - congruence.
  - f_equal. apply IH. congruence.
Qed.

Lemma isAncestorOf_loop_false (h : heap) n x :
  depth_in h n x ->
  forall this m fuel s nx, depth_in h m this -> n <= m -> n <= fuel ->
  nodes s = h -> h !! x = Some nx ->
  Node.isAncestorOf_loop fuel this (parent nx) s = Ok false s.
Proof.
  induction 1 as [x nx0 Hx Hp | n x nx0 p Hx Hp Hd IH];
    intros this m fuel s nx Hthis Hnm Hfuel Hs Hx'.
  - assert (nx = nx0) as -> by congruence. rewrite Hp.
    destruct fuel; reflexivity.
  - assert (nx = nx0) as -> by congruence. rewrite Hp.
    destruct fuel as [|f]; [lia|]. cbn [Node.isAncestorOf_loop].
    destruct (Nat.eqb p this) eqn:E.
    + apply Nat.eqb_eq in E. subst p.
      pose proof (depth_in_unique _ _ _ Hd _ Hthis). lia.
    + assert (exists np, h !! p = Some np) as [np Hnp] by (inversion Hd; eauto).
      step_with ltac:(apply deref_ok; rewrite Hs; exact Hnp).
      eapply IH; [exact Hthis | lia | lia | exact Hs | exact Hnp].
Qed.

Lemma read_only_nodes {A} (m : M A) s a s1 :
  read_only m -> m s = Ok a s1 -> same_tree s s1.
Proof. intros H E. specialize (H s). rewrite E in H. exact H. Qed.

Lemma pure_result {A} (m : M A) s a s1 : pure_command m -> m s = Ok a s1 -> s1 = s.
Proof. intros H E. specialize (H s). rewrite E in H. exact H. Qed.

(** The state of the moved node and of the destination once the node is
    taken out of its parent. *)
Lemma mv_detach_state (a d : id) na nd s u s1 :
  nodes s !! a = Some na -> nodes s !! d = Some nd -> parent na <> Some a ->
  (match parent na with
   | Some p => Node.delete p a ;;; ret tt
   | None => ret tt
   end) s = Ok u s1 ->
  exists na1 nd1,
    nodes s1 !! a = Some na1 /\ nodes s1 !! d = Some nd1 /\
    key na1 = key na /\ props na1 = props na /\ children na1 = children na /\
    _childrenMap na1 = _childrenMap na.
Proof.
  intros Ha Hd Hself H.
  destruct (parent na) as [p|] eqn:Hp.
  2: { injection H as _ <-. exists na, nd. auto 10. }
  assert (p <> a) as Hpa by congruence.
  unfold bind at 1 in H.
  destruct (nodes s !! p) as [np|] eqn:Hnp.
  2: { unfold Node.delete, bind, deref in H. rewrite Hnp in H. discriminate. }
  destruct (indexOf a (children np)) as [i|] eqn:Hi.
  - rewrite (delete_found _ _ _ _ _ _ Hnp Ha Hi) in H.
    cbv beta iota in H. injection H as _ <-.
    eexists. cbn [nodes set_nodes].
    rewrite (deleted_lookup_child _ _ _ _ _ _ Hpa Ha).
    destruct (decide (d = a)) as [->|Hda].
    + rewrite (deleted_lookup_child _ _ _ _ _ _ Hpa Ha). eexists. auto 10.
    + destruct (decide (d = p)) as [->|Hdp].
      * rewrite (deleted_lookup_this _ _ _ _ _ _ Hpa Hnp). eexists. auto 10.
      * rewrite deleted_lookup_other by assumption. rewrite Hd. eexists. auto 10.
  - rewrite (delete_missing _ _ _ _ Hnp Hi) in H.
    cbv beta iota in H. injection H as _ <-.
    exists na, nd. auto 10.
Qed.

(** C3.  When [a] is a strict ancestor of the directory [d], the move fails
    with CyclicMove and the tree is as before.  A move that succeeds returns
    the node it was given: same key, same properties, same children (and
    itself as one more child when the destination is the node itself), now
    the last child of [d] and found there under its key. *)
Theorem C3_move (fuel : nat) (src dst : target) (s s1 s2 : vfs) (a d : id)
    (na nd : TreeNode) :
  missing src = false -> missing dst = false ->
  resolve_target fuel src s = Ok (Some a) s1 ->
  resolve_target fuel dst s1 = Ok (Some d) s2 ->
  nodes s !! a = Some na -> nodes s !! d = Some nd ->
  is_str (prop "type" nd) "dir" = true ->
  parent na <> Some a ->
  (forall n, ancestor_in (nodes s) a n d -> n <= fuel ->
     mv fuel src dst s = Throw CyclicMove s2 /\ same_tree s s2) /\
  (forall r s', mv fuel src dst s = Ok r s' ->
     r = a /\
     exists na' nd',
       nodes s' !! a = Some na' /\ key na' = key na /\ props na' = props na /\
       parent na' = Some d /\
       children na' = children na ++ (if decide (a = d) then [a] else []) /\
       nodes s' !! d = Some nd' /\ last (children nd') = Some a /\
       map_get (key na) (_childrenMap nd') = Some a).
Proof.
  intros M1 M2 H1 H2 Ha Hd Hdir Hself.
  assert (Hs2 : same_tree s s2).
  { eapply same_tree_trans; eapply read_only_nodes; eauto using read_only_resolve_target. }
  assert (Hn2 : nodes s2 = nodes s) by apply Hs2.
  rewrite (mv_resolved fuel src dst s s1 s2 _ _ M1 M2 H1 H2).
  rewrite <- Hn2 in Ha, Hd.
  assert (E : forall (k : id -> id -> bool -> M id),
            (d' <- nonnull (Some d) ;;
             td <- deref d' ;;
             if negb (is_str (prop "type" td) "dir") then throw NotADirectory
             else a' <- nonnull (Some a) ;;
                  cyclic <- Node.isAncestorOf fuel a' d' ;;
                  k a' d' cyclic) s2 =
            (cyclic <- Node.isAncestorOf fuel a d ;; k a d cyclic) s2).
  { intros k. step. step_with ltac:(apply deref_ok, Hd). rewrite Hdir. cbn [negb].
    step. reflexivity. }
  split.
  - intros n Hanc Hfuel. split; [|exact Hs2].
    rewrite E.
    step_with ltac:(unfold Node.isAncestorOf; step_with ltac:(apply deref_ok, Hd);
                    eapply isAncestorOf_loop_true;
                    [exact Hanc | exact Hn2 | rewrite <- Hn2; exact Hd | exact Hfuel]).
    reflexivity.
  - intros r s' H.
    rewrite E in H.
    unfold bind at 1 in H.
    destruct (Node.isAncestorOf fuel a d s2) as [cyclic s3|e s3|x] eqn:Ec;
      [|discriminate|discriminate].
    apply pure_result in Ec; [|apply pure_isAncestorOf]. subst s3.
    destruct cyclic; [discriminate|].
    unfold bind at 1 in H. rewrite (deref_ok _ _ _ Ha) in H.
    unfold bind at 1 in H.
    destruct ((match parent na with
               | Some p => Node.delete p a ;;; ret tt
               | None => ret tt
               end) s2) as [u s3|e s3|x] eqn:Edel; [|discriminate|discriminate].
    destruct (mv_detach_state a d na nd s2 u s3 Ha Hd Hself Edel)
      as (na1 & nd1 & Ha1 & Hd1 & Hk & Hpr & Hch & Hmap).
    unfold bind at 1 in H. pose proof (insert_inv d a s3) as Hi.
    destruct (Node.insert d a s3) as [u' s4|e s4|x]; [|discriminate|discriminate].
    cbv beta iota in Hi. destruct Hi as (nc & Hnc & ->).
    assert (nc = na1) as -> by congruence.
    injection H as <- <-. split; [reflexivity|].
    cbn [nodes set_nodes].
    destruct (decide (a = d)) as [<-|Hne].
    + rewrite (inserted_lookup_self _ _ _ _ Ha1).
      eexists _, _. split; [reflexivity|].
      split; [exact Hk|]. split; [exact Hpr|]. split; [reflexivity|].
      split; [cbn; rewrite Hch; reflexivity|]. split; [reflexivity|].
      split; [cbn; apply last_snoc|]. cbn. rewrite Hk. apply map_get_set_eq.
    + rewrite (inserted_lookup_child _ d a _ _ (not_eq_sym Hne) Ha1).
      rewrite (inserted_lookup_this _ d a _ _ (not_eq_sym Hne) Hd1).
      eexists _, _. split; [reflexivity|].
      split; [exact Hk|]. split; [exact Hpr|]. split; [reflexivity|].
      split; [cbn; rewrite Hch, app_nil_r; reflexivity|]. split; [reflexivity|].
      split; [cbn; apply last_snoc|]. cbn. rewrite Hk. apply map_get_set_eq.
Qed.

Lemma C3_move_witness :
  mv 8 (Path "/a") (Path "/a/b") example_fs =
  Throw CyclicMove (set_cache [("/a", Some 1); ("/a/b", Some 2)] example_fs).
Proof.
  refine (proj1 (proj1 (C3_move 8 (Path "/a") (Path "/a/b") example_fs
                   (set_cache [("/a", Some 1)] example_fs)
                   (set_cache [("/a", Some 1); ("/a/b", Some 2)] example_fs)
                   1 2
                   (mkNode "a" (Some 0) [2] [("b", 2)] [("type", VStr "dir")])
                   (mkNode "b" (Some 1) [] [] [("type", VStr "dir")])
                   _ _ _ _ _ _ _ _) 0 _ _));
    try reflexivity; try discriminate; try lia.
  eapply ancestor_parent; reflexivity.
Defined.

Lemma splice1_removes x l i :
  indexOf x l = Some i -> NoDup l -> x ∉ splice1 i l.
Proof.
  revert i. induction l as [|y l IH]; intros i; [discriminate|]. cbn.
  destruct (Nat.eqb y x) eqn:E.
  - intros [= <-]. apply Nat.eqb_eq in E. subst y. cbn.
    intros Hnd. apply NoDup_cons in Hnd. tauto.
  - destruct (indexOf x l) as [j|] eqn:Ej; [|discriminate]. intros [= <-] Hnd.
    apply NoDup_cons in Hnd as [_ Hnd]. cbn. intros Hin.
    apply elem_of_cons in Hin as [->|Hin].
    + rewrite Nat.eqb_refl in E. discriminate.
    + exact (IH j eq_refl Hnd Hin).
Qed.

(** C9, as the code has it.  For a directory [a] with a parent [p], at a
    finite depth, and with no child bearing [a]'s own key, the move of [a]
    into itself raises no error: [a] leaves the children of [p] and becomes
    its own parent and its own last child; no other node changes. *)
Theorem C9_move_into_itself (fuel : nat) (src dst : target) (s s1 s2 : vfs)
    (a p n i : nat) (na np : TreeNode) :
  missing src = false -> missing dst = false ->
  resolve_target fuel src s = Ok (Some a) s1 ->
  resolve_target fuel dst s1 = Ok (Some a) s2 ->
  nodes s !! a = Some na -> is_str (prop "type" na) "dir" = true ->
  parent na = Some p -> nodes s !! p = Some np ->
  indexOf a (children np) = Some i ->
  depth_in (nodes s) n a -> n <= fuel ->
  map_has (key na) (_childrenMap na) = false ->
  exists s' na' np',
    mv fuel src dst s = Ok a s' /\
    nodes s' !! a = Some na' /\ parent na' = Some a /\
    children na' = children na ++ [a] /\
    map_get (key na) (_childrenMap na') = Some a /\
    nodes s' !! p = Some np' /\ children np' = splice1 i (children np) /\
    (NoDup (children np) -> a ∉ children np') /\
    map_get (key na) (_childrenMap np') = None /\
    (forall j, j <> a -> j <> p -> nodes s' !! j = nodes s !! j) /\
    root s' = root s.
Proof.
  intros M1 M2 H1 H2 Ha Hdir Hp Hnp Hi Hdepth Hfuel Hfree.
  assert (Hs2 : same_tree s s2).
  { eapply same_tree_trans; eapply read_only_nodes; eauto using read_only_resolve_target. }
  destruct Hs2 as (Hn2 & Hr2 & _).
  assert (Hpa : p <> a).
  { intros ->. inversion Hdepth as [x nx Hx Hpx | n' x nx q Hx Hpx Hq]; subst.
    - congruence.
    - assert (q = a) as -> by congruence.
      pose proof (depth_in_unique _ _ _ Hq _ Hdepth). lia. }
  rewrite (mv_resolved fuel src dst s s1 s2 _ _ M1 M2 H1 H2).
  rewrite <- Hn2 in Ha, Hnp.
  eexists _, _, _. split.
  - step. step_with ltac:(apply deref_ok, Ha). rewrite Hdir. cbn [negb].
    step.
    step_with ltac:(unfold Node.isAncestorOf; step_with ltac:(apply deref_ok, Ha);
                    eapply (isAncestorOf_loop_false _ n a Hdepth a n);
                    [exact Hdepth | lia | exact Hfuel | exact Hn2
                    | rewrite <- Hn2; exact Ha]).
    step_with ltac:(apply deref_ok, Ha). rewrite Hp.
    step_with ltac:(step_with ltac:(eapply delete_found; eassumption); reflexivity).
    step_with ltac:(eapply insert_ok;
                    [ nf; apply (deleted_lookup_child _ _ _ _ _ _ Hpa Ha)
                    | nf; apply (deleted_lookup_child _ _ _ _ _ _ Hpa Ha)
                    | exact Hfree ]).
    reflexivity.
  - nf. cbn [key set_parent].
    pose proof (deleted_lookup_child _ _ _ (key na) i _ Hpa Ha) as Ha1.
    rewrite (inserted_lookup_self _ _ _ _ Ha1).
    split; [reflexivity|]. split; [reflexivity|]. split; [reflexivity|].
    split; [cbn; apply map_get_set_eq|].
    rewrite inserted_lookup_other by congruence.
    rewrite (deleted_lookup_this _ _ _ _ _ _ Hpa Hnp).
    split; [reflexivity|]. split; [reflexivity|].
    split; [cbn; apply splice1_removes, Hi|].
    split; [cbn; apply map_get_delete_eq|].
    split; [|exact Hr2].
    intros j Hja Hjp.
    rewrite inserted_lookup_other, deleted_lookup_other by congruence.
    rewrite Hn2. reflexivity.
Qed.

Lemma C9_move_into_itself_witness :
  exists s', mv 8 (Path "/c") (Path "/c") example_fs = Ok 3 s'.
Proof.
  destruct (C9_move_into_itself 8 (Path "/c") (Path "/c") example_fs
              (set_cache [("/c", Some 3)] example_fs)
              (set_cache [("/c", Some 3)] example_fs) 3 0 1 1
              (mkNode "c" (Some 0) [] [] [("type", VStr "dir")])
              (mkNode "~" None [1; 3; 4] [("a", 1); ("c", 3); ("f", 4)]
                      [("type", VStr "dir")]))
    as (s' & _ & _ & H & _); try reflexivity; try lia.
  - eapply depth_step; [reflexivity | reflexivity |]. eapply depth_top; reflexivity.
  - exists s'. exact H.
Defined.

(** C9 as stated fails for a directory that holds a child of its own name:
    [/a] holds [a]; the move of [/a] into itself fails with DuplicateName
    and leaves [/a] without parent. *)
Lemma C9_same_named_child_fails :
  exists s' a', mv 8 (Path "/a") (Path "/a") example_nested = Throw DuplicateName s' /\
                nodes s' !! 1 = Some a' /\ key a' = "a" /\ parent a' = None.
Proof. eexists _, _. split; [vm_compute; reflexivity|]. repeat split; reflexivity. Qed.

(** ** Paths *)

Lemma split_cons c s :
  js_split slash (String c s) =
  if Ascii.eqb c slash then "" :: js_split slash s
  else match js_split slash s with
       | [] => [String c ""]
       | x :: xs => String c x :: xs
       end.
Proof. reflexivity. Qed.

Lemma split_not_nil s : js_split slash s <> [].
Proof.
  induction s as [|c s IH]; [discriminate|]. rewrite split_cons.
  destruct (Ascii.eqb c slash); [discriminate|].
  destruct (js_split slash s); [contradiction|discriminate].
Qed.

Lemma split_no_slash s : Forall (fun x => contains_char slash x = false) (js_split slash s).
Proof.
  induction s as [|c s IH]; [repeat constructor|]. rewrite split_cons.
  destruct (Ascii.eqb c slash) eqn:E; [constructor; [reflexivity|exact IH]|].
  destruct (js_split slash s) as [|x xs]; [repeat constructor; cbn; rewrite E; reflexivity|].
  apply Forall_cons in IH as [Hx Hxs]. constructor; [|exact Hxs].
  cbn. rewrite E, Hx. reflexivity.
Qed.

Lemma split_slash_free x : contains_char slash x = false -> js_split slash x = [x].
Proof.
  induction x as [|c x IH]; [reflexivity|]. cbn [contains_char].
  intros H. apply orb_false_elim in H as [Hc Hx]. rewrite split_cons, Hc, (IH Hx).
  reflexivity.
Qed.

Lemma split_app x rest :
  contains_char slash x = false ->
  js_split slash (x +:+ String slash rest) = x :: js_split slash rest.
Proof.
  induction x as [|c x IH]; [reflexivity|]. cbn [contains_char].
  intros H. apply orb_false_elim in H as [Hc Hx].
  change (String c x +:+ String slash rest) with (String c (x +:+ String slash rest)).
  rewrite split_cons, Hc, (IH Hx). reflexivity.
Qed.

Lemma split_join l :
  l <> [] -> Forall (fun x => contains_char slash x = false) l ->
  js_split slash (js_join "/" l) = l.
Proof.
  induction l as [|x l IH]; [contradiction|]. intros _ H.
  apply Forall_cons in H as [Hx Hl]. destruct l as [|y l].
  - apply split_slash_free, Hx.
  - change (js_join "/" (x :: y :: l)) with (x +:+ String slash (js_join "/" (y :: l))).
    rewrite (split_app _ _ Hx), IH; [reflexivity|discriminate|exact Hl].
Qed.

Lemma filter_truthy_segments l :
  Forall segment l -> List.filter truthy_str l = l.
Proof.
  induction 1 as [|x l [Hx _] _ IH]; [reflexivity|]. cbn. rewrite Hx, IH. reflexivity.
Qed.

(** The segments of a canonical path are the segments it was joined from. *)
Lemma canonical_segments l :
  Forall segment l -> l <> [] ->
  List.filter truthy_str (js_split slash ("/" +:+ js_join "/" l)) = l.
Proof.
  intros H Hne.
  change ("/" +:+ js_join "/" l) with (String slash (js_join "/" l)).
  rewrite split_cons, Ascii.eqb_refl. cbn [List.filter truthy_str String.eqb negb].
  rewrite split_join; [apply filter_truthy_segments, H | exact Hne |].
  eapply Forall_impl; [exact H|]. intros x [_ Hx]. exact Hx.
Qed.

Lemma segments_of_split s f :
  (forall x, f x = true -> truthy_str x = true) ->
  Forall segment (List.filter f (js_split slash s)).
Proof.
  intros Hf. pose proof (split_no_slash s) as H.
  induction H as [|x l Hx _ IH]; [constructor|]. cbn.
  destruct (f x) eqn:E; [|exact IH]. constructor; [|exact IH].
  split; [apply Hf, E | exact Hx].
Qed.

Lemma Forall_removelast {A} (P : A -> Prop) l : Forall P l -> Forall P (removelast l).
Proof.
  induction 1 as [|x l Hx Hl IH]; [constructor|]. cbn.
  destruct l; [constructor|]. constructor; assumption.
Qed.

Lemma normalize_step_segments resolved seg :
  Forall segment resolved -> segment seg ->
  Forall segment (normalize_step resolved seg).
Proof.
  intros H Hs. unfold normalize_step. destruct (String.eqb seg "..").
  - apply Forall_removelast, H.
  - apply Forall_app. split; [exact H|]. repeat constructor; apply Hs.
Qed.

Lemma fold_normalize_segments segs : forall resolved,
  Forall segment resolved -> Forall segment segs ->
  Forall segment (fold_left normalize_step segs resolved).
Proof.
  induction segs as [|seg segs IH]; intros resolved H Hs; [exact H|].
  apply Forall_cons in Hs as [Hseg Hs]. cbn.
  apply IH; [apply normalize_step_segments; assumption | exact Hs].
Qed.

(** [path_up] and [walk] read the nodes and the root only. *)
Lemma path_up_state n : forall current acc s l s1 s',
  path_up n current acc s = Ok l s1 ->
  nodes s' = nodes s -> root s' = root s ->
  path_up n current acc s' = Ok l s'.
Proof.
  induction n as [|n IH]; intros current acc s l s1 s' H Hn Hr;
    destruct current as [c|]; cbn [path_up] in *;
    try (injection H as <- _; reflexivity).
  - unfold bind, get_state in *. rewrite Hr.
    destruct (decide (Some c = root s)); [injection H as <- _; reflexivity|discriminate].
  - unfold bind at 1, get_state in H. unfold bind at 1, get_state. rewrite Hr.
    destruct (decide (Some c = root s)); [injection H as <- _; reflexivity|].
    unfold bind, deref in *. rewrite Hn.
    destruct (nodes s !! c) as [t|]; [|discriminate].
    eapply IH; eassumption.
Qed.

Lemma walk_state segs : forall current seen s r s1 s',
  walk current seen segs s = Ok r s1 ->
  nodes s' = nodes s ->
  walk current seen segs s' = Ok r s'.
Proof.
  induction segs as [|seg rest IH]; intros current seen s r s1 s' H Hn;
    cbn [walk] in *; [injection H as <- _; reflexivity|].
  destruct current as [c|]; [|discriminate]. cbn [nonnull] in *.
  unfold bind at 1, ret in H. unfold bind at 1, ret.
  unfold bind at 1, Node.findChild, bind, deref, ret in H.
  unfold bind at 1, Node.findChild, bind, deref, ret. rewrite Hn.
  destruct (nodes s !! c) as [t|]; [|discriminate].
  destruct (map_get seg (_childrenMap t)); [|discriminate].
  eapply IH; eassumption.
Qed.

Lemma resolvePathUncached_state p s r s1 s' :
  _resolvePathUncached p s = Ok r s1 ->
  nodes s' = nodes s -> root s' = root s ->
  _resolvePathUncached p s' = Ok r s'.
Proof.
  unfold _resolvePathUncached, bind, get_state. intros H Hn Hr. rewrite Hr.
  destruct (String.eqb p "/"); [injection H as <- _; reflexivity|].
  eapply walk_state; eassumption.
Qed.

(** Walking down [segs] from [cur] and climbing back from the node found
    passes the same nodes. *)
Lemma walk_then_path_up s : linked (nodes s) -> root_on_top s ->
  forall segs cur seen n s1,
  walk (Some cur) seen segs s = Ok (Some n) s1 ->
  forall fuel acc,
  path_up (length segs + fuel) (Some n) acc s = path_up fuel (Some cur) (segs ++ acc) s.
Proof.
  intros Hlinked Htop. induction segs as [|seg rest IH]; intros cur seen n s1 H fuel acc.
  - injection H as <- _. reflexivity.
  - cbn [walk nonnull] in H. unfold bind at 1, ret in H.
    unfold bind at 1, Node.findChild, bind, deref, ret in H.
    destruct (nodes s !! cur) as [t|] eqn:Hcur; [|discriminate].
    destruct (map_get seg (_childrenMap t)) as [f|] eqn:Hf; [|discriminate].
    destruct (Hlinked _ _ _ _ Hcur Hf) as (nf & Hnf & Hkey & Hpar).
    replace (length (seg :: rest) + fuel) with (length rest + S fuel) by (cbn; lia).
    rewrite (IH _ _ _ _ H (S fuel) acc). cbn [path_up].
    unfold bind at 1, get_state.
    destruct (decide (Some f = root s)) as [E|_].
    + symmetry in E. pose proof (Htop _ _ E Hnf). congruence.
    + unfold bind, deref. rewrite Hnf, Hpar, Hkey. reflexivity.
Qed.

Lemma path_up_root fuel r acc s : root s = Some r -> path_up fuel (Some r) acc s = Ok acc s.
Proof.
  intros Hr. destruct fuel; cbn [path_up]; unfold bind, get_state; cbv beta iota;
    rewrite Hr; destruct (decide (Some r = Some r)); reflexivity || congruence.
Qed.

(** The absolute path of the node a canonical path leads to is that path. *)
Lemma absolute_path_of_resolved fuel s l n s1 :
  linked (nodes s) -> root_on_top s ->
  Forall segment l ->
  _resolvePathUncached ("/" +:+ js_join "/" l) s = Ok (Some n) s1 ->
  length l <= fuel ->
  _absolute_path fuel (Some n) s = Ok ("/" +:+ js_join "/" l) s.
Proof.
  intros Hlinked Htop Hl H Hfuel. unfold _resolvePathUncached, bind, get_state in H.
  destruct l as [|x l].
  - cbn in H. injection H as Hr _. unfold _absolute_path.
    step_with ltac:(apply path_up_root; exact Hr). reflexivity.
  - assert (Hne : String.eqb ("/" +:+ js_join "/" (x :: l)) "/" = false).
    { apply Forall_cons in Hl as [[Hx _] _]. destruct x; [discriminate|].
      destruct l; reflexivity. }
    rewrite Hne, canonical_segments in H by (exact Hl || discriminate).
    destruct (root s) as [r|] eqn:Hr; [|discriminate].
    unfold _absolute_path.
    replace fuel with (length (x :: l) + (fuel - length (x :: l))) by lia.
    step_with ltac:(rewrite (walk_then_path_up s Hlinked Htop _ _ _ _ _ H);
                    apply path_up_root, Hr).
    rewrite app_nil_r. reflexivity.
Qed.

Lemma truthy_filter_eq l :
  List.filter (fun seg => negb (String.eqb seg "")) l = List.filter truthy_str l.
Proof. reflexivity. Qed.

(** Outside its two shortcuts, [_normalizePath] computes the normal form. *)
Lemma normalizePath_general fuel p s np s1 :
  negb (truthy_str p) || String.eqb p "." = false -> String.eqb p "/" = false ->
  _normalizePath fuel p s = Ok np s1 ->
  (exists l, Forall segment l /\ np = "/" +:+ js_join "/" l) /\
  (forall base, (startsWith p "/" = false -> _absolute_path fuel (cwd s) s = Ok base s) ->
                np = normal_form base p).
Proof.
  intros Hdot Hslash H. unfold _normalizePath in H. rewrite Hdot, Hslash in H.
  unfold bind at 1 in H.
  assert (Hsegs : Forall segment
            (List.filter (fun seg => truthy_str seg && negb (String.eqb seg "."))
                         (js_split slash p))).
  { apply segments_of_split. intros x Hx. apply andb_true_iff in Hx. tauto. }
  destruct (startsWith p "/") eqn:Habs.
  - cbn [ret String.eqb Ascii.eqb Bool.eqb] in H. injection H as <- _. split.
    + eexists. split; [|reflexivity]. apply fold_normalize_segments; [constructor|exact Hsegs].
    + intros base _. unfold normal_form. rewrite Habs. reflexivity.
  - unfold bind at 1, get_state in H.
    pose proof (pure_absolute_path fuel (cwd s) s) as Hpure.
    destruct (_absolute_path fuel (cwd s) s) as [basePath s2|e s2|x] eqn:Hbase;
      [|discriminate|discriminate].
    subst s2. cbn [ret] in H. injection H as <- _. split.
    + eexists. split; [|reflexivity]. apply fold_normalize_segments; [|exact Hsegs].
      destruct (String.eqb basePath "/"); [constructor|].
      apply segments_of_split. auto.
    + intros base Hb. specialize (Hb eq_refl). injection Hb as <-.
      unfold normal_form, normal_segments. rewrite Habs. do 2 f_equal.
      destruct (String.eqb basePath "/") eqn:E; [|reflexivity].
      apply String.eqb_eq in E. subst basePath. reflexivity.
Qed.

Lemma normal_form_canonical l p :
  Forall segment l -> String.eqb p "." = true ->
  normal_form ("/" +:+ js_join "/" l) p = "/" +:+ js_join "/" l.
Proof.
  intros Hl Hp. apply String.eqb_eq in Hp. subst p.
  unfold normal_form, normal_segments. cbn [startsWith String.prefix Ascii.eqb Bool.eqb
    js_split slash List.filter String.eqb negb andb fold_left].
  rewrite truthy_filter_eq. destruct l as [|x l]; [reflexivity|].
  rewrite canonical_segments by (exact Hl || discriminate). reflexivity.
Qed.


Lemma example_fs_linked : linked (nodes example_fs).
Proof.
  intros p np k c Hp Hk.
  destruct p as [|[|[|[|[|p]]]]]; cbn in Hp; try discriminate;
    injection Hp as <-; cbn in Hk;
    repeat (let E := fresh "E" in
            destruct (String.eqb k _) eqn:E in Hk;
            [apply String.eqb_eq in E; subst k; injection Hk as <-;
             eexists; repeat split; reflexivity|]);
    discriminate.
Qed.

Lemma example_fs_root_on_top : root_on_top example_fs.
Proof. intros r nr [= <-] [= <-]. reflexivity. Qed.

Lemma example_fs_cache_valid : cache_valid example_fs.
Proof. intros k n H. discriminate. Qed.


(** ** Building a tree from records *)

Lemma record_induction (P : Tree.record -> Prop) :
  (forall k properties chs, Forall P chs -> P (Tree.Rec k properties chs)) ->
  forall r, P r.
Proof.
  intros H.
  exact (fix go (r : Tree.record) : P r :=
           match r with
           | Tree.Rec k properties chs =>
               H k properties chs
                 ((fix all (l : list Tree.record) : Forall P l :=
                     match l with
                     | [] => List.Forall_nil P
                     | c :: l' => List.Forall_cons P c l' (go c) (all l')
                     end) chs)
           end).
Qed.

Lemma fsrecord_induction (P : fsrecord -> Prop) :
  (forall k ty mi pe mo c extra,
     (forall l, c = CList l -> Forall P l) -> P (FsRec k ty mi pe mo c extra)) ->
  forall r, P r.
Proof.
  intros H.
  exact (fix go (r : fsrecord) : P r :=
           match r with
           | FsRec k ty mi pe mo c extra =>
               H k ty mi pe mo c extra
                 (match c as c0 return forall l, c0 = CList l -> Forall P l with
                  | CList l0 =>
                      fun l E =>
                        match E in _ = c1 return
                              match c1 with CList l1 => Forall P l1 | _ => True end with
                        | eq_refl =>
                            (fix all (l : list fsrecord) : Forall P l :=
                               match l with
                               | [] => List.Forall_nil P
                               | x :: l' => List.Forall_cons P x l' (go x) (all l')
                               end) l0
                        end
                  | CAbsent => fun l E => match E with end
                  | CText _ => fun l E => match E with end
                  end)
           end).
Qed.

Lemma label_link_blind : link_blind label.
Proof. intros n. repeat split. Qed.

Lemma field_names_link_blind : link_blind field_names.
Proof. intros n. repeat split. Qed.

Lemma map_alter_blind {B} (g : TreeNode -> B) f i (l : list TreeNode) :
  (forall x, g (f x) = g x) -> List.map g (alter f i l) = List.map g l.
Proof.
  intros H. revert i. induction l as [|x l IH]; intros [|i]; cbn; rewrite ?H, ?IH; reflexivity.
Qed.

Lemma map_inserted_blind {B} (g : TreeNode -> B) this child k h :
  link_blind g -> List.map g (inserted this child k h) = List.map g h.
Proof.
  intros Hg. unfold inserted.
  rewrite !map_alter_blind; [reflexivity| | |]; intros x; apply Hg.
Qed.

Lemma insert_blind {B} (g : TreeNode -> B) this child s :
  link_blind g ->
  match Node.insert this child s with
  | Ok _ s' => List.map g (nodes s') = List.map g (nodes s)
  | _ => True
  end.
Proof.
  intros Hg. pose proof (insert_inv this child s) as H.
  destruct (Node.insert this child s); [|exact I|exact I].
  destruct H as (nc & _ & ->). apply map_inserted_blind, Hg.
Qed.

(** [Tree.insert] appends one node to the store. *)
Lemma tree_insert_appends {B} (g : TreeNode -> B) fuel k parent properties s :
  link_blind g ->
  match Tree.insert fuel k parent properties s with
  | Ok n s' =>
      n = length (nodes s) /\
      List.map g (nodes s') = List.map g (nodes s) ++ [g (new_TreeNode k properties)] /\
      root s' = (if no_parent_ref parent then Some n else root s)
  | _ => True
  end.
Proof.
  intros Hg. unfold Tree.insert. destruct (negb (truthy_str k)); [exact I|].
  unfold bind at 1. cbn [alloc]. unfold bind at 1. cbn [get_state].
  set (s1 := set_nodes _ s).
  assert (H1 : List.map g (nodes s1) = List.map g (nodes s) ++ [g (new_TreeNode k properties)])
    by (unfold s1; cbn; apply map_app).
  assert (Hroot : root s1 = root s) by reflexivity.
  clearbody s1.
  assert (Hins : forall p0 : nat,
            match (Node.insert p0 (length (nodes s)) ;;; ret (length (nodes s))) s1 with
            | Ok n s' => n = length (nodes s) /\
                         List.map g (nodes s') =
                         List.map g (nodes s) ++ [g (new_TreeNode k properties)] /\
                         root s' = root s
            | _ => True
            end).
  { intros p0. unfold bind. pose proof (insert_blind g p0 (length (nodes s)) s1 Hg) as Hi.
    pose proof (insert_inv p0 (length (nodes s)) s1) as Hv.
    destruct (Node.insert p0 (length (nodes s)) s1); [|exact I|exact I].
    destruct Hv as (nc & _ & ->).
    cbn. split; [reflexivity|]. split; [|exact Hroot]. cbn in Hi. rewrite Hi. exact H1. }
  destruct parent as [|p0|pat|l]; cbn [no_parent_ref].
  - cbn. destruct (root s1); [exact I|]. cbn. auto.
  - cbn. destruct (root s1); apply Hins.
  - destruct (negb (truthy_str pat)).
    + destruct (root s1); [exact I|]. cbn. auto.
    + assert (Hpat : match
                (parentNodes <- Tree.search fuel pat ;;
                 match parentNodes with
                 | Some (p0 :: _) =>
                     Node.insert p0 (length (nodes s)) ;;; ret (length (nodes s))
                 | _ => throw ParentNotFound
                 end) s1
              with
              | Ok n s' => n = length (nodes s) /\
                           List.map g (nodes s') =
                           List.map g (nodes s) ++ [g (new_TreeNode k properties)] /\
                           root s' = root s
              | _ => True
              end).
      { unfold bind at 1. pose proof (pure_Tree_search fuel pat s1) as Hp.
        destruct (Tree.search fuel pat s1) as [[[|p0 ?]|] s2|e s2|x]; try exact I.
        subst s2. apply Hins. }
      destruct (root s1); exact Hpat.
  - destruct l as [|p0 l]; cbn; destruct (root s1); try exact I; apply Hins.
Qed.

Lemma insertNode_preorder fuel : forall r parent s,
  match Tree.insertNode fuel r parent s with
  | Ok n s' =>
      n = length (nodes s) /\
      List.map label (nodes s') = List.map label (nodes s) ++ preorder r /\
      root s' = (if no_parent_ref parent then Some n else root s)
  | _ => True
  end.
Proof.
  induction r as [k properties chs IH] using record_induction. intros parent s.
  cbn [Tree.insertNode]. unfold bind at 1.
  pose proof (tree_insert_appends label fuel k parent properties s label_link_blind) as Hi.
  destruct (Tree.insert fuel k parent properties s) as [node s1|e s1|x];
    [|exact I|exact I].
  destruct Hi as (-> & H1 & Hr1). unfold bind at 1.
  assert (Hloop : forall sk,
            match (fix each (l : list Tree.record) : M unit :=
                     match l with
                     | [] => ret tt
                     | childData :: l' =>
                         Tree.insertNode fuel childData (ByNode (length (nodes s))) ;;;
                         each l'
                     end) chs sk with
            | Ok _ s' =>
                List.map label (nodes s') =
                List.map label (nodes sk) ++ flat_map preorder chs /\
                root s' = root sk
            | _ => True
            end).
  { induction IH as [|c l Hc _ IHl]; intros sk.
    - cbn. rewrite app_nil_r. auto.
    - unfold bind at 1. specialize (Hc (ByNode (length (nodes s))) sk).
      destruct (Tree.insertNode fuel c (ByNode (length (nodes s))) sk) as [n s2|e s2|x];
        [|exact I|exact I].
      destruct Hc as (_ & Hc & Hrc). cbn [no_parent_ref] in Hrc. specialize (IHl s2).
      destruct ((fix each (l : list Tree.record) : M unit := _) l s2); [|exact I|exact I].
      destruct IHl as [IHl Hrl].
      cbn [flat_map]. rewrite IHl, Hc, app_assoc. split; [reflexivity|congruence]. }
  specialize (Hloop s1).
  destruct ((fix each (l : list Tree.record) : M unit := _) chs s1); [|exact I|exact I].
  destruct Hloop as [Hloop Hrl].
  cbn [ret preorder]. split; [reflexivity|].
  rewrite Hloop, H1, <- app_assoc. split; [reflexivity|congruence].
Qed.

Lemma initStructure_schema fuel : forall r parent s,
  match initStructure fuel r parent s with
  | Ok n s' =>
      n = length (nodes s) /\
      List.map field_names (nodes s') =
      List.map field_names (nodes s) ++
      List.map (fun k => (k, schema_names)) (fs_preorder r)
  | _ => True
  end.
Proof.
  induction r as [k ty mi pe mo c extra IH] using fsrecord_induction. intros parent s.
  cbn [initStructure]. destruct (negb (truthy_str k)); [exact I|].
  unfold bind at 1. cbn [getUid]. set (s0 := set_uidCounter _ s).
  assert (Hn0 : nodes s0 = nodes s) by reflexivity. clearbody s0.
  unfold bind at 1.
  assert (Hnow : forall v s1, (if truthy_str mo then ret (VStr mo) else getDate) s0 = Ok v s1 ->
                              s1 = s0).
  { intros v s1. destruct (truthy_str mo); unfold getDate, bind, get_state, ret;
      intros [= _ <-]; reflexivity. }
  destruct ((if truthy_str mo then ret (VStr mo) else getDate) s0) as [now s1|e s1|x];
    [|exact I|exact I].
  specialize (Hnow now s1 eq_refl). subst s1.
  unfold bind at 1. cbn [get_state]. unfold bind at 1.
  match goal with
  | |- context [Tree.insert fuel k ?par ?props s0] =>
      pose proof (tree_insert_appends field_names fuel k par props s0
                    field_names_link_blind) as Hi;
      destruct (Tree.insert fuel k par props s0) as [node s1|e s1|x];
        [|exact I|exact I]
  end.
  destruct Hi as (-> & H1 & _). rewrite Hn0 in *.
  change (field_names (new_TreeNode k _)) with (k, schema_names) in H1.
  unfold bind at 1. cbn [get_state]. unfold bind at 1.
  assert (Hcwd : exists s2, (match cwd s1, parent with
                             | None, None => assign_cwd (Some (length (nodes s)))
                             | _, _ => ret tt
                             end) s1 = Ok tt s2 /\ nodes s2 = nodes s1).
  { destruct (cwd s1), parent; eexists; split; reflexivity. }
  destruct Hcwd as (s2 & -> & Hn2). unfold bind at 1.
  assert (Hloop : forall l, Forall (fun r => forall parent s,
              match initStructure fuel r parent s with
              | Ok n s' =>
                  n = length (nodes s) /\
                  List.map field_names (nodes s') =
                  List.map field_names (nodes s) ++
                  List.map (fun k => (k, schema_names)) (fs_preorder r)
              | _ => True
              end) l ->
            forall sk,
            match (fix each (l : list fsrecord) : M unit :=
                     match l with
                     | [] => ret tt
                     | childData :: l' =>
                         initStructure fuel childData (Some (length (nodes s))) ;;; each l'
                     end) l sk with
            | Ok _ s' =>
                List.map field_names (nodes s') =
                List.map field_names (nodes sk) ++
                List.map (fun k => (k, schema_names)) (flat_map fs_preorder l)
            | _ => True
            end).
  { induction 1 as [|x l Hx _ IHl]; intros sk.
    - cbn. rewrite app_nil_r. reflexivity.
    - unfold bind at 1. specialize (Hx (Some (length (nodes s))) sk).
      destruct (initStructure fuel x (Some (length (nodes s))) sk) as [n s3|e s3|y];
        [|exact I|exact I].
      destruct Hx as [_ Hx]. specialize (IHl s3).
      destruct ((fix each (l : list fsrecord) : M unit := _) l s3); [|exact I|exact I].
      cbn [flat_map]. rewrite IHl, Hx, map_app, app_assoc. reflexivity. }
  destruct c as [|t|l].
  - cbn. split; [reflexivity|]. rewrite Hn2, H1. reflexivity.
  - cbn. split; [reflexivity|]. rewrite Hn2, H1. reflexivity.
  - specialize (Hloop l (IH l eq_refl) s2).
    destruct ((fix each (l : list fsrecord) : M unit := _) l s2); [|exact I|exact I].
    cbn [ret fs_preorder List.map]. split; [reflexivity|].
    rewrite Hloop, Hn2, H1, <- app_assoc. reflexivity.
Qed.

Lemma layout_length : forall r b p, length (layout b p r) = rsize r.
Proof.
  induction r as [k properties chs IH] using record_induction. intros b p.
  cbn [layout rsize length]. f_equal. generalize (S b).
  induction IH as [|c l Hc _ IHl]; intros c0; [reflexivity|].
  rewrite length_app, Hc, IHl. reflexivity.
Qed.

Lemma inserted_fresh (h : heap) (p : id) (k : string) (n : TreeNode) :
  p < length h ->
  inserted p (length h) k (h ++ [n]) =
  alter (add_child (length h) k) p h ++ [set_parent (Some p) n].
Proof.
  intros Hp. unfold inserted.
  rewrite (alter_app_l _ h [n] p Hp).
  rewrite (alter_app_l _ _ [n] p) by (rewrite length_alter; exact Hp).
  rewrite list_alter_alter_eq.
  rewrite alter_app_r_alt by (rewrite length_alter; lia).
  rewrite length_alter, Nat.sub_diag. reflexivity.
Qed.

(** [Tree.insert] under a node reference or as root: the store afterwards. *)
Lemma tree_insert_layout fuel k parent properties s n s' :
  Tree.insert fuel k (ref_of parent) properties s = Ok n s' ->
  (forall p, parent = Some p -> p < length (nodes s)) ->
  n = length (nodes s) /\
  nodes s' =
    (match parent with
     | Some p => alter (add_child n k) p (nodes s)
     | None => nodes s
     end) ++ [mkNode k parent [] [] properties] /\
  root s' = (match parent with Some _ => root s | None => Some n end).
Proof.
  intros H Hp. unfold Tree.insert in H.
  destruct (negb (truthy_str k)); [discriminate|].
  unfold bind at 1 in H. cbn [alloc] in H. unfold bind at 1 in H. cbn [get_state] in H.
  destruct parent as [p|]; cbn [ref_of] in H.
  - specialize (Hp p eq_refl).
    assert (E : forall A (x y : M A), match root (set_nodes
                 (nodes s ++ [new_TreeNode k properties]) s) with
                | Some _ => x | None => y end = match root s with Some _ => x | None => y end)
      by reflexivity.
    assert (H' : (Node.insert p (length (nodes s)) ;;; ret (length (nodes s)))
                   (set_nodes (nodes s ++ [new_TreeNode k properties]) s) = Ok n s').
    { cbn [root set_nodes] in H. destruct (root s); exact H. }
    clear H E. unfold bind at 1 in H'.
    pose proof (insert_inv p (length (nodes s))
                  (set_nodes (nodes s ++ [new_TreeNode k properties]) s)) as Hi.
    destruct (Node.insert p (length (nodes s)) _) as [u s1|e s1|x];
      [|discriminate|discriminate].
    destruct Hi as (nc & Hnc & ->). cbn [nodes set_nodes] in Hnc.
    rewrite lookup_fresh in Hnc. injection Hnc as <-.
    cbn in H'. injection H' as <- <-. split; [reflexivity|]. split; [|reflexivity].
    cbn [nodes set_nodes key new_TreeNode]. apply inserted_fresh, Hp.
  - cbn [root set_nodes] in H. destruct (root s) eqn:Hr; [discriminate|].
    cbn in H. injection H as <- <-. repeat split.
Qed.

Lemma alter_middle (f : TreeNode -> TreeNode) (h : heap) x t i :
  length h = i -> alter f i (h ++ x :: t) = h ++ f x :: t.
Proof.
  intros <-. rewrite alter_app_r_alt by lia. rewrite Nat.sub_diag. reflexivity.
Qed.

(** The store after [insertNode]: the par has one more child, and the
    nodes of the record tree follow the old store in document order. *)
Lemma insertNode_layout fuel : forall r par s n s',
  Tree.insertNode fuel r (ref_of par) s = Ok n s' ->
  (forall p, par = Some p -> p < length (nodes s)) ->
  n = length (nodes s) /\
  nodes s' =
    (match par with
     | Some p => alter (add_child n (rkey r)) p (nodes s)
     | None => nodes s
     end) ++ layout n par r /\
  root s' = (match par with Some _ => root s | None => Some n end).
Proof.
  induction r as [k properties chs IH] using record_induction.
  intros par s n s' H Hp. cbn [Tree.insertNode] in H. unfold bind at 1 in H.
  destruct (Tree.insert fuel k (ref_of par) properties s) as [node s1|e s1|x] eqn:Hins;
    [|discriminate|discriminate].
  destruct (tree_insert_layout _ _ _ _ _ _ _ Hins Hp) as (-> & Hn1 & Hr1).
  set (h0 := match par with
             | Some p => alter (add_child (length (nodes s)) k) p (nodes s)
             | None => nodes s
             end) in *.
  assert (Hlen0 : length h0 = length (nodes s)).
  { unfold h0. destruct par; [apply length_alter|reflexivity]. }
  unfold bind at 1 in H.
  assert (Hloop : forall l, Forall (fun r => forall par s n s',
              Tree.insertNode fuel r (ref_of par) s = Ok n s' ->
              (forall p, par = Some p -> p < length (nodes s)) ->
              n = length (nodes s) /\
              nodes s' =
                (match par with
                 | Some p => alter (add_child n (rkey r)) p (nodes s)
                 | None => nodes s
                 end) ++ layout n par r /\
              root s' = (match par with Some _ => root s | None => Some n end)) l ->
            forall sk ids m tail u s2,
            nodes sk = h0 ++ mkNode k par ids m properties :: tail ->
            (fix each (l : list Tree.record) : M unit :=
               match l with
               | [] => ret tt
               | childData :: l' =>
                   Tree.insertNode fuel childData (ByNode (length (nodes s))) ;;; each l'
               end) l sk = Ok u s2 ->
            nodes s2 =
              h0 ++ mkNode k par (ids ++ child_ids (length (nodes sk)) l)
                      (child_map m (length (nodes sk)) l) properties ::
                    (tail ++
                     (fix rest (c0 : id) (l : list Tree.record) : list TreeNode :=
                        match l with
                        | [] => []
                        | c :: l' =>
                            layout c0 (Some (length (nodes s))) c ++ rest (c0 + rsize c) l'
                        end) (length (nodes sk)) l) /\
            root s2 = root sk).
  { induction 1 as [|c l Hc _ IHl]; intros sk ids m tail u s2 Hsk Hrun.
    - injection Hrun as _ <-. cbn [child_ids child_map]. rewrite !app_nil_r. auto.
    - unfold bind at 1 in Hrun.
      destruct (Tree.insertNode fuel c (ByNode (length (nodes s))) sk) as [nc s3|e s3|x]
        eqn:Hchild; [|discriminate|discriminate].
      destruct (Hc (Some (length (nodes s))) sk nc s3 Hchild) as (-> & Hn3 & Hr3).
      { intros p [= <-]. rewrite Hsk, length_app, Hlen0. cbn. lia. }
      set (c0 := length (nodes sk)) in *.
      rewrite Hsk, (alter_middle _ _ _ _ _ Hlen0) in Hn3.
      rewrite <- app_assoc in Hn3. cbn [app] in Hn3.
      destruct (IHl s3 _ _ _ u s2 Hn3 Hrun) as [Hn2 Hr2].
      assert (Hlen3 : length (nodes s3) = c0 + rsize c).
      { unfold c0. rewrite Hn3, Hsk, !length_app. cbn [length].
        rewrite length_app, layout_length. lia. }
      rewrite Hlen3 in Hn2. split; [|congruence].
      rewrite Hn2. cbn [child_ids child_map add_child set_childrenMap set_children
                        children _childrenMap key parent props rkey].
      destruct c as [kc pc cc]. cbn [rkey].
      rewrite <- !app_assoc. reflexivity. }
  destruct ((fix each (l : list Tree.record) : M unit := _) chs s1) as [u s2|e s2|x] eqn:Hrun;
    [|discriminate|discriminate].
  injection H as <- <-. split; [reflexivity|].
  destruct (Hloop chs IH s1 [] [] [] u s2 Hn1 Hrun) as [Hn2 Hr2].
  assert (Hlen1 : length (nodes s1) = S (length (nodes s))).
  { rewrite Hn1, length_app, Hlen0. cbn. lia. }
  rewrite Hlen1 in Hn2. split; [|congruence].
  rewrite Hn2. cbn [layout rkey app]. reflexivity.
Qed.




(** ** The cache after a move or a rename, the current directory after a removal *)

(** C1 at a failing input.  [/a/b] is moved into [/c]; its former path is
    then still resolved, to the moved node, by the entry the move itself
    left in the cache, although the walk from the root finds nothing
    there. *)
Theorem C1_stale_entry_after_move :
  exists s1 s2 b,
    mv 8 (Path "/a/b") (Path "/c") example_fs = Ok 2 s1 /\
    nodes s1 !! 2 = Some b /\ key b = "b" /\ parent b = Some 3 /\
    _resolvePathUncached "/a/b" s1 = Throw (PathNotFound "/a/b") s1 /\
    _resolve_path 8 "/a/b" s1 = Ok (Some 2) s2.
Proof.
  eexists _, _, _. split; [vm_compute; reflexivity|].
  split; [reflexivity|]. split; [reflexivity|]. split; [reflexivity|].
  split; vm_compute; reflexivity.
Qed.

(** C5 at a failing input.  The directory [/a/b] is renamed to [z] through
    the relative path [a/b]; the same path is then still resolved, to the
    renamed node, because the invalidation was keyed by the path as given
    and the cache by its normalized form. *)
Theorem C5_stale_entry_after_rename :
  exists s1 s2 b,
    cwd example_fs = root example_fs /\
    rn 8 "a/b" "z" example_fs = Ok tt s1 /\
    nodes s1 !! 2 = Some b /\ key b = "z" /\
    _resolvePathUncached "/a/b" s1 = Throw (PathNotFound "/a/b") s1 /\
    _resolve_path 8 "a/b" s1 = Ok (Some 2) s2 /\
    _resolve_path 8 "/a/z" s1 = Ok (Some 2) (set_cache (_pathCache s1 ++ [("/a/z", Some 2)]) s1).
Proof.
  eexists _, _, _. split; [reflexivity|]. split; [vm_compute; reflexivity|].
  split; [reflexivity|]. split; [reflexivity|].
  split; [vm_compute; reflexivity|]. split; vm_compute; reflexivity.
Qed.

(** C4 at a failing input.  The current directory is [/a]; the empty
    directory [/c/a] is removed; the current directory is reset to the root
    although it was outside the removed directory.  And when the current
    directory is the removed [/c/a] itself it is reset to the root, not to
    [/c]. *)
Theorem C4_rmdir_resets_unrelated_cwd :
  exists s1 s2 s3 s4,
    cd 8 "/a" example_twins = Ok (Some 1) s1 /\ cwd s1 = Some 1 /\
    rmdir 8 "/c/a" s1 = Ok tt s2 /\ cwd s2 = Some 0 /\ root s2 = Some 0 /\
    cd 8 "/c/a" example_twins = Ok (Some 5) s3 /\
    rmdir 8 "/c/a" s3 = Ok tt s4 /\ cwd s4 = Some 0 /\
    _resolvePathUncached "/c" s4 = Ok (Some 3) s4.
Proof.
  eexists _, _, _, _. split; [vm_compute; reflexivity|]. split; [reflexivity|].
  split; [vm_compute; reflexivity|]. split; [reflexivity|]. split; [reflexivity|].
  split; [vm_compute; reflexivity|]. split; [vm_compute; reflexivity|].
  split; [reflexivity|]. vm_compute. reflexivity.
Qed.

(** The refusals of [rmdir] the claim C4 lists: the root, a node that is no
    directory, a directory with children. *)
Lemma rmdir_refusals fuel path s node s1 :
  truthy_str path = true ->
  _resolve_path fuel (strip_trailing_slashes path) s = Ok node s1 ->
  (node = root s1 -> rmdir fuel path s = Throw CannotModifyRoot s1) /\
  (forall n t, node = Some n -> node <> root s1 -> nodes s1 !! n = Some t ->
     (is_str (prop "type" t) "dir" = false -> rmdir fuel path s = Throw NotADirectory s1) /\
     (is_str (prop "type" t) "dir" = true -> children t <> [] ->
      rmdir fuel path s = Throw NonEmptyDirectory s1)).
Proof.
  intros Hp Hres. unfold rmdir. rewrite Hp. cbn [negb]. split.
  - intros Hroot. step_with ltac:(exact Hres). step.
    destruct (decide (node = root s1)); [reflexivity|contradiction].
  - intros n t -> Hne Hn. split.
    + intros Hty. step_with ltac:(exact Hres). step.
      destruct (decide (Some n = root s1)); [contradiction|].
      step. step_with ltac:(apply deref_ok, Hn). rewrite Hty. reflexivity.
    + intros Hty Hch. step_with ltac:(exact Hres). step.
      destruct (decide (Some n = root s1)); [contradiction|].
      step. step_with ltac:(apply deref_ok, Hn). rewrite Hty. cbn [negb].
      destruct (children t); [contradiction|]. reflexivity.
Qed.

(** Without [cache_valid] the property of C8 is lost: in [example_stale] the
    cache still maps [/a/b] to the renamed node, and a change of directory to
    the new [/a/b] lands in [/a/z]. *)
Lemma cd_through_stale_entry :
  exists s',
    _pathCache example_stale = [("/a/b", Some 2)] /\
    _resolvePathUncached "/a/b" example_stale = Ok (Some 5) example_stale /\
    cd 8 "/a/b" example_stale = Ok (Some 2) s' /\
    pwd 8 s' = Ok "/a/z" s'.
Proof.
  eexists. split; [reflexivity|]. split; [vm_compute; reflexivity|].
  split; vm_compute; reflexivity.
Qed.


(** The path [/] given to [rmdir] is stripped to the empty path, which
    resolves to the current directory: from inside the empty directory [/c],
    the call removes [/c] instead of refusing the root. *)
Lemma rmdir_slash_removes_cwd :
  exists s1 s2 r,
    cd 8 "/c" example_fs = Ok (Some 3) s1 /\
    rmdir 8 "/" s1 = Ok tt s2 /\
    nodes s2 !! 0 = Some r /\ children r = [1; 4] /\ cwd s2 = Some 0.
Proof.
  eexists _, _, _. split; [vm_compute; reflexivity|].
  split; [vm_compute; reflexivity|]. repeat split; reflexivity.
Qed.


(** While the cache is valid, a resolution answers what the walk from the
    root answers for the normalized path, whether it is served from the
    cache or not. *)
Lemma resolve_path_agrees_with_walk fuel p s r s' :
  cache_valid s ->
  negb (truthy_str p) || String.eqb p "." = false -> String.eqb p "/" = false ->
  _resolve_path fuel p s = Ok r s' ->
  exists np, _normalizePath fuel p s = Ok np s /\ _resolvePathUncached np s = Ok r s.
Proof.
  intros Hcache Hdot Hslash H. unfold _resolve_path in H. rewrite Hdot, Hslash in H.
  unfold bind at 1 in H.
  pose proof (pure_normalizePath fuel p s) as Hpure.
  destruct (_normalizePath fuel p s) as [np s1|e s1|x]; [|discriminate|discriminate].
  subst s1. exists np. split; [reflexivity|].
  unfold bind at 1, get_state in H.
  destruct (map_get np (_pathCache s)) as [[cached|]|] eqn:Hget.
  - injection H as <- _. apply Hcache, Hget.
  - unfold bind at 1 in H. cbn [update_cache] in H. unfold bind at 1 in H.
    destruct (_resolvePathUncached np (set_cache _ s)) as [res s2|e s2|x] eqn:Hun;
      [|discriminate|discriminate].
    assert (res = r) as ->.
    { unfold bind, get_state, ret in H.
      destruct (Nat.leb _ _); [destruct (map_first_key _)|]; cbn in H; congruence. }
    eapply resolvePathUncached_state; [exact Hun | reflexivity | reflexivity].
  - unfold bind at 1 in H. cbn [ret] in H. unfold bind at 1 in H.
    pose proof (pure_resolvePathUncached np s) as Hp.
    destruct (_resolvePathUncached np s) as [res s2|e s2|x];
      [|discriminate|discriminate].
    subst s2.
    assert (res = r) as ->.
    { unfold bind, get_state, ret in H.
      destruct (Nat.leb _ _); [destruct (map_first_key _)|]; cbn in H; congruence. }
    reflexivity.
Qed.

(** The rename itself, apart from the cache: the node keeps its place in
    the store and its children, bears the new key, and is indexed under the
    new key and no longer under the old one. *)
Lemma rn_in_place fuel oldPath x s s1 (a p : id) na np :
  truthy_str oldPath = true -> truthy_str x = true ->
  _resolve_path fuel oldPath s = Ok (Some a) s1 ->
  Some a <> root s1 ->
  nodes s1 !! a = Some na -> parent na = Some p -> p <> a ->
  nodes s1 !! p = Some np -> map_has x (_childrenMap np) = false ->
  exists s' np',
    rn fuel oldPath x s = Ok tt s' /\
    nodes s' !! a = Some (set_key x na) /\
    nodes s' !! p = Some np' /\ children np' = children np /\
    map_get x (_childrenMap np') = Some a /\
    (x <> key na -> map_get (key na) (_childrenMap np') = None) /\
    (forall j, j <> a -> j <> p -> nodes s' !! j = nodes s !! j).
Proof.
  intros Hold Hx Hres Hroot Ha Hp Hpa Hnp Hfree.
  assert (Hn1 : nodes s1 = nodes s)
    by (eapply read_only_nodes in Hres; [apply Hres|apply read_only_resolve_path]).
  eexists _, _. split.
  - unfold rn. rewrite Hold, Hx. cbn [negb].
    step_with ltac:(exact Hres). step.
    destruct (decide (Some a = root s1)); [contradiction|].
    step. step_with ltac:(apply deref_ok, Ha). rewrite Hp.
    step. step_with ltac:(unfold Node.hasChild; step_with ltac:(apply deref_ok, Hnp);
                          reflexivity).
    rewrite Hfree.
    step_with ltac:(eapply modify_ok, Hnp).
    step_with ltac:(eapply modify_ok; nf; rewrite lookup_alter_other by exact Hpa; exact Ha).
    step_with ltac:(eapply modify_ok; nf; rewrite lookup_alter_other by congruence;
                    apply lookup_alter_eq, Hnp).
    unfold _invalidatePathCache, update_cache. reflexivity.
  - nf.
    split.
    { rewrite lookup_alter_other by exact Hpa.
      erewrite lookup_alter_eq; [reflexivity|].
      rewrite lookup_alter_other by exact Hpa. exact Ha. }
    split.
    { erewrite lookup_alter_eq; [reflexivity|].
      rewrite lookup_alter_other by congruence. apply lookup_alter_eq, Hnp. }
    split; [reflexivity|].
    split; [cbn; apply map_get_set_eq|].
    split.
    { intros Hne. cbn. rewrite map_get_set_ne by exact Hne. apply map_get_delete_eq. }
    intros j Hja Hjp. rewrite !lookup_alter_other by congruence.
    rewrite Hn1. reflexivity.
Qed.


(** ** Invariants of the engine *)

Lemma preserves_ret {A} I (a : A) : preserves I (ret a).
Proof. intros s H. exact H. Qed.
Lemma preserves_throw {A} I e : preserves I (@throw A e).
Proof. intros s H. exact H. Qed.
Lemma preserves_abort {A} I r : preserves I (@abort_with A r).
Proof. intros s H. exact Logic.I. Qed.
Lemma preserves_pure {A} I (m : M A) : pure_command m -> preserves I m.
Proof. intros Hp s H. specialize (Hp s). destruct (m s); subst; auto. Qed.

Lemma preserves_bind {A B} I (m : M A) (f : A -> M B) :
  preserves I m -> (forall a, preserves I (f a)) -> preserves I (bind m f).
Proof.
  intros Hm Hf s H. unfold bind. specialize (Hm s H).
  destruct (m s) as [a s1|e s1|r]; auto. apply Hf, Hm.
Qed.

Create HintDb vfs_keep.
#[export] Hint Resolve preserves_ret preserves_throw preserves_abort : vfs_keep.

Ltac is_kept :=
  repeat first
    [ solve [auto with vfs_keep]
    | apply preserves_pure; solve [is_pure]
    | apply preserves_bind; [ | intros ]
    | match goal with
      | |- preserves _ (if ?b then _ else _) => destruct b
      | |- preserves _ (match ?x with _ => _ end) => destruct x
      end ].

Lemma pure_contents_string v : pure_command (contents_string v).
Proof. unfold contents_string. is_pure. Qed.
#[export] Hint Resolve pure_contents_string : vfs_pure.

(** *** Commands that leave the cache alone *)

Section CacheProperty.
Context (I : vfs -> Prop) (HI : cache_property I).

Lemma cache_kept_modify i f : preserves I (modify i f).
Proof.
  intros s H. unfold modify. destruct (nodes s !! i); [|exact Logic.I].
  eapply HI; [| |exact H]; reflexivity.
Qed.
Lemma cache_kept_alloc n : preserves I (alloc n).
Proof. intros s H. eapply HI; [| |exact H]; reflexivity. Qed.
Lemma cache_kept_assign_cwd c : preserves I (assign_cwd c).
Proof. intros s H. eapply HI; [| |exact H]; reflexivity. Qed.
Lemma cache_kept_assign_root r : preserves I (assign_root r).
Proof. intros s H. eapply HI; [| |exact H]; reflexivity. Qed.
Lemma cache_kept_getUid : preserves I getUid.
Proof. intros s H. eapply HI; [| |exact H]; reflexivity. Qed.

#[local] Hint Resolve cache_kept_modify cache_kept_alloc cache_kept_assign_cwd
  cache_kept_assign_root cache_kept_getUid : vfs_keep.

Lemma cache_kept_Node_insert this child : preserves I (Node.insert this child).
Proof. unfold Node.insert. is_kept. Qed.
Lemma cache_kept_Node_delete this child : preserves I (Node.delete this child).
Proof. unfold Node.delete. is_kept. Qed.
#[local] Hint Resolve cache_kept_Node_insert cache_kept_Node_delete : vfs_keep.

Lemma cache_kept_Tree_delete fuel n : preserves I (Tree.delete fuel (Tree.RefNode n)).
Proof.
  unfold Tree.delete. apply preserves_bind; [apply preserves_ret|]. intros targets.
  destruct targets as [[|t ts]|]; [apply preserves_throw| |apply preserves_throw].
  match goal with
  | |- context [ ?F ts 1 ] => assert (Hloop : forall l count, preserves I (F l count))
  end.
  { induction l as [|x l IHl]; intros count; [apply preserves_ret|].
    is_kept; apply IHl. }
  is_kept; apply Hloop.
Qed.

Lemma cache_kept_mkdir_loop segments : forall current,
  preserves I (mkdir_loop current segments).
Proof.
  induction segments as [|seg rest IH]; intros current; cbn [mkdir_loop]; is_kept;
    apply IH.
Qed.

Lemma cache_kept_clone fuel : forall deep this, preserves I (Node.clone fuel deep this).
Proof.
  induction fuel as [|f IH]; intros deep this; cbn [Node.clone]; [apply preserves_abort|].
  apply preserves_bind; [is_kept|]. intros t.
  apply preserves_bind; [is_kept|]. intros cloned.
  apply preserves_bind; [|intros; apply preserves_ret].
  destruct deep; [|apply preserves_ret].
  induction (children t) as [|c l IHl]; [apply preserves_ret|].
  apply preserves_bind; [apply IH|]. intros c'.
  apply preserves_bind; [is_kept|]. intros _. exact IHl.
Qed.

Lemma cache_kept_updateNodeMetadata n : forall node,
  preserves I (_updateNodeMetadata n node).
Proof.
  induction n as [|n IH]; intros node; cbn [_updateNodeMetadata]; [apply preserves_abort|].
  do 8 (apply preserves_bind; [is_kept|]; intros).
  induction (children _) as [|c l IHl]; [apply preserves_ret|].
  apply preserves_bind; [apply IH|]. intros. exact IHl.
Qed.
End CacheProperty.

#[export] Hint Resolve cache_kept_modify cache_kept_alloc cache_kept_assign_cwd
  cache_kept_assign_root cache_kept_getUid cache_kept_Node_insert cache_kept_Node_delete
  cache_kept_Tree_delete cache_kept_mkdir_loop cache_kept_clone
  cache_kept_updateNodeMetadata : vfs_keep.

(** *** The bound of the cache *)

Lemma cache_bounded_property : cache_property cache_bounded.
Proof. intros s s' Hc Hm. unfold cache_bounded. rewrite Hc, Hm. tauto. Qed.
#[export] Hint Resolve cache_bounded_property : vfs_keep.

Lemma map_size_delete {V} k (m : jsmap V) : map_size (map_delete k m) <= map_size m.
Proof.
  unfold map_size. induction m as [|[k' v] m IH]; [reflexivity|]. cbn.
  destruct (String.eqb k k'); cbn; lia.
Qed.

Lemma map_size_set {V} k (v : V) m : map_size (map_set k v m) <= S (map_size m).
Proof.
  unfold map_size. induction m as [|[k' v'] m IH]; [reflexivity|]. cbn.
  destruct (String.eqb k k'); cbn; lia.
Qed.

Lemma map_size_delete_first {V} k (v : V) m :
  S (map_size (map_delete k ((k, v) :: m))) <= map_size ((k, v) :: m).
Proof.
  cbn [map_delete]. rewrite String.eqb_refl. pose proof (map_size_delete k m).
  unfold map_size in *. cbn. lia.
Qed.

Lemma invalidate_parents_size segments : forall i c,
  map_size (invalidate_parents i segments c) <= map_size c.
Proof.
  intros i. induction i as [|j IH]; intros c; [reflexivity|]. cbn [invalidate_parents].
  etransitivity; [apply IH|]. apply map_size_delete.
Qed.

Lemma bounded_invalidate path : preserves cache_bounded (_invalidatePathCache path).
Proof.
  intros s [H1 H2]. cbn. split; [exact H1|]. cbn.
  etransitivity; [apply invalidate_parents_size|].
  etransitivity; [apply map_size_delete|exact H2].
Qed.

Lemma bounded_resolve_path fuel path : preserves cache_bounded (_resolve_path fuel path).
Proof.
  unfold _resolve_path.
  destruct (negb (truthy_str path) || String.eqb path "."); [is_kept|].
  destruct (String.eqb path "/"); [is_kept|].
  apply preserves_bind; [is_kept|]. intros np.
  intros s H. unfold bind at 1, get_state.
  assert (Hgo : forall s0, cache_bounded s0 ->
            match (result <- _resolvePathUncached np ;;
                   s1 <- get_state ;;
                   (if Nat.leb (_maxCacheSize s1) (map_size (_pathCache s1)) then
                      match map_first_key (_pathCache s1) with
                      | Some firstKey => update_cache (map_delete firstKey)
                      | None => ret tt
                      end
                    else ret tt) ;;;
                   update_cache (map_set np result) ;;; ret result) s0 with
            | Ok _ s' | Throw _ s' => cache_bounded s'
            | Abort _ => True
            end).
  { intros s0 [H1 H2]. unfold bind at 1.
    pose proof (pure_resolvePathUncached np s0) as Hp.
    destruct (_resolvePathUncached np s0) as [res s2|e s2|r]; [|subst; split; auto|exact Logic.I].
    subst s2. unfold bind at 1, get_state.
    destruct (Nat.leb (_maxCacheSize s0) (map_size (_pathCache s0))) eqn:Efull.
    - apply Nat.leb_le in Efull.
      destruct (_pathCache s0) as [|[k0 v0] rest] eqn:Ec.
      + unfold map_size in Efull. cbn in Efull. lia.
      + cbn [map_first_key]. unfold bind, update_cache, ret, cache_bounded. nf.
        rewrite Ec. split; [exact H1|].
        pose proof (map_size_set np res (map_delete k0 ((k0, v0) :: rest))).
        pose proof (map_size_delete_first k0 v0 rest). lia.
    - apply Nat.leb_gt in Efull. unfold bind, update_cache, ret, cache_bounded. nf.
      split; [exact H1|].
      pose proof (map_size_set np res (_pathCache s0)). lia. }
  destruct (map_get np (_pathCache s)) as [[cached|]|].
  - exact H.
  - unfold bind at 1. cbn [update_cache]. apply Hgo.
    destruct H as [H1 H2]. split; [exact H1|]. cbn.
    etransitivity; [apply map_size_delete|exact H2].
  - unfold bind at 1. cbn [ret]. apply Hgo, H.
Qed.
#[export] Hint Resolve bounded_invalidate bounded_resolve_path : vfs_keep.

Lemma bounded_resolve_target fuel x : preserves cache_bounded (resolve_target fuel x).
Proof. unfold resolve_target. is_kept. Qed.
#[export] Hint Resolve bounded_resolve_target : vfs_keep.

(** The path cache never outgrows its bound: whatever operation is run and
    whether it succeeds or fails, a cache within its bound (of at least one
    entry) is within its bound afterwards. *)
Theorem cache_stays_bounded (fuel : nat) (le : string -> string -> bool)
    (r : request) (s : vfs) :
  1 <= _maxCacheSize s ->
  map_size (_pathCache s) <= _maxCacheSize s ->
  match perform fuel le r s with
  | Ok _ s' | Throw _ s' =>
      _maxCacheSize s' = _maxCacheSize s /\ map_size (_pathCache s') <= _maxCacheSize s'
  | Abort _ => True
  end.
Proof.
  intros H1 H2.
  set (I := fun s' => _maxCacheSize s' = _maxCacheSize s /\ cache_bounded s').
  assert (HI : cache_property I).
  { intros a b Hc Hm [Ha Hb]. split; [congruence|].
    eapply cache_bounded_property; eassumption. }
  (* the bound itself is never assigned *)
  assert (Hsplit : forall m : M unit,
            preserves cache_bounded m ->
            preserves (fun s' => _maxCacheSize s' = _maxCacheSize s) m ->
            preserves I m).
  { intros m Ha Hb s0 [Hs0 Hb0]. specialize (Ha s0 Hb0). specialize (Hb s0 Hs0).
    destruct (m s0); try split; auto. }
  assert (Hmax : cache_property (fun s' => _maxCacheSize s' = _maxCacheSize s)).
  { intros a b _ Hm Ha. congruence. }
  assert (Hmax_cache : forall f,
            preserves (fun s' => _maxCacheSize s' = _maxCacheSize s) (update_cache f)).
  { intros f s0 Hs0. exact Hs0. }
  assert (Hmax_inv : forall p,
            preserves (fun s' => _maxCacheSize s' = _maxCacheSize s) (_invalidatePathCache p)).
  { intros p. apply Hmax_cache. }
  assert (Hmax_res : forall p,
            preserves (fun s' => _maxCacheSize s' = _maxCacheSize s) (_resolve_path fuel p)).
  { intros p s0 Hs0. pose proof (read_only_resolve_path fuel p s0) as Hro.
    destruct (_resolve_path fuel p s0); auto; destruct Hro as (_ & _ & _ & Hm & _);
      congruence. }
  assert (Hmax_tgt : forall x,
            preserves (fun s' => _maxCacheSize s' = _maxCacheSize s) (resolve_target fuel x)).
  { intros x. unfold resolve_target. destruct x; [|apply preserves_ret].
    destruct (truthy_str p); [apply Hmax_res|apply preserves_throw]. }
  assert (Hall : preserves I (perform fuel le r)).
  { apply Hsplit.
    - destruct r; cbn [perform];
        unfold cd, ls, pwd, cat, mkdir, rmdir, rm, rn, cp, mv, whereis; is_kept.
    - destruct r; cbn [perform];
        unfold cd, ls, pwd, cat, mkdir, rmdir, rm, rn, cp, mv, whereis; is_kept. }
  specialize (Hall s (conj eq_refl (conj H1 H2))).
  destruct (perform fuel le r s); auto; destruct Hall as [? [_ ?]]; auto.
Qed.


Lemma cache_stays_bounded_witness :
  1 <= _maxCacheSize example_tight /\
  map_size (_pathCache example_tight) <= _maxCacheSize example_tight /\
  match perform 8 String.leb (Resolve "/c") example_tight with
  | Ok _ s' | Throw _ s' =>
      _maxCacheSize s' = _maxCacheSize example_tight /\
      map_size (_pathCache s') <= _maxCacheSize s'
  | Abort _ => True
  end.
Proof.
  assert (H1 : 1 <= _maxCacheSize example_tight) by (cbn; lia).
  assert (H2 : map_size (_pathCache example_tight) <= _maxCacheSize example_tight)
    by (cbn; lia).
  split; [exact H1|]. split; [exact H2|].
  exact (cache_stays_bounded 8 String.leb (Resolve "/c") example_tight H1 H2).
Defined.

(** ** Resolving the same path again *)

Lemma absolute_path_state fuel node s p s1 s' :
  _absolute_path fuel node s = Ok p s1 ->
  nodes s' = nodes s -> root s' = root s ->
  _absolute_path fuel node s' = Ok p s'.
Proof.
  unfold _absolute_path. destruct node as [n|]; [|intros [= <- _] _ _; reflexivity].
  intros H Hn Hr. unfold bind in *.
  destruct (path_up fuel (Some n) [] s) as [l s2|e s2|r] eqn:E; [|discriminate|discriminate].
  rewrite (path_up_state _ _ _ _ _ _ s' E Hn Hr). unfold ret in *.
  injection H as <- _. reflexivity.
Qed.

Lemma normalizePath_state fuel p s np s1 s' :
  _normalizePath fuel p s = Ok np s1 ->
  nodes s' = nodes s -> root s' = root s -> cwd s' = cwd s ->
  _normalizePath fuel p s' = Ok np s'.
Proof.
  unfold _normalizePath. intros H Hn Hr Hc.
  destruct (negb (truthy_str p) || String.eqb p ".").
  - unfold bind, get_state in *. rewrite Hc.
    destruct (_absolute_path fuel (cwd s) s) as [b s2|e s2|r] eqn:E;
      [|discriminate|discriminate].
    rewrite (absolute_path_state _ _ _ _ _ s' E Hn Hr).
    pose proof (pure_absolute_path fuel (cwd s) s) as Hp. rewrite E in Hp. congruence.
  - destruct (String.eqb p "/"); [injection H as <- _; reflexivity|].
    destruct (startsWith p "/").
    + unfold bind, ret in *. congruence.
    + unfold bind at 1 in H. unfold bind at 1.
      unfold bind at 1, get_state in H. unfold bind at 1, get_state. rewrite Hc.
      destruct (_absolute_path fuel (cwd s) s) as [b s2|e s2|r] eqn:E;
        [|discriminate|discriminate].
      rewrite (absolute_path_state _ _ _ _ _ s' E Hn Hr). unfold ret in *.
      injection H as <- _. reflexivity.
Qed.

(** Once a path has resolved to a node, resolving it again answers the
    same node from the cache and changes nothing at all. *)
Theorem resolve_path_again (fuel : nat) (p : string) (s s1 : vfs) (n : id) :
  _resolve_path fuel p s = Ok (Some n) s1 ->
  _resolve_path fuel p s1 = Ok (Some n) s1.
Proof.
  unfold _resolve_path.
  destruct (negb (truthy_str p) || String.eqb p ".").
  { unfold bind, get_state, ret. intros [= H <-]. rewrite H. reflexivity. }
  destruct (String.eqb p "/").
  { unfold bind, get_state, ret. intros [= H <-]. rewrite H. reflexivity. }
  unfold bind at 1. pose proof (pure_normalizePath fuel p s) as Hpure.
  destruct (_normalizePath fuel p s) as [np s0|e s0|r] eqn:Enp; [|discriminate|discriminate].
  subst s0. unfold bind at 1, get_state.
  assert (Hhit : forall s', nodes s' = nodes s -> root s' = root s -> cwd s' = cwd s ->
            map_get np (_pathCache s') = Some (Some n) ->
            (normalizedPath <- _normalizePath fuel p ;;
             s2 <- get_state ;;
             match map_get normalizedPath (_pathCache s2) with
             | Some (Some cached) => ret (Some cached)
             | stale =>
                 (match stale with
                  | Some _ => update_cache (map_delete normalizedPath)
                  | None => ret tt
                  end) ;;;
                 result <- _resolvePathUncached normalizedPath ;;
                 s3 <- get_state ;;
                 (if Nat.leb (_maxCacheSize s3) (map_size (_pathCache s3)) then
                    match map_first_key (_pathCache s3) with
                    | Some firstKey => update_cache (map_delete firstKey)
                    | None => ret tt
                    end
                  else ret tt) ;;;
                 update_cache (map_set normalizedPath result) ;;;
                 ret result
             end) s' = Ok (Some n) s').
  { intros s' Hn Hr Hc Hget.
    step_with ltac:(eapply normalizePath_state; eassumption).
    step. rewrite Hget. reflexivity. }
  assert (Hmiss : forall s0, nodes s0 = nodes s -> root s0 = root s -> cwd s0 = cwd s ->
            (result <- _resolvePathUncached np ;;
             s3 <- get_state ;;
             (if Nat.leb (_maxCacheSize s3) (map_size (_pathCache s3)) then
                match map_first_key (_pathCache s3) with
                | Some firstKey => update_cache (map_delete firstKey)
                | None => ret tt
                end
              else ret tt) ;;;
             update_cache (map_set np result) ;;;
             ret result) s0 = Ok (Some n) s1 ->
            nodes s1 = nodes s /\ root s1 = root s /\ cwd s1 = cwd s /\
            map_get np (_pathCache s1) = Some (Some n)).
  { intros s0 Hn Hr Hc H. unfold bind at 1 in H.
    pose proof (pure_resolvePathUncached np s0) as Hp.
    destruct (_resolvePathUncached np s0) as [res s2|e s2|r]; [|discriminate|discriminate].
    subst s2. unfold bind at 1, get_state in H.
    destruct (Nat.leb (_maxCacheSize s0) (map_size (_pathCache s0)));
      [destruct (map_first_key (_pathCache s0))|];
      unfold bind, update_cache, ret in H; injection H as -> <-; nf;
      auto using map_get_set_eq. }
  destruct (map_get np (_pathCache s)) as [[cached|]|] eqn:Hget.
  - intros [= -> <-]. apply Hhit; auto.
  - unfold bind at 1. cbn [update_cache]. intros H.
    apply Hmiss in H; [|reflexivity..]. destruct H as (Hn & Hr & Hc & Hg).
    apply Hhit; assumption.
  - unfold bind at 1. cbn [ret]. intros H.
    apply Hmiss in H; [|reflexivity..]. destruct H as (Hn & Hr & Hc & Hg).
    apply Hhit; assumption.
Qed.

Lemma resolve_path_again_witness :
  _resolve_path 8 "/a/b" example_fs
    = Ok (Some 2) (set_cache [("/a/b", Some 2)] example_fs) /\
  _resolve_path 8 "/a/b" (set_cache [("/a/b", Some 2)] example_fs)
    = Ok (Some 2) (set_cache [("/a/b", Some 2)] example_fs).
Proof.
  assert (H : _resolve_path 8 "/a/b" example_fs
              = Ok (Some 2) (set_cache [("/a/b", Some 2)] example_fs))
    by (vm_compute; reflexivity).
  split; [exact H|]. exact (resolve_path_again 8 "/a/b" _ _ 2 H).
Defined.

(** ** Normalization of absolute paths *)

Lemma normalize_step_dot_free resolved seg :
  dot_free resolved -> String.eqb seg "." = false ->
  dot_free (normalize_step resolved seg).
Proof.
  intros H Hs. unfold normalize_step. destruct (String.eqb seg "..") eqn:E.
  - apply Forall_removelast, H.
  - apply Forall_app. split; [exact H|]. repeat constructor; assumption.
Qed.

Lemma fold_normalize_dot_free segs : forall resolved,
  dot_free resolved -> Forall (fun x => String.eqb x "." = false) segs ->
  dot_free (fold_left normalize_step segs resolved).
Proof.
  induction segs as [|seg segs IH]; intros resolved H Hs; [exact H|].
  apply Forall_cons in Hs as [Hseg Hs]. cbn.
  apply IH; [apply normalize_step_dot_free; assumption | exact Hs].
Qed.

Lemma fold_normalize_plain l : forall resolved,
  dot_free l -> fold_left normalize_step l resolved = resolved ++ l.
Proof.
  induction l as [|x l IH]; intros resolved H; [symmetry; apply app_nil_r|].
  apply Forall_cons in H as [[_ Hx] Hl]. cbn. unfold normalize_step at 2. rewrite Hx.
  rewrite IH by exact Hl. rewrite <- app_assoc. reflexivity.
Qed.

Lemma filter_segments_dot_free l :
  Forall segment l -> dot_free l ->
  List.filter (fun seg => truthy_str seg && negb (String.eqb seg ".")) l = l.
Proof.
  induction 1 as [|x l [Hx _] _ IH]; [reflexivity|]. intros Hd.
  apply Forall_cons in Hd as [[Hdot _] Hd]. cbn. rewrite Hx, Hdot. cbn.
  rewrite IH by exact Hd. reflexivity.
Qed.

Lemma filter_not_dot s :
  Forall (fun x => String.eqb x "." = false)
         (List.filter (fun seg => truthy_str seg && negb (String.eqb seg "."))
                      (js_split slash s)).
Proof.
  induction (js_split slash s) as [|x l IH]; [constructor|]. cbn.
  destruct (truthy_str x && negb (String.eqb x ".")) eqn:E; [|exact IH].
  constructor; [|exact IH]. apply andb_true_iff in E as [_ E].
  apply negb_true_iff in E. exact E.
Qed.

Lemma canonical_not_root x l :
  segment x -> String.eqb ("/" +:+ js_join "/" (x :: l)) "/" = false.
Proof. intros [Hx _]. destruct x; [discriminate|]. destruct l; reflexivity. Qed.

Lemma canonical_not_dot l : String.eqb ("/" +:+ js_join "/" l) "." = false.
Proof. reflexivity. Qed.

Lemma startsWith_slash x : startsWith ("/" +:+ x) "/" = true.
Proof.
  unfold startsWith. change ("/" +:+ x) with (String slash x). cbn [String.prefix].
  destruct (ascii_dec "/" slash); [destruct x; reflexivity|contradiction].
Qed.

(** The normal form of an absolute path does not depend on the state, is
    absolute, and is a fixed point of the normalization. *)
Theorem normalizePath_idempotent (fuel : nat) (p : string) (s : vfs) :
  startsWith p "/" = true ->
  exists np,
    _normalizePath fuel p s = Ok np s /\
    startsWith np "/" = true /\
    _normalizePath fuel np s = Ok np s.
Proof.
  intros Habs. unfold _normalizePath at 1.
  assert (Hne : negb (truthy_str p) || String.eqb p "." = false).
  { destruct p as [|c p]; [discriminate|].
    unfold startsWith in Habs. cbn [String.prefix] in Habs.
    destruct (ascii_dec "/" c) as [<-|]; [|discriminate].
    destruct p; reflexivity. }
  rewrite Hne. destruct (String.eqb p "/") eqn:Hroot.
  { exists "/". repeat split. }
  rewrite Habs. unfold bind, ret. cbn [String.eqb Ascii.eqb Bool.eqb].
  set (l := fold_left normalize_step _ []).
  assert (Hseg : Forall segment l).
  { apply fold_normalize_segments; [constructor|].
    apply segments_of_split. intros x Hx. apply andb_true_iff in Hx. tauto. }
  assert (Hdot : dot_free l).
  { apply fold_normalize_dot_free; [constructor|apply filter_not_dot]. }
  clearbody l. exists ("/" +:+ js_join "/" l). split; [reflexivity|].
  split; [apply startsWith_slash|].
  destruct l as [|x l]; [reflexivity|].
  unfold _normalizePath.
  rewrite canonical_not_root by (apply Forall_cons in Hseg; tauto).
  change (negb (truthy_str ("/" +:+ js_join "/" (x :: l))) ||
          String.eqb ("/" +:+ js_join "/" (x :: l)) ".") with false.
  rewrite startsWith_slash.
  unfold bind, ret. cbn [String.eqb Ascii.eqb Bool.eqb].
  change ("/" +:+ js_join "/" (x :: l)) with (String slash (js_join "/" (x :: l))) at 1.
  rewrite split_cons, Ascii.eqb_refl. cbn [List.filter truthy_str String.eqb negb andb].
  rewrite split_join.
  - rewrite filter_segments_dot_free, fold_normalize_plain by assumption. reflexivity.
  - discriminate.
  - eapply Forall_impl; [exact Hseg|]. intros y [_ Hy]. exact Hy.
Qed.

Lemma normalizePath_idempotent_witness :
  startsWith "/a/./x/../b//" "/" = true /\
  exists np,
    _normalizePath 8 "/a/./x/../b//" example_fs = Ok np example_fs /\
    startsWith np "/" = true /\
    _normalizePath 8 np example_fs = Ok np example_fs.
Proof.
  split; [reflexivity|].
  exact (normalizePath_idempotent 8 "/a/./x/../b//" example_fs eq_refl).
Defined.


(** ** Invalidation of the cache *)

Lemma map_get_delete {V} k k' (m : jsmap V) :
  map_get k' (map_delete k m) = if String.eqb k' k then None else map_get k' m.
Proof.
  destruct (String.eqb_spec k' k) as [->|Hne].
  - apply map_get_delete_eq.
  - apply map_get_delete_ne. congruence.
Qed.

(** Reading the cache after the loop of [_invalidatePathCache]. *)
Lemma invalidate_parents_get segments k : forall i c,
  map_get k (invalidate_parents i segments c) =
  if existsb (fun j => String.eqb k (str_or (js_join "/" (firstn j segments)) "/"))
             (seq 1 i)
  then None else map_get k c.
Proof.
  induction i as [|j IH]; intros c; [reflexivity|].
  cbn [invalidate_parents]. rewrite IH, map_get_delete.
  rewrite seq_S, existsb_app. cbn [existsb Nat.add].
  destruct (existsb _ (seq 1 j)); [reflexivity|]. cbn [orb].
  destruct (String.eqb k _); reflexivity.
Qed.

Lemma join_empty_head x l : js_join "/" ("" :: x :: l) = canonical (x :: l).
Proof. reflexivity. Qed.

Lemma firstn_join_canonical l j :
  str_or (js_join "/" (firstn (S j) ("" :: l))) "/" = canonical (firstn j l).
Proof.
  cbn [firstn]. destruct (firstn j l) as [|x l'] eqn:E; [reflexivity|].
  rewrite join_empty_head. reflexivity.
Qed.

Lemma split_canonical l :
  Forall segment l -> l <> [] -> js_split slash (canonical l) = "" :: l.
Proof.
  intros H Hne. unfold canonical.
  change ("/" +:+ js_join "/" l) with (String slash (js_join "/" l)).
  rewrite split_cons, Ascii.eqb_refl. f_equal. apply split_join; [exact Hne|].
  eapply Forall_impl; [exact H|]. intros x [_ Hx]. exact Hx.
Qed.

Lemma existsb_seq_shift (f g : nat -> bool) n : forall a,
  (forall j, f (S j) = g j) ->
  existsb f (seq (S a) n) = existsb g (seq a n).
Proof.
  induction n as [|n IH]; intros a H; [reflexivity|]. cbn [seq existsb].
  rewrite IH, H by exact H. reflexivity.
Qed.

(** Invalidating a canonical path drops the entry of the path and of each
    of its ancestors up to the root, keeps every other entry as it is, and
    touches nothing but the cache. *)
Theorem invalidate_drops_ancestors (l : list string) (s : vfs) :
  Forall segment l ->
  exists s',
    _invalidatePathCache (canonical l) s = Ok tt s' /\
    same_tree s s' /\
    forall k,
      map_get k (_pathCache s') =
      if existsb (fun j => String.eqb k (canonical (firstn j l))) (seq 0 (S (length l)))
      then None else map_get k (_pathCache s).
Proof.
  intros Hl. eexists. split; [reflexivity|]. split; [apply same_tree_set_cache|].
  intros k. nf. rewrite invalidate_parents_get, map_get_delete.
  destruct l as [|x l].
  - (* the root: "/" splits into two empty segments *)
    unfold canonical. change ("/" +:+ js_join "/" []) with "/". cbn.
    change ("/" +:+ "") with "/". destruct (String.eqb k "/"); reflexivity.
  - rewrite split_canonical by (exact Hl || discriminate).
    replace (length ("" :: x :: l) - 1) with (S (length l)) by (cbn [length]; lia).
    cbn [length]. set (n := length l).
    replace (seq 0 (S (S n))) with (seq 0 (S n) ++ [S n]) by (rewrite <- seq_S; reflexivity).
    rewrite existsb_app. cbn [existsb]. rewrite orb_false_r.
    replace (canonical (firstn (S n) (x :: l))) with (canonical (x :: l))
      by (unfold n; change (S (length l)) with (length (x :: l));
          rewrite firstn_all; reflexivity).
    assert (E : existsb (fun j => String.eqb k
                  (str_or (js_join "/" (firstn j ("" :: x :: l))) "/")) (seq 1 (S n))
                = existsb (fun j => String.eqb k (canonical (firstn j (x :: l))))
                    (seq 0 (S n))).
    { apply existsb_seq_shift. intros j.
      rewrite firstn_join_canonical. reflexivity. }
    rewrite E. destruct (existsb _ (seq 0 (S n))); [reflexivity|]. reflexivity.
Qed.

Lemma invalidate_drops_ancestors_witness :
  Forall segment ["a"; "b"] /\
  exists s',
    _invalidatePathCache (canonical ["a"; "b"])
      (set_cache [("/a", Some 1); ("/c", Some 3); ("/a/b", Some 2)] example_fs) = Ok tt s' /\
    same_tree (set_cache [("/a", Some 1); ("/c", Some 3); ("/a/b", Some 2)] example_fs) s' /\
    forall k,
      map_get k (_pathCache s') =
      if existsb (fun j => String.eqb k (canonical (firstn j ["a"; "b"]))) (seq 0 3)
      then None
      else map_get k [("/a", Some 1); ("/c", Some 3); ("/a/b", Some 2)].
Proof.
  assert (H : Forall segment ["a"; "b"]) by (repeat constructor).
  split; [exact H|].
  exact (invalidate_drops_ancestors ["a"; "b"]
           (set_cache [("/a", Some 1); ("/c", Some 3); ("/a/b", Some 2)] example_fs) H).
Defined.


(** ** Consistency of the children arrays, the name index and the parent links *)

Lemma lookup_alter_fn (h : heap) f i j :
  alter f i h !! j = (if decide (j = i) then f else fun x => x) <$> h !! j.
Proof.
  rewrite list_lookup_alter. destruct (decide (i = j)) as [->|Hne].
  - destruct (decide (j = j)); [reflexivity|contradiction].
  - destruct (decide (j = i)); [congruence|]. destruct (h !! j); reflexivity.
Qed.

Lemma inserted_at (h : heap) this child k j :
  inserted this child k h !! j = insert_at this child k j <$> h !! j.
Proof.
  unfold inserted, insert_at, add_child. rewrite !lookup_alter_fn.
  destruct (h !! j); cbn; [|reflexivity].
  destruct (decide (j = child)), (decide (j = this)); reflexivity.
Qed.

Lemma deleted_at (h : heap) this child k i j :
  deleted this child k i h !! j = delete_at this child k i j <$> h !! j.
Proof.
  unfold deleted, delete_at. rewrite !lookup_alter_fn.
  destruct (h !! j); cbn; [|reflexivity].
  destruct (decide (j = child)), (decide (j = this)); reflexivity.
Qed.

(** A store whose nodes are those of [h] seen through [upd] is consistent
    when the four conditions hold of the updated nodes. *)
Lemma well_formed_update (h h' : heap) (upd : id -> TreeNode -> TreeNode) :
  (forall j, h' !! j = upd j <$> h !! j) ->
  (forall p np, h !! p = Some np -> NoDup (children (upd p np))) ->
  (forall p np k c, h !! p = Some np ->
     map_get k (_childrenMap (upd p np)) = Some c <->
     c ∈ children (upd p np) /\ exists nc, h !! c = Some nc /\ key (upd c nc) = k) ->
  (forall p np c, h !! p = Some np -> c ∈ children (upd p np) ->
     exists nc, h !! c = Some nc /\ parent (upd c nc) = Some p) ->
  (forall c nc p, h !! c = Some nc -> parent (upd c nc) = Some p ->
     exists np, h !! p = Some np /\ c ∈ children (upd p np)) ->
  well_formed h'.
Proof.
  intros Hh H1 H2 H3 H4.
  assert (Hinv : forall j n', h' !! j = Some n' ->
            exists n, h !! j = Some n /\ n' = upd j n).
  { intros j n' Hj. rewrite Hh in Hj. destruct (h !! j) as [n|]; [|discriminate].
    injection Hj as <-. eauto. }
  assert (Hfwd : forall j n, h !! j = Some n -> h' !! j = Some (upd j n)).
  { intros j n Hj. rewrite Hh, Hj. reflexivity. }
  split; [|split; [|split]].
  - intros p np' Hp. destruct (Hinv _ _ Hp) as (np & Hp0 & ->). eauto.
  - intros p np' k c Hp. destruct (Hinv _ _ Hp) as (np0 & Hp0 & ->).
    rewrite (H2 _ _ k c Hp0). split; intros [Hin (nc & Hc & Hkey)]; (split; [exact Hin|]).
    + eauto.
    + destruct (Hinv _ _ Hc) as (nc0 & Hc0 & ->). eauto.
  - intros p np' c Hp Hin. destruct (Hinv _ _ Hp) as (np & Hp0 & ->).
    destruct (H3 _ _ _ Hp0 Hin) as (nc & Hc & Hpar). eauto.
  - intros c nc' p Hc Hpar. destruct (Hinv _ _ Hc) as (nc & Hc0 & ->).
    destruct (H4 _ _ _ Hc0 Hpar) as (np & Hp & Hin). eauto.
Qed.

Lemma well_formed_nil : well_formed [].
Proof.
  split; [|split; [|split]]; intros; discriminate.
Qed.

(** No node lists an orphan. *)
Lemma orphan_unlisted (h : heap) i p np :
  well_formed h -> orphan i h -> h !! p = Some np -> i ∉ children np.
Proof.
  intros (_ & _ & Hchild & _) (n & Hn & Hpar) Hp Hin.
  destruct (Hchild _ _ _ Hp Hin) as (n' & Hn' & Hpar'). congruence.
Qed.

(** Only the links of the nodes matter. *)
Lemma well_formed_links (h h' : heap) (upd : id -> TreeNode -> TreeNode) :
  (forall j, h' !! j = upd j <$> h !! j) ->
  (forall j n, key (upd j n) = key n /\ parent (upd j n) = parent n /\
               children (upd j n) = children n /\
               _childrenMap (upd j n) = _childrenMap n) ->
  well_formed h -> well_formed h'.
Proof.
  intros Hh Hupd (H1 & H2 & H3 & H4).
  apply (well_formed_update h h' upd Hh).
  - intros p np Hp. destruct (Hupd p np) as (_ & _ & -> & _). eauto.
  - intros p np k c Hp. destruct (Hupd p np) as (_ & _ & -> & ->).
    rewrite (H2 _ _ k c Hp). split; intros [Hin (nc & Hc & Hk)]; (split; [exact Hin|]);
      exists nc; destruct (Hupd c nc) as (Hkey & _); split; congruence.
  - intros p np c Hp. destruct (Hupd p np) as (_ & _ & -> & _). intros Hin.
    destruct (H3 _ _ _ Hp Hin) as (nc & Hc & Hpar). exists nc.
    destruct (Hupd c nc) as (_ & -> & _). auto.
  - intros c nc p Hc. destruct (Hupd c nc) as (_ & -> & _). intros Hpar.
    destruct (H4 _ _ _ Hc Hpar) as (np & Hp & Hin). exists np.
    destruct (Hupd p np) as (_ & _ & -> & _). auto.
Qed.

Lemma well_formed_alter_props (h : heap) i name v :
  well_formed h -> well_formed (alter (set_prop name v) i h).
Proof.
  apply (well_formed_links h _ (fun j => if decide (j = i) then set_prop name v else fun x => x)).
  - intros j. apply lookup_alter_fn.
  - intros j n. destruct (decide (j = i)); repeat split.
Qed.

(** Allocation of a node without links. *)
Lemma well_formed_alloc (h : heap) n :
  parent n = None -> children n = [] -> _childrenMap n = [] ->
  well_formed h -> well_formed (h ++ [n]) /\ orphan (length h) (h ++ [n]).
Proof.
  intros Hp Hc Hm (H1 & H2 & H3 & H4).
  assert (Hold : forall j x, h !! j = Some x -> (h ++ [n]) !! j = Some x)
    by (intros; apply lookup_old; assumption).
  assert (Hcases : forall j x, (h ++ [n]) !! j = Some x ->
            h !! j = Some x \/ (j = length h /\ x = n)).
  { intros j x Hj. apply lookup_snoc_Some in Hj. intuition. }
  split; [|exists n; split; [apply lookup_fresh|exact Hp]].
  split; [|split; [|split]].
  - intros p np Hj. destruct (Hcases _ _ Hj) as [Hj'|[-> ->]]; [eauto|].
    rewrite Hc. constructor.
  - intros p np k c Hj. destruct (Hcases _ _ Hj) as [Hj'|[-> ->]].
    + rewrite (H2 _ _ k c Hj'). split; intros [Hin (nc & Hnc & Hkey)]; (split; [exact Hin|]).
      * eauto.
      * destruct (H3 _ _ _ Hj' Hin) as (nc' & Hnc' & _).
        rewrite (Hold _ _ Hnc') in Hnc. injection Hnc as <-. eauto.
    + rewrite Hm, Hc. split; [discriminate|]. intros [Hin _]. inversion Hin.
  - intros p np c Hj Hin. destruct (Hcases _ _ Hj) as [Hj'|[-> ->]].
    + destruct (H3 _ _ _ Hj' Hin) as (nc & Hnc & Hpar). eauto.
    + rewrite Hc in Hin. inversion Hin.
  - intros c nc p Hj Hpar. destruct (Hcases _ _ Hj) as [Hj'|[-> ->]].
    + destruct (H4 _ _ _ Hj' Hpar) as (np & Hnp & Hin). eauto.
    + congruence.
Qed.

Lemma insert_at_key this child k j n : key (insert_at this child k j n) = key n.
Proof. unfold insert_at. destruct (decide _), (decide _); reflexivity. Qed.
Lemma insert_at_parent this child k j n :
  parent (insert_at this child k j n) = if decide (j = child) then Some this else parent n.
Proof. unfold insert_at. destruct (decide _), (decide _); reflexivity. Qed.
Lemma insert_at_children this child k j n :
  children (insert_at this child k j n) =
  if decide (j = this) then children n ++ [child] else children n.
Proof. unfold insert_at. destruct (decide _), (decide _); reflexivity. Qed.
Lemma insert_at_map this child k j n :
  _childrenMap (insert_at this child k j n) =
  if decide (j = this) then map_set k child (_childrenMap n) else _childrenMap n.
Proof. unfold insert_at. destruct (decide _), (decide _); reflexivity. Qed.

Lemma map_get_set {V} k k' (v : V) m :
  map_get k' (map_set k v m) = if String.eqb k' k then Some v else map_get k' m.
Proof.
  destruct (String.eqb_spec k' k) as [->|Hne].
  - apply map_get_set_eq.
  - apply map_get_set_ne. congruence.
Qed.

Lemma map_has_false {V} k (m : jsmap V) : map_has k m = false -> map_get k m = None.
Proof. unfold map_has. destruct (map_get k m); [discriminate|reflexivity]. Qed.

(** Inserting an orphan under a free name. *)
Lemma well_formed_inserted (h : heap) this child nt nc :
  well_formed h ->
  h !! this = Some nt -> h !! child = Some nc -> parent nc = None ->
  map_has (key nc) (_childrenMap nt) = false ->
  well_formed (inserted this child (key nc) h).
Proof.
  intros Hwf Ht Hc Hpar Hfree.
  assert (Horph : orphan child h) by (exists nc; auto).
  pose proof (fun p np => orphan_unlisted h child p np Hwf Horph) as Hunl.
  destruct Hwf as (H1 & H2 & H3 & H4).
  apply map_has_false in Hfree.
  apply (well_formed_update h _ (insert_at this child (key nc)) (inserted_at h this child (key nc))).
  - intros p np Hp. rewrite insert_at_children.
    destruct (decide (p = this)) as [->|_]; [|eauto].
    apply NoDup_app. split; [eauto|]. split; [|apply NoDup_singleton].
    intros x Hx Hx'. apply list_elem_of_singleton in Hx'. subst x. exact (Hunl _ _ Hp Hx).
  - intros p np k c Hp. rewrite insert_at_children, insert_at_map.
    assert (Hkeys : (exists n, h !! c = Some n /\ key (insert_at this child (key nc) c n) = k)
                    <-> exists n, h !! c = Some n /\ key n = k).
    { split; intros (n & Hn & Hk); exists n; rewrite insert_at_key in *; auto. }
    rewrite Hkeys. destruct (decide (p = this)) as [->|_]; [|exact (H2 _ _ k c Hp)].
    rewrite Hp in Ht. injection Ht as ->.
    rewrite map_get_set. destruct (String.eqb_spec k (key nc)) as [->|Hne].
    + split.
      * intros [= <-]. split; [apply elem_of_app; right; constructor|eauto].
      * intros [Hin (n & Hn & Hk)]. apply elem_of_app in Hin as [Hin|Hin].
        -- assert (Hget : map_get (key nc) (_childrenMap nt) = Some c)
             by (apply (H2 _ _ _ _ Hp); eauto).
           congruence.
        -- apply list_elem_of_singleton in Hin. congruence.
    + rewrite (H2 _ _ k c Hp). split.
      * intros [Hin Hk]. split; [apply elem_of_app; left; exact Hin|exact Hk].
      * intros [Hin (n & Hn & Hk)]. apply elem_of_app in Hin as [Hin|Hin]; [eauto|].
        apply list_elem_of_singleton in Hin. subst c. congruence.
  - intros p np c Hp. rewrite insert_at_children. intros Hin.
    assert (Hcases : c ∈ children np \/ (p = this /\ c = child)).
    { destruct (decide (p = this)); [|auto]. apply elem_of_app in Hin as [?|Hin]; [auto|].
      apply list_elem_of_singleton in Hin. auto. }
    destruct Hcases as [Hin'|[-> ->]].
    + destruct (H3 _ _ _ Hp Hin') as (n & Hn & Hpn). exists n. split; [exact Hn|].
      rewrite insert_at_parent. destruct (decide (c = child)) as [->|_]; [|exact Hpn].
      exfalso. exact (Hunl _ _ Hp Hin').
    + exists nc. split; [exact Hc|]. rewrite insert_at_parent.
      destruct (decide (child = child)); [reflexivity|contradiction].
  - intros c n p Hn. rewrite insert_at_parent.
    destruct (decide (c = child)) as [->|_].
    + intros [= <-]. exists nt. split; [exact Ht|]. rewrite insert_at_children.
      destruct (decide (this = this)); [|contradiction].
      apply elem_of_app. right. constructor.
    + intros Hpn. destruct (H4 _ _ _ Hn Hpn) as (np & Hp & Hin). exists np.
      split; [exact Hp|]. rewrite insert_at_children.
      destruct (decide (p = this)); [apply elem_of_app; left|]; exact Hin.
Qed.


Lemma delete_at_key this child k i j n : key (delete_at this child k i j n) = key n.
Proof. unfold delete_at. destruct (decide _), (decide _); reflexivity. Qed.
Lemma delete_at_parent this child k i j n :
  parent (delete_at this child k i j n) = if decide (j = child) then None else parent n.
Proof. unfold delete_at. destruct (decide _), (decide _); reflexivity. Qed.
Lemma delete_at_children this child k i j n :
  children (delete_at this child k i j n) =
  if decide (j = this) then splice1 i (children n) else children n.
Proof. unfold delete_at. destruct (decide _), (decide _); reflexivity. Qed.
Lemma delete_at_map this child k i j n :
  _childrenMap (delete_at this child k i j n) =
  if decide (j = this) then map_delete k (_childrenMap n) else _childrenMap n.
Proof. unfold delete_at. destruct (decide _), (decide _); reflexivity. Qed.

Lemma indexOf_elem x l i : indexOf x l = Some i -> x ∈ l.
Proof.
  revert i. induction l as [|y l IH]; intros i; [discriminate|]. cbn.
  destruct (Nat.eqb_spec y x) as [->|_]; [intros _; constructor|].
  destruct (indexOf x l) as [j|]; [|discriminate]. intros _. constructor. eauto.
Qed.

Lemma elem_indexOf x l : x ∈ l -> exists i, indexOf x l = Some i.
Proof.
  induction l as [|y l IH]; [intros H; inversion H|]. intros H. cbn.
  destruct (Nat.eqb_spec y x) as [->|Hne]; [eauto|].
  apply elem_of_cons in H as [->|H]; [contradiction|].
  destruct (IH H) as (i & ->). eauto.
Qed.

Lemma splice1_elem x l i y :
  indexOf x l = Some i -> NoDup l -> y ∈ splice1 i l <-> y ∈ l /\ y <> x.
Proof.
  revert i. induction l as [|z l IH]; intros i; [discriminate|]. cbn [indexOf].
  destruct (Nat.eqb_spec z x) as [->|Hne].
  - intros [= <-] Hnd. apply NoDup_cons in Hnd as [Hx _]. cbn. split.
    + intros Hy. split; [constructor; exact Hy|]. intros ->. contradiction.
    + intros [Hy Hne]. apply elem_of_cons in Hy as [->|Hy]; [contradiction|exact Hy].
  - destruct (indexOf x l) as [j|] eqn:Ej; [|discriminate]. intros [= <-] Hnd.
    apply NoDup_cons in Hnd as [_ Hnd]. cbn.
    rewrite !elem_of_cons, (IH j eq_refl Hnd). split.
    + intros [->|[Hy Hyx]]; [split; [left; reflexivity|congruence]|tauto].
    + intros [[->|Hy] Hyx]; tauto.
Qed.

Lemma splice1_NoDup l i : NoDup l -> NoDup (splice1 i l).
Proof.
  intros H. eapply sublist_NoDup; [exact H|apply sublist_delete].
Qed.

(** Removing a listed child. *)
Lemma well_formed_deleted (h : heap) this child nt nc i :
  well_formed h ->
  h !! this = Some nt -> h !! child = Some nc ->
  indexOf child (children nt) = Some i ->
  well_formed (deleted this child (key nc) i h) /\
  orphan child (deleted this child (key nc) i h).
Proof.
  intros (H1 & H2 & H3 & H4) Ht Hc Hi.
  pose proof (indexOf_elem _ _ _ Hi) as Hin.
  assert (Hpar : parent nc = Some this).
  { destruct (H3 _ _ _ Ht Hin) as (n & Hn & Hp). congruence. }
  assert (Honly : forall p np, h !! p = Some np -> child ∈ children np -> p = this).
  { intros p np Hp Hin'. destruct (H3 _ _ _ Hp Hin') as (n & Hn & Hp'). congruence. }
  pose proof (fun y => splice1_elem child (children nt) i y Hi (H1 _ _ Ht)) as Hsp.
  split.
  2: { exists (delete_at this child (key nc) i child nc). split.
       - rewrite deleted_at, Hc. reflexivity.
       - rewrite delete_at_parent. destruct (decide (child = child)); [reflexivity|contradiction]. }
  apply (well_formed_update h _ (delete_at this child (key nc) i) (deleted_at h this child _ i)).
  - intros p np Hp. rewrite delete_at_children.
    destruct (decide (p = this)); [apply splice1_NoDup|]; eauto.
  - intros p np k c Hp. rewrite delete_at_children, delete_at_map.
    assert (Hkeys : (exists n, h !! c = Some n /\ key (delete_at this child (key nc) i c n) = k)
                    <-> exists n, h !! c = Some n /\ key n = k).
    { split; intros (n & Hn & Hk); exists n; rewrite delete_at_key in *; auto. }
    rewrite Hkeys. destruct (decide (p = this)) as [->|_]; [|exact (H2 _ _ k c Hp)].
    rewrite Hp in Ht. injection Ht as ->.
    rewrite map_get_delete, Hsp. destruct (String.eqb_spec k (key nc)) as [->|Hne].
    + split; [discriminate|]. intros [[Hc' Hne] Hk]. exfalso. apply Hne.
      assert (E1 : map_get (key nc) (_childrenMap nt) = Some c)
        by (apply (H2 _ _ _ _ Hp); auto).
      assert (E2 : map_get (key nc) (_childrenMap nt) = Some child)
        by (apply (H2 _ _ _ _ Hp); eauto).
      congruence.
    + rewrite (H2 _ _ k c Hp). split; [|tauto].
      intros [Hc' (n & Hn & Hk)]. split; [split; [exact Hc'|]|eauto].
      intros ->. congruence.
  - intros p np c Hp. rewrite delete_at_children. intros Hin'.
    assert (Hc' : c ∈ children np /\ c <> child).
    { destruct (decide (p = this)) as [->|Hne].
      - rewrite Hp in Ht. injection Ht as ->. apply Hsp, Hin'.
      - split; [exact Hin'|]. intros ->. apply Hne. eauto. }
    destruct Hc' as [Hc1 Hc2]. destruct (H3 _ _ _ Hp Hc1) as (n & Hn & Hpn).
    exists n. split; [exact Hn|]. rewrite delete_at_parent.
    destruct (decide (c = child)); [contradiction|exact Hpn].
  - intros c n p Hn. rewrite delete_at_parent.
    destruct (decide (c = child)) as [->|Hne]; [discriminate|]. intros Hpn.
    destruct (H4 _ _ _ Hn Hpn) as (np & Hp & Hin'). exists np. split; [exact Hp|].
    rewrite delete_at_children. destruct (decide (p = this)) as [->|_]; [|exact Hin'].
    rewrite Hp in Ht. injection Ht as ->. apply Hsp. auto.
Qed.

Lemma rename_at_key p n old new j x :
  key (rename_at p n old new j x) = if decide (j = n) then new else key x.
Proof. unfold rename_at. destruct (decide (j = p)), (decide (j = n)); reflexivity. Qed.
Lemma rename_at_parent p n old new j x : parent (rename_at p n old new j x) = parent x.
Proof. unfold rename_at. destruct (decide (j = p)), (decide (j = n)); reflexivity. Qed.
Lemma rename_at_children p n old new j x : children (rename_at p n old new j x) = children x.
Proof. unfold rename_at. destruct (decide (j = p)), (decide (j = n)); reflexivity. Qed.
Lemma rename_at_map p n old new j x :
  _childrenMap (rename_at p n old new j x) =
  if decide (j = p) then map_set new n (map_delete old (_childrenMap x)) else _childrenMap x.
Proof. unfold rename_at. destruct (decide (j = p)), (decide (j = n)); reflexivity. Qed.

(** Renaming a child to a free name. *)
Lemma well_formed_renamed (h h' : heap) (p n : id) np nn new :
  well_formed h ->
  h !! n = Some nn -> parent nn = Some p -> h !! p = Some np ->
  map_has new (_childrenMap np) = false ->
  (forall j, h' !! j = rename_at p n (key nn) new j <$> h !! j) ->
  well_formed h'.
Proof.
  intros (H1 & H2 & H3 & H4) Hn Hpar Hp Hfree Hh'.
  apply map_has_false in Hfree.
  destruct (H4 _ _ _ Hn Hpar) as (np' & Hp' & Hin). rewrite Hp in Hp'. injection Hp' as <-.
  assert (Hold : map_get (key nn) (_childrenMap np) = Some n)
    by (apply (H2 _ _ _ _ Hp); eauto).
  assert (Honly : forall q nq, h !! q = Some nq -> n ∈ children nq -> q = p).
  { intros q nq Hq Hin'. destruct (H3 _ _ _ Hq Hin') as (x & Hx & Hpx). congruence. }
  apply (well_formed_update h h' _ Hh').
  - intros q nq Hq. rewrite rename_at_children. eauto.
  - intros q nq k c Hq. rewrite rename_at_children, rename_at_map.
    assert (Hkeys : (exists x, h !! c = Some x /\ key (rename_at p n (key nn) new c x) = k)
                    <-> (c = n /\ k = new) \/ (c <> n /\ exists x, h !! c = Some x /\ key x = k)).
    { split.
      - intros (x & Hx & Hk). rewrite rename_at_key in Hk.
        destruct (decide (c = n)); [left; auto|right; eauto].
      - intros [[-> ->]|[Hne (x & Hx & Hk)]].
        + exists nn. split; [exact Hn|]. rewrite rename_at_key.
          destruct (decide (n = n)); [reflexivity|contradiction].
        + exists x. split; [exact Hx|]. rewrite rename_at_key.
          destruct (decide (c = n)); [contradiction|exact Hk]. }
    rewrite Hkeys. destruct (decide (q = p)) as [->|Hqp].
    + rewrite Hq in Hp. injection Hp as ->.
      rewrite map_get_set. destruct (String.eqb_spec k new) as [->|Hknew].
      * split.
        -- intros [= <-]. split; [exact Hin|]. left. auto.
        -- intros [Hc [[-> _]|[Hne (x & Hx & Hk)]]]; [reflexivity|].
           assert (E : map_get new (_childrenMap np) = Some c)
             by (apply (H2 _ _ _ _ Hq); eauto).
           congruence.
      * rewrite map_get_delete. destruct (String.eqb_spec k (key nn)) as [Ek|Hkold].
        -- split; [discriminate|]. intros [Hc [[_ ->]|[Hne (x & Hx & Hk)]]]; [contradiction|].
           assert (E : map_get (key nn) (_childrenMap np) = Some c)
             by (apply (H2 _ _ _ _ Hq); split; [exact Hc|]; exists x; split; congruence).
           congruence.
        -- rewrite (H2 _ _ k c Hq). split.
           ++ intros [Hc (x & Hx & Hk)]. split; [exact Hc|]. right. split; [|eauto].
              intros ->. congruence.
           ++ intros [Hc [[_ ->]|[Hne Hk]]]; [contradiction|auto].
    + rewrite (H2 _ _ k c Hq). split.
      * intros [Hc Hk]. split; [exact Hc|]. right. split; [|exact Hk].
        intros ->. apply Hqp. eauto.
      * intros [Hc [[-> _]|[_ Hk]]]; [exfalso; apply Hqp; eauto|auto].
  - intros q nq c Hq. rewrite rename_at_children. intros Hc.
    destruct (H3 _ _ _ Hq Hc) as (x & Hx & Hpx). exists x.
    rewrite rename_at_parent. auto.
  - intros c x q Hx. rewrite rename_at_parent. intros Hpx.
    destruct (H4 _ _ _ Hx Hpx) as (nq & Hq & Hc). exists nq.
    rewrite rename_at_children. auto.
Qed.

(** *** Rules *)

Lemma safe_bind {A B} X (m : M A) Y (f : A -> M B) Z :
  safe X m Y -> (forall a, safe (Y a) (f a) Z) -> safe X (bind m f) Z.
Proof.
  intros Hm Hf s H. unfold bind. specialize (Hm s H).
  destruct (m s) as [a s1|e s1|r]; auto. apply Hf, Hm.
Qed.

Lemma safe_weaken {A} X X' (m : M A) Y Y' :
  safe X' m Y' -> (forall h, X h -> X' h) -> (forall a h, Y' a h -> Y a h) -> safe X m Y.
Proof.
  intros Hm HX HY s [Hwf Hx]. specialize (Hm s (conj Hwf (HX _ Hx))).
  destruct (m s); auto. destruct Hm. split; auto.
Qed.

(** A command that leaves the nodes as they were. *)
Lemma safe_same_nodes {A} X (m : M A) :
  (forall s, match m s with
             | Ok _ s' | Throw _ s' => nodes s' = nodes s
             | Abort _ => True
             end) ->
  safe X m (fun _ => X).
Proof.
  intros Hm s [Hwf Hx]. specialize (Hm s). unfold wf_and, anything.
  destruct (m s); auto; rewrite Hm; auto.
Qed.

Lemma safe_read_only {A} X (m : M A) : read_only m -> safe X m (fun _ => X).
Proof.
  intros Hro. apply safe_same_nodes. intros s. specialize (Hro s).
  destruct (m s); auto; apply Hro.
Qed.

Lemma safe_ret {A} X (a : A) : safe X (ret a) (fun _ => X).
Proof. intros s H. exact H. Qed.

Lemma safe_throw {A} X e Y : safe X (@throw A e) Y.
Proof. intros s [H _]. split; [exact H|exact I]. Qed.

Lemma safe_forget {A} X (m : M A) Y : safe X m Y -> safe X m (fun _ => anything).
Proof. intros H. eapply safe_weaken; [exact H|auto|]. intros; exact I. Qed.

Lemma safe_start {A} X (m : M A) Y : safe anything m Y -> safe X m Y.
Proof. intros H. eapply safe_weaken; [exact H| |auto]. intros; exact I. Qed.

Lemma safe_getUid X : safe X getUid (fun _ => X).
Proof. apply safe_same_nodes. intros s. reflexivity. Qed.
Lemma safe_assign_cwd X c : safe X (assign_cwd c) (fun _ => X).
Proof. apply safe_same_nodes. intros s. reflexivity. Qed.
Lemma safe_assign_root X r : safe X (assign_root r) (fun _ => X).
Proof. apply safe_same_nodes. intros s. reflexivity. Qed.

Lemma safe_deref X i : safe X (deref i) (fun t h => X h /\ h !! i = Some t).
Proof.
  intros s [Hwf Hx]. unfold deref. destruct (nodes s !! i) eqn:E; [|exact I].
  split; auto.
Qed.

Lemma safe_set_prop X i name v : safe X (modify i (set_prop name v)) (fun _ => anything).
Proof.
  intros s [Hwf _]. unfold modify. destruct (nodes s !! i); [|exact I].
  split; [|exact I]. apply well_formed_alter_props, Hwf.
Qed.

Lemma safe_alloc X k properties :
  safe X (alloc (new_TreeNode k properties)) (fun i h => orphan i h).
Proof.
  intros s [Hwf _]. cbn [alloc]. unfold wf_and. nf.
  apply well_formed_alloc; auto.
Qed.

Lemma safe_insert this child :
  safe (orphan child) (Node.insert this child) (fun _ => anything).
Proof.
  intros s [Hwf (nc & Hc & Hpar)].
  destruct (nodes s !! this) as [nt|] eqn:Ht.
  2: { unfold Node.insert, bind, deref. rewrite Hc, Ht. exact I. }
  destruct (map_has (key nc) (_childrenMap nt)) eqn:Hm.
  - rewrite (insert_dup _ _ _ _ _ Ht Hc Hm). split; [exact Hwf|exact I].
  - rewrite (insert_ok _ _ _ _ _ Ht Hc Hm). split; [|exact I]. nf.
    eapply well_formed_inserted; eassumption.
Qed.

Lemma safe_delete X this child :
  safe X (Node.delete this child) (fun _ => anything).
Proof.
  intros s [Hwf _]. unfold Node.delete. unfold bind at 1, deref at 1.
  destruct (nodes s !! this) as [nt|] eqn:Ht; [|exact I].
  destruct (indexOf child (children nt)) as [i|] eqn:Hi; [|split; [exact Hwf|exact I]].
  destruct (nodes s !! child) as [nc|] eqn:Hc.
  2: { unfold bind, deref. rewrite Hc. exact I. }
  pose proof (delete_found _ _ _ _ _ _ Ht Hc Hi) as Hok. unfold Node.delete in Hok.
  unfold bind at 1 in Hok. rewrite (deref_ok _ _ _ Ht), Hi in Hok. rewrite Hok.
  split; [|exact I]. nf. eapply well_formed_deleted; eassumption.
Qed.

(** Deleting a node from the parent it names leaves it an orphan. *)
Lemma safe_delete_from_parent p a :
  safe (fun h => exists na, h !! a = Some na /\ parent na = Some p)
       (Node.delete p a) (fun _ => orphan a).
Proof.
  intros s [Hwf (na & Ha & Hpar)].
  pose proof Hwf as (H1 & H2 & H3 & H4).
  destruct (H4 _ _ _ Ha Hpar) as (np & Hp & Hin).
  destruct (elem_indexOf _ _ Hin) as (i & Hi).
  rewrite (delete_found _ _ _ _ _ _ Hp Ha Hi). unfold wf_and. nf.
  eapply well_formed_deleted; eassumption.
Qed.


(** *** Every operation keeps the store consistent *)

Lemma safe_of_preserves {A} X (m : M A) :
  preserves consistent m -> safe X m (fun _ => anything).
Proof.
  intros H s [Hwf _]. specialize (H s Hwf). unfold wf_and, anything.
  destruct (m s); auto.
Qed.

Lemma preserves_of_safe {A} (m : M A) Y : safe anything m Y -> preserves consistent m.
Proof.
  intros H s Hwf. specialize (H s (conj Hwf I)). destruct (m s); auto; apply H.
Qed.

Lemma consistent_same_nodes {A} (m : M A) :
  (forall s, match m s with
             | Ok _ s' | Throw _ s' => nodes s' = nodes s
             | Abort _ => True
             end) ->
  preserves consistent m.
Proof.
  intros H. apply (preserves_of_safe m (fun _ => anything)), safe_same_nodes, H.
Qed.

Lemma consistent_read_only {A} (m : M A) : read_only m -> preserves consistent m.
Proof.
  intros H. apply (preserves_of_safe m (fun _ => anything)), safe_read_only, H.
Qed.

Lemma consistent_getUid : preserves consistent getUid.
Proof. apply consistent_same_nodes. intros s. reflexivity. Qed.
Lemma consistent_assign_cwd c : preserves consistent (assign_cwd c).
Proof. apply consistent_same_nodes. intros s. reflexivity. Qed.
Lemma consistent_assign_root r : preserves consistent (assign_root r).
Proof. apply consistent_same_nodes. intros s. reflexivity. Qed.
Lemma consistent_set_prop i name v : preserves consistent (modify i (set_prop name v)).
Proof. eapply preserves_of_safe, safe_set_prop. Qed.
Lemma consistent_delete this child : preserves consistent (Node.delete this child).
Proof. eapply preserves_of_safe, safe_delete. Qed.

(** A new node is inserted as soon as it is allocated. *)
Lemma consistent_alloc_insert {A} this k properties (f : id -> M A) :
  (forall a, preserves consistent (f a)) ->
  preserves consistent
    (node <- alloc (new_TreeNode k properties) ;; Node.insert this node ;;; f node).
Proof.
  intros Hf. eapply preserves_of_safe.
  eapply safe_bind; [apply safe_alloc|]. intros node.
  eapply safe_bind; [apply safe_insert|]. intros ?.
  apply safe_of_preserves, Hf.
Qed.

Create HintDb vfs_wf.
#[export] Hint Resolve preserves_ret preserves_throw preserves_abort
  consistent_getUid consistent_assign_cwd consistent_assign_root consistent_set_prop
  consistent_delete : vfs_wf.

Ltac is_wf :=
  repeat first
    [ solve [auto with vfs_wf]
    | apply consistent_read_only; solve [is_ro]
    | apply consistent_alloc_insert; intros
    | apply preserves_bind; [ | intros ]
    | match goal with
      | |- preserves _ (if ?b then _ else _) => destruct b
      | |- preserves _ (match ?x with _ => _ end) => destruct x
      end ].

Lemma consistent_Tree_delete fuel n :
  preserves consistent (Tree.delete fuel (Tree.RefNode n)).
Proof.
  unfold Tree.delete. apply preserves_bind; [apply preserves_ret|]. intros targets.
  destruct targets as [[|t ts]|]; [apply preserves_throw| |apply preserves_throw].
  match goal with
  | |- context [ ?F ts 1 ] =>
      assert (Hloop : forall l count, preserves consistent (F l count))
  end.
  { induction l as [|x l IHl]; intros count; [apply preserves_ret|].
    is_wf; apply IHl. }
  is_wf; apply Hloop.
Qed.

Lemma consistent_mkdir_loop segments : forall current,
  preserves consistent (mkdir_loop current segments).
Proof.
  induction segments as [|seg rest IH]; intros current; cbn [mkdir_loop]; is_wf;
    apply IH.
Qed.

Lemma consistent_updateNodeMetadata n : forall node,
  preserves consistent (_updateNodeMetadata n node).
Proof.
  induction n as [|n IH]; intros node; cbn [_updateNodeMetadata]; [apply preserves_abort|].
  do 8 (apply preserves_bind; [is_wf|]; intros).
  induction (children _) as [|c l IHl]; [apply preserves_ret|].
  apply preserves_bind; [apply IH|]. intros. exact IHl.
Qed.
#[export] Hint Resolve consistent_Tree_delete consistent_mkdir_loop
  consistent_updateNodeMetadata : vfs_wf.

(** A copy is consistent with the rest of the store and has no parent. *)
Lemma safe_clone fuel : forall deep this,
  safe anything (Node.clone fuel deep this) (fun c => orphan c).
Proof.
  induction fuel as [|f IH]; intros deep this s [Hwf _]; cbn [Node.clone]; [exact I|].
  unfold bind at 1, deref at 1. destruct (nodes s !! this) as [t|]; [|exact I].
  unfold bind at 1. cbn [alloc].
  set (cloned := length (nodes s)).
  set (s1 := set_nodes _ s).
  assert (H1 : well_formed (nodes s1) /\ orphan cloned (nodes s1)).
  { unfold s1, cloned. nf. apply well_formed_alloc; auto. }
  clearbody s1. unfold bind at 1.
  assert (Hloop : forall l sk,
            well_formed (nodes sk) -> orphan cloned (nodes sk) ->
            match (fix each (l : list nat) : M unit :=
                     match l with
                     | [] => ret tt
                     | c :: l' =>
                         c' <- Node.clone f true c ;;
                         Node.insert cloned c' ;;; each l'
                     end) l sk with
            | Ok _ s' => well_formed (nodes s') /\ orphan cloned (nodes s')
            | Throw _ s' => well_formed (nodes s')
            | Abort _ => True
            end).
  { induction l as [|c l IHl]; intros sk Hk Ho; [cbn; auto|].
    unfold bind at 1.
    pose proof (IH true c sk (conj Hk I)) as Hc.
    pose proof (clone_keeps f true c sk (length (nodes sk)) (le_n _)) as Hkeep.
    destruct (Node.clone f true c sk) as [c' s2|e s2|r]; [|apply Hc|exact I].
    destruct Hc as [Hwf2 Ho2]. destruct Hkeep as [(Htake & _) [Hc1 Hc2]].
    destruct Ho as (nclone & Hclone & Hpc).
    assert (Hlt : cloned < length (nodes sk)) by (eapply lookup_lt_Some, Hclone).
    assert (Hclone2 : nodes s2 !! cloned = Some nclone).
    { rewrite <- (lookup_take_lt (nodes s2) (length (nodes sk))) by exact Hlt.
      rewrite Htake, lookup_take_lt by exact Hlt. exact Hclone. }
    unfold bind at 1.
    pose proof (safe_insert cloned c' s2 (conj Hwf2 Ho2)) as Hins.
    pose proof (insert_inv cloned c' s2) as Hinv.
    destruct (Node.insert cloned c' s2) as [u s3|e s3|r]; [|apply Hins|exact I].
    destruct Hinv as (nc' & Hc' & ->). apply IHl; [apply Hins|].
    nf. eexists. split.
    - rewrite inserted_at, Hclone2. reflexivity.
    - rewrite insert_at_parent. destruct (decide (cloned = c')); [lia|exact Hpc]. }
  destruct H1 as [Hwf1 Ho1].
  destruct deep.
  - specialize (Hloop (children t) s1 Hwf1 Ho1).
    destruct ((fix each (l : list nat) : M unit := _) (children t) s1)
      as [u s2|e s2|r]; [|split; [exact Hloop|exact I]|exact I].
    cbn. exact Hloop.
  - cbn. split; assumption.
Qed.

Lemma consistent_Tree_insert fuel k parent properties :
  preserves consistent (Tree.insert fuel k parent properties).
Proof.
  unfold Tree.insert. destruct (negb (truthy_str k)); [apply preserves_throw|].
  eapply preserves_of_safe.
  eapply safe_bind; [apply safe_alloc|]. intros node.
  eapply safe_bind; [apply safe_read_only; is_ro|]. intros s0. cbv beta.
  destruct (match parent with
            | NoParent => true
            | ByPattern p => negb (truthy_str p)
            | _ => false
            end).
  - destruct (root s0); [apply safe_throw|].
    apply safe_of_preserves. is_wf.
  - eapply safe_bind.
    { apply safe_read_only. destruct parent; is_ro. }
    intros parentNodes. destruct parentNodes as [[|p0 l]|]; try apply safe_throw.
    eapply safe_bind; [apply safe_insert|]. intros ?. apply safe_ret.
Qed.
#[export] Hint Resolve consistent_Tree_insert : vfs_wf.

Lemma consistent_insertNode fuel : forall r parent,
  preserves consistent (Tree.insertNode fuel r parent).
Proof.
  induction r as [k properties chs IH] using record_induction. intros parent.
  cbn [Tree.insertNode]. apply preserves_bind; [is_wf|]. intros node.
  apply preserves_bind; [|intros; apply preserves_ret].
  induction IH as [|c l Hc _ IHl]; [apply preserves_ret|].
  apply preserves_bind; [apply Hc|]. intros ?. exact IHl.
Qed.

Lemma consistent_Tree_fromJSON fuel json : preserves consistent (Tree.fromJSON fuel json).
Proof.
  intros s H. unfold Tree.fromJSON. destruct json as [r|]; [|exact H].
  pose proof (consistent_insertNode fuel r NoParent (set_root None s) H) as Hi.
  destruct (Tree.insertNode fuel r NoParent (set_root None s)); auto.
Qed.

Lemma consistent_initStructure fuel : forall r parent,
  preserves consistent (initStructure fuel r parent).
Proof.
  induction r as [k ty mi pe mo c extra IH] using fsrecord_induction. intros parent.
  cbn [initStructure]. destruct (negb (truthy_str k)); [apply preserves_throw|].
  apply preserves_bind; [is_wf|]. intros uid.
  apply preserves_bind; [is_wf|]. intros now.
  apply preserves_bind; [is_wf|]. intros s0.
  apply preserves_bind; [is_wf|]. intros nodeData.
  apply preserves_bind; [is_wf|]. intros s1.
  apply preserves_bind; [is_wf|]. intros ?.
  apply preserves_bind; [|intros; apply preserves_ret].
  destruct c as [|t|l]; try apply preserves_ret.
  specialize (IH l eq_refl).
  induction IH as [|x l Hx _ IHl]; [apply preserves_ret|].
  apply preserves_bind; [apply Hx|]. intros ?. exact IHl.
Qed.
#[export] Hint Resolve consistent_Tree_fromJSON consistent_initStructure : vfs_wf.

Lemma modify_lt i f s :
  i < length (nodes s) -> modify i f s = Ok tt (set_nodes (alter f i (nodes s)) s).
Proof.
  intros H. apply lookup_lt_is_Some in H as [n H]. eapply modify_ok, H.
Qed.

Lemma consistent_rn fuel oldPath newName : preserves consistent (rn fuel oldPath newName).
Proof.
  unfold rn. destruct (negb (truthy_str oldPath)); [apply preserves_throw|].
  destruct (negb (truthy_str newName)); [apply preserves_throw|].
  apply preserves_bind; [is_wf|]. intros node.
  apply preserves_bind; [is_wf|]. intros s0.
  destruct (decide (node = root s0)) as [|_]; [apply preserves_throw|].
  apply preserves_bind; [is_wf|]. intros n.
  intros s Hwf. unfold bind at 1, deref at 1.
  destruct (nodes s !! n) as [t|] eqn:Hn; [|exact I].
  destruct (parent t) as [p|] eqn:Hpar; [|exact Hwf]. cbn [nonnull].
  unfold bind at 1. cbn [ret].
  unfold bind at 1, Node.hasChild. unfold bind at 1, deref at 1.
  destruct (nodes s !! p) as [np|] eqn:Hp; [|exact I]. cbn [ret].
  destruct (map_has newName (_childrenMap np)) eqn:Hfree; [exact Hwf|].
  assert (E : exists s', 
            (modify p (fun x => set_childrenMap (map_delete (key t) (_childrenMap x)) x) ;;;
             modify n (set_key newName) ;;;
             modify p (fun x => set_childrenMap (map_set newName n (_childrenMap x)) x) ;;;
             _invalidatePathCache oldPath) s = Ok tt s' /\
            forall j, nodes s' !! j = rename_at p n (key t) newName j <$> nodes s !! j).
  { eexists. split.
    - apply lookup_lt_Some in Hn, Hp.
      step_with ltac:(apply modify_lt, Hp).
      step_with ltac:(apply modify_lt; nf; rewrite ?length_alter; exact Hn).
      step_with ltac:(apply modify_lt; nf; rewrite ?length_alter; exact Hp).
      reflexivity.
    - intros j. nf. rewrite !lookup_alter_fn. unfold rename_at.
      destruct (nodes s !! j); cbn; reflexivity. }
  destruct E as (s' & -> & Hs').
  exact (well_formed_renamed (nodes s) (nodes s') p n np t newName Hwf Hn Hpar Hp Hfree Hs').
Qed.

Lemma consistent_resolve_target fuel x : preserves consistent (resolve_target fuel x).
Proof. apply consistent_read_only. is_ro. Qed.
#[export] Hint Resolve consistent_rn consistent_resolve_target : vfs_wf.

Lemma consistent_cp fuel source destination :
  preserves consistent (cp fuel source destination).
Proof.
  unfold cp. destruct (missing source); [apply preserves_throw|].
  destruct (missing destination); [apply preserves_throw|].
  apply preserves_bind; [is_wf|]. intros sourceNode.
  apply preserves_bind; [is_wf|]. intros destNode.
  apply preserves_bind; [is_wf|]. intros d.
  apply preserves_bind; [is_wf|]. intros td.
  destruct (negb _); [apply preserves_throw|].
  apply preserves_bind; [is_wf|]. intros a.
  eapply preserves_of_safe.
  eapply safe_bind; [apply safe_clone|]. intros copyNode.
  eapply safe_bind; [apply safe_insert|]. intros ?.
  apply safe_of_preserves. is_wf.
Qed.

Lemma consistent_mv fuel source destination :
  preserves consistent (mv fuel source destination).
Proof.
  unfold mv. destruct (missing source); [apply preserves_throw|].
  destruct (missing destination); [apply preserves_throw|].
  apply preserves_bind; [is_wf|]. intros sourceNode.
  apply preserves_bind; [is_wf|]. intros destNode.
  apply preserves_bind; [is_wf|]. intros d.
  apply preserves_bind; [is_wf|]. intros td.
  destruct (negb _); [apply preserves_throw|].
  apply preserves_bind; [is_wf|]. intros a.
  apply preserves_bind; [apply consistent_read_only, pure_read_only; is_pure|].
  intros cyclic. destruct cyclic; [apply preserves_throw|].
  eapply preserves_of_safe.
  eapply safe_bind; [apply safe_deref|]. intros ta.
  eapply (safe_bind _ _ (fun _ => orphan a)).
  - destruct (parent ta) as [p|] eqn:Hpar.
    + eapply safe_bind; [|intros; apply safe_ret].
      eapply safe_weaken; [apply (safe_delete_from_parent p a)| |auto].
      intros h Hh. destruct Hh as [_ Ha]. eauto.
    + eapply safe_weaken; [apply (safe_ret (orphan a))| |auto].
      intros h Hh. destruct Hh as [_ Ha]. exists ta. auto.
  - intros ?. eapply safe_bind; [apply safe_insert|]. intros ?. apply safe_ret.
Qed.
#[export] Hint Resolve consistent_cp consistent_mv : vfs_wf.


Lemma example_fs_well_formed : well_formed (nodes example_fs).
Proof.
  pose proof (consistent_insertNode 8 example_record NoParent
                (new_vfs "01/01/2025 00:00") well_formed_nil) as H.
  vm_compute in H. exact H.
Qed.



(** ** Serialization *)

Lemma layout_unfold b p k properties chs :
  layout b p (Tree.Rec k properties chs) =
  mkNode k p (child_ids (S b) chs) (child_map [] (S b) chs) properties ::
  forest b (S b) chs.
Proof.
  cbn [layout]. f_equal. generalize (S b).
  induction chs as [|c l IH]; intros c0; [reflexivity|].
  cbn [forest]. rewrite <- IH. reflexivity.
Qed.

Lemma child_ids_length c0 l : length (child_ids c0 l) = length l.
Proof. revert c0. induction l as [|c l IH]; intros c0; cbn; [|rewrite IH]; reflexivity. Qed.

Lemma filter_all {A} (f : A -> bool) l : forallb f l = true -> List.filter f l = l.
Proof.
  induction l as [|x l IH]; [reflexivity|]. cbn. intros H.
  apply andb_true_iff in H as [-> H]. rewrite (IH H). reflexivity.
Qed.

(** Reading back the nodes a record tree was laid out in gives the
    record. *)
Lemma toJSON_layout : forall r fuel b p hpre hpost s,
  nodes s = hpre ++ layout b p r ++ hpost -> b = length hpre ->
  rdepth r <= fuel -> plain_record r = true ->
  NodeQuery.toJSON fuel true b s = Ok r s.
Proof.
  induction r as [k properties chs IH] using record_induction.
  intros fuel b p hpre hpost s Hs Hb Hfuel Hplain.
  destruct fuel as [|f]; [cbn in Hfuel; lia|].
  cbn [rdepth] in Hfuel. apply le_S_n in Hfuel.
  cbn [plain_record] in Hplain. apply andb_true_iff in Hplain as [Hprops Hplain].
  rewrite layout_unfold in Hs. cbn [NodeQuery.toJSON].
  step_with ltac:(apply deref_ok; rewrite Hs; cbn [app]; apply list_lookup_middle; exact Hb).
  rewrite (filter_all _ _ Hprops), child_ids_length.
  assert (Hloop : forall l, Forall (fun r => forall fuel b p hpre hpost s,
              nodes s = hpre ++ layout b p r ++ hpost -> b = length hpre ->
              rdepth r <= fuel -> plain_record r = true ->
              NodeQuery.toJSON fuel true b s = Ok r s) l ->
            forall c0 hpre' hpost',
            nodes s = hpre' ++ forest b c0 l ++ hpost' -> c0 = length hpre' ->
            (fix deepest (l : list Tree.record) : nat :=
               match l with
               | [] => 0
               | c :: l' => Nat.max (rdepth c) (deepest l')
               end) l <= f ->
            (fix all (l : list Tree.record) : bool :=
               match l with
               | [] => true
               | c :: l' => plain_record c && all l'
               end) l = true ->
            (fix each (l : list id) : M (list Tree.record) :=
               match l with
               | [] => ret []
               | child :: l' =>
                   r <- NodeQuery.toJSON f true child ;;
                   rs <- each l' ;;
                   ret (r :: rs)
               end) (child_ids c0 l) s = Ok l s).
  { induction 1 as [|c l Hc _ IHl]; intros c0 hpre' hpost' Hs' Hc0 Hd Hp; [reflexivity|].
    cbn [child_ids]. cbn [forest] in Hs'. rewrite <- app_assoc in Hs'.
    apply andb_true_iff in Hp as [Hpc Hpl].
    step_with ltac:(eapply Hc; [exact Hs'|exact Hc0|lia|exact Hpc]).
    step_with ltac:(eapply (IHl _ (hpre' ++ layout c0 (Some b) c));
                    [rewrite <- app_assoc; exact Hs'
                    |rewrite length_app, layout_length; lia|lia|exact Hpl]).
    reflexivity. }
  destruct chs as [|c chs]; [reflexivity|].
  cbn [length Nat.ltb Nat.leb andb].
  step_with ltac:(eapply (Hloop _ IH (S b) (hpre ++ [_]) hpost);
                  [rewrite <- app_assoc; exact Hs
                  |rewrite length_app; cbn; lia|exact Hfuel|exact Hplain]).
  reflexivity.
Qed.




(** ** Loading a valid record tree always succeeds *)

Lemma map_has_set {V} k k' (v : V) m :
  map_has k' (map_set k v m) = String.eqb k' k || map_has k' m.
Proof.
  unfold map_has. rewrite map_get_set. destruct (String.eqb k' k); reflexivity.
Qed.

Lemma tree_insert_succeeds fuel k par properties s :
  truthy_str k = true ->
  (forall p, par = Some p ->
     exists np, nodes s !! p = Some np /\ map_has k (_childrenMap np) = false) ->
  (par = None -> root s = None) ->
  exists n s', Tree.insert fuel k (ref_of par) properties s = Ok n s'.
Proof.
  intros Hk Hp Hr. unfold Tree.insert. rewrite Hk. cbn [negb].
  destruct par as [p|]; cbn [ref_of].
  - destruct (Hp p eq_refl) as (np & Hnp & Hfree).
    do 2 eexists. step. step. cbn [root set_nodes]. step.
    step_with ltac:(eapply insert_ok; [nf; apply lookup_old; exact Hnp
                                      |nf; apply lookup_fresh
                                      |exact Hfree]).
    reflexivity.
  - do 2 eexists. step. step. cbn [root set_nodes].
    rewrite (Hr eq_refl). reflexivity.
Qed.

Lemma insertNode_succeeds fuel : forall r par s,
  valid_record r = true ->
  (forall p, par = Some p ->
     exists np, nodes s !! p = Some np /\ map_has (rkey r) (_childrenMap np) = false) ->
  (par = None -> root s = None) ->
  exists n s', Tree.insertNode fuel r (ref_of par) s = Ok n s'.
Proof.
  induction r as [k properties chs IH] using record_induction.
  intros par s Hvalid Hp Hr. cbn [valid_record] in Hvalid.
  apply andb_true_iff in Hvalid as [Hvalid Hall].
  apply andb_true_iff in Hvalid as [Hk Hdistinct].
  destruct (tree_insert_succeeds fuel k par properties s Hk Hp Hr) as (n & s1 & Hins).
  assert (Hlt : forall p, par = Some p -> p < length (nodes s)).
  { intros p E. destruct (Hp p E) as (np & Hnp & _). eapply lookup_lt_Some, Hnp. }
  destruct (tree_insert_layout _ _ _ _ _ _ _ Hins Hlt) as (-> & Hn1 & _).
  cbn [Tree.insertNode]. unfold bind at 1. rewrite Hins. unfold bind at 1.
  assert (Hnode : exists node, nodes s1 !! length (nodes s) = Some node /\
                               _childrenMap node = []).
  { eexists. split; [rewrite Hn1; apply list_lookup_middle|reflexivity].
    destruct par; [rewrite length_alter|]; reflexivity. }
  clear Hn1 Hins Hp Hr Hlt.
  assert (Hloop : forall sk m,
            (exists node, nodes sk !! length (nodes s) = Some node /\
                          _childrenMap node = m) ->
            (forall c, c ∈ chs -> map_has (rkey c) m = false) ->
            exists u s2,
              (fix each (l : list Tree.record) : M unit :=
                 match l with
                 | [] => ret tt
                 | childData :: l' =>
                     Tree.insertNode fuel childData (ByNode (length (nodes s))) ;;; each l'
                 end) chs sk = Ok u s2).
  { clear Hnode s1. revert Hdistinct Hall.
    induction IH as [|c l Hc _ IHl]; intros Hdistinct Hall sk m Hnode Hfree.
    - do 2 eexists. reflexivity.
    - cbn [List.map distinct] in Hdistinct.
      apply andb_true_iff in Hdistinct as [Hnew Hdistinct].
      apply andb_true_iff in Hall as [Hvc Hall].
      destruct Hnode as (node & Hnode & Hm).
      destruct (Hc (Some (length (nodes s))) sk Hvc) as (nc & s3 & Hchild).
      { intros p [= <-]. exists node. split; [exact Hnode|].
        rewrite Hm. apply Hfree. constructor. }
      { discriminate. }
      unfold bind at 1. pose proof Hchild as Hchild'. cbn [ref_of] in Hchild'.
      rewrite Hchild'.
      destruct (insertNode_layout fuel c (Some (length (nodes s))) sk nc s3 Hchild)
        as (-> & Hn3 & _).
      { intros p [= <-]. eapply lookup_lt_Some, Hnode. }
      apply (IHl Hdistinct Hall s3 (map_set (rkey c) (length (nodes sk)) m)).
      + eexists. split.
        * rewrite Hn3.
          rewrite lookup_app_l by (rewrite length_alter; eapply lookup_lt_Some, Hnode).
          apply lookup_alter_eq, Hnode.
        * unfold add_child. cbn. rewrite Hm. reflexivity.
      + intros c' Hc'. rewrite map_has_set.
        rewrite (Hfree c') by (constructor; exact Hc'). rewrite orb_false_r.
        apply negb_true_iff in Hnew.
        destruct (String.eqb (rkey c') (rkey c)) eqn:E; [|reflexivity].
        apply String.eqb_eq in E. exfalso.
        assert (Hex : existsb (String.eqb (rkey c)) (List.map rkey l) = true).
        { apply existsb_exists. exists (rkey c'). split.
          - apply in_map, list_elem_of_In, Hc'.
          - rewrite E. apply String.eqb_refl. }
        congruence. }
  destruct (Hloop s1 [] Hnode) as (u & s2 & Hrun); [reflexivity|].
  rewrite Hrun. do 2 eexists. reflexivity.
Qed.




(** ** Traversals *)

(** The subtrees of a list of nodes, one list for each node. *)
Lemma subtree_each f (h : heap) (l : list id) rest :
  (fix each (l : list id) : option (list id) :=
     match l with
     | [] => Some []
     | c :: l' =>
         match subtree f h c, each l' with
         | Some a, Some b => Some (a ++ b)
         | _, _ => None
         end
     end) l = Some rest ->
  exists os, Forall2 (fun c o => subtree f h c = Some o) l os /\ rest = concat os.
Proof.
  revert rest. induction l as [|c l IH]; intros rest H.
  - injection H as <-. exists []. split; [constructor|reflexivity].
  - destruct (subtree f h c) as [a|] eqn:Ea; [|discriminate].
    destruct ((fix each (l : list id) : option (list id) := _) l) as [b|] eqn:Eb;
      [|discriminate].
    injection H as <-. destruct (IH b eq_refl) as (os & Hos & ->).
    exists (a :: os). split; [constructor; assumption|reflexivity].
Qed.

Lemma subtree_node f (h : heap) n order :
  subtree (S f) h n = Some order ->
  exists t os, h !! n = Some t /\
               Forall2 (fun c o => subtree f h c = Some o) (children t) os /\
               order = n :: concat os.
Proof.
  cbn [subtree]. destruct (h !! n) as [t|]; [|discriminate].
  destruct ((fix each (l : list id) : option (list id) := _) (children t)) as [rest|] eqn:E;
    [|discriminate].
  intros [= <-]. destruct (subtree_each _ _ _ _ E) as (os & Hos & ->). eauto.
Qed.

Lemma bind_assoc {A B C} (m : M A) (f : A -> M B) (g : B -> M C) s :
  bind (bind m f) g s = bind m (fun a => bind (f a) g) s.
Proof. unfold bind. destruct (m s); reflexivity. Qed.

Lemma bind_congr {A B} (m : M A) (f g : A -> M B) s :
  (forall a s1, m s = Ok a s1 -> f a s1 = g a s1) -> bind m f s = bind m g s.
Proof. intros H. unfold bind. destruct (m s); auto. Qed.

Lemma visit_app {A} (cb : id -> A -> M A) l1 l2 acc s :
  visit cb (l1 ++ l2) acc s = (a <- visit cb l1 acc ;; visit cb l2 a) s.
Proof.
  revert acc s. induction l1 as [|n l1 IH]; intros acc s; [reflexivity|].
  cbn [visit app]. rewrite bind_assoc. apply bind_congr. intros a s1 _. apply IH.
Qed.

Lemma visit_app_bind {A B} (cb : id -> A -> M A) l1 l2 acc (g : A -> M B) s :
  bind (visit cb (l1 ++ l2) acc) g s =
  bind (visit cb l1 acc) (fun a => bind (visit cb l2 a) g) s.
Proof.
  rewrite <- bind_assoc. unfold bind at 1 2. rewrite visit_app. reflexivity.
Qed.

Lemma visit_pure {A} (cb : id -> A -> M A) :
  (forall n acc, pure_command (cb n acc)) -> forall l acc, pure_command (visit cb l acc).
Proof.
  intros Hpure. induction l as [|n l IH]; intros acc; cbn [visit]; [apply pure_ret|].
  apply pure_bind; [apply Hpure|]. intros a. apply IH.
Qed.

(** The loop of [traverseDFS] hands the callback the nodes of the subtree
    on top of the stack in document order, then goes on with the rest of
    the stack. *)
Lemma traverseDFS_loop_subtree {A} (cb : id -> A -> M A) :
  (forall n acc, pure_command (cb n acc)) ->
  forall f s n order,
  subtree f (nodes s) n = Some order ->
  forall k stack acc,
  TreeQuery.traverseDFS_loop (length order + k) cb (n :: stack) acc s =
  (a <- visit cb order acc ;; TreeQuery.traverseDFS_loop k cb stack a) s.
Proof.
  intros Hpure f s. induction f as [|f IH]; intros n order H k stack acc; [discriminate|].
  destruct (subtree_node _ _ _ _ H) as (t & os & Ht & Hos & ->).
  cbn [length Nat.add TreeQuery.traverseDFS_loop visit].
  rewrite bind_assoc. apply bind_congr. intros a s1 Hcb.
  assert (s1 = s) as -> by (eapply pure_result; [apply Hpure|exact Hcb]).
  step_with ltac:(apply deref_ok, Ht).
  clear Ht H Hcb. revert k stack a.
  induction Hos as [|c o cs' os' Hc _ IHcs]; intros k stack a.
  - reflexivity.
  - cbn [concat app]. rewrite length_app, <- Nat.add_assoc.
    rewrite (IH c o Hc), visit_app_bind. apply bind_congr. intros a1 s1 Hv.
    assert (s1 = s) as -> by (eapply pure_result; [apply visit_pure, Hpure|exact Hv]).
    apply IHcs.
Qed.

(** [traverseDFS] hands the callback every node of the tree once, a node
    before its children and the children from first to last, provided the
    callback leaves the state alone. *)
Theorem traverseDFS_document_order {A} (fuel depth : nat) (cb : id -> A -> M A)
    (acc : A) (s : vfs) (r : id) (order : list id) :
  (forall n a, pure_command (cb n a)) ->
  root s = Some r ->
  subtree depth (nodes s) r = Some order ->
  length order <= fuel ->
  TreeQuery.traverseDFS fuel cb acc s = visit cb order acc s.
Proof.
  intros Hpure Hr Hsub Hfuel. unfold TreeQuery.traverseDFS.
  unfold bind at 1, get_state. rewrite Hr.
  replace fuel with (length order + (fuel - length order)) by lia.
  rewrite (traverseDFS_loop_subtree cb Hpure _ _ _ _ Hsub).
  unfold bind. destruct (visit cb order acc s) as [a s1|e s1|x]; try reflexivity.
  destruct (fuel - length order); reflexivity.
Qed.

Lemma traverseDFS_document_order_witness :
  (forall n a, pure_command (collect n a)) /\
  root example_fs = Some 0 /\
  subtree 3 (nodes example_fs) 0 = Some [0; 1; 2; 3; 4] /\
  length [0; 1; 2; 3; 4] <= 5 /\
  TreeQuery.traverseDFS 5 collect [] example_fs
    = visit collect [0; 1; 2; 3; 4] [] example_fs.
Proof.
  assert (H1 : forall n a, pure_command (collect n a)) by (intros n a s; reflexivity).
  assert (H3 : subtree 3 (nodes example_fs) 0 = Some [0; 1; 2; 3; 4]) by reflexivity.
  assert (H4 : length [0; 1; 2; 3; 4] <= 5) by (cbn; lia).
  split; [exact H1|]. split; [reflexivity|]. split; [exact H3|]. split; [exact H4|].
  exact (traverseDFS_document_order 5 3 collect [] example_fs 0 _ H1 eq_refl H3 H4).
Defined.

(** *** [search] and [getSubtreeSize] *)

Lemma modelled_matches pattern k :
  modelled pattern = true -> exists b, matches_key pattern k = Some b.
Proof.
  unfold modelled, matches_key, literal. destruct (negb _ && negb _); [eauto|].
  cbn [orb]. destruct (compile pattern); [eauto|discriminate].
Qed.

Lemma filter_app_key pattern (h : heap) l1 l2 :
  List.filter (key_matches pattern h) (l1 ++ l2) =
  List.filter (key_matches pattern h) l1 ++ List.filter (key_matches pattern h) l2.
Proof. apply List.filter_app. Qed.

(** [search] answers the nodes of the subtree whose key passes the test,
    in document order. *)
Lemma search_subtree pattern :
  modelled pattern = true ->
  forall f s n order,
  subtree f (nodes s) n = Some order ->
  Node.search f pattern n s = Ok (List.filter (key_matches pattern (nodes s)) order) s.
Proof.
  intros Hm f s. induction f as [|f IH]; intros n order H; [discriminate|].
  destruct (subtree_node _ _ _ _ H) as (t & os & Ht & Hos & ->).
  cbn [Node.search]. step_with ltac:(apply deref_ok, Ht).
  destruct (modelled_matches pattern (key t) Hm) as (b & Hb).
  cbn [List.filter]. unfold key_matches at 1. rewrite Ht, Hb.
  assert (Hrest : (fix each (l : list id) : M (list id) :=
                     match l with
                     | [] => ret []
                     | c :: l' =>
                         r <- Node.search f pattern c ;;
                         rs <- each l' ;;
                         ret (r ++ rs)
                     end) (children t) s
                  = Ok (List.filter (key_matches pattern (nodes s)) (concat os)) s).
  { clear Ht H Hb. induction Hos as [|c o cs' os' Hc _ IHcs]; [reflexivity|].
    step_with ltac:(apply IH, Hc). step_with ltac:(exact IHcs).
    cbn [concat]. rewrite filter_app_key. reflexivity. }
  destruct b.
  - step. step_with ltac:(exact Hrest). reflexivity.
  - step. step_with ltac:(exact Hrest). reflexivity.
Qed.

(** [whereis] lists exactly the nodes [traverseDFS] visits whose key
    passes the test of the pattern, in the order of the visit. *)
Theorem whereis_filters_the_traversal (fuel : nat) (query : string) (s : vfs) (r : id)
    (order : list id) :
  modelled query = true -> truthy_str query = true ->
  root s = Some r ->
  subtree fuel (nodes s) r = Some order ->
  length order <= fuel ->
  TreeQuery.traverseDFS fuel collect [] s = Ok order s /\
  whereis fuel query s = Ok (List.filter (key_matches query (nodes s)) order) s.
Proof.
  intros Hm Hq Hr Hsub Hfuel. split.
  - assert (E : forall l acc, visit collect l acc s = Ok (acc ++ l) s).
    { induction l as [|x l IHl]; intros acc; cbn [visit].
      - rewrite app_nil_r. reflexivity.
      - step. rewrite IHl, <- app_assoc. reflexivity. }
    unfold TreeQuery.traverseDFS. unfold bind at 1, get_state. rewrite Hr.
    pose proof (traverseDFS_loop_subtree collect (fun n a s0 => eq_refl) _ _ _ _ Hsub
                  (fuel - length order) [] []) as Hloop.
    replace (length order + (fuel - length order)) with fuel in Hloop by lia.
    rewrite Hloop. unfold bind. rewrite E. destruct (fuel - length order); reflexivity.
  - unfold whereis. rewrite Hq. cbn [negb].
    step_with ltac:(unfold Tree.search; step; rewrite Hr, Hq;
                    step_with ltac:(apply (search_subtree query Hm), Hsub); reflexivity).
    reflexivity.
Qed.

Lemma whereis_filters_the_traversal_witness :
  modelled "*" = true /\ truthy_str "*" = true /\
  root example_fs = Some 0 /\
  subtree 5 (nodes example_fs) 0 = Some [0; 1; 2; 3; 4] /\
  length [0; 1; 2; 3; 4] <= 5 /\
  TreeQuery.traverseDFS 5 collect [] example_fs = Ok [0; 1; 2; 3; 4] example_fs /\
  whereis 5 "*" example_fs
    = Ok (List.filter (key_matches "*" (nodes example_fs)) [0; 1; 2; 3; 4]) example_fs.
Proof.
  assert (H4 : subtree 5 (nodes example_fs) 0 = Some [0; 1; 2; 3; 4]) by reflexivity.
  assert (H5 : length [0; 1; 2; 3; 4] <= 5) by (cbn; lia).
  split; [reflexivity|]. split; [reflexivity|]. split; [reflexivity|].
  split; [exact H4|]. split; [exact H5|].
  exact (whereis_filters_the_traversal 5 "*" example_fs 0 _ eq_refl eq_refl eq_refl H4 H5).
Defined.


(** *** [getSubtreeSize] and [getDescendants] *)

Lemma getSubtreeSize_subtree f s : forall n order,
  subtree f (nodes s) n = Some order ->
  NodeQuery.getSubtreeSize f n s = Ok (length order) s.
Proof.
  induction f as [|f IH]; intros n order H; [discriminate|].
  destruct (subtree_node _ _ _ _ H) as (t & os & Ht & Hos & ->).
  cbn [NodeQuery.getSubtreeSize]. step_with ltac:(apply deref_ok, Ht).
  cbn [length]. change (S (length (concat os))) with (1 + length (concat os)).
  generalize 1 as size. clear Ht H.
  induction Hos as [|c o cs' os' Hc _ IHcs]; intros size.
  - cbn. rewrite Nat.add_0_r. reflexivity.
  - step_with ltac:(apply IH, Hc). rewrite IHcs. cbn [concat].
    rewrite length_app, Nat.add_assoc. reflexivity.
Qed.

Lemma Forall2_rev {A B} (P : A -> B -> Prop) l k :
  Forall2 P l k -> Forall2 P (rev l) (rev k).
Proof.
  induction 1 as [|x y l k Hxy _ IH]; [constructor|]. cbn.
  apply Forall2_app; [exact IH|]. constructor; [exact Hxy|constructor].
Qed.

Lemma concat_rev_perm {A} (l : list (list A)) : concat (rev l) ≡ₚ concat l.
Proof.
  induction l as [|x l IH]; [reflexivity|]. cbn. rewrite concat_app. cbn.
  rewrite app_nil_r, IH. apply Permutation_app_comm.
Qed.

(** The loop of [getDescendants] appends the nodes of the subtrees on top
    of the stack, each once, and goes on with the rest of the stack. *)
Lemma getDescendants_loop_subtrees s : forall f L os,
  Forall2 (fun c o => subtree f (nodes s) c = Some o) L os ->
  exists d, d ≡ₚ concat os /\
    forall k stack acc,
    NodeQuery.getDescendants_loop (length d + k) (L ++ stack) acc s =
    NodeQuery.getDescendants_loop k stack (acc ++ d) s.
Proof.
  induction f as [|f IH]; intros L os HL.
  - destruct HL as [|c o L os Hc _]; [|discriminate].
    exists []. split; [reflexivity|]. intros k stack acc.
    cbn. rewrite app_nil_r. reflexivity.
  - induction HL as [|c o L' os' Hc _ IHL].
    + exists []. split; [reflexivity|]. intros k stack acc.
      cbn. rewrite app_nil_r. reflexivity.
    + destruct (subtree_node _ _ _ _ Hc) as (t & osc & Ht & Hosc & ->).
      destruct IHL as (d2 & Hd2 & E2).
      destruct (IH _ _ (Forall2_rev _ _ _ Hosc)) as (d1 & Hd1 & E1).
      exists (c :: d1 ++ d2). split.
      * cbn [concat app]. constructor.
        rewrite Hd1, Hd2, concat_rev_perm. reflexivity.
      * intros k stack acc.
        cbn [length app Nat.add NodeQuery.getDescendants_loop].
        step_with ltac:(apply deref_ok, Ht).
        rewrite length_app, <- Nat.add_assoc, E1, E2.
        rewrite <- !app_assoc. reflexivity.
Qed.

(** [getDescendants] lists every node of the subtree but the node itself,
    each once, and [getSubtreeSize] is their number plus one. *)
Theorem subtree_size_counts_descendants (fuel depth : nat) (s : vfs) (n : id)
    (order : list id) :
  subtree depth (nodes s) n = Some order ->
  length order <= fuel ->
  exists d,
    NodeQuery.getDescendants fuel n s = Ok d s /\
    n :: d ≡ₚ order /\
    NodeQuery.getSubtreeSize depth n s = Ok (S (length d)) s.
Proof.
  intros Hsub Hfuel. destruct depth as [|f]; [discriminate|].
  destruct (subtree_node _ _ _ _ Hsub) as (t & os & Ht & Hos & ->).
  cbn [length] in Hfuel.
  destruct (getDescendants_loop_subtrees s _ _ _ (Forall2_rev _ _ _ Hos)) as (d & Hd & E).
  specialize (E (fuel - length (concat os)) [] []).
  rewrite concat_rev_perm in Hd.
  assert (Hlen : length d = length (concat os)) by (apply Permutation_length, Hd).
  exists d. split; [|split].
  - unfold NodeQuery.getDescendants. step_with ltac:(apply deref_ok, Ht).
    rewrite app_nil_r in E.
    replace fuel with (length d + (fuel - length (concat os))) by lia.
    rewrite E. cbn [app]. destruct (fuel - length (concat os)); reflexivity.
  - constructor. exact Hd.
  - rewrite (getSubtreeSize_subtree _ _ _ _ Hsub). cbn [length]. rewrite Hlen. reflexivity.
Qed.

Lemma subtree_size_counts_descendants_witness :
  subtree 3 (nodes example_fs) 0 = Some [0; 1; 2; 3; 4] /\
  length [0; 1; 2; 3; 4] <= 5 /\
  exists d,
    NodeQuery.getDescendants 5 0 example_fs = Ok d example_fs /\
    0 :: d ≡ₚ [0; 1; 2; 3; 4] /\
    NodeQuery.getSubtreeSize 3 0 example_fs = Ok (S (length d)) example_fs.
Proof.
  assert (H1 : subtree 3 (nodes example_fs) 0 = Some [0; 1; 2; 3; 4]) by reflexivity.
  assert (H2 : length [0; 1; 2; 3; 4] <= 5) by (cbn; lia).
  split; [exact H1|]. split; [exact H2|].
  exact (subtree_size_counts_descendants 5 3 example_fs 0 _ H1 H2).
Defined.


(** ** Resolution in a tree that has grown *)

Lemma grows_refl s : grows s s.
Proof. split; [reflexivity|]. intros j x H. eauto 10. Qed.

Lemma grows_trans s1 s2 s3 : grows s1 s2 -> grows s2 s3 -> grows s1 s3.
Proof.
  intros (Hr1 & H1) (Hr2 & H2). split; [congruence|].
  intros j x Hj. destruct (H1 _ _ Hj) as (x' & Hj' & Hk & Hp & Hm).
  destruct (H2 _ _ Hj') as (x'' & Hj'' & Hk' & Hp' & Hm').
  exists x''. repeat split; try congruence. auto.
Qed.

Lemma path_up_grows n : forall current acc s l s1 s',
  path_up n current acc s = Ok l s1 -> grows s s' ->
  path_up n current acc s' = Ok l s'.
Proof.
  induction n as [|n IH]; intros current acc s l s1 s' H (Hr & Hn);
    destruct current as [c|]; cbn [path_up] in *;
    try (injection H as <- _; reflexivity).
  - unfold bind, get_state in *. rewrite Hr.
    destruct (decide (Some c = root s)); [injection H as <- _; reflexivity|discriminate].
  - unfold bind at 1, get_state in H. unfold bind at 1, get_state. rewrite Hr.
    destruct (decide (Some c = root s)); [injection H as <- _; reflexivity|].
    unfold bind, deref in *.
    destruct (nodes s !! c) as [t|] eqn:Ht; [|discriminate].
    destruct (Hn _ _ Ht) as (t' & -> & -> & -> & _).
    eapply IH; [exact H|]. split; assumption.
Qed.

Lemma absolute_path_grows fuel node s p s1 s' :
  _absolute_path fuel node s = Ok p s1 -> grows s s' ->
  _absolute_path fuel node s' = Ok p s'.
Proof.
  unfold _absolute_path. destruct node as [n|]; [|intros [= <- _] _; reflexivity].
  intros H Hg. unfold bind in *.
  destruct (path_up fuel (Some n) [] s) as [l s2|e s2|r] eqn:E; [|discriminate|discriminate].
  rewrite (path_up_grows _ _ _ _ _ _ s' E Hg). unfold ret in *.
  injection H as <- _. reflexivity.
Qed.

Lemma normalizePath_grows fuel p s np s1 s' :
  _normalizePath fuel p s = Ok np s1 -> grows s s' -> cwd s' = cwd s ->
  _normalizePath fuel p s' = Ok np s'.
Proof.
  unfold _normalizePath. intros H Hg Hc. pose proof Hg as (Hr & _).
  destruct (negb (truthy_str p) || String.eqb p ".").
  - unfold bind, get_state in *. rewrite Hc.
    destruct (_absolute_path fuel (cwd s) s) as [b s2|e s2|r] eqn:E;
      [|discriminate|discriminate].
    rewrite (absolute_path_grows _ _ _ _ _ s' E Hg).
    pose proof (pure_absolute_path fuel (cwd s) s) as Hp. rewrite E in Hp. congruence.
  - destruct (String.eqb p "/"); [injection H as <- _; reflexivity|].
    destruct (startsWith p "/").
    + unfold bind, ret in *. congruence.
    + unfold bind at 1 in H. unfold bind at 1.
      unfold bind at 1, get_state in H. unfold bind at 1, get_state. rewrite Hc.
      destruct (_absolute_path fuel (cwd s) s) as [b s2|e s2|r] eqn:E;
        [|discriminate|discriminate].
      rewrite (absolute_path_grows _ _ _ _ _ s' E Hg). unfold ret in *.
      injection H as <- _. reflexivity.
Qed.

Lemma walk_grows segs : forall current seen s r s1 s',
  walk current seen segs s = Ok r s1 -> grows s s' ->
  walk current seen segs s' = Ok r s'.
Proof.
  induction segs as [|seg rest IH]; intros current seen s r s1 s' H Hg;
    cbn [walk] in *; [injection H as <- _; reflexivity|].
  destruct current as [c|]; [|discriminate]. cbn [nonnull] in *.
  unfold bind at 1, ret in H. unfold bind at 1, ret.
  unfold bind at 1, Node.findChild, bind, deref, ret in H.
  unfold bind at 1, Node.findChild, bind, deref, ret.
  destruct (nodes s !! c) as [t|] eqn:Ht; [|discriminate].
  pose proof Hg as (_ & Hn). destruct (Hn _ _ Ht) as (t' & -> & _ & _ & Hm).
  destruct (map_get seg (_childrenMap t)) as [f|] eqn:Hf; [|discriminate].
  rewrite (Hm _ _ Hf). eapply IH; eassumption.
Qed.

Lemma resolvePathUncached_grows p s r s1 s' :
  _resolvePathUncached p s = Ok r s1 -> grows s s' ->
  _resolvePathUncached p s' = Ok r s'.
Proof.
  unfold _resolvePathUncached, bind, get_state. intros H Hg.
  pose proof Hg as (Hr & _). rewrite Hr.
  destruct (String.eqb p "/"); [injection H as <- _; reflexivity|].
  eapply walk_grows; eassumption.
Qed.

(** After a resolution outside the two shortcuts, the cache holds the
    answer under the normalized path. *)
Lemma resolve_path_caches fuel p s n s1 np :
  negb (truthy_str p) || String.eqb p "." = false -> String.eqb p "/" = false ->
  _resolve_path fuel p s = Ok (Some n) s1 ->
  _normalizePath fuel p s = Ok np s ->
  map_get np (_pathCache s1) = Some (Some n).
Proof.
  intros Hdot Hslash H Hnp. unfold _resolve_path in H. rewrite Hdot, Hslash in H.
  unfold bind at 1 in H. rewrite Hnp in H. unfold bind at 1, get_state in H.
  assert (Hmiss : forall s0,
            (result <- _resolvePathUncached np ;;
             s3 <- get_state ;;
             (if Nat.leb (_maxCacheSize s3) (map_size (_pathCache s3)) then
                match map_first_key (_pathCache s3) with
                | Some firstKey => update_cache (map_delete firstKey)
                | None => ret tt
                end
              else ret tt) ;;;
             update_cache (map_set np result) ;;;
             ret result) s0 = Ok (Some n) s1 ->
            map_get np (_pathCache s1) = Some (Some n)).
  { intros s0 H0. unfold bind at 1 in H0.
    pose proof (pure_resolvePathUncached np s0) as Hp.
    destruct (_resolvePathUncached np s0) as [res s2|e s2|r]; [|discriminate|discriminate].
    subst s2. unfold bind at 1, get_state in H0.
    destruct (Nat.leb (_maxCacheSize s0) (map_size (_pathCache s0)));
      [destruct (map_first_key (_pathCache s0))|];
      unfold bind, update_cache, ret in H0; injection H0 as -> <-; nf;
      apply map_get_set_eq. }
  destruct (map_get np (_pathCache s)) as [[cached|]|] eqn:Hget.
  - injection H as -> <-. exact Hget.
  - unfold bind at 1 in H. cbn [update_cache] in H. eapply Hmiss, H.
  - unfold bind at 1 in H. cbn [ret] in H. eapply Hmiss, H.
Qed.

(** A path that resolved keeps resolving to the same node when the tree
    has grown and the cache has only lost entries. *)
Lemma resolve_path_stable fuel q s s1 s2 p :
  cache_valid s ->
  _resolve_path fuel q s = Ok (Some p) s1 ->
  grows s s2 -> cwd s2 = cwd s ->
  (forall k v, map_get k (_pathCache s2) = Some (Some v) ->
               map_get k (_pathCache s1) = Some (Some v)) ->
  exists s3, _resolve_path fuel q s2 = Ok (Some p) s3 /\ nodes s3 = nodes s2.
Proof.
  intros Hvalid H Hg Hc Hsub. pose proof Hg as (Hr & _).
  destruct (negb (truthy_str q) || String.eqb q ".") eqn:Hdot.
  { exists s2. unfold _resolve_path in *. rewrite Hdot in *.
    unfold bind, get_state, ret in *. injection H as H _. split; [congruence|reflexivity]. }
  destruct (String.eqb q "/") eqn:Hslash.
  { exists s2. unfold _resolve_path in *. rewrite Hdot, Hslash in *.
    unfold bind, get_state, ret in *. injection H as H _. split; [congruence|reflexivity]. }
  destruct (resolve_path_agrees_with_walk _ _ _ _ _ Hvalid Hdot Hslash H) as (np & Hnp & Hwalk).
  pose proof (resolve_path_caches _ _ _ _ _ _ Hdot Hslash H Hnp) as Hcached.
  pose proof (normalizePath_grows _ _ _ _ _ s2 Hnp Hg Hc) as Hnp2.
  pose proof (resolvePathUncached_grows _ _ _ _ s2 Hwalk Hg) as Hwalk2.
  unfold _resolve_path. rewrite Hdot, Hslash.
  unfold bind at 1. rewrite Hnp2. unfold bind at 1, get_state.
  assert (Hmiss : forall c, exists s3,
            (result <- _resolvePathUncached np ;;
             s4 <- get_state ;;
             (if Nat.leb (_maxCacheSize s4) (map_size (_pathCache s4)) then
                match map_first_key (_pathCache s4) with
                | Some firstKey => update_cache (map_delete firstKey)
                | None => ret tt
                end
              else ret tt) ;;;
             update_cache (map_set np result) ;;;
             ret result) (set_cache c s2) = Ok (Some p) s3 /\ nodes s3 = nodes s2).
  { intros c.
    assert (E : _resolvePathUncached np (set_cache c s2) = Ok (Some p) (set_cache c s2))
      by (eapply resolvePathUncached_state; [exact Hwalk2|reflexivity|reflexivity]).
    unfold bind at 1. rewrite E. unfold bind at 1, get_state.
    destruct (Nat.leb _ _); [destruct (map_first_key _)|];
      unfold bind, update_cache, ret; eexists; split; reflexivity. }
  destruct (map_get np (_pathCache s2)) as [[cached|]|] eqn:Hget.
  - apply Hsub in Hget. rewrite Hcached in Hget. injection Hget as <-.
    exists s2. split; reflexivity.
  - unfold bind at 1. cbn [update_cache]. apply Hmiss.
  - unfold bind at 1. cbn [ret].
    destruct (Hmiss (_pathCache s2)) as (s3 & E & Hn). exists s3. split; [|exact Hn].
    destruct s2; exact E.
Qed.

Lemma invalidate_parents_sub segments k v : forall i c,
  map_get k (invalidate_parents i segments c) = Some v -> map_get k c = Some v.
Proof.
  induction i as [|j IH]; intros c H; [exact H|]. cbn [invalidate_parents] in H.
  apply IH in H. rewrite map_get_delete in H. destruct (String.eqb k _); [discriminate|exact H].
Qed.

Lemma invalidate_sub path c k v :
  map_get k (invalidate_parents (length (js_split slash path) - 1) (js_split slash path)
               (map_delete path c)) = Some v ->
  map_get k c = Some v.
Proof.
  intros H. apply invalidate_parents_sub in H. rewrite map_get_delete in H.
  destruct (String.eqb k path); [discriminate|exact H].
Qed.


(** ** Writing a file and reading it back *)

Lemma prop_set_prop name name' v n :
  prop name (set_prop name' v n) = if String.eqb name name' then v else prop name n.
Proof.
  unfold prop, set_prop. cbn [props]. rewrite map_get_set.
  destruct (String.eqb name name'); reflexivity.
Qed.

Lemma contents_string_str x s : contents_string (VStr x) s = Ok x s.
Proof. unfold contents_string. destruct x; reflexivity. Qed.

Lemma same_tree_grows s s' : same_tree s s' -> grows s s'.
Proof.
  intros (Hn & Hr & _). split; [exact Hr|].
  intros j x Hj. rewrite Hn. eauto 10.
Qed.

(** Reading, once the parent and the file are known. *)
Lemma cat_read fuel path s s3 (p node : id) np nf x :
  truthy_str path = true ->
  _resolve_path fuel (cat_parentPath path) s = Ok (Some p) s3 ->
  nodes s3 !! p = Some np ->
  map_get (cat_fileName path) (_childrenMap np) = Some node ->
  nodes s3 !! node = Some nf ->
  prop "type" nf = VStr "file" -> prop "contents" nf = VStr x ->
  cat fuel "" path "" s = Ok (Some x) s3.
Proof.
  intros Hpath Hres Hp Hfound Hnode Htype Hcontents.
  unfold cat. rewrite Hpath. cbn [negb].
  step_with ltac:(exact Hres). step.
  step_with ltac:(apply findChild_run, Hp). rewrite Hfound.
  cbn [truthy_str String.eqb negb].
  step_with ltac:(apply deref_ok, Hnode). rewrite Htype. cbn [is_str String.eqb negb].
  rewrite Hcontents. step_with ltac:(apply contents_string_str). reflexivity.
Qed.

(** What the read needs of the state a write leaves. *)
Lemma cat_write_run (fuel : nat) (mode path c : string) (s s1 : vfs)
    (p : id) (np : TreeNode) (old : string) :
  truthy_str path = true -> truthy_str mode = true ->
  _resolve_path fuel (cat_parentPath path) s = Ok (Some p) s1 ->
  nodes s1 !! p = Some np ->
  contents_before (nodes s1) (map_get (cat_fileName path) (_childrenMap np)) = Some old ->
  exists s2 node np' nf,
    cat fuel mode path c s = Ok None s2 /\
    grows s1 s2 /\ cwd s2 = cwd s1 /\
    (forall k v, map_get k (_pathCache s2) = Some v -> map_get k (_pathCache s1) = Some v) /\
    nodes s2 !! p = Some np' /\
    map_get (cat_fileName path) (_childrenMap np') = Some node /\
    nodes s2 !! node = Some nf /\
    prop "type" nf = VStr "file" /\
    prop "contents" nf = VStr (if String.eqb mode ">" then c else old +:+ c).
Proof.
  intros Hpath Hmode Hres Hp Hold.
  pose proof (lookup_lt_Some _ _ _ Hp) as Hlt.
  set (name := cat_fileName path) in *.
  destruct (map_get name (_childrenMap np)) as [node|] eqn:Hfound.
  - (* the file exists *)
    cbn [contents_before] in Hold.
    destruct (nodes s1 !! node) as [t|] eqn:Hnode; [|discriminate].
    destruct (is_str (prop "type" t) "file") eqn:Htype; [|discriminate].
    assert (Htype' : prop "type" t = VStr "file").
    { unfold is_str in Htype. destruct (prop "type" t); try discriminate.
      apply String.eqb_eq in Htype. congruence. }
    assert (Hcs : contents_string (prop "contents" t) s1 = Ok old s1).
    { destruct (prop "contents" t) as [| |b|n|x|l|o]; cbn in Hold.
      - injection Hold as <-. reflexivity.
      - injection Hold as <-. reflexivity.
      - destruct b; [discriminate|]. injection Hold as <-. reflexivity.
      - unfold contents_string. cbn [truthy].
        destruct (negb (n =? 0)%nat); [discriminate|]. injection Hold as <-. reflexivity.
      - injection Hold as <-. apply contents_string_str.
      - discriminate.
      - discriminate. }
    set (newc := if String.eqb mode ">" then c else old +:+ c).
    set (h2 := alter (set_prop "modified" (VStr (clock s1))) node
                 (alter (set_prop "size" (VNum (blob_size newc))) node
                    (alter (set_prop "contents" (VStr newc)) node (nodes s1)))).
    assert (Hh2 : forall j, h2 !! j =
              (if decide (j = node)
               then fun x => set_prop "modified" (VStr (clock s1))
                               (set_prop "size" (VNum (blob_size newc))
                                  (set_prop "contents" (VStr newc) x))
               else fun x => x) <$> nodes s1 !! j).
    { intros j. unfold h2. rewrite !lookup_alter_fn.
      destruct (nodes s1 !! j); cbn; [|reflexivity]. destruct (decide (j = node)); reflexivity. }
    exists (set_cache (invalidate_parents (length (js_split slash path) - 1)
                         (js_split slash path) (map_delete path (_pathCache s1)))
              (set_nodes h2 s1)).
    exists node.
    exists ((if decide (p = node)
             then fun x => set_prop "modified" (VStr (clock s1))
                             (set_prop "size" (VNum (blob_size newc))
                                (set_prop "contents" (VStr newc) x))
             else fun x => x) np).
    exists (set_prop "modified" (VStr (clock s1))
              (set_prop "size" (VNum (blob_size newc))
                 (set_prop "contents" (VStr newc) t))).
    split; [|split; [|split; [reflexivity|split; [|split; [|split; [|split; [|split]]]]]]].
    + unfold cat. rewrite Hpath. cbn [negb].
      step_with ltac:(exact Hres). step.
      step_with ltac:(apply findChild_run, Hp). fold name. rewrite Hfound, Hmode.
      step_with ltac:(step_with ltac:(apply deref_ok, Hnode); rewrite Htype; reflexivity).
      step_with ltac:(apply deref_ok, Hnode).
      assert (Hnew : (if String.eqb mode ">" then ret c
                      else old0 <- contents_string (prop "contents" t) ;;
                           ret (old0 +:+ c)) s1 = Ok newc s1).
      { unfold newc. destruct (String.eqb mode ">"); [reflexivity|].
        step_with ltac:(exact Hcs). reflexivity. }
      step_with ltac:(exact Hnew).
      step_with ltac:(eapply modify_ok, Hnode).
      step_with ltac:(eapply modify_ok; lk).
      step. step_with ltac:(eapply modify_ok; lk).
      step_with ltac:(apply invalidate_run). reflexivity.
    + split; [reflexivity|]. intros j x Hj. nf.
      rewrite Hh2, Hj. cbn.
      destruct (decide (j = node)); eexists; repeat split; auto.
    + intros k v Hk. cbn [_pathCache set_cache] in Hk. eapply invalidate_sub, Hk.
    + nf. rewrite Hh2, Hp. reflexivity.
    + destruct (decide (p = node)); exact Hfound.
    + nf. rewrite Hh2, Hnode. cbn. destruct (decide (node = node)); [reflexivity|contradiction].
    + rewrite !prop_set_prop. cbn [String.eqb Ascii.eqb Bool.eqb]. exact Htype'.
    + rewrite !prop_set_prop. reflexivity.
  - (* the file is created *)
    cbn [contents_before] in Hold. injection Hold as <-.
    set (newc := if String.eqb mode ">" then c else "" +:+ c).
    assert (Enewc : newc = c) by (unfold newc; destruct (String.eqb mode ">"); reflexivity).
    set (new := length (nodes s1)).
    set (h1 := inserted p new name
                 (nodes s1 ++
                  [new_TreeNode name
                     (file_props (VStr (clock s1))
                        (VStr ("UID-" +:+ clock s1 +:+ "-" +:+ decimal (S (_uidCounter s1))))
                        (user s1))])).
    set (h2 := alter (set_prop "modified" (VStr (clock s1))) new
                 (alter (set_prop "size" (VNum (blob_size newc))) new
                    (alter (set_prop "contents" (VStr newc)) new h1))).
    exists (set_cache (invalidate_parents (length (js_split slash path) - 1)
                         (js_split slash path) (map_delete path (_pathCache s1)))
              (set_nodes h2 (set_uidCounter (S (_uidCounter s1)) s1))).
    exists new.
    exists (set_childrenMap (map_set name new (_childrenMap np))
              (set_children (children np ++ [new]) np)).
    eexists.
    split; [|split; [|split; [reflexivity|split; [|split; [|split; [|split; [|split]]]]]]].
    + unfold cat. rewrite Hpath. cbn [negb].
      step_with ltac:(exact Hres). step.
      step_with ltac:(apply findChild_run, Hp). fold name. rewrite Hfound, Hmode.
      step_with ltac:(apply (cat_create_run p np name s1 Hp Hfound)).
      step_with ltac:(apply deref_ok; lk).
      assert (Hnew : forall s0, (if String.eqb mode ">" then ret c
                      else old0 <- contents_string (VStr "") ;; ret (old0 +:+ c)) s0
                     = Ok newc s0).
      { intros s0. unfold newc. destruct (String.eqb mode ">"); reflexivity. }
      step_with ltac:(apply Hnew).
      step_with ltac:(eapply modify_ok; lk).
      step_with ltac:(eapply modify_ok; lk).
      step. step_with ltac:(eapply modify_ok; lk).
      step_with ltac:(apply invalidate_run). reflexivity.
    + split; [reflexivity|]. intros j x Hj. nf.
      pose proof (lookup_lt_Some _ _ _ Hj) as Hjlt.
      unfold h2. rewrite !lookup_alter_other by (unfold new; lia).
      unfold h1. rewrite inserted_at, (lookup_old _ _ _ _ Hj). cbn.
      eexists. split; [reflexivity|].
      rewrite insert_at_key, insert_at_parent, insert_at_map.
      destruct (decide (j = new)); [unfold new in *; lia|].
      split; [reflexivity|]. split; [reflexivity|].
      destruct (decide (j = p)) as [->|_]; [|auto].
      intros k v Hk. rewrite Hp in Hj. injection Hj as <-.
      rewrite map_get_set. destruct (String.eqb_spec k name) as [->|_]; [congruence|exact Hk].
    + intros k v Hk. cbn [_pathCache set_cache] in Hk. eapply invalidate_sub, Hk.
    + nf. unfold h2. rewrite !lookup_alter_other by (unfold new; lia).
      unfold h1. rewrite inserted_at, (lookup_old _ _ _ _ Hp). cbn. f_equal.
      unfold insert_at, add_child.
      destruct (decide (p = new)); [unfold new in *; lia|].
      destruct (decide (p = p)); [reflexivity|contradiction].
    + cbn. apply map_get_set_eq.
    + nf. unfold h2, h1. lk.
    + reflexivity.
    + rewrite Enewc. reflexivity.
Qed.

(** A write followed by a read of the same path answers what was written:
    the new contents in overwrite mode, the old contents followed by the
    new ones in append mode. *)
Theorem cat_write_then_read (fuel : nat) (mode path c : string) (s s1 : vfs)
    (p : id) (np : TreeNode) (old : string) :
  cache_valid s ->
  truthy_str path = true -> truthy_str mode = true ->
  _resolve_path fuel (cat_parentPath path) s = Ok (Some p) s1 ->
  nodes s1 !! p = Some np ->
  contents_before (nodes s1) (map_get (cat_fileName path) (_childrenMap np)) = Some old ->
  exists s2 s3,
    cat fuel mode path c s = Ok None s2 /\
    cat fuel "" path "" s2
      = Ok (Some (if String.eqb mode ">" then c else old +:+ c)) s3.
Proof.
  intros Hvalid Hpath Hmode Hres Hp Hold.
  destruct (cat_write_run fuel mode path c s s1 p np old Hpath Hmode Hres Hp Hold)
    as (s2 & node & np' & nf & Hwrite & Hg & Hcwd & Hcache & Hp2 & Hfound & Hnode & Htype
        & Hcontents).
  pose proof (read_only_resolve_path fuel (cat_parentPath path) s) as Hro.
  rewrite Hres in Hro.
  destruct (resolve_path_stable fuel (cat_parentPath path) s s1 s2 p Hvalid Hres
              (grows_trans _ _ _ (same_tree_grows _ _ Hro) Hg)) as (s3 & Hres2 & Hn3).
  { destruct Hro as (_ & _ & Hc & _). congruence. }
  { intros k v Hk. apply Hcache, Hk. }
  exists s2, s3. split; [exact Hwrite|].
  eapply cat_read; try eassumption; rewrite Hn3; eassumption.
Qed.

Lemma cat_write_then_read_witness :
  exists s2 s3,
    cat 8 ">>" "/f" " there" example_cached = Ok None s2 /\
    cat 8 "" "/f" "" s2 = Ok (Some ("hi" +:+ " there")) s3.
Proof.
  assert (Hvalid : cache_valid example_cached).
  { intros k n H. cbn in H. destruct (String.eqb k "/a/b") eqn:E; [|discriminate].
    apply String.eqb_eq in E. subst k. injection H as <-. reflexivity. }
  exact (cat_write_then_read 8 ">>" "/f" " there" example_cached example_cached 0
           (mkNode "~" None [1; 3; 4] [("a", 1); ("c", 3); ("f", 4)] [("type", VStr "dir")])
           "hi" Hvalid eq_refl eq_refl eq_refl eq_refl eq_refl).
Defined.


(** ** Operations that only add keep the cache valid *)

Lemma index_kept_refl s : index_kept s s.
Proof. split; [reflexivity|]. intros j x H. eauto. Qed.

Lemma index_kept_same s s' : nodes s' = nodes s -> root s' = root s -> index_kept s s'.
Proof. intros Hn Hr. split; [exact Hr|]. intros j x H. rewrite Hn. eauto. Qed.

Lemma index_kept_trans s1 s2 s3 : index_kept s1 s2 -> index_kept s2 s3 -> index_kept s1 s3.
Proof.
  intros (Hr1 & H1) (Hr2 & H2). split; [congruence|].
  intros j x Hj. destruct (H1 _ _ Hj) as (x' & Hj' & Ht & Hm).
  destruct (H2 _ _ Hj') as (x'' & Hj'' & Ht' & Hm').
  exists x''. split; [exact Hj''|]. split; [congruence|auto].
Qed.

Lemma cache_within_refl s : cache_within s s.
Proof. intros k v H. exact H. Qed.

Lemma cache_within_same s s' : _pathCache s' = _pathCache s -> cache_within s' s.
Proof. intros E k v H. rewrite <- E. exact H. Qed.

Lemma cache_within_trans s1 s2 s3 :
  cache_within s3 s2 -> cache_within s2 s1 -> cache_within s3 s1.
Proof. intros H1 H2 k v H. auto. Qed.

Lemma walk_index_kept segs : forall current seen s r s1 s',
  walk current seen segs s = Ok r s1 -> index_kept s s' ->
  walk current seen segs s' = Ok r s'.
Proof.
  induction segs as [|seg rest IH]; intros current seen s r s1 s' H Hg;
    cbn [walk] in *; [injection H as <- _; reflexivity|].
  destruct current as [c|]; [|discriminate]. cbn [nonnull] in *.
  unfold bind at 1, ret in H. unfold bind at 1, ret.
  unfold bind at 1, Node.findChild, bind, deref, ret in H.
  unfold bind at 1, Node.findChild, bind, deref, ret.
  destruct (nodes s !! c) as [t|] eqn:Ht; [|discriminate].
  pose proof Hg as (_ & Hn). destruct (Hn _ _ Ht) as (t' & -> & _ & Hm).
  destruct (map_get seg (_childrenMap t)) as [f|] eqn:Hf; [|discriminate].
  rewrite (Hm _ _ Hf). eapply IH; eassumption.
Qed.

Lemma resolvePathUncached_index_kept p s r s1 s' :
  _resolvePathUncached p s = Ok r s1 -> index_kept s s' ->
  _resolvePathUncached p s' = Ok r s'.
Proof.
  unfold _resolvePathUncached, bind, get_state. intros H Hg.
  pose proof Hg as (Hr & _). rewrite Hr.
  destruct (String.eqb p "/"); [injection H as <- _; reflexivity|].
  eapply walk_index_kept; eassumption.
Qed.

Lemma cache_valid_later s s' :
  cache_valid s -> index_kept s s' -> cache_within s' s -> cache_valid s'.
Proof.
  intros Hv Hg Hc k n Hk. eapply resolvePathUncached_index_kept; [|exact Hg].
  apply Hv, Hc, Hk.
Qed.

Lemma adds_preserves {A} (m : M A) : adds m -> preserves cache_valid m.
Proof.
  intros Hm s Hv. specialize (Hm s).
  destruct (m s) as [a s'|e s'|r]; [| |exact I];
    destruct Hm as [Hg Hc]; eapply cache_valid_later; eassumption.
Qed.

Lemma adds_ret {A} (a : A) : adds (ret a).
Proof. intros s. split; [apply index_kept_refl|apply cache_within_refl]. Qed.
Lemma adds_throw {A} e : adds (@throw A e).
Proof. intros s. split; [apply index_kept_refl|apply cache_within_refl]. Qed.
Lemma adds_abort {A} r : adds (@abort_with A r).
Proof. intros s. exact I. Qed.
Lemma adds_pure {A} (m : M A) : pure_command m -> adds m.
Proof.
  intros Hp s. specialize (Hp s).
  destruct (m s); subst; try exact I; split;
    apply index_kept_refl || apply cache_within_refl.
Qed.

Lemma adds_bind {A B} (m : M A) (f : A -> M B) :
  adds m -> (forall a, adds (f a)) -> adds (bind m f).
Proof.
  intros Hm Hf s. unfold bind. specialize (Hm s).
  destruct (m s) as [a s1|e s1|r]; [|exact Hm|exact I].
  specialize (Hf a s1). destruct Hm as [Hg Hc].
  destruct (f a s1) as [b s2|e s2|r]; [| |exact I]; destruct Hf as [Hg' Hc'];
    (split; [eapply index_kept_trans|eapply cache_within_trans]; eassumption).
Qed.

(** An assignment to a node that keeps its type and every entry of its
    name index. *)
Lemma adds_modify i f :
  (forall n, prop "type" (f n) = prop "type" n) ->
  (forall n k c, map_get k (_childrenMap n) = Some c ->
                 map_get k (_childrenMap (f n)) = Some c) ->
  adds (modify i f).
Proof.
  intros Hp Hf s. unfold modify. destruct (nodes s !! i) as [n|] eqn:Hi; [|exact I].
  split; [|apply cache_within_same; reflexivity]. split; [reflexivity|].
  intros j x Hj. cbn. rewrite lookup_alter_fn, Hj. cbn.
  destruct (decide (j = i)) as [->|Hne]; eexists; (split; [reflexivity|]); auto.
Qed.

Lemma adds_set_prop i name v :
  String.eqb "type" name = false -> adds (modify i (set_prop name v)).
Proof.
  intros Hne. apply adds_modify; [|intros n k c H; exact H].
  intros n. rewrite prop_set_prop, Hne. reflexivity.
Qed.
Lemma adds_set_parent i p : adds (modify i (set_parent p)).
Proof. apply adds_modify; [reflexivity|]. intros n k c H. exact H. Qed.
Lemma adds_set_children i g : adds (modify i (fun n => set_children (g n) n)).
Proof. apply adds_modify; [reflexivity|]. intros n k c H. exact H. Qed.

Lemma adds_alloc n : adds (alloc n).
Proof.
  intros s. split; [|apply cache_within_same; reflexivity]. split; [reflexivity|].
  intros j x Hj. cbn. exists x. split; [|auto].
  apply lookup_app_l_Some. exact Hj.
Qed.

Lemma adds_getUid : adds getUid.
Proof.
  intros s. split; [|apply cache_within_same; reflexivity].
  split; [reflexivity|]. intros j x Hj. cbn. eauto.
Qed.
Lemma adds_assign_cwd c : adds (assign_cwd c).
Proof.
  intros s. split; [|apply cache_within_same; reflexivity].
  split; [reflexivity|]. intros j x Hj. cbn. eauto.
Qed.

Lemma adds_invalidate path : adds (_invalidatePathCache path).
Proof.
  intros s. split; [split; [reflexivity|]; intros j x Hj; cbn; eauto|].
  intros k v H. cbn in H. eapply invalidate_sub, H.
Qed.

Create HintDb vfs_adds.
#[export] Hint Resolve adds_ret adds_throw adds_abort adds_set_parent
  adds_set_children adds_alloc adds_getUid adds_assign_cwd adds_invalidate : vfs_adds.
#[export] Hint Extern 1 (adds (modify _ (set_prop _ _))) =>
  apply adds_set_prop; reflexivity : vfs_adds.

Ltac is_adds :=
  repeat first
    [ solve [auto with vfs_adds]
    | apply adds_pure; solve [is_pure]
    | apply adds_bind; [ | intros ]
    | match goal with
      | |- adds (if ?b then _ else _) => destruct b
      | |- adds (match ?x with _ => _ end) => destruct x
      end ].

(** [insert] refuses a name that is taken, so it overwrites no entry. *)
Lemma adds_Node_insert this child : adds (Node.insert this child).
Proof.
  unfold Node.insert. apply adds_bind; [is_adds|]. intros c.
  intros s. unfold bind at 1, deref.
  destruct (nodes s !! this) as [t|] eqn:Ht; [|exact I].
  destruct (map_has (key c) (_childrenMap t)) eqn:Hhas.
  { split; [apply index_kept_refl|apply cache_within_refl]. }
  apply map_has_false in Hhas.
  assert (H1 : adds (modify this (fun n => set_children (children n ++ [child]) n)))
    by auto with vfs_adds.
  specialize (H1 s). unfold bind at 1.
  destruct (modify this _ s) as [[] s1|e s1|r] eqn:E1; [|exact H1|exact I].
  assert (Ht1 : nodes s1 !! this = Some (set_children (children t ++ [child]) t)).
  { unfold modify in E1. rewrite Ht in E1. injection E1 as <-. cbn.
    rewrite lookup_alter_fn, Ht. cbn. destruct (decide (this = this)); [reflexivity|congruence]. }
  unfold bind at 1.
  destruct (modify this (fun n => set_childrenMap _ n) s1) as [[] s2|e s2|r] eqn:E2;
    [|unfold modify in E2; rewrite Ht1 in E2; discriminate|exact I].
  assert (H2 : index_kept s1 s2 /\ cache_within s2 s1).
  { unfold modify in E2. rewrite Ht1 in E2. injection E2 as <-.
    split; [|apply cache_within_same; reflexivity]. split; [reflexivity|].
    intros j x Hj. cbn. rewrite lookup_alter_fn, Hj. cbn.
    destruct (decide (j = this)) as [->|Hne]; eexists; (split; [reflexivity|]);
      (split; [reflexivity|]); [|auto].
    intros k c0 Hk. rewrite Ht1 in Hj. injection Hj as <-. cbn in *.
    rewrite map_get_set. destruct (String.eqb_spec k (key c)) as [->|_]; [|exact Hk].
    congruence. }
  pose proof (adds_set_parent child (Some this) s2) as H3.
  destruct (modify child _ s2) as [[] s3|e s3|r]; [| |exact I];
    destruct H1 as [G1 C1], H2 as [G2 C2], H3 as [G3 C3];
    (split; [eapply index_kept_trans; [|exact G3]; eapply index_kept_trans; eassumption
            |eapply cache_within_trans; [exact C3|];
             eapply cache_within_trans; eassumption]).
Qed.
#[export] Hint Resolve adds_Node_insert : vfs_adds.

Lemma adds_mkdir_loop segments : forall current, adds (mkdir_loop current segments).
Proof.
  induction segments as [|seg rest IH]; intros current; cbn [mkdir_loop]; is_adds;
    apply IH.
Qed.

Lemma adds_clone fuel : forall deep this, adds (Node.clone fuel deep this).
Proof.
  induction fuel as [|f IH]; intros deep this; cbn [Node.clone]; [apply adds_abort|].
  apply adds_bind; [is_adds|]. intros t.
  apply adds_bind; [is_adds|]. intros cloned.
  apply adds_bind; [|intros; apply adds_ret].
  destruct deep; [|apply adds_ret].
  induction (children t) as [|c l IHl]; [apply adds_ret|].
  apply adds_bind; [apply IH|]. intros c'.
  apply adds_bind; [is_adds|]. intros _. exact IHl.
Qed.

Lemma adds_updateNodeMetadata n : forall node, adds (_updateNodeMetadata n node).
Proof.
  induction n as [|n IH]; intros node; cbn [_updateNodeMetadata]; [apply adds_abort|].
  do 8 (apply adds_bind; [is_adds|]; intros).
  induction (children _) as [|c l IHl]; [apply adds_ret|].
  apply adds_bind; [apply IH|]. intros. exact IHl.
Qed.
#[export] Hint Resolve adds_mkdir_loop adds_clone adds_updateNodeMetadata : vfs_adds.

(** A resolution stores only what the walk has just found. *)
Lemma valid_resolve_path fuel path : preserves cache_valid (_resolve_path fuel path).
Proof.
  unfold _resolve_path.
  destruct (negb (truthy_str path) || String.eqb path "."); [is_kept|].
  destruct (String.eqb path "/"); [is_kept|].
  apply preserves_bind; [is_kept|]. intros np.
  intros s H. unfold bind at 1, get_state.
  assert (Hgo : forall s0, cache_valid s0 ->
            match (result <- _resolvePathUncached np ;;
                   s1 <- get_state ;;
                   (if Nat.leb (_maxCacheSize s1) (map_size (_pathCache s1)) then
                      match map_first_key (_pathCache s1) with
                      | Some firstKey => update_cache (map_delete firstKey)
                      | None => ret tt
                      end
                    else ret tt) ;;;
                   update_cache (map_set np result) ;;; ret result) s0 with
            | Ok _ s' | Throw _ s' => cache_valid s'
            | Abort _ => True
            end).
  { intros s0 Hv. unfold bind at 1.
    pose proof (pure_resolvePathUncached np s0) as Hp.
    destruct (_resolvePathUncached np s0) as [res s2|e s2|r] eqn:Hres;
      [|subst; exact Hv|exact I].
    subst s2. unfold bind at 1, get_state.
    assert (Hset : forall c,
              (forall k v, map_get k c = Some (Some v) ->
                           map_get k (_pathCache s0) = Some (Some v)) ->
              cache_valid (set_cache (map_set np res c) s0)).
    { intros c Hc k n Hk. cbn in Hk. rewrite map_get_set in Hk.
      destruct (String.eqb_spec k np) as [->|_].
      - injection Hk as ->.
        eapply resolvePathUncached_state; [exact Hres|reflexivity|reflexivity].
      - eapply resolvePathUncached_state; [apply Hv, Hc, Hk|reflexivity|reflexivity]. }
    destruct (Nat.leb (_maxCacheSize s0) (map_size (_pathCache s0)));
      [destruct (map_first_key (_pathCache s0)) as [k0|]|];
      unfold bind, update_cache, ret; cbn.
    - apply (Hset (map_delete k0 (_pathCache s0))). intros k v Hk.
      rewrite map_get_delete in Hk. destruct (String.eqb k k0); [discriminate|exact Hk].
    - apply (Hset (_pathCache s0)). auto.
    - apply (Hset (_pathCache s0)). auto. }
  destruct (map_get np (_pathCache s)) as [[cached|]|].
  - exact H.
  - unfold bind at 1. cbn [update_cache]. apply Hgo.
    intros k n Hk. cbn in Hk. rewrite map_get_delete in Hk.
    destruct (String.eqb k np); [discriminate|].
    eapply resolvePathUncached_state; [apply H, Hk|reflexivity|reflexivity].
  - unfold bind at 1. cbn [ret]. apply Hgo, H.
Qed.

Lemma valid_resolve_target fuel x : preserves cache_valid (resolve_target fuel x).
Proof.
  unfold resolve_target. destruct x as [p|n]; [|apply preserves_ret].
  destruct (truthy_str p); [apply valid_resolve_path|apply preserves_throw].
Qed.

(** Resolving, changing directory, listing, reading and writing files,
    making directories, copying and searching leave every cache entry the
    answer of the walk from the root, whether they succeed or fail. *)
Theorem additions_keep_cache_valid (fuel : nat) (le : string -> string -> bool)
    (r : request) :
  removes r = false -> preserves cache_valid (perform fuel le r).
Proof.
  intros Hr. destruct r; try discriminate Hr; cbn [perform].
  - apply preserves_bind; [apply valid_resolve_path|intros; apply preserves_ret].
  - apply preserves_bind; [|intros; apply preserves_ret]. unfold cd.
    destruct (negb (truthy_str path)); [apply preserves_throw|].
    apply preserves_bind; [apply valid_resolve_path|]. intros.
    apply adds_preserves. is_adds.
  - apply preserves_bind; [|intros; apply preserves_ret]. unfold ls.
    apply preserves_bind.
    + destruct (truthy_str path); [apply valid_resolve_path|apply preserves_pure; is_pure].
    + intros. apply preserves_pure. is_pure.
  - apply preserves_pure. is_pure.
  - apply preserves_bind; [|intros; apply preserves_ret]. unfold cat.
    destruct (negb (truthy_str path)); [apply preserves_throw|].
    apply preserves_bind; [apply valid_resolve_path|]. intros.
    apply adds_preserves. is_adds.
  - apply adds_preserves. unfold mkdir. is_adds.
  - apply preserves_bind; [|intros; apply preserves_ret]. unfold cp.
    destruct (missing source); [apply preserves_throw|].
    destruct (missing destination); [apply preserves_throw|].
    apply preserves_bind; [apply valid_resolve_target|]. intros.
    apply preserves_bind; [apply valid_resolve_target|]. intros.
    apply adds_preserves. is_adds.
  - apply preserves_pure. is_pure. apply pure_whereis.
Qed.

Lemma additions_keep_cache_valid_witness :
  removes (MakeDirectory "/a/b/d") = false /\
  preserves cache_valid (perform 8 (fun _ _ => true) (MakeDirectory "/a/b/d")).
Proof.
  split; [reflexivity|]. apply (additions_keep_cache_valid 8 (fun _ _ => true)). reflexivity.
Defined.


(** ** [mkdir] *)

Lemma adds_run {A} (m : M A) s a s' : adds m -> m s = Ok a s' -> index_kept s s'.
Proof. intros Hm H. specialize (Hm s). rewrite H in Hm. apply Hm. Qed.

Lemma descend_later segs : forall h h' c d,
  descend h c segs = Some d ->
  (forall j x, h !! j = Some x ->
     exists x', h' !! j = Some x' /\ prop "type" x' = prop "type" x /\
                forall k e, map_get k (_childrenMap x) = Some e ->
                            map_get k (_childrenMap x') = Some e) ->
  descend h' c segs = Some d.
Proof.
  induction segs as [|seg rest IH]; intros h h' c d H Hk; [exact H|].
  cbn [descend] in *.
  destruct (h !! c) as [t|] eqn:Ht; [|discriminate].
  destruct (Hk _ _ Ht) as (t' & -> & _ & Hm).
  destruct (map_get seg (_childrenMap t)) as [e|] eqn:He; [|discriminate].
  rewrite (Hm _ _ He).
  destruct (h !! e) as [te|] eqn:Hte; [|discriminate].
  destruct (Hk _ _ Hte) as (te' & -> & Hty & _). rewrite Hty.
  destruct (is_str (prop "type" te) "dir"); [|discriminate].
  eapply IH; eassumption.
Qed.

Lemma mkdir_loop_found c nc seg e rest s :
  nodes s !! c = Some nc ->
  map_get seg (_childrenMap nc) = Some e ->
  mkdir_loop (Some c) (seg :: rest) s =
  (t <- deref e ;;
   if is_str (prop "type" t) "dir" then mkdir_loop (Some e) rest
   else throw NotADirectory) s.
Proof.
  intros Hc He. cbn [mkdir_loop].
  step. step_with ltac:(apply findChild_run, Hc). rewrite He. reflexivity.
Qed.

(** Where [mkdir] has succeeded, the path leads through directories. *)
Lemma mkdir_loop_descends segs : forall c s s',
  mkdir_loop (Some c) segs s = Ok tt s' ->
  cwd s' = cwd s /\ exists d, descend (nodes s') c segs = Some d.
Proof.
  induction segs as [|seg rest IH]; intros c s s' H.
  { injection H as <-. split; [reflexivity|]. exists c. reflexivity. }
  destruct (nodes s !! c) as [nc|] eqn:Hc.
  2: { cbn [mkdir_loop] in H. unfold bind at 1 in H. cbn [nonnull ret] in H.
       unfold bind at 1, Node.findChild at 1, bind at 1, deref at 1 in H.
       rewrite Hc in H. discriminate. }
  destruct (map_get seg (_childrenMap nc)) as [e|] eqn:He.
  - rewrite (mkdir_loop_found c nc seg e rest s Hc He) in H.
    unfold bind at 1, deref in H.
    destruct (nodes s !! e) as [te|] eqn:Hte; [|discriminate].
    destruct (is_str (prop "type" te) "dir") eqn:Hdir; [|discriminate].
    pose proof (adds_run _ _ _ _ (adds_mkdir_loop rest (Some e)) H) as (_ & Hk).
    destruct (IH _ _ _ H) as (Hcwd & d & Hd). split; [exact Hcwd|]. exists d.
    cbn [descend].
    destruct (Hk _ _ Hc) as (nc' & -> & _ & Hm). rewrite (Hm _ _ He).
    destruct (Hk _ _ Hte) as (te' & -> & Hty & _). rewrite Hty, Hdir. exact Hd.
  - rewrite (mkdir_loop_create c nc seg rest s Hc He) in H.
    pose proof (lookup_lt_Some _ _ _ Hc) as Hlt.
    pose proof (adds_run _ _ _ _ (adds_mkdir_loop rest (Some (length (nodes s)))) H)
      as (_ & Hk).
    destruct (IH _ _ _ H) as (Hcwd & d & Hd). split; [exact Hcwd|]. exists d.
    cbn [descend].
    match type of H with
    | mkdir_loop _ _ ?sa = _ =>
        assert (Hc' : exists x, nodes sa !! c = Some x /\
                                map_get seg (_childrenMap x) = Some (length (nodes s)));
        [|assert (Hn' : exists x, nodes sa !! length (nodes s) = Some x /\
                                  prop "type" x = VStr "dir")]
    end.
    { cbn [nodes set_nodes set_uidCounter]. rewrite inserted_at.
      rewrite (lookup_old _ _ _ _ Hc). cbn. eexists. split; [reflexivity|].
      rewrite insert_at_map. destruct (decide (c = c)); [|congruence].
      apply map_get_set_eq. }
    { cbn [nodes set_nodes set_uidCounter]. rewrite inserted_at.
      rewrite lookup_fresh. cbn. eexists. split; [reflexivity|].
      unfold insert_at. destruct (decide _), (decide _); reflexivity. }
    destruct Hc' as (x & Hx & Hxm), Hn' as (y & Hy & Hyt).
    destruct (Hk _ _ Hx) as (x' & -> & _ & Hm). rewrite (Hm _ _ Hxm).
    destruct (Hk _ _ Hy) as (y' & -> & Hty & _). rewrite Hty, Hyt. exact Hd.
Qed.

(** Where the path leads through directories, [mkdir] has nothing to do. *)
Lemma mkdir_loop_nothing segs : forall c s d,
  descend (nodes s) c segs = Some d -> mkdir_loop (Some c) segs s = Ok tt s.
Proof.
  induction segs as [|seg rest IH]; intros c s d H; [reflexivity|].
  cbn [descend] in H.
  destruct (nodes s !! c) as [t|] eqn:Ht; [|discriminate].
  destruct (map_get seg (_childrenMap t)) as [e|] eqn:He; [|discriminate].
  destruct (nodes s !! e) as [te|] eqn:Hte; [|discriminate].
  destruct (is_str (prop "type" te) "dir") eqn:Hdir; [|discriminate].
  rewrite (mkdir_loop_found c t seg e rest s Ht He).
  unfold bind at 1. rewrite (deref_ok _ _ _ Hte), Hdir. eapply IH, H.
Qed.

Lemma walk_descends segs : forall c seen s d,
  descend (nodes s) c segs = Some d -> walk (Some c) seen segs s = Ok (Some d) s.
Proof.
  induction segs as [|seg rest IH]; intros c seen s d H;
    [injection H as <-; reflexivity|].
  cbn [descend] in H.
  destruct (nodes s !! c) as [t|] eqn:Ht; [|discriminate].
  destruct (map_get seg (_childrenMap t)) as [e|] eqn:He; [|discriminate].
  destruct (nodes s !! e) as [te|] eqn:Hte; [|discriminate].
  destruct (is_str (prop "type" te) "dir") eqn:Hdir; [|discriminate].
  cbn [walk]. step. step_with ltac:(apply findChild_run, Ht). rewrite He.
  apply IH, H.
Qed.

Lemma descend_directory segs : forall h c d,
  segs <> [] -> descend h c segs = Some d ->
  exists nd, h !! d = Some nd /\ is_str (prop "type" nd) "dir" = true.
Proof.
  induction segs as [|seg rest IH]; intros h c d Hne H; [contradiction|].
  cbn [descend] in H.
  destruct (h !! c) as [t|] eqn:Ht; [|discriminate].
  destruct (map_get seg (_childrenMap t)) as [e|] eqn:He; [|discriminate].
  destruct (h !! e) as [te|] eqn:Hte; [|discriminate].
  destruct (is_str (prop "type" te) "dir") eqn:Hdir; [|discriminate].
  destruct rest as [|seg' rest'].
  - injection H as <-. eauto.
  - eapply IH; [discriminate|exact H].
Qed.

(** *** Invalidating twice *)

Lemma map_delete_absent {V} k (m : jsmap V) : map_get k m = None -> map_delete k m = m.
Proof.
  induction m as [|[k' v] m IH]; [reflexivity|]. cbn.
  destruct (String.eqb k k'); [discriminate|]. intros H. rewrite IH by exact H. reflexivity.
Qed.

Lemma invalidate_parents_absent segs (c : jsmap (option id)) : forall i,
  (forall j, 1 <= j <= i ->
     map_get (str_or (js_join "/" (firstn j segs)) "/") c = None) ->
  invalidate_parents i segs c = c.
Proof.
  induction i as [|i IH]; intros H; [reflexivity|]. cbn [invalidate_parents].
  rewrite map_delete_absent by (apply H; lia). apply IH. intros j Hj. apply H. lia.
Qed.

Lemma invalidate_twice path s s' :
  _invalidatePathCache path s = Ok tt s' -> _invalidatePathCache path s' = Ok tt s'.
Proof.
  rewrite !invalidate_run. intros [= <-]. cbn [_pathCache set_cache].
  set (segs := js_split slash path). set (n := length segs - 1).
  set (X := invalidate_parents n segs (map_delete path (_pathCache s))).
  assert (Hp : map_get path X = None).
  { unfold X. rewrite invalidate_parents_get, map_get_delete, String.eqb_refl.
    destruct (existsb _ _); reflexivity. }
  assert (Hj : forall j, 1 <= j <= n ->
                 map_get (str_or (js_join "/" (firstn j segs)) "/") X = None).
  { intros j Hj. unfold X. rewrite invalidate_parents_get.
    match goal with
    | |- (if ?b then _ else _) = _ => assert (E : b = true); [|rewrite E; reflexivity]
    end.
    apply existsb_exists. exists j. split; [apply in_seq; lia|apply String.eqb_refl]. }
  rewrite (map_delete_absent _ _ Hp), (invalidate_parents_absent _ _ _ Hj).
  reflexivity.
Qed.

(** [mkdir] is idempotent: run again on the state it produced, it
    succeeds and changes nothing, neither the tree nor the cache. *)
Theorem mkdir_idempotent (path : string) (s s2 : vfs) :
  mkdir path s = Ok tt s2 -> mkdir path s2 = Ok tt s2.
Proof.
  unfold mkdir. destruct (negb (truthy_str path)); [discriminate|].
  unfold bind at 1, get_state. unfold bind at 2, get_state.
  set (segs := List.filter truthy_str (js_split slash (strip_trailing_slashes path))).
  intros H. unfold bind at 1 in H.
  destruct (mkdir_loop (if startsWith path "/" then root s else cwd s) segs s)
    as [[] s1|e s1|r] eqn:Hloop; [|discriminate|discriminate].
  pose proof (adds_run _ _ _ _ (adds_mkdir_loop segs _) Hloop) as (Hroot & _).
  assert (Hs2 : nodes s2 = nodes s1 /\ root s2 = root s1 /\ cwd s2 = cwd s1).
  { rewrite invalidate_run in H. injection H as <-. repeat split. }
  destruct Hs2 as (Hn2 & Hr2 & Hc2).
  assert (Hcwd : cwd s1 = cwd s /\
                 mkdir_loop (if startsWith path "/" then root s else cwd s) segs s2
                 = Ok tt s2).
  { destruct (if startsWith path "/" then root s else cwd s) as [c|].
    - destruct (mkdir_loop_descends _ _ _ _ Hloop) as (Hcwd & d & Hd).
      split; [exact Hcwd|]. eapply mkdir_loop_nothing. rewrite Hn2. exact Hd.
    - destruct segs as [|seg rest]; [|discriminate].
      injection Hloop as <-. split; reflexivity. }
  destruct Hcwd as (Hcwd & Hagain).
  replace (root s2) with (root s) by congruence.
  replace (cwd s2) with (cwd s) by congruence.
  unfold bind at 1. rewrite Hagain. eapply invalidate_twice, H.
Qed.

Lemma mkdir_idempotent_witness :
  exists s2, mkdir "/a/x/y" example_fs = Ok tt s2 /\ mkdir "/a/x/y" s2 = Ok tt s2.
Proof.
  eexists. assert (H : forall P Q : Prop, P -> (P -> Q) -> P /\ Q) by tauto.
  apply H; [vm_compute; reflexivity|]. apply mkdir_idempotent.
Defined.


(** *** The directory [mkdir] made can be entered *)

Lemma split_strip p :
  (strip_trailing_slashes p = "" -> exists k, js_split slash p = repeat "" (S k)) /\
  (strip_trailing_slashes p <> "" ->
   exists k, js_split slash p = js_split slash (strip_trailing_slashes p) ++ repeat "" k).
Proof.
  induction p as [|c p [IH1 IH2]].
  { split; [exists 0; reflexivity|intros H; contradiction]. }
  cbn [strip_trailing_slashes]. rewrite split_cons.
  destruct (strip_trailing_slashes p) as [|a r] eqn:E.
  - destruct (IH1 eq_refl) as (k & Hk). rewrite Hk.
    destruct (Ascii.eqb c slash) eqn:Ec.
    + split; [intros _; exists (S k); reflexivity|intros H; contradiction].
    + split; [discriminate|]. intros _. exists k.
      rewrite split_cons, Ec. reflexivity.
  - split; [destruct (Ascii.eqb c slash); discriminate|]. intros _.
    destruct IH2 as (k & Hk); [discriminate|]. exists k. rewrite Hk.
    rewrite (split_cons c (String a r)).
    destruct (Ascii.eqb c slash); [reflexivity|].
    pose proof (split_not_nil (String a r)) as Hne.
    destruct (js_split slash (String a r)); [contradiction|reflexivity].
Qed.

Lemma filter_truthy_repeat k : List.filter truthy_str (repeat "" k) = [].
Proof. induction k as [|k IH]; [reflexivity|exact IH]. Qed.

(** The trailing slashes [mkdir] strips hold no segment. *)
Lemma segments_strip p : segments_of (strip_trailing_slashes p) = segments_of p.
Proof.
  unfold segments_of. destruct (split_strip p) as [H1 H2].
  destruct (strip_trailing_slashes p) as [|a r] eqn:E.
  - destruct (H1 eq_refl) as (k & ->). symmetry. apply (filter_truthy_repeat (S k)).
  - destruct H2 as (k & ->); [discriminate|].
    rewrite List.filter_app, filter_truthy_repeat, app_nil_r. reflexivity.
Qed.

Lemma filter_dot_free l :
  dot_free (List.filter truthy_str l) ->
  List.filter (fun seg => truthy_str seg && negb (String.eqb seg ".")) l
  = List.filter truthy_str l.
Proof.
  induction l as [|x l IH]; [reflexivity|]. cbn.
  destruct (truthy_str x); cbn; [|exact IH]. intros H.
  apply Forall_cons in H as [[Hx _] Hl]. rewrite Hx. cbn. rewrite IH by exact Hl.
  reflexivity.
Qed.

(** The normal form of an absolute path without [.] and [..]. *)
Lemma normalizePath_plain fuel p s :
  startsWith p "/" = true -> dot_free (segments_of p) -> segments_of p <> [] ->
  _normalizePath fuel p s = Ok (canonical (segments_of p)) s.
Proof.
  intros Habs Hdot Hne. unfold _normalizePath.
  assert (Hnd : negb (truthy_str p) || String.eqb p "." = false).
  { destruct p as [|c p]; [discriminate|].
    unfold startsWith in Habs. cbn [String.prefix] in Habs.
    destruct (ascii_dec "/" c) as [<-|]; [|discriminate].
    destruct p; reflexivity. }
  rewrite Hnd. destruct (String.eqb_spec p "/") as [->|_]; [contradiction Hne; reflexivity|].
  rewrite Habs. unfold bind, ret. cbn [String.eqb Ascii.eqb Bool.eqb].
  unfold segments_of in *. rewrite filter_dot_free by exact Hdot.
  rewrite fold_normalize_plain by exact Hdot. reflexivity.
Qed.

Lemma absolute_not_dot p :
  startsWith p "/" = true -> negb (truthy_str p) || String.eqb p "." = false.
Proof.
  intros Habs. destruct p as [|c p]; [discriminate|].
  unfold startsWith in Habs. cbn [String.prefix] in Habs.
  destruct (ascii_dec "/" c) as [<-|]; [|discriminate].
  destruct p; reflexivity.
Qed.

(** With a valid cache a resolution answers what the walk finds. *)
Lemma resolve_path_of_walk fuel p s np d :
  cache_valid s ->
  negb (truthy_str p) || String.eqb p "." = false -> String.eqb p "/" = false ->
  _normalizePath fuel p s = Ok np s ->
  _resolvePathUncached np s = Ok (Some d) s ->
  exists s3, _resolve_path fuel p s = Ok (Some d) s3 /\ same_tree s s3.
Proof.
  intros Hvalid Hdot Hslash Hnp Hwalk.
  unfold _resolve_path. rewrite Hdot, Hslash.
  unfold bind at 1. rewrite Hnp. unfold bind at 1, get_state.
  assert (Hmiss : forall c, exists s3,
            (result <- _resolvePathUncached np ;;
             s4 <- get_state ;;
             (if Nat.leb (_maxCacheSize s4) (map_size (_pathCache s4)) then
                match map_first_key (_pathCache s4) with
                | Some firstKey => update_cache (map_delete firstKey)
                | None => ret tt
                end
              else ret tt) ;;;
             update_cache (map_set np result) ;;;
             ret result) (set_cache c s) = Ok (Some d) s3 /\ same_tree s s3).
  { intros c.
    assert (E : _resolvePathUncached np (set_cache c s) = Ok (Some d) (set_cache c s))
      by (eapply resolvePathUncached_state; [exact Hwalk|reflexivity|reflexivity]).
    unfold bind at 1. rewrite E. unfold bind at 1, get_state.
    destruct (Nat.leb _ _); [destruct (map_first_key _)|];
      unfold bind, update_cache, ret; eexists; (split; [reflexivity|]);
      unfold same_tree; cbn; tauto. }
  destruct (map_get np (_pathCache s)) as [[cached|]|] eqn:Hget.
  - apply Hvalid in Hget. rewrite Hwalk in Hget. injection Hget as <-.
    exists s. split; [reflexivity|apply same_tree_refl].
  - unfold bind at 1. cbn [update_cache]. apply Hmiss.
  - unfold bind at 1. cbn [ret].
    destruct (Hmiss (_pathCache s)) as (s3 & E & Hn). exists s3. split; [|exact Hn].
    destruct s; exact E.
Qed.

Lemma valid_mkdir path : preserves cache_valid (mkdir path).
Proof. apply adds_preserves. unfold mkdir. is_adds. Qed.

(** After [mkdir] of an absolute path without [.] and [..] has succeeded,
    [cd] to the same path succeeds: the path resolves to a directory, which
    becomes the current one, and the tree is as [mkdir] left it. *)
Theorem mkdir_then_cd (fuel : nat) (path : string) (s s2 : vfs) :
  cache_valid s ->
  startsWith path "/" = true ->
  dot_free (segments_of path) -> segments_of path <> [] ->
  mkdir path s = Ok tt s2 ->
  exists d nd s3,
    cd fuel path s2 = Ok (Some d) s3 /\
    cwd s3 = Some d /\ nodes s3 = nodes s2 /\
    nodes s2 !! d = Some nd /\ is_str (prop "type" nd) "dir" = true.
Proof.
  intros Hvalid Habs Hdot Hne Hmk.
  pose proof (valid_mkdir path s Hvalid) as Hvalid2. rewrite Hmk in Hvalid2.
  unfold mkdir in Hmk.
  assert (Htruthy : truthy_str path = true) by (destruct path; [discriminate|reflexivity]).
  rewrite Htruthy in Hmk. cbn [negb] in Hmk. unfold bind at 1, get_state in Hmk.
  rewrite Habs in Hmk.
  change (List.filter truthy_str (js_split slash (strip_trailing_slashes path)))
    with (segments_of (strip_trailing_slashes path)) in Hmk.
  rewrite segments_strip in Hmk. unfold bind at 1 in Hmk.
  destruct (mkdir_loop (root s) (segments_of path) s) as [[] s1|e s1|r] eqn:Hloop;
    [|discriminate|discriminate].
  destruct (root s) as [r|] eqn:Hroot.
  2: { destruct (segments_of path); [contradiction|discriminate]. }
  pose proof (adds_run _ _ _ _ (adds_mkdir_loop _ _) Hloop) as (Hr1 & _).
  destruct (mkdir_loop_descends _ _ _ _ Hloop) as (_ & d & Hd).
  assert (Hs2 : nodes s2 = nodes s1 /\ root s2 = root s1).
  { rewrite invalidate_run in Hmk. injection Hmk as <-. split; reflexivity. }
  destruct Hs2 as (Hn2 & Hr2). rewrite <- Hn2 in Hd.
  destruct (descend_directory _ _ _ _ Hne Hd) as (nd & Hnd & Hdir).
  assert (Hseg : Forall segment (segments_of path))
    by (apply segments_of_split; auto).
  assert (Hwalk : _resolvePathUncached (canonical (segments_of path)) s2 = Ok (Some d) s2).
  { unfold _resolvePathUncached, bind, get_state.
    destruct (segments_of path) as [|x l] eqn:E; [contradiction|].
    unfold canonical. rewrite canonical_not_root by (apply Forall_cons in Hseg; tauto).
    rewrite canonical_segments by (exact Hseg || discriminate).
    replace (root s2) with (Some r) by congruence.
    apply walk_descends, Hd. }
  assert (Hslash : String.eqb path "/" = false).
  { destruct (String.eqb_spec path "/") as [->|_]; [contradiction Hne|]; reflexivity. }
  destruct (resolve_path_of_walk fuel path s2 _ d Hvalid2 (absolute_not_dot _ Habs) Hslash
              (normalizePath_plain fuel path s2 Habs Hdot Hne) Hwalk)
    as (s3 & Hres & Hsame).
  pose proof Hsame as (Hn3 & _).
  exists d, nd, (set_cwd (Some d) s3). split; [|split; [reflexivity|split; [exact Hn3|]]].
  - unfold cd. rewrite Htruthy. cbn [negb].
    unfold bind at 1. rewrite Hres. cbn [nonnull]. unfold bind at 1, ret.
    unfold bind at 1. rewrite (deref_ok d nd s3) by (rewrite Hn3; exact Hnd).
    rewrite Hdir. reflexivity.
  - split; [exact Hnd|exact Hdir].
Qed.

Lemma mkdir_then_cd_witness :
  exists s2 d nd s3,
    mkdir "/a/x/y/" example_cached = Ok tt s2 /\
    cd 8 "/a/x/y/" s2 = Ok (Some d) s3 /\
    cwd s3 = Some d /\ nodes s3 = nodes s2 /\
    nodes s2 !! d = Some nd /\ is_str (prop "type" nd) "dir" = true.
Proof.
  assert (Hvalid : cache_valid example_cached).
  { intros k n Hk. cbn in Hk.
    destruct (String.eqb k "/a/b") eqn:E; [|discriminate].
    apply String.eqb_eq in E. subst k. injection Hk as <-. reflexivity. }
  assert (Hdot : dot_free (segments_of "/a/x/y/")) by (repeat constructor).
  assert (Hne : segments_of "/a/x/y/" <> []) by discriminate.
  eexists.
  assert (Hmk : mkdir "/a/x/y/" example_cached = Ok tt ?[s2])
    by (vm_compute; reflexivity).
  destruct (mkdir_then_cd 8 "/a/x/y/" example_cached _ Hvalid eq_refl Hdot Hne Hmk)
    as (d & nd & s3 & H).
  exists d, nd, s3. split; [exact Hmk|exact H].
Defined.


(** ** [ls] *)

Lemma sort_insert_perm le x l : sort_insert le x l ≡ₚ x :: l.
Proof.
  induction l as [|y l IH]; [reflexivity|]. cbn [sort_insert].
  destruct (le x y); [reflexivity|]. rewrite IH. apply Permutation_swap.
Qed.

Lemma sort_perm le l : fold_right (sort_insert le) [] l ≡ₚ l.
Proof.
  induction l as [|x l IH]; [reflexivity|]. cbn [fold_right].
  rewrite sort_insert_perm, IH. reflexivity.
Qed.

Section Sorting.
Context (le : id -> id -> bool).
Hypothesis le_total : forall a b, le a b = true \/ le b a = true.
Hypothesis le_trans : forall a b c, le a b = true -> le b c = true -> le a c = true.

Lemma sort_insert_sorted x l :
  StronglySorted (fun a b => le a b = true) l ->
  StronglySorted (fun a b => le a b = true) (sort_insert le x l).
Proof.
  induction 1 as [|y l Hl IH Hy]; [repeat constructor|]. cbn [sort_insert].
  destruct (le x y) eqn:E.
  - constructor; [constructor; assumption|]. constructor; [exact E|].
    eapply Forall_impl; [exact Hy|]. intros z Hz. eapply le_trans; eassumption.
  - constructor; [exact IH|].
    rewrite sort_insert_perm. constructor; [|exact Hy].
    destruct (le_total x y) as [H|H]; [congruence|exact H].
Qed.

Lemma sort_sorted l :
  StronglySorted (fun a b => le a b = true) (fold_right (sort_insert le) [] l).
Proof.
  induction l as [|x l IH]; [constructor|]. cbn [fold_right].
  apply sort_insert_sorted, IH.
Qed.
End Sorting.

(** Two comparisons that agree on the elements sort alike. *)
Lemma sort_insert_ext (P : id -> Prop) (f g : id -> id -> bool) x l :
  (forall a b, P a -> P b -> f a b = g a b) -> P x -> Forall P l ->
  sort_insert f x l = sort_insert g x l.
Proof.
  intros H Hx Hl. induction Hl as [|y l Hy _ IH]; [reflexivity|]. cbn [sort_insert].
  rewrite (H x y Hx Hy), IH. reflexivity.
Qed.

Lemma sort_ext (P : id -> Prop) (f g : id -> id -> bool) l :
  (forall a b, P a -> P b -> f a b = g a b) -> Forall P l ->
  fold_right (sort_insert f) [] l = fold_right (sort_insert g) [] l.
Proof.
  intros H Hl. induction Hl as [|x l Hx Hl IH]; [reflexivity|]. cbn [fold_right].
  rewrite IH. apply (sort_insert_ext P); [exact H|exact Hx|].
  rewrite sort_perm. exact Hl.
Qed.

Lemma filter_true {A} (l : list A) : List.filter (fun _ => true) l = l.
Proof. induction l as [|x l IH]; [reflexivity|]. cbn. rewrite IH. reflexivity. Qed.

Lemma filter_unless {A} (b : bool) (p : A -> bool) l :
  (if b then l else List.filter p l) = List.filter (fun x => b || p x) l.
Proof. destruct b; [symmetry; apply filter_true|reflexivity]. Qed.

Lemma filter_when {A} (b : bool) (p : A -> bool) l :
  (if b then List.filter p l else l) = List.filter (fun x => negb b || p x) l.
Proof. destruct b; [reflexivity|symmetry; apply filter_true]. Qed.

Lemma filter_twice {A} (f g : A -> bool) l :
  List.filter f (List.filter g l) = List.filter (fun x => g x && f x) l.
Proof.
  induction l as [|x l IH]; [reflexivity|]. cbn [List.filter].
  destruct (g x); cbn [List.filter andb]; [destruct (f x)|]; rewrite IH; reflexivity.
Qed.

(** The three filters of [ls], one after the other, keep the children
    that pass all three tests. *)
Lemma ls_filters options (h : heap) (t : TreeNode) (l : list id) :
  Forall (fun i => is_Some (h !! i)) l ->
  let node_of i := match h !! i with Some x => x | None => t end in
  let c1 := if opt_all options then l
            else List.filter (fun i => negb (startsWith (key (node_of i)) ".")) l in
  let c2 := if opt_filesOnly options
            then List.filter (fun i => is_str (prop "type" (node_of i)) "file") c1
            else c1 in
  (if opt_dirsOnly options
   then List.filter (fun i => is_str (prop "type" (node_of i)) "dir") c2
   else c2) = List.filter (shown options h) l.
Proof.
  intros Hl. cbv zeta.
  rewrite filter_when, filter_when, filter_unless, !filter_twice.
  apply List.filter_ext_in. intros i Hi.
  eapply List.Forall_forall in Hl; [|exact Hi]. destruct Hl as [x Hx].
  unfold shown. rewrite Hx. apply andb_assoc.
Qed.

(** [ls] answers the children of the directory that pass its filters, in
    the order of the directory; with [sort] they are rearranged, and in
    ascending order of their keys when the comparison is a total
    preorder.  Nothing but the cache is touched. *)
Theorem ls_lists_the_children (fuel : nat) (le : string -> string -> bool)
    (path : string) (options : ls_options) (s s1 : vfs) (n : id) (t : TreeNode) :
  consistent s ->
  _resolve_path fuel path s = Ok (Some n) s1 ->
  nodes s !! n = Some t ->
  is_str (prop "type" t) "dir" = true ->
  exists l,
    ls fuel le path options s = Ok l s1 /\
    l ≡ₚ List.filter (shown options (nodes s)) (children t) /\
    (opt_sort options = false ->
     l = List.filter (shown options (nodes s)) (children t)) /\
    (opt_sort options = true ->
     (forall a b, le a b = true \/ le b a = true) ->
     (forall a b c, le a b = true -> le b c = true -> le a c = true) ->
     StronglySorted (fun i j => le (key_of (nodes s) i) (key_of (nodes s) j) = true) l).
Proof.
  intros Hwf Hres Hn Hdir.
  pose proof (read_only_resolve_path fuel path s) as Hro. rewrite Hres in Hro.
  destruct Hro as (Hn1 & _).
  assert (Hheap : Forall (fun i => is_Some (nodes s !! i)) (children t)).
  { apply Forall_forall. intros c Hc. destruct Hwf as (_ & _ & Hchild & _).
    destruct (Hchild n t c Hn Hc) as (nc & Hnc & _). rewrite Hnc. eauto. }
  assert (Hfirst : (if truthy_str path then _resolve_path fuel path
                    else s0 <- get_state ;; ret (cwd s0)) s = Ok (Some n) s1).
  { destruct (truthy_str path) eqn:E; [exact Hres|].
    unfold _resolve_path in Hres. rewrite E in Hres. exact Hres. }
  set (sorted := fold_right
         (sort_insert (fun a b => le (key_of (nodes s) a) (key_of (nodes s) b))) []
         (List.filter (shown options (nodes s)) (children t))).
  exists (if opt_sort options then sorted
          else List.filter (shown options (nodes s)) (children t)).
  split; [|split; [|split]].
  - unfold ls. unfold bind at 1. rewrite Hfirst. cbn [nonnull]. unfold bind at 1, ret.
    unfold bind at 1. rewrite (deref_ok n t s1) by (rewrite Hn1; exact Hn).
    rewrite Hdir. cbn [negb]. unfold bind, get_state, ret. rewrite Hn1.
    rewrite (ls_filters options (nodes s) t (children t) Hheap).
    destruct (opt_sort options); [|reflexivity]. unfold sorted. f_equal.
    assert (Hin : Forall (fun i => is_Some (nodes s !! i))
                    (List.filter (shown options (nodes s)) (children t))).
    { apply List.Forall_forall. intros i Hi. apply List.filter_In in Hi as [Hi _].
      eapply List.Forall_forall in Hheap; eassumption. }
    symmetry. apply (sort_ext (fun i => is_Some (nodes s !! i))); [|exact Hin].
    intros a b [xa Ha] [xb Hb]. unfold key_of. rewrite Ha, Hb. reflexivity.
  - destruct (opt_sort options); [apply sort_perm|reflexivity].
  - intros ->. reflexivity.
  - intros -> Htot Htrans. unfold sorted.
    apply (sort_sorted (fun a b => le (key_of (nodes s) a) (key_of (nodes s) b))).
    + intros a b. apply Htot.
    + intros a b c. apply Htrans.
Qed.

Lemma ls_lists_the_children_witness :
  consistent example_fs /\
  exists l,
    ls 8 String.leb "/" (mkLs false false true true) example_fs = Ok l example_fs /\
    l ≡ₚ [1; 3].
Proof.
  split; [exact example_fs_well_formed|].
  destruct (ls_lists_the_children 8 String.leb "/" (mkLs false false true true)
              example_fs example_fs 0 _ example_fs_well_formed eq_refl eq_refl eq_refl)
    as (l & H1 & H2 & _).
  exists l. split; [exact H1|exact H2].
Defined.


(** ** [find] *)

Lemma filter_none {A} (P : A -> bool) l :
  (forall x, x ∈ l -> P x = false) -> List.filter P l = [].
Proof.
  induction l as [|y l IH]; intros H; [reflexivity|]. cbn [List.filter].
  rewrite (H y) by constructor. apply IH. intros x Hx. apply H. constructor. exact Hx.
Qed.

Lemma filter_only (P : id -> bool) l c :
  NoDup l -> c ∈ l -> (forall x, x ∈ l -> P x = true <-> x = c) ->
  List.filter P l = [c].
Proof.
  induction l as [|y l IH]; intros Hnd Hc H; [inversion Hc|].
  apply NoDup_cons in Hnd as [Hy Hnd]. cbn [List.filter].
  destruct (decide (y = c)) as [->|Hne].
  - destruct (H c) as [_ E]; [constructor|]. rewrite E by reflexivity. f_equal.
    apply filter_none. intros x Hx. destruct (P x) eqn:Ex; [|reflexivity].
    apply H in Ex; [|constructor; exact Hx]. congruence.
  - destruct (P y) eqn:E; [apply H in E; [contradiction|constructor]|].
    apply elem_of_cons in Hc as [Hc|Hc]; [congruence|].
    apply IH; [exact Hnd|exact Hc|]. intros x Hx. apply H. constructor. exact Hx.
Qed.

(** [find] answers the children of the node whose key passes the test of
    the pattern, in the order of the children: the lookup in the name
    index for a pattern without [*] and [.] and the filter over the
    children array for any other pattern agree. *)
Theorem find_lists_matching_children (pattern : string) (n : id) (t : TreeNode)
    (s : vfs) :
  consistent s ->
  nodes s !! n = Some t ->
  modelled pattern = true ->
  NodeQuery.find pattern n s
    = Ok (List.filter (key_matches pattern (nodes s)) (children t)) s.
Proof.
  intros (Hnd & Hmap & Hchild & _) Hn Hm. unfold NodeQuery.find.
  destruct (negb (contains_char star pattern) && negb (contains_char dot pattern)) eqn:Hlit.
  - (* the name index *)
    unfold bind. rewrite (findChild_run n pattern t s Hn). unfold ret. f_equal.
    assert (Hkey : forall x, x ∈ children t ->
              key_matches pattern (nodes s) x = true <->
              map_get pattern (_childrenMap t) = Some x).
    { intros x Hx. rewrite (Hmap n t pattern x Hn).
      destruct (Hchild n t x Hn Hx) as (tx & Htx & _).
      unfold key_matches, matches_key. rewrite Htx, Hlit. split.
      - intros E. apply String.eqb_eq in E. eauto.
      - intros (_ & tx' & Htx' & E). apply String.eqb_eq. congruence. }
    destruct (map_get pattern (_childrenMap t)) as [c|] eqn:Hget.
    + symmetry. apply filter_only; [eapply Hnd, Hn| |].
      * apply (Hmap n t pattern c Hn) in Hget. tauto.
      * intros x Hx. rewrite (Hkey x Hx). split; congruence.
    + symmetry. apply filter_none. intros x Hx.
      destruct (key_matches pattern (nodes s) x) eqn:E; [|reflexivity].
      apply (Hkey x Hx) in E. discriminate.
  - (* the filter *)
    unfold modelled, literal in Hm. rewrite Hlit in Hm. cbn [orb] in Hm.
    destruct (compile pattern) as [re|] eqn:Hre; [|discriminate].
    unfold bind at 1. rewrite (deref_ok n t s Hn).
    assert (Hheap : Forall (fun i => is_Some (nodes s !! i)) (children t)).
    { apply Forall_forall. intros c Hc.
      destruct (Hchild n t c Hn Hc) as (nc & Hnc & _). rewrite Hnc. eauto. }
    induction Hheap as [|c l [tc Htc] _ IH]; [reflexivity|].
    lazy beta iota fix. fold (@List.filter id).
    unfold bind at 1. rewrite (deref_ok c tc s Htc).
    unfold bind at 1. rewrite IH. unfold ret. cbn [List.filter].
    assert (E : key_matches pattern (nodes s) c = accepts re (key tc))
      by (unfold key_matches, matches_key; rewrite Htc, Hlit, Hre; reflexivity).
    rewrite E. reflexivity.
Qed.

Lemma find_lists_matching_children_witness :
  consistent example_fs /\
  NodeQuery.find "a" 0 example_fs = Ok [1] example_fs /\
  NodeQuery.find "*" 0 example_fs = Ok [1; 3; 4] example_fs.
Proof.
  split; [exact example_fs_well_formed|]. split.
  - exact (find_lists_matching_children "a" 0 _ example_fs example_fs_well_formed
             eq_refl eq_refl).
  - exact (find_lists_matching_children "*" 0 _ example_fs example_fs_well_formed
             eq_refl eq_refl).
Defined.


(** ** Paths of a node *)

Lemma lineage_inv fuel : forall h n l,
  lineage fuel h n = Some l ->
  exists t, h !! n = Some t /\
    match parent t with
    | None => l = [n]
    | Some p => exists f l', fuel = S f /\ lineage f h p = Some l' /\ l = l' ++ [n]
    end.
Proof.
  destruct fuel as [|f]; intros h n l H; [discriminate|]. cbn [lineage] in H.
  destruct (h !! n) as [t|]; [|discriminate]. exists t. split; [reflexivity|].
  destruct (parent t) as [p|]; [|congruence].
  destruct (lineage f h p) as [l'|] eqn:E; [|discriminate].
  injection H as <-. eauto.
Qed.

Lemma lineage_top fuel : forall h n r rest,
  lineage fuel h n = Some (r :: rest) ->
  exists tr, h !! r = Some tr /\ parent tr = None.
Proof.
  induction fuel as [|f IH]; intros h n r rest H; [discriminate|].
  destruct (lineage_inv _ _ _ _ H) as (t & Ht & Hp).
  destruct (parent t) as [p|] eqn:Hpar.
  - destruct Hp as (f' & l' & [= <-] & Hl & E).
    destruct l' as [|r' l'']; [destruct (lineage_inv _ _ _ _ Hl) as (t' & _ & Hx);
      destruct (parent t'); [destruct Hx as (?&l0&_&_&Hx); destruct l0; discriminate
                            |discriminate]|].
    injection E as <- _. eapply IH, Hl.
  - injection Hp as <- _. eauto.
Qed.

Lemma getPath_loop_lineage depth : forall s n l fuel path,
  lineage depth (nodes s) n = Some l ->
  length l <= fuel ->
  NodeQuery.getPath_loop fuel path (Some n) s
    = Ok (List.map (key_of (nodes s)) l ++ path) s.
Proof.
  induction depth as [|d IH]; intros s n l fuel path H Hfuel; [discriminate|].
  destruct (lineage_inv _ _ _ _ H) as (t & Ht & Hp).
  assert (Ek : key_of (nodes s) n = key t) by (unfold key_of; rewrite Ht; reflexivity).
  destruct fuel as [|f]; [destruct l; [destruct (parent t); [destruct Hp as (?&l0&_&_&Hp);
    destruct l0|]; discriminate|cbn in Hfuel; lia]|].
  cbn [NodeQuery.getPath_loop]. unfold bind at 1. rewrite (deref_ok _ _ _ Ht).
  destruct (parent t) as [p|] eqn:Hpar.
  - destruct Hp as (f' & l' & [= <-] & Hl & ->).
    rewrite length_app in Hfuel. cbn in Hfuel.
    rewrite (IH s p l' f _ Hl) by lia.
    rewrite List.map_app, <- app_assoc. cbn [List.map app]. rewrite Ek. reflexivity.
  - subst l. cbn [List.map app]. rewrite Ek. destruct f; reflexivity.
Qed.

Lemma getDepth_loop_lineage depth : forall s n l fuel k,
  lineage depth (nodes s) n = Some l ->
  length l <= fuel ->
  NodeQuery.getDepth_loop fuel k (Some n) s = Ok (k + length l) s.
Proof.
  induction depth as [|d IH]; intros s n l fuel k H Hfuel; [discriminate|].
  destruct (lineage_inv _ _ _ _ H) as (t & Ht & Hp).
  destruct fuel as [|f]; [destruct l; [destruct (parent t); [destruct Hp as (?&l0&_&_&Hp);
    destruct l0|]; discriminate|cbn in Hfuel; lia]|].
  cbn [NodeQuery.getDepth_loop]. unfold bind at 1. rewrite (deref_ok _ _ _ Ht).
  destruct (parent t) as [p|] eqn:Hpar.
  - destruct Hp as (f' & l' & [= <-] & Hl & ->).
    rewrite length_app in Hfuel |- *. cbn in Hfuel |- *.
    rewrite (IH s p l' f _ Hl) by lia. f_equal. lia.
  - subst l. destruct f; cbn; unfold ret; f_equal; lia.
Qed.

Lemma path_up_lineage depth : forall s n r rest fuel acc,
  root s = Some r ->
  lineage depth (nodes s) n = Some (r :: rest) ->
  length rest <= fuel ->
  path_up fuel (Some n) acc s = Ok (List.map (key_of (nodes s)) rest ++ acc) s.
Proof.
  induction depth as [|d IH]; intros s n r rest fuel acc Hr H Hfuel; [discriminate|].
  destruct (lineage_top _ _ _ _ _ H) as (tr & Htr & Hptr).
  destruct (lineage_inv _ _ _ _ H) as (t & Ht & Hp).
  assert (Ek : key_of (nodes s) n = key t) by (unfold key_of; rewrite Ht; reflexivity).
  destruct (parent t) as [p|] eqn:Hpar.
  - destruct Hp as (f' & l' & [= <-] & Hl & E).
    destruct l' as [|r' l''].
    { destruct (lineage_inv _ _ _ _ Hl) as (t' & _ & Hx).
      destruct (parent t'); [destruct Hx as (?&l0&_&_&Hx); destruct l0|]; discriminate. }
    injection E as <- ->.
    assert (Hne : Some n <> root s).
    { rewrite Hr. intros [= ->]. congruence. }
    rewrite length_app in Hfuel. cbn in Hfuel.
    destruct fuel as [|f]; [lia|]. cbn [path_up]. unfold bind at 1, get_state.
    destruct (decide (Some n = root s)); [contradiction|].
    unfold bind at 1. rewrite (deref_ok _ _ _ Ht). rewrite Hpar.
    rewrite (IH s p r l'' f _ Hr Hl) by lia.
    rewrite List.map_app, <- app_assoc. cbn [List.map app]. rewrite Ek. reflexivity.
  - injection Hp as -> ->. rewrite (path_up_root _ _ _ _ Hr). reflexivity.
Qed.

(** For a node under the root of the tree, whose root bears the key [~]
    or the empty key, [getAbsolutePath] of the node and [_absolute_path] of
    the engine answer the same string: a slash followed by the keys from
    below the root down to the node, joined by slashes.  [getDepth] is the
    number of those keys. *)
Theorem absolute_paths_agree (fuel depth : nat) (s : vfs) (n r : id) (tr : TreeNode)
    (rest : list id) :
  root s = Some r ->
  nodes s !! r = Some tr ->
  key tr = "~" \/ key tr = "" ->
  lineage depth (nodes s) n = Some (r :: rest) ->
  length rest < fuel ->
  NodeQuery.getAbsolutePath fuel "/" n s
    = Ok (canonical (List.map (key_of (nodes s)) rest)) s /\
  _absolute_path fuel (Some n) s = Ok (canonical (List.map (key_of (nodes s)) rest)) s /\
  NodeQuery.getDepth fuel n s = Ok (length rest) s.
Proof.
  intros Hr Htr Hkey Hl Hfuel. split; [|split].
  - assert (Hpath : NodeQuery.getPath fuel n s
                    = Ok (key tr :: List.map (key_of (nodes s)) rest) s).
    { unfold NodeQuery.getPath.
      rewrite (getPath_loop_lineage depth s n (r :: rest) fuel [] Hl) by (cbn; lia).
      rewrite app_nil_r. cbn [List.map]. unfold key_of at 1. rewrite Htr. reflexivity. }
    assert (E : String.eqb (key tr) "~" || String.eqb (key tr) "" = true)
      by (destruct Hkey as [-> | ->]; reflexivity).
    unfold NodeQuery.getAbsolutePath, bind. rewrite Hpath. cbv beta iota zeta.
    rewrite E. unfold ret. f_equal.
    destruct (List.map (key_of (nodes s)) rest) as [|x l]; [reflexivity|].
    rewrite join_empty_head. unfold str_or, canonical. reflexivity.
  - unfold _absolute_path, bind.
    rewrite (path_up_lineage depth s n r rest fuel [] Hr Hl) by lia.
    rewrite app_nil_r. reflexivity.
  - unfold NodeQuery.getDepth.
    destruct (lineage_inv _ _ _ _ Hl) as (t & Ht & Hp).
    unfold bind. rewrite (deref_ok _ _ _ Ht).
    destruct (parent t) as [p|] eqn:Hpar.
    + destruct Hp as (f' & l' & -> & Hl' & E).
      assert (Hlen : length l' = length rest).
      { apply (f_equal (@length id)) in E. rewrite length_app in E. cbn in E. lia. }
      rewrite (getDepth_loop_lineage f' s p l' fuel 0 Hl') by lia.
      rewrite Hlen. reflexivity.
    + injection Hp as _ ->. destruct fuel; reflexivity.
Qed.

Lemma absolute_paths_agree_witness :
  NodeQuery.getAbsolutePath 3 "/" 2 example_fs = Ok "/a/b" example_fs /\
  _absolute_path 3 (Some 2) example_fs = Ok "/a/b" example_fs /\
  NodeQuery.getDepth 3 2 example_fs = Ok 2 example_fs.
Proof.
  exact (absolute_paths_agree 3 3 example_fs 2 0 _ [1; 2] eq_refl eq_refl
           (or_introl eq_refl) eq_refl (Nat.lt_succ_diag_r 2)).
Defined.


(** ** Traversal by levels *)

Section BreadthFirst.
Context {A : Type} (cb : id -> A -> M A).
Hypothesis cb_pure : forall n acc, pure_command (cb n acc).

(** The loop of [traverseBFS] works off the nodes at the front of the
    queue and leaves their children at its end. *)
Lemma traverseBFS_loop_level s : forall l cs,
  next_generation (nodes s) l = Some cs ->
  forall k q acc,
  TreeQuery.traverseBFS_loop (length l + k) cb (l ++ q) acc s =
  (a <- visit cb l acc ;; TreeQuery.traverseBFS_loop k cb (q ++ cs) a) s.
Proof.
  induction l as [|x l IH]; intros cs H k q acc.
  - injection H as <-. rewrite app_nil_r. reflexivity.
  - cbn [next_generation] in H.
    destruct (nodes s !! x) as [t|] eqn:Ht; [|discriminate].
    destruct (next_generation (nodes s) l) as [cs'|] eqn:Hcs; [|discriminate].
    injection H as <-.
    cbn [length Nat.add app TreeQuery.traverseBFS_loop visit].
    rewrite bind_assoc. apply bind_congr. intros a s1 Hcb.
    assert (s1 = s) as -> by (eapply pure_result; [apply cb_pure|exact Hcb]).
    unfold bind at 1. rewrite (deref_ok _ _ _ Ht).
    rewrite <- app_assoc, (IH cs' eq_refl), app_assoc. reflexivity.
Qed.

Lemma traverseBFS_loop_generations s depth : forall l g,
  generations depth (nodes s) l = Some g ->
  forall k acc,
  TreeQuery.traverseBFS_loop (length (concat g) + k) cb l acc s
    = visit cb (concat g) acc s.
Proof.
  induction depth as [|d IH]; intros l g H k acc.
  - destruct l; [|discriminate]. injection H as <-. destruct k; reflexivity.
  - destruct l as [|x l]; [injection H as <-; destruct k; reflexivity|].
    cbn [generations] in H.
    destruct (next_generation (nodes s) (x :: l)) as [cs|] eqn:Hcs; [|discriminate].
    destruct (generations d (nodes s) cs) as [g'|] eqn:Hg; [|discriminate].
    injection H as <-. cbn [concat]. rewrite length_app, <- Nat.add_assoc.
    pose proof (traverseBFS_loop_level s (x :: l) cs Hcs (length (concat g') + k) [] acc)
      as Hlevel.
    rewrite app_nil_r in Hlevel. change ([] ++ cs) with cs in Hlevel.
    rewrite Hlevel, visit_app. apply bind_congr. intros a s1 Hv.
    assert (s1 = s) as -> by (eapply pure_result; [apply visit_pure, cb_pure|exact Hv]).
    apply (IH cs g' Hg).
Qed.
End BreadthFirst.

Lemma push_level_next level node (levels : list (list id)) s :
  length levels = level ->
  TreeQuery.push_level level node levels s = Ok (levels ++ [[node]]) s.
Proof.
  intros <-. unfold TreeQuery.push_level.
  rewrite (lookup_ge_None_2 levels (length levels)) by lia.
  rewrite Nat.eqb_refl. reflexivity.
Qed.

Lemma push_level_open (levels : list (list id)) cur node s :
  TreeQuery.push_level (length levels) node (levels ++ [cur]) s
    = Ok (levels ++ [cur ++ [node]]) s.
Proof.
  unfold TreeQuery.push_level.
  rewrite lookup_app_r by lia. rewrite Nat.sub_diag. cbn [lookup list_lookup].
  unfold ret. f_equal. rewrite insert_app_r_alt by lia. rewrite Nat.sub_diag. reflexivity.
Qed.

(** The loop of [getLevels] adds the nodes at the front of the queue to
    the level that is open and queues their children for the next. *)
Lemma getLevels_loop_level s : forall l cs,
  next_generation (nodes s) l = Some cs ->
  forall k q levels cur,
  TreeQuery.getLevels_loop (length l + k)
    (List.map (fun c => (c, length levels)) l ++ q) (levels ++ [cur]) s =
  TreeQuery.getLevels_loop k
    (q ++ List.map (fun c => (c, S (length levels))) cs) (levels ++ [cur ++ l]) s.
Proof.
  induction l as [|x l IH]; intros cs H k q levels cur.
  - injection H as <-. cbn. rewrite !app_nil_r. reflexivity.
  - cbn [next_generation] in H.
    destruct (nodes s !! x) as [t|] eqn:Ht; [|discriminate].
    destruct (next_generation (nodes s) l) as [cs'|] eqn:Hcs; [|discriminate].
    injection H as <-.
    cbn [length Nat.add app List.map TreeQuery.getLevels_loop].
    unfold bind at 1. rewrite push_level_open.
    unfold bind at 1. rewrite (deref_ok _ _ _ Ht).
    rewrite <- app_assoc, (IH cs' eq_refl).
    rewrite List.map_app, <- !app_assoc. reflexivity.
Qed.

Lemma getLevels_loop_generations s depth : forall l g,
  generations depth (nodes s) l = Some g ->
  forall k levels,
  TreeQuery.getLevels_loop (length (concat g) + k)
    (List.map (fun c => (c, length levels)) l) levels s
    = Ok (levels ++ g) s.
Proof.
  induction depth as [|d IH]; intros l g H k levels.
  - destruct l; [|discriminate]. injection H as <-. rewrite app_nil_r.
    destruct k; reflexivity.
  - destruct l as [|x l]; [injection H as <-; rewrite app_nil_r; destruct k; reflexivity|].
    pose proof H as H0. cbn [generations] in H.
    destruct (next_generation (nodes s) (x :: l)) as [cs|] eqn:Hcs; [|discriminate].
    destruct (generations d (nodes s) cs) as [g'|] eqn:Hg; [|discriminate].
    injection H as <-. clear H0.
    cbn [next_generation] in Hcs.
    destruct (nodes s !! x) as [t|] eqn:Ht; [|discriminate].
    destruct (next_generation (nodes s) l) as [cs'|] eqn:Hcs'; [|discriminate].
    injection Hcs as <-.
    cbn [concat length app Nat.add List.map TreeQuery.getLevels_loop].
    unfold bind at 1. rewrite (push_level_next _ _ _ _ eq_refl).
    unfold bind at 1. rewrite (deref_ok _ _ _ Ht).
    rewrite length_app, <- Nat.add_assoc.
    rewrite (getLevels_loop_level s l cs' Hcs' _ _ levels [x]).
    rewrite <- List.map_app.
    replace (S (length levels)) with (length (levels ++ [[x] ++ l]))
      by (rewrite length_app; cbn; lia).
    rewrite (IH _ g' Hg). rewrite <- app_assoc. reflexivity.
Qed.

(** [getLevels] answers the generations of the tree: the root, its
    children, their children and so on, each level in the order of the
    parents and, under one parent, of its children.  [traverseBFS] hands the
    callback exactly these nodes, level after level, provided the callback
    leaves the state alone. *)
Theorem levels_are_generations {A} (fuel depth : nat) (cb : id -> A -> M A) (acc : A)
    (s : vfs) (r : id) (g : list (list id)) :
  (forall n a, pure_command (cb n a)) ->
  root s = Some r ->
  generations depth (nodes s) [r] = Some g ->
  length (concat g) <= fuel ->
  TreeQuery.getLevels fuel s = Ok g s /\
  TreeQuery.traverseBFS fuel cb acc s = visit cb (concat g) acc s.
Proof.
  intros Hpure Hr Hg Hfuel.
  replace fuel with (length (concat g) + (fuel - length (concat g))) by lia.
  split.
  - unfold TreeQuery.getLevels. unfold bind at 1, get_state. rewrite Hr.
    apply (getLevels_loop_generations s depth [r] g Hg _ []).
  - unfold TreeQuery.traverseBFS. unfold bind at 1, get_state. rewrite Hr.
    apply (traverseBFS_loop_generations cb Hpure s depth [r] g Hg).
Qed.

Lemma levels_are_generations_witness :
  (forall n a, pure_command (collect n a)) /\
  TreeQuery.getLevels 5 example_fs = Ok [[0]; [1; 3; 4]; [2]] example_fs /\
  TreeQuery.traverseBFS 5 collect [] example_fs
    = visit collect [0; 1; 3; 4; 2] [] example_fs.
Proof.
  assert (H1 : forall n a, pure_command (collect n a)) by (intros n a s; reflexivity).
  split; [exact H1|].
  exact (levels_are_generations 5 3 collect [] example_fs 0 [[0]; [1; 3; 4]; [2]]
           H1 eq_refl eq_refl (le_n 5)).
Defined.

(** *** Breadth first and depth first *)

Lemma subtrees_next_generation d (h : heap) : forall l os,
  Forall2 (fun c o => subtree (S d) h c = Some o) l os ->
  exists cs oss,
    next_generation h l = Some cs /\
    Forall2 (fun c o => subtree d h c = Some o) cs oss /\
    concat os ≡ₚ l ++ concat oss.
Proof.
  induction 1 as [|c o l os Hc _ IH].
  - exists [], []. split; [reflexivity|]. split; [constructor|reflexivity].
  - destruct IH as (cs' & oss' & Hcs & Hoss & Hperm).
    destruct (subtree_node _ _ _ _ Hc) as (t & osc & Ht & Hosc & ->).
    exists (children t ++ cs'), (osc ++ oss'). split; [|split].
    + cbn [next_generation]. rewrite Ht, Hcs. reflexivity.
    + apply Forall2_app; assumption.
    + cbn [concat app]. rewrite concat_app, Hperm. constructor.
      rewrite !app_assoc. apply Permutation_app_tail, Permutation_app_comm.
Qed.

Lemma subtrees_generations (h : heap) : forall d l os,
  Forall2 (fun c o => subtree d h c = Some o) l os ->
  exists g, generations d h l = Some g /\ concat g ≡ₚ concat os.
Proof.
  induction d as [|d IH]; intros l os H.
  - destruct H as [|c o l os Hc _]; [|discriminate].
    exists []. split; reflexivity.
  - destruct (subtrees_next_generation d h l os H) as (cs & oss & Hcs & Hoss & Hperm).
    destruct (IH cs oss Hoss) as (g & Hg & Hpg).
    destruct l as [|x l].
    + destruct os; [|inversion H]. exists []. split; reflexivity.
    + exists ((x :: l) :: g). split.
      * cbn [generations]. rewrite Hcs, Hg. reflexivity.
      * cbn [concat]. rewrite Hperm, Hpg. reflexivity.
Qed.

(** [traverseBFS] and [traverseDFS] visit the same nodes, each once: the
    order of the one is a rearrangement of the order of the other. *)
Theorem traversals_visit_the_same_nodes (fuel depth : nat) (s : vfs) (r : id)
    (order : list id) :
  root s = Some r ->
  subtree depth (nodes s) r = Some order ->
  length order <= fuel ->
  exists bfs,
    TreeQuery.traverseBFS fuel collect [] s = Ok bfs s /\
    TreeQuery.traverseDFS fuel collect [] s = Ok order s /\
    bfs ≡ₚ order.
Proof.
  intros Hr Hsub Hfuel.
  assert (Hpure : forall n a, pure_command (collect n a)) by (intros n a s0; reflexivity).
  assert (E : forall l acc, visit collect l acc s = Ok (acc ++ l) s).
  { induction l as [|x l IHl]; intros acc; cbn [visit].
    - rewrite app_nil_r. reflexivity.
    - unfold bind, collect, ret. rewrite IHl, <- app_assoc. reflexivity. }
  destruct (subtrees_generations (nodes s) depth [r] [order]) as (g & Hg & Hperm).
  { constructor; [exact Hsub|constructor]. }
  cbn [concat] in Hperm. rewrite app_nil_r in Hperm.
  assert (Hlen : length (concat g) = length order) by (rewrite Hperm; reflexivity).
  exists (concat g). split; [|split; [|exact Hperm]].
  - unfold TreeQuery.traverseBFS. unfold bind at 1, get_state. rewrite Hr.
    replace fuel with (length (concat g) + (fuel - length (concat g))) by lia.
    rewrite (traverseBFS_loop_generations collect Hpure s depth [r] g Hg). apply E.
  - unfold TreeQuery.traverseDFS. unfold bind at 1, get_state. rewrite Hr.
    pose proof (traverseDFS_loop_subtree collect Hpure _ _ _ _ Hsub
                  (fuel - length order) [] []) as Hloop.
    replace (length order + (fuel - length order)) with fuel in Hloop by lia.
    rewrite Hloop. unfold bind. rewrite E. destruct (fuel - length order); reflexivity.
Qed.

Lemma traversals_visit_the_same_nodes_witness :
  exists bfs,
    TreeQuery.traverseBFS 5 collect [] example_fs = Ok bfs example_fs /\
    TreeQuery.traverseDFS 5 collect [] example_fs = Ok [0; 1; 2; 3; 4] example_fs /\
    bfs ≡ₚ [0; 1; 2; 3; 4].
Proof.
  exact (traversals_visit_the_same_nodes 5 3 example_fs 0 [0; 1; 2; 3; 4]
           eq_refl eq_refl (le_n 5)).
Defined.


(** ** Statistics *)

Lemma lineage_length fuel : forall h n l,
  lineage fuel h n = Some l -> 1 <= length l <= fuel.
Proof.
  induction fuel as [|f IH]; intros h n l H; [discriminate|].
  destruct (lineage_inv _ _ _ _ H) as (t & Ht & Hp).
  destruct (parent t) as [p|].
  - destruct Hp as (f' & l' & [= <-] & Hl & ->). apply IH in Hl.
    rewrite length_app. cbn. lia.
  - subst l. cbn. lia.
Qed.

(** The fuel plays no part once it covers the chain. *)
Lemma lineage_enough fuel : forall h n l j,
  lineage fuel h n = Some l -> length l <= j -> lineage j h n = Some l.
Proof.
  induction fuel as [|f IH]; intros h n l j H Hj; [discriminate|].
  destruct (lineage_inv _ _ _ _ H) as (t & Ht & Hp).
  destruct j as [|j]; [apply lineage_length in H; lia|].
  cbn [lineage]. rewrite Ht.
  destruct (parent t) as [p|].
  - destruct Hp as (f' & l' & [= <-] & Hl & ->).
    rewrite length_app in Hj. cbn in Hj.
    rewrite (IH h p l' j Hl) by lia. reflexivity.
  - subst l. reflexivity.
Qed.

Lemma lineage_child k (h : heap) x lx c tc :
  lineage k h x = Some lx -> h !! c = Some tc -> parent tc = Some x ->
  lineage (S k) h c = Some (lx ++ [c]).
Proof. intros Hx Hc Hp. cbn [lineage]. rewrite Hc, Hp, Hx. reflexivity. Qed.

(** In a consistent store every node of a subtree has its parent chain
    through the root of the subtree. *)
Lemma subtree_lineage (h : heap) : well_formed h ->
  forall d x order k lx,
  subtree d h x = Some order -> lineage k h x = Some lx ->
  forall n, n ∈ order ->
  exists l, lineage (k + d) h n = Some l /\ length l < length lx + d.
Proof.
  intros (_ & _ & Hchild & _).
  induction d as [|d IH]; intros x order k lx Hsub Hlx n Hn; [discriminate|].
  destruct (subtree_node _ _ _ _ Hsub) as (t & os & Ht & Hos & ->).
  apply elem_of_cons in Hn as [->|Hn].
  { exists lx. split; [|lia]. eapply lineage_enough; [exact Hlx|].
    apply lineage_length in Hlx. lia. }
  assert (Hall : forall c, c ∈ children t ->
            exists tc, h !! c = Some tc /\ parent tc = Some x)
    by (intros c Hc; apply (Hchild x t c Ht Hc)).
  clear Ht Hsub. induction Hos as [|c o cs os' Hc _ IHos]; [inversion Hn|].
  cbn [concat] in Hn. apply elem_of_app in Hn as [Hn|Hn].
  - destruct (Hall c) as (tc & Htc & Hp); [constructor|].
    destruct (IH c o (S k) (lx ++ [c]) Hc (lineage_child _ _ _ _ _ _ Hlx Htc Hp) n Hn)
      as (l & Hl & Hlen).
    exists l. split; [|rewrite length_app in Hlen; cbn in Hlen; lia].
    replace (k + S d) with (S k + d) by lia. exact Hl.
  - apply IHos; [exact Hn|]. intros c' Hc'. apply Hall. constructor. exact Hc'.
Qed.

Lemma getDepth_lineage fuel depth s n l :
  lineage depth (nodes s) n = Some l -> length l <= S fuel ->
  NodeQuery.getDepth fuel n s = Ok (length l - 1) s.
Proof.
  intros Hl Hfuel. unfold NodeQuery.getDepth.
  destruct (lineage_inv _ _ _ _ Hl) as (t & Ht & Hp).
  unfold bind. rewrite (deref_ok _ _ _ Ht).
  destruct (parent t) as [p|] eqn:Hpar.
  - destruct Hp as (f' & l' & -> & Hl' & ->).
    rewrite length_app in Hfuel |- *. cbn in Hfuel |- *.
    rewrite (getDepth_loop_lineage f' s p l' fuel 0 Hl') by lia.
    f_equal. lia.
  - subst l. destruct fuel; reflexivity.
Qed.

Lemma pure_getDepth_loop fuel : forall k current,
  pure_command (NodeQuery.getDepth_loop fuel k current).
Proof.
  induction fuel as [|f IH]; intros k [c|]; cbn [NodeQuery.getDepth_loop]; is_pure.
Qed.

Lemma pure_count_node fuel n st : pure_command (TreeQuery.count_node fuel n st).
Proof.
  unfold TreeQuery.count_node, NodeQuery.getDepth. is_pure. apply pure_getDepth_loop.
Qed.

Lemma pure_size_or_zero v : pure_command (size_or_zero v).
Proof. unfold size_or_zero. is_pure. Qed.

Lemma pure_count_file n acc : pure_command (count_file n acc).
Proof.
  unfold count_file. destruct acc as [[total files] dirs]. is_pure.
  apply pure_size_or_zero.
Qed.

(** A callback that computes [f] on the listed nodes folds the list. *)
Lemma visit_fold {A} (cb : id -> A -> M A) (f : A -> id -> A) s : forall l acc,
  (forall n a, n ∈ l -> cb n a s = Ok (f a n) s) ->
  visit cb l acc s = Ok (fold_left f l acc) s.
Proof.
  induction l as [|x l IH]; intros acc H; [reflexivity|]. cbn [visit fold_left].
  unfold bind. rewrite (H x acc) by constructor.
  apply IH. intros n a Hn. apply H. constructor. exact Hn.
Qed.

Lemma count_step_fold depth (h : heap) : forall l st,
  let st' := fold_left (count_step depth h) l st in
  TreeQuery.nodeCount st' = TreeQuery.nodeCount st + length l /\
  TreeQuery.leafCount st' = TreeQuery.leafCount st + length (List.filter (is_leaf h) l) /\
  TreeQuery.maxDepth st'
    = Nat.max (TreeQuery.maxDepth st) (list_max (List.map (node_depth depth h) l)).
Proof.
  induction l as [|x l IH]; intros st; cbn [fold_left].
  - cbn. repeat split; lia.
  - destruct (IH (count_step depth h st x)) as (H1 & H2 & H3). cbv zeta.
    rewrite H1, H2, H3. cbn [count_step TreeQuery.nodeCount TreeQuery.leafCount
      TreeQuery.maxDepth List.filter List.map list_max length].
    split; [lia|]. split; [destruct (is_leaf h x); cbn [length]; lia|].
    unfold list_max. cbn [fold_right]. lia.
Qed.

Lemma file_step_fold (h : heap) : forall l total files dirs,
  fold_left (file_step h) l (total, files, dirs) =
  (total + list_sum (List.map (file_size h) l),
   files + length (List.filter (has_type "file" h) l),
   dirs + length (List.filter (has_type "dir" h) l)).
Proof.
  induction l as [|x l IH]; intros total files dirs; cbn [fold_left].
  - cbn. apply pair_equal_spec; split; [apply pair_equal_spec; split|]; lia.
  - cbn [file_step]. rewrite IH.
    cbn [List.map list_sum fold_right List.filter].
    destruct (has_type "file" h x), (has_type "dir" h x); cbn [length];
      (apply pair_equal_spec; split; [apply pair_equal_spec; split|]);
      unfold list_sum; lia.
Qed.

Lemma count_file_run (s : vfs) n acc t :
  nodes s !! n = Some t -> sized (nodes s) n = true ->
  count_file n acc s = Ok (file_step (nodes s) acc n) s.
Proof.
  intros Ht Hsized. destruct acc as [[total files] dirs].
  unfold count_file, file_step, file_size, has_type, sized in *. rewrite Ht in *.
  unfold bind at 1. rewrite (deref_ok _ _ _ Ht).
  destruct (is_str (prop "type" t) "file") eqn:Hfile.
  - assert (Hdir : is_str (prop "type" t) "dir" = false).
    { destruct (prop "type" t); try discriminate. cbn in Hfile |- *.
      apply String.eqb_eq in Hfile. subst. reflexivity. }
    rewrite Hdir. cbn [negb orb] in Hsized.
    unfold size_or_zero, bind, ret.
    destruct (prop "size" t) as [| |[]|[]|[]| |]; cbn in Hsized |- *;
      try discriminate; rewrite ?Nat.add_0_r; reflexivity.
  - rewrite Nat.add_0_r. destruct (is_str (prop "type" t) "dir"); reflexivity.
Qed.

(** The answer of [getStats], as two folds over the nodes in document
    order. *)
Lemma getStats_run (fuel depth : nat) (s : vfs) (r : id) (tr : TreeNode)
    (order : list id) :
  consistent s ->
  root s = Some r -> nodes s !! r = Some tr -> parent tr = None ->
  subtree depth (nodes s) r = Some order ->
  length order <= fuel -> depth <= S fuel ->
  forallb (sized (nodes s)) order = true ->
  getStats fuel s =
  Ok (mkFsStats
        (fold_left (count_step depth (nodes s)) order (TreeQuery.mkStats 0 0 0))
        (0 + list_sum (List.map (file_size (nodes s)) order))
        (0 + length (List.filter (has_type "file" (nodes s)) order))
        (0 + length (List.filter (has_type "dir" (nodes s)) order))
        (map_size (_pathCache s))) s.
Proof.
  intros Hwf Hr Htr Hptr Hsub Hfuel Hdepth Hsized.
  assert (Hroot : lineage 1 (nodes s) r = Some [r])
    by (cbn [lineage]; rewrite Htr, Hptr; reflexivity).
  assert (Hlin : forall n, n ∈ order ->
            exists l t, lineage depth (nodes s) n = Some l /\ length l <= depth /\
                        nodes s !! n = Some t).
  { intros n Hn.
    destruct (subtree_lineage _ Hwf depth r order 1 [r] Hsub Hroot n Hn) as (l & Hl & Hlen).
    cbn [length] in Hlen. destruct (lineage_inv _ _ _ _ Hl) as (t & Ht & _).
    exists l, t. split; [|split; [lia|exact Ht]].
    eapply lineage_enough; [exact Hl|lia]. }
  assert (Hdfs : forall {A} (cb : id -> A -> M A) acc,
            (forall n a, pure_command (cb n a)) ->
            TreeQuery.traverseDFS fuel cb acc s = visit cb order acc s).
  { intros A cb acc Hpure. unfold TreeQuery.traverseDFS.
    unfold bind at 1, get_state. rewrite Hr.
    pose proof (traverseDFS_loop_subtree cb Hpure _ _ _ _ Hsub
                  (fuel - length order) [] acc) as Hloop.
    replace (length order + (fuel - length order)) with fuel in Hloop by lia.
    rewrite Hloop. unfold bind. destruct (visit cb order acc s); try reflexivity.
    destruct (fuel - length order); reflexivity. }
  assert (Htree : TreeQuery.getStats fuel s
                  = Ok (fold_left (count_step depth (nodes s)) order
                          (TreeQuery.mkStats 0 0 0)) s).
  { unfold TreeQuery.getStats. unfold bind at 1, get_state. rewrite Hr.
    rewrite Hdfs by (intros; apply pure_count_node).
    apply visit_fold. intros n a Hn. destruct (Hlin n Hn) as (l & t & Hl & Hlen & Ht).
    unfold TreeQuery.count_node, bind.
    rewrite (getDepth_lineage fuel depth s n l Hl) by lia.
    rewrite (deref_ok _ _ _ Ht). unfold ret, count_step, node_depth, is_leaf.
    rewrite Hl, Ht. reflexivity. }
  assert (Hfiles : TreeQuery.traverseDFS fuel count_file (0, 0, 0) s
                   = Ok (fold_left (file_step (nodes s)) order (0, 0, 0)) s).
  { rewrite Hdfs by (intros; apply pure_count_file).
    apply visit_fold. intros n a Hn. destruct (Hlin n Hn) as (l & t & _ & _ & Ht).
    apply (count_file_run s n a t Ht).
    rewrite forallb_forall in Hsized. apply Hsized, list_elem_of_In, Hn. }
  rewrite file_step_fold in Hfiles.
  unfold getStats. unfold bind at 1. rewrite Htree.
  unfold bind at 1. rewrite Hfiles. reflexivity.
Qed.




(** ** [clone] *)

Lemma record_at_each f (h : heap) (l : list id) chs :
  (fix each (l : list id) : option (list Tree.record) :=
     match l with
     | [] => Some []
     | c :: l' =>
         match record_at f h c, each l' with
         | Some r, Some rs => Some (r :: rs)
         | _, _ => None
         end
     end) l = Some chs ->
  Forall2 (fun c rc => record_at f h c = Some rc) l chs.
Proof.
  revert chs. induction l as [|c l IH]; intros chs H.
  - injection H as <-. constructor.
  - destruct (record_at f h c) as [r|] eqn:Er; [|discriminate].
    destruct ((fix each (l : list id) : option (list Tree.record) := _) l) as [rs|] eqn:E;
      [|discriminate].
    injection H as <-. constructor; [exact Er|]. apply IH. reflexivity.
Qed.

Lemma record_at_node f (h : heap) n r :
  record_at (S f) h n = Some r ->
  exists t chs, h !! n = Some t /\
                Forall2 (fun c rc => record_at f h c = Some rc) (children t) chs /\
                r = Tree.Rec (key t) (props t) chs.
Proof.
  cbn [record_at]. destruct (h !! n) as [t|]; [|discriminate].
  destruct ((fix each (l : list id) : option (list Tree.record) := _) (children t))
    as [chs|] eqn:E; [|discriminate].
  intros [= <-]. exists t, chs. split; [reflexivity|]. split; [|reflexivity].
  apply record_at_each, E.
Qed.

Lemma record_at_build f (h : heap) n t chs :
  h !! n = Some t ->
  Forall2 (fun c rc => record_at f h c = Some rc) (children t) chs ->
  record_at (S f) h n = Some (Tree.Rec (key t) (props t) chs).
Proof.
  intros Ht H. cbn [record_at]. rewrite Ht.
  assert (E : (fix each (l : list id) : option (list Tree.record) :=
                 match l with
                 | [] => Some []
                 | c :: l' =>
                     match record_at f h c, each l' with
                     | Some r, Some rs => Some (r :: rs)
                     | _, _ => None
                     end
                 end) (children t) = Some chs).
  { induction H as [|c rc cs rs Hc _ IH]; [reflexivity|]. rewrite Hc, IH. reflexivity. }
  rewrite E. reflexivity.
Qed.

(** Nodes added behind the store do not change what is read in it. *)
Lemma record_at_app f : forall (h ext : heap) n r,
  record_at f h n = Some r -> record_at f (h ++ ext) n = Some r.
Proof.
  induction f as [|f IH]; intros h ext n r H; [discriminate|].
  destruct (record_at_node _ _ _ _ H) as (t & chs & Ht & Hchs & ->).
  apply record_at_build; [apply lookup_app_l_Some, Ht|].
  eapply Forall2_impl; [exact Hchs|]. intros c rc Hc. apply IH, Hc.
Qed.

Lemma forest_length b : forall l c0, length (forest b c0 l) = rsizes l.
Proof.
  induction l as [|c l IH]; intros c0; [reflexivity|]. cbn [forest rsizes].
  rewrite length_app, layout_length, IH. reflexivity.
Qed.

Lemma child_ids_snoc c : forall l c0,
  child_ids c0 (l ++ [c]) = child_ids c0 l ++ [c0 + rsizes l].
Proof.
  induction l as [|x l IH]; intros c0; cbn [app child_ids rsizes].
  - rewrite Nat.add_0_r. reflexivity.
  - rewrite IH, Nat.add_assoc. reflexivity.
Qed.

Lemma child_map_snoc c : forall l m c0,
  child_map m c0 (l ++ [c]) = map_set (rkey c) (c0 + rsizes l) (child_map m c0 l).
Proof.
  induction l as [|x l IH]; intros m c0; cbn [app child_map rsizes].
  - rewrite Nat.add_0_r. reflexivity.
  - rewrite IH, Nat.add_assoc. reflexivity.
Qed.

Lemma forest_snoc b c : forall l c0,
  forest b c0 (l ++ [c]) = forest b c0 l ++ layout (c0 + rsizes l) (Some b) c.
Proof.
  induction l as [|x l IH]; intros c0; cbn [app forest rsizes].
  - rewrite Nat.add_0_r, app_nil_r. reflexivity.
  - rewrite IH, Nat.add_assoc, app_assoc. reflexivity.
Qed.

Lemma child_map_has k : forall l m c0,
  map_has k (child_map m c0 l) = map_has k m || existsb (String.eqb k) (List.map rkey l).
Proof.
  induction l as [|x l IH]; intros m c0; cbn [child_map List.map existsb].
  - rewrite orb_false_r. reflexivity.
  - rewrite IH, map_has_set. 
    destruct (String.eqb k (rkey x)), (map_has k m); reflexivity.
Qed.

Lemma distinct_app_cons pre x rest :
  distinct (pre ++ x :: rest) = true -> existsb (String.eqb x) pre = false.
Proof.
  induction pre as [|y pre IH]; [reflexivity|]. cbn [app distinct existsb].
  intros H. apply andb_true_iff in H as [Hy H]. rewrite (IH H), orb_false_r.
  apply negb_true_iff in Hy. rewrite existsb_app in Hy. cbn [existsb] in Hy.
  apply orb_false_elim in Hy as [_ Hy]. apply orb_false_elim in Hy as [Hy _].
  rewrite String.eqb_sym. exact Hy.
Qed.

Lemma alter_second (f : TreeNode -> TreeNode) (A : heap) x B y C i :
  length A + S (length B) = i ->
  alter f i (A ++ x :: B ++ y :: C) = A ++ x :: B ++ f y :: C.
Proof.
  intros <-.
  replace (A ++ x :: B ++ y :: C) with ((A ++ x :: B) ++ y :: C)
    by (rewrite <- app_assoc; reflexivity).
  rewrite alter_middle by (rewrite length_app; cbn [length]; lia).
  rewrite <- app_assoc. reflexivity.
Qed.

(** The store after [clone]: the nodes of the copy follow the old store in
    document order, the copy has no parent, and the old store is as it
    was. *)
Lemma clone_layout : forall r fuel depth s a,
  record_at depth (nodes s) a = Some r ->
  distinct_siblings r = true ->
  rdepth r <= fuel ->
  Node.clone fuel true a s
    = Ok (length (nodes s)) (set_nodes (nodes s ++ layout (length (nodes s)) None r) s).
Proof.
  induction r as [k properties chs IH] using record_induction.
  intros fuel depth s a Hrec Hd Hfuel.
  destruct depth as [|d]; [discriminate|].
  destruct (record_at_node _ _ _ _ Hrec) as (t & chs' & Ht & Hchs & E).
  injection E as -> -> <-.
  destruct fuel as [|f]; [cbn in Hfuel; lia|].
  cbn [rdepth] in Hfuel. apply le_S_n in Hfuel.
  cbn [distinct_siblings] in Hd. apply andb_true_iff in Hd as [Hdist Hall].
  set (b := length (nodes s)).
  set (inv := fun pre : list Tree.record =>
         set_nodes (nodes s ++
                    mkNode (key t) None (child_ids (S b) pre) (child_map [] (S b) pre)
                           (props t) :: forest b (S b) pre) s).
  assert (Hloop : forall cs rs,
            Forall2 (fun c rc => record_at d (nodes s) c = Some rc) cs rs ->
            Forall (fun r => forall fuel depth s a,
                      record_at depth (nodes s) a = Some r ->
                      distinct_siblings r = true -> rdepth r <= fuel ->
                      Node.clone fuel true a s
                        = Ok (length (nodes s))
                             (set_nodes (nodes s ++ layout (length (nodes s)) None r) s)) rs ->
            forall pre,
            distinct (List.map rkey (pre ++ rs)) = true ->
            (fix all (l : list Tree.record) : bool :=
               match l with
               | [] => true
               | c :: l' => distinct_siblings c && all l'
               end) rs = true ->
            (fix deepest (l : list Tree.record) : nat :=
               match l with
               | [] => 0
               | c :: l' => Nat.max (rdepth c) (deepest l')
               end) rs <= f ->
            (fix each (l : list id) : M unit :=
               match l with
               | [] => ret tt
               | c :: l' =>
                   c' <- Node.clone f true c ;;
                   Node.insert b c' ;;;
                   each l'
               end) cs (inv pre) = Ok tt (inv (pre ++ rs))).
  { clear Hchs IH Hdist Hall Hfuel Hrec.
    induction 1 as [|c rc cs rs Hc _ IHloop]; intros HP pre Hdist Hall Hdeep.
    - rewrite app_nil_r. reflexivity.
    - apply Forall_cons in HP as [HPrc HP].
      apply andb_true_iff in Hall as [Hrc Hall].
      assert (Hlen : length (nodes (inv pre)) = S b + rsizes pre).
      { unfold inv. cbn [nodes set_nodes]. rewrite length_app. cbn [length].
        rewrite forest_length. unfold b. lia. }
      unfold bind at 1.
      rewrite (HPrc f d (inv pre) c); [|apply record_at_app, Hc|exact Hrc|lia].
      rewrite Hlen.
      set (c0 := S b + rsizes pre).
      destruct rc as [kc pc chc]. rewrite layout_unfold.
      unfold bind at 1.
      erewrite insert_ok.
      2: { cbn [nodes set_nodes inv]. rewrite <- app_assoc. cbn [app].
           apply list_lookup_middle. reflexivity. }
      2: { cbn [nodes set_nodes inv]. apply list_lookup_middle.
           rewrite length_app. cbn [length]. rewrite forest_length. unfold c0, b. lia. }
      2: { cbn [_childrenMap key]. rewrite child_map_has. cbn [map_has map_get orb].
           rewrite List.map_app in Hdist. cbn [List.map] in Hdist.
           apply (distinct_app_cons _ _ _ Hdist). }
      cbn [key].
      replace (set_nodes _ _) with (inv (pre ++ [Tree.Rec kc pc chc])).
      { rewrite (IHloop HP (pre ++ [Tree.Rec kc pc chc])).
        - rewrite <- app_assoc. reflexivity.
        - rewrite <- app_assoc. exact Hdist.
        - exact Hall.
        - lia. }
      unfold inv. cbn [nodes set_nodes]. unfold set_nodes. cbn. f_equal.
      unfold inserted.
      rewrite child_ids_snoc, child_map_snoc, forest_snoc, layout_unfold.
      fold c0. cbn [rkey].
      rewrite <- !app_assoc. cbn [app].
      rewrite (alter_middle _ (nodes s) _ _ b eq_refl).
      rewrite (alter_middle _ (nodes s) _ _ b eq_refl).
      rewrite (alter_second _ (nodes s) _ (forest b (S b) pre))
        by (rewrite forest_length; unfold b; lia).
      reflexivity. }
  cbn [Node.clone].
  unfold bind at 1. rewrite (deref_ok _ _ _ Ht).
  unfold bind at 1. cbn [alloc]. fold b.
  unfold bind at 1.
  change (set_nodes (nodes s ++ [new_TreeNode (key t) (props t)]) s) with (inv []).
  rewrite (Hloop (children t) chs Hchs IH [] Hdist Hall Hfuel).
  cbn [app ret]. unfold inv. rewrite layout_unfold. reflexivity.
Qed.

Lemma record_at_depth f : forall (h : heap) n r, record_at f h n = Some r -> rdepth r <= f.
Proof.
  induction f as [|f IH]; intros h n r H; [discriminate|].
  destruct (record_at_node _ _ _ _ H) as (t & chs & _ & Hchs & ->).
  cbn [rdepth]. apply le_n_S. clear H.
  induction Hchs as [|c rc cs rs Hc _ IHl]; [lia|].
  apply IH in Hc. apply Nat.max_lub; assumption.
Qed.

(** Reading back the nodes a record tree was laid out in gives the
    record. *)
Lemma record_at_layout : forall r f b p (hpre hpost h : heap),
  h = hpre ++ layout b p r ++ hpost -> b = length hpre ->
  rdepth r <= f ->
  record_at f h b = Some r.
Proof.
  induction r as [k properties chs IH] using record_induction.
  intros f b p hpre hpost h Hh Hb Hf.
  destruct f as [|f]; [cbn in Hf; lia|].
  cbn [rdepth] in Hf. apply le_S_n in Hf.
  rewrite layout_unfold in Hh.
  assert (Hnode : h !! b = Some (mkNode k p (child_ids (S b) chs)
                                        (child_map [] (S b) chs) properties))
    by (rewrite Hh; cbn [app]; apply list_lookup_middle; exact Hb).
  apply (record_at_build f h b _ chs Hnode). cbn [children].
  assert (Hloop : forall l, Forall (fun r => forall f b p (hpre hpost h : heap),
              h = hpre ++ layout b p r ++ hpost -> b = length hpre ->
              rdepth r <= f -> record_at f h b = Some r) l ->
            forall c0 hpre' hpost',
            h = hpre' ++ forest b c0 l ++ hpost' -> c0 = length hpre' ->
            (fix deepest (l : list Tree.record) : nat :=
               match l with
               | [] => 0
               | c :: l' => Nat.max (rdepth c) (deepest l')
               end) l <= f ->
            Forall2 (fun c rc => record_at f h c = Some rc) (child_ids c0 l) l).
  { clear. induction 1 as [|c l Hc _ IHl]; intros c0 hpre' hpost' Hh Hc0 Hdeep;
      [constructor|].
    cbn [child_ids forest] in *. constructor.
    - eapply (Hc f c0 (Some b) hpre' (forest b (c0 + rsize c) l ++ hpost'));
        [rewrite Hh, <- app_assoc; reflexivity|exact Hc0|lia].
    - eapply (IHl (c0 + rsize c) (hpre' ++ layout c0 (Some b) c) hpost').
      + rewrite Hh, <- !app_assoc. reflexivity.
      + rewrite length_app, layout_length. lia.
      + lia. }
  eapply (Hloop chs IH (S b) (hpre ++ [mkNode k p (child_ids (S b) chs)
                                          (child_map [] (S b) chs) properties]) hpost).
  - rewrite Hh, <- !app_assoc. reflexivity.
  - rewrite length_app. cbn [length]. lia.
  - exact Hf.
Qed.

(** [clone] of a subtree whose siblings bear distinct keys succeeds; the
    copy is a new node without parent that reads as the same record (keys,
    property bags and children, in order, at every level), and the nodes
    that were there are as before. *)
Theorem clone_copies_the_subtree (fuel depth : nat) (s : vfs) (a : id)
    (r : Tree.record) :
  record_at depth (nodes s) a = Some r ->
  distinct_siblings r = true ->
  depth <= fuel ->
  exists s' tc,
    Node.clone fuel true a s = Ok (length (nodes s)) s' /\
    keeps (length (nodes s)) s s' /\
    nodes s' !! length (nodes s) = Some tc /\ parent tc = None /\
    record_at depth (nodes s') (length (nodes s)) = Some r /\
    record_at depth (nodes s') a = Some r.
Proof.
  intros Hrec Hd Hfuel. pose proof (record_at_depth _ _ _ _ Hrec) as Hdepth.
  rewrite (clone_layout r fuel depth s a Hrec Hd) by lia.
  destruct r as [k ps chs]. eexists _, _. split; [reflexivity|].
  cbn [nodes set_nodes]. split; [|split; [|split; [|split]]].
  - unfold keeps. cbn. rewrite take_app_length, firstn_all, length_app.
    repeat split; lia.
  - rewrite layout_unfold. apply list_lookup_middle. reflexivity.
  - reflexivity.
  - eapply (record_at_layout _ depth _ None (nodes s) []);
      [rewrite app_nil_r; reflexivity|reflexivity|exact Hdepth].
  - apply record_at_app, Hrec.
Qed.

Lemma clone_copies_the_subtree_witness :
  exists r s' tc,
    record_at 3 (nodes example_fs) 1 = Some r /\
    Node.clone 3 true 1 example_fs = Ok 5 s' /\
    keeps 5 example_fs s' /\
    nodes s' !! 5 = Some tc /\ parent tc = None /\
    record_at 3 (nodes s') 5 = Some r /\
    record_at 3 (nodes s') 1 = Some r.
Proof.
  eexists.
  assert (Hrec : record_at 3 (nodes example_fs) 1 = Some ?[r]) by (vm_compute; reflexivity).
  destruct (clone_copies_the_subtree 3 3 example_fs 1 _ Hrec eq_refl (le_n 3))
    as (s' & tc & H).
  exists s', tc. split; [exact Hrec|exact H].
Defined.


(** ** [cp] *)

Lemma restamp_unfold clock user counter k properties chs :
  restamp clock user counter (Tree.Rec k properties chs) =
  Tree.Rec k (stamp (uid_of clock (S counter)) clock user properties)
    (restamp_all clock user (S counter) chs).
Proof.
  cbn [restamp]. f_equal. generalize (S counter).
  induction chs as [|x l IH]; intros c; [reflexivity|].
  cbn [restamp_all]. rewrite <- IH. reflexivity.
Qed.

Lemma restamp_key clock user counter r : rkey (restamp clock user counter r) = rkey r.
Proof. destruct r. reflexivity. Qed.

Lemma restamp_size clock user : forall r counter,
  rsize (restamp clock user counter r) = rsize r.
Proof.
  induction r as [k properties chs IH] using record_induction. intros counter.
  rewrite restamp_unfold. cbn [rsize]. f_equal. generalize (S counter).
  induction IH as [|x l Hx _ IHl]; intros c; [reflexivity|].
  cbn [restamp_all]. rewrite Hx, IHl. reflexivity.
Qed.

Lemma restamp_depth clock user : forall r counter,
  rdepth (restamp clock user counter r) = rdepth r.
Proof.
  induction r as [k properties chs IH] using record_induction. intros counter.
  rewrite restamp_unfold. cbn [rdepth]. f_equal. generalize (S counter).
  induction IH as [|x l Hx _ IHl]; intros c; [reflexivity|].
  cbn [restamp_all]. rewrite Hx, IHl. reflexivity.
Qed.

Lemma restamp_all_ids clock user : forall l c c0,
  child_ids c0 (restamp_all clock user c l) = child_ids c0 l.
Proof.
  induction l as [|x l IH]; intros c c0; [reflexivity|].
  cbn [restamp_all child_ids]. rewrite restamp_size, IH. reflexivity.
Qed.

Lemma restamp_all_map clock user : forall l c m c0,
  child_map m c0 (restamp_all clock user c l) = child_map m c0 l.
Proof.
  induction l as [|x l IH]; intros c m c0; [reflexivity|].
  cbn [restamp_all child_map]. rewrite restamp_size, restamp_key, IH. reflexivity.
Qed.

Lemma rsizes_rsize k properties chs : rsize (Tree.Rec k properties chs) = S (rsizes chs).
Proof. reflexivity. Qed.

(** [_updateNodeMetadata] on a subtree laid out in the store stamps its
    nodes in document order and touches nothing else. *)
Lemma updateNodeMetadata_layout : forall r n b p (hpre hpost : heap) s,
  nodes s = hpre ++ layout b p r ++ hpost -> b = length hpre ->
  rdepth r <= n ->
  _updateNodeMetadata n b s =
  Ok tt (set_uidCounter (_uidCounter s + rsize r)
           (set_nodes (hpre ++ layout b p (restamp (clock s) (user s) (_uidCounter s) r)
                         ++ hpost) s)).
Proof.
  induction r as [k properties chs IH] using record_induction.
  intros n b p hpre hpost s Hs Hb Hn.
  destruct n as [|n]; [cbn in Hn; lia|].
  cbn [rdepth] in Hn. apply le_S_n in Hn.
  rewrite restamp_unfold, rsizes_rsize, !layout_unfold.
  rewrite layout_unfold in Hs. rewrite restamp_all_ids, restamp_all_map.
  cbn [_updateNodeMetadata].
  assert (Hmod : forall f x (T : heap) s0,
            nodes s0 = hpre ++ x :: T ->
            modify b f s0 = Ok tt (set_nodes (hpre ++ f x :: T) s0)).
  { intros f x T s0 Hs0. unfold modify. rewrite Hs0.
    rewrite (list_lookup_middle hpre T x b) by exact Hb. f_equal. f_equal.
    apply alter_middle. symmetry. exact Hb. }
  step_with ltac:(apply getUid_run).
  step_with ltac:(eapply Hmod; nf; exact Hs).
  step.
  step_with ltac:(eapply Hmod; nf; reflexivity).
  step.
  step_with ltac:(eapply Hmod; nf; reflexivity).
  step_with ltac:(eapply Hmod; nf; reflexivity).
  step_with ltac:(apply deref_ok; nf; apply list_lookup_middle; exact Hb).
  cbn [children set_prop].
  set (node' := set_prop "group" _ _).
  assert (Hloop : forall l, Forall (fun r => forall n b p (hpre hpost : heap) s,
              nodes s = hpre ++ layout b p r ++ hpost -> b = length hpre ->
              rdepth r <= n ->
              _updateNodeMetadata n b s =
              Ok tt (set_uidCounter (_uidCounter s + rsize r)
                       (set_nodes (hpre ++ layout b p
                                     (restamp (clock s) (user s) (_uidCounter s) r)
                                     ++ hpost) s))) l ->
            forall c0 (hpre' hpost' : heap) s0,
            nodes s0 = hpre' ++ forest b c0 l ++ hpost' -> c0 = length hpre' ->
            (fix deepest (l : list Tree.record) : nat :=
               match l with
               | [] => 0
               | c :: l' => Nat.max (rdepth c) (deepest l')
               end) l <= n ->
            (fix each (l : list id) : M unit :=
               match l with
               | [] => ret tt
               | c :: l' => _updateNodeMetadata n c ;;; each l'
               end) (child_ids c0 l) s0 =
            Ok tt (set_uidCounter (_uidCounter s0 + rsizes l)
                     (set_nodes (hpre' ++ forest b c0
                                   (restamp_all (clock s0) (user s0) (_uidCounter s0) l)
                                   ++ hpost') s0))).
  { clear. induction 1 as [|c l Hc _ IHl]; intros c0 hpre' hpost' s0 Hs0 Hc0 Hdeep.
    - cbn [child_ids rsizes restamp_all forest app] in *. unfold ret.
      rewrite Nat.add_0_r, <- Hs0. destruct s0; reflexivity.
    - cbn [child_ids forest restamp_all rsizes] in *.
      unfold bind at 1.
      rewrite (Hc n c0 (Some b) hpre' (forest b (c0 + rsize c) l ++ hpost') s0);
        [|rewrite Hs0, <- app_assoc; reflexivity|exact Hc0|lia].
      rewrite (IHl (c0 + rsize c)
                 (hpre' ++ layout c0 (Some b)
                             (restamp (clock s0) (user s0) (_uidCounter s0) c)) hpost').
      + cbn [nodes set_nodes set_uidCounter _uidCounter clock user].
        rewrite restamp_size, <- !app_assoc, Nat.add_assoc. reflexivity.
      + cbn [nodes set_nodes set_uidCounter]. rewrite <- !app_assoc. reflexivity.
      + rewrite length_app, layout_length, restamp_size. lia.
      + lia. }
  rewrite (Hloop chs IH (S b) (hpre ++ [node']) hpost).
  - cbn [nodes set_nodes set_uidCounter _uidCounter clock user].
    rewrite <- !app_assoc. cbn [app]. 
    replace (S (_uidCounter s) + rsizes chs) with (_uidCounter s + S (rsizes chs)) by lia.
    reflexivity.
  - cbn [nodes set_nodes]. rewrite <- !app_assoc. reflexivity.
  - rewrite length_app. cbn [length]. lia.
  - exact Hn.
Qed.

Lemma inserted_layout (h : heap) (d : id) k properties chs :
  d < length h ->
  inserted d (length h) k (h ++ layout (length h) None (Tree.Rec k properties chs)) =
  alter (add_child (length h) k) d h ++
  layout (length h) (Some d) (Tree.Rec k properties chs).
Proof.
  intros Hd. rewrite !layout_unfold. unfold inserted.
  rewrite (alter_app_l _ h _ d Hd).
  rewrite (alter_app_l _ _ _ d) by (rewrite length_alter; exact Hd).
  rewrite list_alter_alter_eq.
  rewrite alter_middle by (rewrite length_alter; reflexivity).
  reflexivity.
Qed.




(** ** [insert] and [delete] of a node *)

Lemma indexOf_snoc x : forall l, x ∉ l -> indexOf x (l ++ [x]) = Some (length l).
Proof.
  induction l as [|y l IH]; intros H; cbn [app indexOf length].
  - rewrite Nat.eqb_refl. reflexivity.
  - apply not_elem_of_cons in H as [Hne H].
    destruct (Nat.eqb_spec y x) as [->|_]; [contradiction|].
    rewrite (IH H). reflexivity.
Qed.

Lemma splice1_snoc x (l : list id) : splice1 (length l) (l ++ [x]) = l.
Proof.
  unfold splice1. induction l as [|y l IH]; [reflexivity|].
  cbn [length app]. change (base.delete (S (length l)) (y :: l ++ [x]))
    with (y :: base.delete (length l) (l ++ [x])). rewrite IH. reflexivity.
Qed.

Lemma map_delete_set {V} k (v : V) m :
  map_get k m = None -> map_delete k (map_set k v m) = m.
Proof.
  induction m as [|[k' v'] m IH]; cbn.
  - rewrite String.eqb_refl. reflexivity.
  - destruct (String.eqb k k') eqn:E; [discriminate|]. intros H. cbn. rewrite E, IH by exact H.
    reflexivity.
Qed.

(** Deleting the child that was just inserted gives back the state as it
    was: the children array, the name index and the parent link are
    restored. *)
Theorem insert_then_delete (this child : id) (tp tc : TreeNode) (s : vfs) :
  nodes s !! this = Some tp ->
  nodes s !! child = Some tc ->
  parent tc = None ->
  child ∉ children tp ->
  map_has (key tc) (_childrenMap tp) = false ->
  (Node.insert this child ;;; Node.delete this child) s = Ok true s.
Proof.
  intros Hp Hc Hpar Hnew Hfree.
  unfold bind. rewrite (insert_ok this child tp tc s Hp Hc Hfree).
  assert (Hp1 : exists tp1, inserted this child (key tc) (nodes s) !! this = Some tp1 /\
                            children tp1 = children tp ++ [child]).
  { rewrite inserted_at, Hp. cbn. eexists. split; [reflexivity|].
    rewrite insert_at_children. destruct (decide (this = this)); [reflexivity|congruence]. }
  assert (Hc1 : exists tc1, inserted this child (key tc) (nodes s) !! child = Some tc1 /\
                            key tc1 = key tc).
  { rewrite inserted_at, Hc. cbn. eexists. split; [reflexivity|]. apply insert_at_key. }
  destruct Hp1 as (tp1 & Hp1 & Hch1), Hc1 as (tc1 & Hc1 & Hk1).
  rewrite (delete_found this child tp1 tc1 (length (children tp))
             (set_nodes (inserted this child (key tc) (nodes s)) s) Hp1 Hc1)
    by (rewrite Hch1; apply indexOf_snoc, Hnew).
  f_equal. destruct s as [h r c pc mx uc us cl]. unfold set_nodes. cbn in *. f_equal.
  apply list_eq. intros j. rewrite deleted_at, inserted_at, Hk1.
  destruct (h !! j) as [x|] eqn:Hj; [|reflexivity]. cbn. f_equal.
  unfold delete_at, insert_at, add_child.
  destruct (decide (j = child)) as [Ejc|Hjc], (decide (j = this)) as [Ejt|Hjt];
    subst; destruct x as [k p ch m ps]; cbn in *;
    unfold set_parent, set_childrenMap, set_children; cbn.
  - rewrite Hj in Hp, Hc. injection Hp as <-. injection Hc as <-. cbn in *.
    rewrite splice1_snoc, map_delete_set by (apply map_has_false, Hfree).
    rewrite Hpar. reflexivity.
  - rewrite Hj in Hc. injection Hc as <-. cbn in *. rewrite Hpar. reflexivity.
  - rewrite Hj in Hp. injection Hp as <-. cbn in *.
    rewrite splice1_snoc, map_delete_set by (apply map_has_false, Hfree). reflexivity.
  - reflexivity.
Qed.

Lemma insert_then_delete_witness :
  exists s1,
    Node.delete 0 1 example_fs = Ok true s1 /\
    (Node.insert 3 1 ;;; Node.delete 3 1) s1 = Ok true s1.
Proof.
  eexists. split; [vm_compute; reflexivity|].
  eapply insert_then_delete; try reflexivity.
  cbn. apply not_elem_of_nil.
Defined.


(** ** [TreeStructure.insert] under a parent named by a pattern *)

Lemma subtree_build f (h : heap) n t os :
  h !! n = Some t ->
  Forall2 (fun c o => subtree f h c = Some o) (children t) os ->
  subtree (S f) h n = Some (n :: concat os).
Proof.
  intros Ht H. cbn [subtree]. rewrite Ht.
  assert (E : (fix each (l : list id) : option (list id) :=
                 match l with
                 | [] => Some []
                 | c :: l' =>
                     match subtree f h c, each l' with
                     | Some a, Some b => Some (a ++ b)
                     | _, _ => None
                     end
                 end) (children t) = Some (concat os)).
  { induction H as [|c o cs os' Hc _ IH]; [reflexivity|]. rewrite Hc, IH. reflexivity. }
  rewrite E. reflexivity.
Qed.

(** Nodes added behind the store do not change the subtrees in it. *)
Lemma subtree_app f : forall (h ext : heap) n order,
  subtree f h n = Some order -> subtree f (h ++ ext) n = Some order.
Proof.
  induction f as [|f IH]; intros h ext n order H; [discriminate|].
  destruct (subtree_node _ _ _ _ H) as (t & os & Ht & Hos & ->).
  apply (subtree_build f (h ++ ext) n t os); [apply lookup_app_l_Some, Ht|].
  eapply Forall2_impl; [exact Hos|]. intros c o Hc. apply IH, Hc.
Qed.

Lemma subtree_members f : forall (h : heap) n order,
  subtree f h n = Some order -> Forall (fun i => is_Some (h !! i)) order.
Proof.
  induction f as [|f IH]; intros h n order H; [discriminate|].
  destruct (subtree_node _ _ _ _ H) as (t & os & Ht & Hos & ->).
  constructor; [rewrite Ht; eauto|]. clear H Ht.
  induction Hos as [|c o cs os' Hc _ IHos]; [constructor|].
  cbn [concat]. apply Forall_app. split; [eapply IH, Hc|exact IHos].
Qed.

Lemma filter_key_matches_app pattern (h ext : heap) l :
  Forall (fun i => is_Some (h !! i)) l ->
  List.filter (key_matches pattern (h ++ ext)) l = List.filter (key_matches pattern h) l.
Proof.
  intros H. apply List.filter_ext_in. intros i Hi.
  eapply List.Forall_forall in H; [|exact Hi]. destruct H as [t Ht].
  unfold key_matches. rewrite (lookup_app_l_Some _ _ _ _ Ht), Ht. reflexivity.
Qed.

(** A parent named by a pattern is the first node in document order whose
    key passes the test of the pattern: [insert] under the pattern and
    [insert] under that node are the same operation. *)
Theorem insert_under_first_match (fuel : nat) (k pattern : string)
    (properties : list (string * jsval)) (s : vfs) (r m : id) (order rest : list id) :
  truthy_str pattern = true ->
  modelled pattern = true ->
  root s = Some r ->
  subtree fuel (nodes s) r = Some order ->
  List.filter (key_matches pattern (nodes s)) order = m :: rest ->
  Tree.insert fuel k (ByPattern pattern) properties s
    = Tree.insert fuel k (ByNode m) properties s.
Proof.
  intros Hp Hm Hr Hsub Hfirst. unfold Tree.insert.
  destruct (negb (truthy_str k)); [reflexivity|].
  transitivity ((Node.insert m (length (nodes s)) ;;; ret (length (nodes s)))
                  (set_nodes (nodes s ++ [new_TreeNode k properties]) s)).
  - step. step. rewrite Hp. cbn [negb].
    step_with ltac:(unfold Tree.search; step; nf; rewrite Hr, Hp;
                    step_with ltac:(apply (search_subtree pattern Hm fuel _ r order);
                                    nf; apply subtree_app, Hsub);
                    reflexivity).
    rewrite filter_key_matches_app by (eapply subtree_members, Hsub).
    rewrite Hfirst. reflexivity.
  - symmetry. step. step. step. reflexivity.
Qed.

Lemma insert_under_first_match_witness :
  List.filter (key_matches "b" (nodes example_clash)) [0; 1; 2; 3; 5; 4] = [2; 5] /\
  Tree.insert 4 "x" (ByPattern "b") [] example_clash
    = Tree.insert 4 "x" (ByNode 2) [] example_clash.
Proof.
  assert (H : List.filter (key_matches "b" (nodes example_clash)) [0; 1; 2; 3; 5; 4]
              = [2; 5]) by reflexivity.
  split; [exact H|].
  exact (insert_under_first_match 4 "x" "b" [] example_clash 0 2 [0; 1; 2; 3; 5; 4] [5]
           eq_refl eq_refl eq_refl eq_refl H).
Defined.


(** ** The validator *)

Lemma existsb_eqb_false (x : id) l : x ∉ l -> existsb (Nat.eqb x) l = false.
Proof.
  induction l as [|y l IH]; intros H; [reflexivity|]. cbn.
  apply not_elem_of_cons in H as [Hne H].
  rewrite (IH H), orb_false_r. apply Nat.eqb_neq. exact Hne.
Qed.

Lemma existsb_eqb_true (x : id) l : x ∈ l -> existsb (Nat.eqb x) l = true.
Proof.
  induction l as [|y l IH]; intros H; [inversion H|]. cbn.
  apply elem_of_cons in H as [->|H]; [rewrite Nat.eqb_refl; reflexivity|].
  rewrite (IH H). apply orb_true_r.
Qed.

(** On a subtree of a consistent store whose nodes are new to the
    validator and bear a key, [validateNode] finds nothing to complain
    about and marks the nodes in document order. *)
Lemma validateNode_subtree (s : vfs) : consistent s ->
  forall d n order f path issues visited,
  subtree d (nodes s) n = Some order -> d <= f ->
  NoDup (visited ++ order) ->
  Forall (fun i => truthy_str (key_of (nodes s) i) = true) order ->
  validateNode f n path (issues, visited) s = Ok (issues, visited ++ order) s.
Proof.
  intros (_ & _ & Hchild & Hlisted).
  induction d as [|d IH]; intros n order f path issues visited Hsub Hf Hnd Hkeys;
    [discriminate|].
  destruct (subtree_node _ _ _ _ Hsub) as (t & os & Ht & Hos & ->).
  destruct f as [|f]; [lia|]. apply le_S_n in Hf.
  cbn [validateNode fst snd].
  assert (Hnew : n ∉ visited).
  { apply NoDup_app in Hnd as (_ & Hdisj & _). intros Hin.
    apply (Hdisj n Hin). constructor. }
  rewrite (existsb_eqb_false _ _ Hnew).
  unfold bind at 1. rewrite (deref_ok _ _ _ Ht).
  apply Forall_cons in Hkeys as [Hkey Hkeys].
  unfold key_of in Hkey. rewrite Ht in Hkey. rewrite Hkey.
  assert (Hpar : match parent t with
                 | Some p =>
                     tp <- deref p ;;
                     ret (if existsb (Nat.eqb n) (children tp) then issues
                          else issues ++ ["Orphaned node: " +:+ path])
                 | None => ret issues
                 end s = Ok issues s).
  { destruct (parent t) as [p|] eqn:Hp; [|reflexivity].
    destruct (Hlisted n t p Ht Hp) as (tp & Htp & Hin).
    unfold bind. rewrite (deref_ok _ _ _ Htp), (existsb_eqb_true _ _ Hin). reflexivity. }
  unfold bind at 1. rewrite Hpar.
  assert (Hall : forall c, c ∈ children t ->
            exists tc, nodes s !! c = Some tc /\ parent tc = Some n)
    by (intros c Hc; apply (Hchild n t c Ht Hc)).
  replace (visited ++ n :: concat os) with ((visited ++ [n]) ++ concat os)
    by (rewrite <- app_assoc; reflexivity).
  replace (visited ++ n :: concat os) with ((visited ++ [n]) ++ concat os) in Hnd
    by (rewrite <- app_assoc; reflexivity).
  assert (Hloop : forall cs os, 
            Forall2 (fun c o => subtree d (nodes s) c = Some o) cs os ->
            forall seen,
            NoDup (seen ++ concat os) ->
            Forall (fun i => truthy_str (key_of (nodes s) i) = true) (concat os) ->
            (forall c, c ∈ cs -> exists tc, nodes s !! c = Some tc /\ parent tc = Some n) ->
            (fix each (l : list id) (acc : list string * list id)
                 : M (list string * list id) :=
               match l with
               | [] => ret acc
               | child :: l' =>
                   tc <- deref child ;;
                   let issues3 :=
                     if decide (parent tc = Some n) then fst acc
                     else fst acc ++
                          ["Invalid parent reference at " +:+ path +:+ "/" +:+ key tc] in
                   acc' <- validateNode f child (path +:+ "/" +:+ key tc)
                             (issues3, snd acc) ;;
                   each l' acc'
               end) cs (issues, seen) s = Ok (issues, seen ++ concat os) s).
  { clear - IH Hf. induction 1 as [|c o cs os' Hc _ IHos]; intros seen Hnd Hkeys Hall.
    - cbn [concat]. rewrite app_nil_r. reflexivity.
    - destruct (Hall c) as (tc & Htc & Hptc); [constructor|].
      unfold bind at 1. rewrite (deref_ok _ _ _ Htc). cbn [fst snd].
      destruct (decide (parent tc = Some n)); [|contradiction].
      cbn [concat] in *. apply Forall_app in Hkeys as [Hko Hkeys].
      rewrite app_assoc in Hnd.
      unfold bind at 1.
      rewrite (IH c o f _ issues seen Hc Hf);
        [|apply NoDup_app in Hnd as (Hnd1 & _ & _); exact Hnd1|exact Hko].
      rewrite (IHos (seen ++ o)); [rewrite <- app_assoc; reflexivity|exact Hnd|exact Hkeys|].
      intros c' Hc'. apply Hall. constructor. exact Hc'. }
  apply (Hloop (children t) os Hos (visited ++ [n]) Hnd Hkeys Hall).
Qed.

(** On a consistent store whose tree is finite, without a node reached
    twice, and in which every node bears a key, the validator finds no
    issue; it changes nothing. *)
Theorem validator_accepts_consistent_tree (fuel depth : nat) (s : vfs) (r : id)
    (order : list id) :
  consistent s ->
  root s = Some r ->
  subtree depth (nodes s) r = Some order ->
  NoDup order ->
  Forall (fun i => truthy_str (key_of (nodes s) i) = true) order ->
  depth <= fuel ->
  validateFilesystem fuel s = Ok (mkValidation true []) s.
Proof.
  intros Hwf Hr Hsub Hnd Hkeys Hfuel. unfold validateFilesystem.
  unfold bind at 1, get_state. rewrite Hr. unfold bind.
  rewrite (validateNode_subtree s Hwf depth r order fuel "" [] [] Hsub Hfuel Hnd Hkeys).
  reflexivity.
Qed.

Lemma validator_accepts_consistent_tree_witness :
  consistent example_fs /\
  validateFilesystem 3 example_fs = Ok (mkValidation true []) example_fs.
Proof.
  split; [exact example_fs_well_formed|].
  apply (validator_accepts_consistent_tree 3 3 example_fs 0 [0; 1; 2; 3; 4]
           example_fs_well_formed eq_refl eq_refl).
  - repeat (apply NoDup_cons; split; [intros H; repeat (apply elem_of_cons in H as [H|H];
      [discriminate|]); inversion H|]). apply NoDup_nil. exact I.
  - repeat constructor.
  - apply le_n.
Defined.


(** ** [rm] *)

(** [rm] of a path that resolves to a file with a parent, in a consistent
    store, succeeds and detaches exactly that file: the file has no parent
    any more, it is gone from the children and from the name index of its
    former parent, which keeps every other child and entry, and every other
    node, the root and the current directory are as before; the cache has
    no entry under the path. *)
Theorem rm_detaches_the_file (fuel : nat) (path : string) (s s1 : vfs) (n p : id)
    (tn : TreeNode) :
  consistent s ->
  truthy_str path = true ->
  _resolve_path fuel (strip_trailing_slashes path) s = Ok (Some n) s1 ->
  nodes s !! n = Some tn ->
  is_str (prop "type" tn) "file" = true ->
  parent tn = Some p ->
  Some n <> root s ->
  exists s' tp tp' tn',
    rm fuel path s = Ok tt s' /\
    nodes s !! p = Some tp /\ nodes s' !! p = Some tp' /\
    nodes s' !! n = Some tn' /\ parent tn' = None /\
    (forall y, y ∈ children tp' <-> y ∈ children tp /\ y <> n) /\
    (forall k, map_get k (_childrenMap tp')
               = if String.eqb k (key tn) then None else map_get k (_childrenMap tp)) /\
    (forall j, j <> p -> j <> n -> nodes s' !! j = nodes s !! j) /\
    root s' = root s /\ cwd s' = cwd s /\
    map_get path (_pathCache s') = None.
Proof.
  intros Hwf Hpath Hres Hn Hfile Hpar Hroot.
  pose proof Hwf as (Hnd & _ & _ & Hlisted).
  destruct (Hlisted n tn p Hn Hpar) as (tp & Hp & Hin).
  destruct (elem_indexOf _ _ Hin) as (i & Hi).
  pose proof (read_only_resolve_path fuel (strip_trailing_slashes path) s) as Hro.
  rewrite Hres in Hro. destruct Hro as (Hn1 & Hr1 & Hc1 & _).
  set (h' := deleted p n (key tn) i (nodes s)).
  assert (Hrun : rm fuel path s
                 = Ok tt (set_cache
                            (invalidate_parents (length (js_split slash path) - 1)
                               (js_split slash path) (map_delete path (_pathCache s1)))
                            (set_nodes h' s1))).
  { unfold rm. rewrite Hpath. cbn [negb].
    step_with ltac:(exact Hres). step.
    step_with ltac:(apply deref_ok; rewrite Hn1; exact Hn).
    rewrite Hfile. cbn [negb].
    assert (Hdel : Tree.delete fuel (Tree.RefNode n) s1
                     = Ok true (set_nodes h' s1)).
    { unfold Tree.delete. step.
      step_with ltac:(lazy beta iota fix; step;
                      destruct (decide (Some n = root s1)) as [E|_];
                      [rewrite Hr1 in E; contradiction|];
                      step_with ltac:(apply deref_ok; rewrite Hn1; exact Hn);
                      rewrite Hpar;
                      step_with ltac:(apply (delete_found p n tp tn i s1);
                                      [rewrite Hn1; exact Hp|rewrite Hn1; exact Hn|exact Hi]);
                      reflexivity).
      rewrite Hn1. reflexivity. }
    step_with ltac:(exact Hdel).
    rewrite invalidate_run. reflexivity. }
  assert (Hp' : h' !! p = Some (delete_at p n (key tn) i p tp))
    by (unfold h'; rewrite deleted_at, Hp; reflexivity).
  assert (Hn' : h' !! n = Some (delete_at p n (key tn) i n tn))
    by (unfold h'; rewrite deleted_at, Hn; reflexivity).
  eexists _, tp, _, _. split; [exact Hrun|]. cbn [nodes root cwd _pathCache set_cache set_nodes].
  split; [exact Hp|]. split; [exact Hp'|]. split; [exact Hn'|].
  split; [|split; [|split; [|split; [|split; [|split]]]]].
  - rewrite delete_at_parent. destruct (decide (n = n)); [reflexivity|congruence].
  - intros y. rewrite delete_at_children. destruct (decide (p = p)); [|congruence].
    apply (splice1_elem n (children tp) i y Hi). eapply Hnd, Hp.
  - intros k. rewrite delete_at_map. destruct (decide (p = p)); [|congruence].
    apply map_get_delete.
  - intros j Hjp Hjn. unfold h'. rewrite deleted_at.
    destruct (nodes s !! j) as [x|]; [|reflexivity]. cbn. f_equal.
    unfold delete_at. destruct (decide (j = n)), (decide (j = p)); congruence.
  - exact Hr1.
  - exact Hc1.
  - rewrite invalidate_parents_get, map_get_delete, String.eqb_refl.
    destruct (existsb _ _); reflexivity.
Qed.

Lemma rm_detaches_the_file_witness :
  consistent example_fs /\
  exists s' tp tp' tn',
    rm 8 "/f" example_fs = Ok tt s' /\
    nodes example_fs !! 0 = Some tp /\ nodes s' !! 0 = Some tp' /\
    nodes s' !! 4 = Some tn' /\ parent tn' = None /\
    (forall y, y ∈ children tp' <-> y ∈ children tp /\ y <> 4) /\
    (forall k, map_get k (_childrenMap tp')
               = if String.eqb k "f" then None else map_get k (_childrenMap tp)) /\
    (forall j, j <> 0 -> j <> 4 -> nodes s' !! j = nodes example_fs !! j) /\
    root s' = root example_fs /\ cwd s' = cwd example_fs /\
    map_get "/f" (_pathCache s') = None.
Proof.
  split; [exact example_fs_well_formed|].
  refine (rm_detaches_the_file 8 "/f" example_fs (set_cache [("/f", Some 4)] example_fs)
            4 0 _ example_fs_well_formed eq_refl eq_refl eq_refl eq_refl eq_refl _).
  discriminate.
Defined.


(** ** The [size] command and [getStats] *)

Lemma file_not_dir v : is_str v "file" = true -> is_str v "dir" = false.
Proof.
  destruct v; try discriminate. cbn. intros H. apply String.eqb_eq in H. subst.
  reflexivity.
Qed.

Lemma calculateSize_subtree (s : vfs) : forall d n order f,
  subtree d (nodes s) n = Some order -> d <= f ->
  Forall (fun i => tidy (nodes s) i = true) order ->
  Forall (fun i => sized (nodes s) i = true) order ->
  _calculateSize f n s = Ok (list_sum (List.map (file_size (nodes s)) order)) s.
Proof.
  induction d as [|d IH]; intros n order f Hsub Hf Htidy Hsized; [discriminate|].
  destruct (subtree_node _ _ _ _ Hsub) as (t & os & Ht & Hos & ->).
  destruct f as [|f]; [lia|]. apply le_S_n in Hf.
  apply Forall_cons in Htidy as [Hn Htidy]. apply Forall_cons in Hsized as [Hsn Hsized].
  cbn [_calculateSize]. unfold bind at 1. rewrite (deref_ok _ _ _ Ht).
  cbn [List.map list_sum fold_right].
  unfold tidy, has_type, is_leaf, sized in Hn, Hsn. rewrite Ht in Hn, Hsn.
  unfold file_size at 1. rewrite Ht.
  destruct (is_str (prop "type" t) "file") eqn:Hfile.
  - rewrite (file_not_dir _ Hfile) in Hn. cbn [orb andb] in Hn.
    apply Nat.eqb_eq in Hn. destruct (children t); [|discriminate].
    inversion Hos. subst os. cbn [concat List.map fold_right]. cbn [negb orb] in Hsn.
    unfold size_or_zero, ret.
    destruct (prop "size" t) as [| |[]|[]|[]| |]; cbn in Hsn |- *;
      try discriminate; rewrite ?Nat.add_0_r; reflexivity.
  - assert (Hloop : forall cs os acc,
              Forall2 (fun c o => subtree d (nodes s) c = Some o) cs os ->
              Forall (fun i => tidy (nodes s) i = true) (concat os) ->
              Forall (fun i => sized (nodes s) i = true) (concat os) ->
              (fix each (l : list id) (totalSize : nat) : M nat :=
                 match l with
                 | [] => ret totalSize
                 | child :: l' =>
                     n <- _calculateSize f child ;;
                     each l' (totalSize + n)
                 end) cs acc s
              = Ok (acc + list_sum (List.map (file_size (nodes s)) (concat os))) s).
    { clear - IH Hf. intros cs os acc H. revert acc.
      induction H as [|c o cs os' Hc _ IHos]; intros acc Ht Hs.
      - cbn. rewrite Nat.add_0_r. reflexivity.
      - cbn [concat] in *. apply Forall_app in Ht as [Hto Ht].
        apply Forall_app in Hs as [Hso Hs].
        unfold bind at 1. rewrite (IH c o f Hc Hf Hto Hso).
        rewrite (IHos _ Ht Hs). rewrite List.map_app.
        unfold list_sum. rewrite fold_right_app.
        f_equal. fold (list_sum (List.map (file_size (nodes s)) (concat os'))).
        generalize (list_sum (List.map (file_size (nodes s)) (concat os'))) as z.
        intros z. induction (List.map (file_size (nodes s)) o) as [|x l IHl]; cbn; lia. }
    rewrite (Hloop (children t) os 0 Hos Htidy Hsized). reflexivity.
Qed.

Lemma countFiles_subtree (s : vfs) : forall d n rest f,
  subtree d (nodes s) n = Some (n :: rest) -> d <= f ->
  Forall (fun i => tidy (nodes s) i = true) rest ->
  _countFiles f n s
    = Ok (length (List.filter (has_type "file" (nodes s)) rest),
          length (List.filter (has_type "dir" (nodes s)) rest)) s.
Proof.
  induction d as [|d IH]; intros n rest f Hsub Hf Htidy; [discriminate|].
  destruct (subtree_node _ _ _ _ Hsub) as (t & os & Ht & Hos & E).
  injection E as ->.
  destruct f as [|f]; [lia|]. apply le_S_n in Hf.
  cbn [_countFiles]. unfold bind at 1. rewrite (deref_ok _ _ _ Ht).
  assert (Hloop : forall cs os files dirs,
            Forall2 (fun c o => subtree d (nodes s) c = Some o) cs os ->
            Forall (fun i => tidy (nodes s) i = true) (concat os) ->
            (fix each (l : list id) (files dirs : nat) : M (nat * nat) :=
               match l with
               | [] => ret (files, dirs)
               | child :: l' =>
                   tc <- deref child ;;
                   if is_str (prop "type" tc) "dir" then
                     subCount <- _countFiles f child ;;
                     each l' (files + fst subCount) (S dirs + snd subCount)
                   else each l' (S files) dirs
               end) cs files dirs s
            = Ok (files + length (List.filter (has_type "file" (nodes s)) (concat os)),
                  dirs + length (List.filter (has_type "dir" (nodes s)) (concat os))) s).
  { clear - IH Hf. intros cs os files dirs H. revert files dirs.
    induction H as [|c o cs os' Hc _ IHos]; intros files dirs Ht.
    - cbn. rewrite !Nat.add_0_r. reflexivity.
    - cbn [concat] in *. apply Forall_app in Ht as [Hto Ht].
      destruct d as [|d']; [discriminate|].
      destruct (subtree_node _ _ _ _ Hc) as (tc & osc & Htc & Hosc & ->).
      apply Forall_cons in Hto as [Hc0 Hto].
      unfold bind at 1. rewrite (deref_ok _ _ _ Htc).
      assert (Ehas : forall ty, has_type ty (nodes s) c = is_str (prop "type" tc) ty)
        by (intros ty; unfold has_type; rewrite Htc; reflexivity).
      rewrite !List.filter_app, !length_app. cbn [List.filter].
      unfold tidy, is_leaf in Hc0. rewrite !Ehas, Htc in Hc0. rewrite !Ehas.
      destruct (is_str (prop "type" tc) "dir") eqn:Hdir.
      + assert (Hnf : is_str (prop "type" tc) "file" = false).
        { destruct (is_str (prop "type" tc) "file") eqn:E; [|reflexivity].
          apply file_not_dir in E. congruence. }
        rewrite Hnf. unfold bind at 1.
        rewrite (IH c (concat osc) f Hc Hf Hto). cbn [fst snd].
        rewrite (IHos _ _ Ht). cbn [length]. unfold ret.
        apply f_equal2; [apply pair_equal_spec; split; lia|reflexivity].
      + cbn [orb] in Hc0. apply andb_true_iff in Hc0 as [Hfile Hleaf].
        rewrite Hfile. apply Nat.eqb_eq in Hleaf.
        destruct (children tc); [|discriminate]. inversion Hosc. subst osc.
        rewrite (IHos _ _ Ht). cbn [concat List.filter length]. unfold ret.
        apply f_equal2; [apply pair_equal_spec; split; lia|reflexivity]. }
  apply (Hloop (children t) os 0 0 Hos Htidy).
Qed.




(** ** [cd], then [ls] *)

(** After [cd] into a directory, [ls] without a path lists what [ls] of
    that path listed before: the same nodes in the same order, under the
    same options. *)
Theorem cd_then_ls (fuel : nat) (le : string -> string -> bool) (path : string)
    (options : ls_options) (s s1 s2 : vfs) (l : list id) (n : option id) :
  ls fuel le path options s = Ok l s1 ->
  cd fuel path s = Ok n s2 ->
  ls fuel le "" options s2 = Ok l s2 /\ cwd s2 = n.
Proof.
  intros Hls Hcd. unfold cd in Hcd.
  destruct (truthy_str path) eqn:Hpath; [|discriminate]. cbn [negb] in Hcd.
  unfold ls in Hls. rewrite Hpath in Hls.
  unfold bind at 1 in Hls. unfold bind at 1 in Hcd.
  destruct (_resolve_path fuel path s) as [node s0|e s0|x]; [|discriminate|discriminate].
  destruct node as [m|]; [|discriminate]. cbn [nonnull] in Hls, Hcd.
  unfold bind at 1, ret in Hls. unfold bind at 1, ret in Hcd.
  unfold bind at 1, deref in Hls. unfold bind at 1, deref in Hcd.
  destruct (nodes s0 !! m) as [t|] eqn:Ht; [|discriminate].
  destruct (is_str (prop "type" t) "dir") eqn:Hdir; [|discriminate].
  cbn [negb] in Hls, Hcd. unfold bind, assign_cwd, ret in Hcd.
  injection Hcd as <- <-. split; [|reflexivity].
  unfold bind at 1, get_state, ret in Hls. injection Hls as <- <-.
  unfold ls. cbn [truthy_str String.eqb negb].
  unfold bind at 1. unfold bind at 1, get_state, ret. cbn [cwd set_cwd nonnull].
  unfold bind at 1, ret. unfold bind at 1, deref. cbn [nodes set_cwd].
  rewrite Ht, Hdir. cbn [negb]. unfold bind, get_state, ret. cbn [nodes set_cwd].
  reflexivity.
Qed.

Lemma cd_then_ls_witness :
  exists s1 s2,
    ls 8 String.leb "/a" (mkLs true false false false) example_fs = Ok [2] s1 /\
    cd 8 "/a" example_fs = Ok (Some 1) s2 /\
    ls 8 String.leb "" (mkLs true false false false) s2 = Ok [2] s2 /\
    cwd s2 = Some 1.
Proof.
  eexists _, _.
  assert (H1 : ls 8 String.leb "/a" (mkLs true false false false) example_fs
               = Ok [2] ?[s1]) by (vm_compute; reflexivity).
  assert (H2 : cd 8 "/a" example_fs = Ok (Some 1) ?[s2]) by (vm_compute; reflexivity).
  split; [exact H1|]. split; [exact H2|].
  exact (cd_then_ls 8 String.leb "/a" (mkLs true false false false) example_fs _ _
           [2] (Some 1) H1 H2).
Defined.


(** ** [mkdir] keeps what was there *)

Lemma mkdir_loop_grows segs : forall current s s',
  mkdir_loop current segs s = Ok tt s' ->
  grows s s' /\ cwd s' = cwd s /\ _pathCache s' = _pathCache s.
Proof.
  induction segs as [|seg rest IH]; intros current s s' H.
  { injection H as <-. split; [apply grows_refl|split; reflexivity]. }
  destruct current as [c|]; [|discriminate].
  destruct (nodes s !! c) as [nc|] eqn:Hc.
  2: { cbn [mkdir_loop] in H. unfold bind at 1 in H. cbn [nonnull ret] in H.
       unfold bind at 1, Node.findChild at 1, bind at 1, deref at 1 in H.
       rewrite Hc in H. discriminate. }
  destruct (map_get seg (_childrenMap nc)) as [e|] eqn:He.
  - rewrite (mkdir_loop_found c nc seg e rest s Hc He) in H.
    unfold bind at 1, deref in H.
    destruct (nodes s !! e) as [te|]; [|discriminate].
    destruct (is_str (prop "type" te) "dir"); [|discriminate].
    apply (IH _ _ _ H).
  - rewrite (mkdir_loop_create c nc seg rest s Hc He) in H.
    destruct (IH _ _ _ H) as (Hg & Hcwd & Hcache).
    split; [|split; [exact Hcwd|exact Hcache]].
    eapply grows_trans; [|exact Hg].
    split; [reflexivity|]. intros j x Hj. cbn [nodes set_nodes set_uidCounter].
    pose proof (lookup_lt_Some _ _ _ Hj) as Hlt.
    rewrite inserted_at, (lookup_old _ _ _ _ Hj). cbn. eexists. split; [reflexivity|].
    rewrite insert_at_key, insert_at_parent, insert_at_map.
    split; [reflexivity|]. split; [destruct (decide _); [lia|reflexivity]|].
    intros k x0 Hk. destruct (decide (j = c)) as [->|_]; [|exact Hk].
    rewrite Hj in Hc. injection Hc as ->.
    rewrite map_get_set. destruct (String.eqb_spec k seg) as [->|_]; [congruence|exact Hk].
Qed.

(** [mkdir] never breaks an existing path: with a valid cache, a path that
    resolved to a node before a successful [mkdir] resolves to the same node
    after it. *)
Theorem mkdir_keeps_resolutions (fuel : nat) (q path : string) (s s1 s2 : vfs)
    (n : id) :
  cache_valid s ->
  _resolve_path fuel q s = Ok (Some n) s1 ->
  mkdir path s1 = Ok tt s2 ->
  exists s3, _resolve_path fuel q s2 = Ok (Some n) s3 /\ nodes s3 = nodes s2.
Proof.
  intros Hvalid Hres Hmk.
  pose proof (read_only_resolve_path fuel q s) as Hro. rewrite Hres in Hro.
  assert (Hg1 : grows s s1) by (apply same_tree_grows, Hro).
  destruct Hro as (_ & _ & Hc1 & _).
  unfold mkdir in Hmk. destruct (negb (truthy_str path)); [discriminate|].
  unfold bind at 1, get_state in Hmk. unfold bind at 1 in Hmk.
  destruct (mkdir_loop _ _ s1) as [[] s'|e s'|x] eqn:Hloop; [|discriminate|discriminate].
  destruct (mkdir_loop_grows _ _ _ _ Hloop) as (Hg & Hcwd & Hcache).
  rewrite invalidate_run in Hmk. injection Hmk as <-.
  apply (resolve_path_stable fuel q s s1 _ n Hvalid Hres).
  - eapply grows_trans; [exact Hg1|]. eapply grows_trans; [exact Hg|].
    apply same_tree_grows, same_tree_set_cache.
  - cbn [cwd set_cache]. congruence.
  - intros k v Hk. cbn [_pathCache set_cache] in Hk.
    apply invalidate_sub in Hk. rewrite Hcache in Hk. exact Hk.
Qed.

Lemma mkdir_keeps_resolutions_witness :
  exists s1 s2 s3,
    _resolve_path 8 "/a/b" example_fs = Ok (Some 2) s1 /\
    mkdir "/a/b/c/d" s1 = Ok tt s2 /\
    _resolve_path 8 "/a/b" s2 = Ok (Some 2) s3 /\ nodes s3 = nodes s2.
Proof.
  eexists _, _.
  assert (H1 : _resolve_path 8 "/a/b" example_fs = Ok (Some 2) ?[s1])
    by (vm_compute; reflexivity).
  match type of H1 with
  | _ = Ok _ ?x =>
      assert (H2 : mkdir "/a/b/c/d" x = Ok tt ?[s2]) by (vm_compute; reflexivity)
  end.
  destruct (mkdir_keeps_resolutions 8 "/a/b" "/a/b/c/d" example_fs _ _ 2
              example_fs_cache_valid H1 H2) as (s3 & H3 & H4).
  exists s3. split; [exact H1|]. split; [exact H2|]. split; [exact H3|exact H4].
Defined.
